(** * Block-cipher modes of operation and the CTR counter

    A shallow embedding of [block_template.c] (the generic mode engine:
    ECB, CBC, CFB, PGP, OFB, CTR) and of [_counter.c] (the fixed-width
    counter that drives CTR mode), with the properties of the
    specification stated and proved over it.

    Conventions of the embedding:
    - an [unsigned char] is a [byte]; a C buffer is a [list byte];
    - a C [int] / [Py_ssize_t] is a [Z]; [%] is [Z.rem] and [/] is [Z.quot];
    - a pointer into a buffer is the buffer together with an offset;
    - a method that mutates [self] returns the new [self] next to its
      result; a call that sets a Python exception returns [Raise];
    - a Python [bytes] object is the list of its bytes and a Python [str]
      the list of its code points; arguments have the types the format
      strings of [PyArg_ParseTuple] ask for, and [malloc] succeeds;
    - an engine holds the state of its counter source: two engines built
      from the same counter value are two engines whose counters start in
      the same state. *)

From Stdlib Require Import ZArith List Bool Lia.
From coqutil Require Import Byte.
Import ListNotations.
Local Open Scope Z_scope.

(** ** Results of calls into the host runtime *)

(** The exceptions the two files set, one constructor per message. *)
Inductive PyErr : Type :=
| OverflowError_counter_wrapped      (* "counter wrapped without allow_wraparound" *)
| ValueError_initval_too_small       (* "initval length too small (must be >= 1 byte)" *)
| ValueError_initval_too_large       (* "initval length too large (must be <= 65535 bytes)" *)
| ValueError_prefix_too_large        (* "prefix length too large (must be <= 65535 bytes)" *)
| ValueError_suffix_too_large        (* "suffix length too large (must be <= 65535 bytes)" *)
| ValueError_key_length              (* "Key must be %i bytes long, not %i" *)
| ValueError_key_null                (* "Key cannot be the null string" *)
| ValueError_iv_length               (* "IV must be %i bytes long" *)
| ValueError_unknown_mode            (* "Unknown cipher feedback mode %i" *)
| ValueError_segment_size            (* "segment_size must be multiple of 8 (bits) between 1 and %i" *)
| TypeError_counter_required         (* "'counter' keyword parameter is required with CTR mode" *)
| ValueError_counter_not_callable    (* "'counter' parameter must be a callable object" *)
| ValueError_counter_only_ctr        (* "'counter' parameter only useful with CTR mode" *)
| Error_block_init                   (* whatever block_init set *)
| ValueError_block_multiple          (* "Input strings must be a multiple of %i in length" *)
| ValueError_segment_multiple        (* "Input strings must be a multiple of the segment size %i in length" *)
| TypeError_ctr_not_string           (* "CTR counter function didn't return a string" *)
| TypeError_ctr_length               (* "CTR counter function returned string not of length %i" *)
| UnicodeDecodeError_utf8            (* [PyUnicode_FromStringAndSize] on bytes that are not UTF-8 *)
| UnicodeEncodeError_ascii           (* [PyUnicode_AsASCIIString] on a string that is not ASCII *)
| TypeError_not_callable             (* calling an object that is not callable *)
| Error_in_callable                  (* an exception raised inside a user-supplied callable *)
| SystemError_unknown_mode           (* "Unknown ciphertext feedback mode %i; this shouldn't happen" *)
| SystemError_sync                   (* "sync() operation not defined for this feedback mode" *)
| ValueError_decrypt_disabled.       (* "decrypt function not enabled." *)

Inductive PyResult (A : Type) : Type :=
| Ok (a : A)
| Raise (e : PyErr).
Arguments Ok {A} a.
Arguments Raise {A} e.

(** C truth value of an [int]. *)
Definition truthy (z : Z) : bool := negb (z =? 0).

(** ** Byte buffers *)

Definition zero_byte : byte := byte.of_Z 0.

(** [buf[off]] *)
Definition load (buf : list byte) (off : nat) : byte := nth off buf zero_byte.

(** [buf[off] = b] *)
Fixpoint store (buf : list byte) (off : nat) (b : byte) : list byte :=
  match buf, off with
  | [], _ => []
  | _ :: r, O => b :: r
  | x :: r, S off' => x :: store r off' b
  end.

(** The [n] bytes at [buf + off]. *)
Definition sub (buf : list byte) (off n : Z) : list byte :=
  firstn (Z.to_nat n) (skipn (Z.to_nat off) buf).

(** [memcpy(dst + off, src, n)] (also [memmove]: [src] is a value here). *)
Definition memcpy (dst : list byte) (off : Z) (src : list byte) (n : Z) : list byte :=
  firstn (Z.to_nat off) dst ++ firstn (Z.to_nat n) src
    ++ skipn (Z.to_nat off + Z.to_nat n) dst.

(** [memset(p, 0, n)] on a fresh array of [n] bytes. *)
Definition zeros (n : Z) : list byte := repeat zero_byte (Z.to_nat n).

(** Bytewise [a[j] ^ b[j]] for every [j] below both lengths. *)
Fixpoint xor_bytes (a b : list byte) : list byte :=
  match a, b with
  | x :: a', y :: b' => byte.xor x y :: xor_bytes a' b'
  | _, _ => []
  end.

(** ** Python strings *)

(** A Python [str], as the list of its code points.  The two conversions
    below are functions of the C API of the host runtime, which is not
    among the sources: they follow its documentation. *)
Definition PyUnicode : Type := list Z.

Definition between (lo hi : Z) (b : byte) : bool :=
  (lo <=? byte.unsigned b) && (byte.unsigned b <=? hi).

(** The strict UTF-8 decoder: it accepts the well-formed sequences of one
    to four bytes (no overlong form, no surrogate, nothing above
    U+10FFFF) and nothing else. *)
Fixpoint utf8_decode (s : list byte) : option PyUnicode :=
  match s with
  | [] => Some []
  | b0 :: r =>
      let c0 := byte.unsigned b0 in
      if c0 <? 0x80 then option_map (cons c0) (utf8_decode r)
      else if between 0xC2 0xDF b0 then
        match r with
        | b1 :: r1 =>
            if between 0x80 0xBF b1
            then option_map (cons ((c0 - 0xC0) * 64 + (byte.unsigned b1 - 0x80)))
                            (utf8_decode r1)
            else None
        | _ => None
        end
      else if between 0xE0 0xEF b0 then
        match r with
        | b1 :: b2 :: r2 =>
            if between (if c0 =? 0xE0 then 0xA0 else 0x80)
                       (if c0 =? 0xED then 0x9F else 0xBF) b1
               && between 0x80 0xBF b2
            then option_map (cons ((c0 - 0xE0) * 4096 + (byte.unsigned b1 - 0x80) * 64
                                   + (byte.unsigned b2 - 0x80)))
                            (utf8_decode r2)
            else None
        | _ => None
        end
      else if between 0xF0 0xF4 b0 then
        match r with
        | b1 :: b2 :: b3 :: r3 =>
            if between (if c0 =? 0xF0 then 0x90 else 0x80)
                       (if c0 =? 0xF4 then 0x8F else 0xBF) b1
               && between 0x80 0xBF b2 && between 0x80 0xBF b3
            then option_map (cons ((c0 - 0xF0) * 262144 + (byte.unsigned b1 - 0x80) * 4096
                                   + (byte.unsigned b2 - 0x80) * 64
                                   + (byte.unsigned b3 - 0x80)))
                            (utf8_decode r3)
            else None
        | _ => None
        end
      else None
  end.

(** [PyUnicode_FromStringAndSize(s, n)], [s] being the [n] bytes: the
    string they encode in UTF-8, or [UnicodeDecodeError]. *)
Definition PyUnicode_FromStringAndSize (s : list byte) : PyResult PyUnicode :=
  match utf8_decode s with
  | Some u => Ok u
  | None => Raise UnicodeDecodeError_utf8
  end.

(** [PyUnicode_AsASCIIString(u)]: the bytes of a string whose code points
    are all below 128; [NULL], here [None], for any other string. *)
Definition PyUnicode_AsASCIIString (u : PyUnicode) : option (list byte) :=
  if forallb (fun c => (0 <=? c) && (c <? 0x80)) u
  then Some (map byte.of_Z u)
  else None.

(** ** The counter ([_counter.c]) *)

Module Counter.

(** [inc_func] is one of two functions; the constructor names which. *)
Inductive inc_kind : Type := LittleEndian | BigEndian.

(** [PCT_CounterObject] (declared in [_counter.h]; the fields are those
    the code uses).  [val] is the whole buffer, [buf_size] bytes long when
    built by [CounterObject_init], and [p] the offset of the counter field
    inside it ([self->p - self->val]). *)
Record PCT_CounterObject : Type := mkCounter {
  prefix : list byte;
  suffix : list byte;
  val : list byte;
  buf_size : Z;
  p : nat;
  nbytes : Z;
  inc_func : inc_kind;
  shortcut_disabled : Z;
  carry : Z;
  allow_wraparound : Z
}.

Definition with_val_carry (self : PCT_CounterObject) (v : list byte) (c : Z)
  : PCT_CounterObject :=
  mkCounter (prefix self) (suffix self) v (buf_size self) (p self) (nbytes self)
            (inc_func self) (shortcut_disabled self) c (allow_wraparound self).

(** [CounterObject_init], followed by the assignment of [inc_func] made by
    [CounterLE_new] / [CounterBE_new]. *)
Definition CounterObject_init (kind : inc_kind) (prefix suffix initval : list byte)
    (allow_wraparound disable_shortcut : Z) : PyResult PCT_CounterObject :=
  let size := Z.of_nat (length initval) in
  if size <? 1 then Raise ValueError_initval_too_small
  else if size >? 65535 then Raise ValueError_initval_too_large
  else
    let nbytes := size in
    if Z.of_nat (length prefix) >? 65535 then Raise ValueError_prefix_too_large
    else if Z.of_nat (length suffix) >? 65535 then Raise ValueError_suffix_too_large
    else
      let buf_size := Z.of_nat (length prefix) + Z.of_nat (length suffix) + nbytes in
      Ok (mkCounter prefix suffix (prefix ++ initval ++ suffix) buf_size
                    (length prefix) nbytes kind disable_shortcut 0 allow_wraparound).

(** The loop of [CounterLEObject_increment]: [n] iterations left, [p] the
    current position, moving up. *)
Fixpoint CounterLE_loop (n : nat) (p : nat) (carry : Z) (val : list byte)
  : list byte * Z :=
  match n with
  | O => (val, carry)
  | S n' =>
      let tmp := byte.unsigned (load val p) + carry in
      CounterLE_loop n' (S p) (Z.shiftr tmp 8) (store val p (byte.of_Z (Z.land tmp 255)))
  end.

(** The loop of [CounterBEObject_increment]: the position moves down. *)
Fixpoint CounterBE_loop (n : nat) (p : nat) (carry : Z) (val : list byte)
  : list byte * Z :=
  match n with
  | O => (val, carry)
  | S n' =>
      let tmp := byte.unsigned (load val p) + carry in
      CounterBE_loop n' (pred p) (Z.shiftr tmp 8) (store val p (byte.of_Z (Z.land tmp 255)))
  end.

Definition CounterLEObject_increment (self : PCT_CounterObject) : PCT_CounterObject :=
  let '(v, c) := CounterLE_loop (Z.to_nat (nbytes self)) (p self) 1 (val self) in
  with_val_carry self v c.

Definition CounterBEObject_increment (self : PCT_CounterObject) : PCT_CounterObject :=
  let '(v, c) :=
    CounterBE_loop (Z.to_nat (nbytes self)) (p self + Z.to_nat (nbytes self) - 1)%nat
                   1 (val self) in
  with_val_carry self v c.

(** [self->inc_func(self)] *)
Definition increment (self : PCT_CounterObject) : PCT_CounterObject :=
  match inc_func self with
  | LittleEndian => CounterLEObject_increment self
  | BigEndian => CounterBEObject_increment self
  end.

(** [CounterObject_call]: the method behind [next()].  The result is the
    buffer before the increment, made a [str] by
    [PyUnicode_FromStringAndSize]; when that conversion fails the call
    returns its [NULL], and [inc_func] has run all the same. *)
Definition CounterObject_call (self : PCT_CounterObject)
  : PyResult PyUnicode * PCT_CounterObject :=
  if truthy (carry self) && negb (truthy (allow_wraparound self))
  then (Raise OverflowError_counter_wrapped, self)
  else (PyUnicode_FromStringAndSize (val self), increment self).

(** The loop of [_CounterObject_next_value]: [x = (x << 8) | *p]. *)
Fixpoint next_value_loop (n : nat) (p : nat) (up : bool) (x : Z) (val : list byte) : Z :=
  match n with
  | O => x
  | S n' =>
      let ch := byte.unsigned (load val p) in
      next_value_loop n' (if up then S p else pred p) up (Z.lor (Z.shiftl x 8) ch) val
  end.

(** [_CounterObject_next_value]; the state is only read. *)
Definition _CounterObject_next_value (self : PCT_CounterObject) (little_endian : Z)
  : PyResult Z :=
  if truthy (carry self) && negb (truthy (allow_wraparound self))
  then Raise OverflowError_counter_wrapped
  else
    let n := Z.to_nat (nbytes self) in
    if truthy little_endian
    then Ok (next_value_loop n (p self + n - 1)%nat false 0 (val self))
    else Ok (next_value_loop n (p self) true 0 (val self)).

Definition CounterLEObject_next_value (self : PCT_CounterObject) : PyResult Z :=
  _CounterObject_next_value self 1.

Definition CounterBEObject_next_value (self : PCT_CounterObject) : PyResult Z :=
  _CounterObject_next_value self 0.

(** The method table of a counter: what [next_value] dispatches to. *)
Definition next_value (self : PCT_CounterObject) : PyResult Z :=
  match inc_func self with
  | LittleEndian => CounterLEObject_next_value self
  | BigEndian => CounterBEObject_next_value self
  end.

(** The state after [n] calls of [next()], errors included. *)
Fixpoint after_calls (n : nat) (self : PCT_CounterObject) : PCT_CounterObject :=
  match n with
  | O => self
  | S n' => snd (CounterObject_call (after_calls n' self))
  end.

(** The result of the [n]-th call of [next()], counting from 1. *)
Definition nth_call (n : nat) (self : PCT_CounterObject) : PyResult PyUnicode :=
  fst (CounterObject_call (after_calls (pred n) self)).

End Counter.

(** ** The block cipher behind the template *)

(** What the including cipher module supplies to [block_template.c]: the
    macros [BLOCK_SIZE] and [KEY_SIZE], the type [block_state] and the
    functions [block_init], [block_encrypt], [block_decrypt].
    [block_init] returns [None] when it sets an exception. *)
Class BlockCipher : Type := {
  BLOCK_SIZE : Z;
  KEY_SIZE : Z;
  block_state : Type;
  block_init : list byte -> option block_state;
  block_encrypt : block_state -> list byte -> list byte;
  block_decrypt : block_state -> list byte -> list byte
}.

Definition len (s : list byte) : Z := Z.of_nat (length s).

(** What a cipher module guarantees: a positive block size, blocks go to
    blocks, and decryption undoes encryption. *)
Record BlockCipherLaws (C : BlockCipher) : Prop := {
  BLOCK_SIZE_pos : 0 < BLOCK_SIZE;
  block_encrypt_len : forall st x, len x = BLOCK_SIZE -> len (block_encrypt st x) = BLOCK_SIZE;
  block_decrypt_encrypt :
    forall st x, len x = BLOCK_SIZE -> block_decrypt st (block_encrypt st x) = x
}.

(** ** Objects handed in as the [counter] argument *)

(** What a call of the counter callable can return. *)
Inductive PyValue : Type :=
| PyStr (s : PyUnicode)
| PyNotStr.

(** The [counter] argument: a counter of [_counter.c], some other callable
    (a deterministic generator: [f n] is what call number [n] returns,
    [None] when that call raises), or an object that cannot be called. *)
Inductive PyObject : Type :=
| CounterObj (c : Counter.PCT_CounterObject)
| Callable (f : nat -> option PyValue) (ncalls : nat)
| NotCallable.

(** [PyObject_HasAttrString(o, "__PCT_CTR_SHORTCUT__")], by
    [CounterLEObject_getattr] / [CounterBEObject_getattr]. *)
Definition has_shortcut (o : PyObject) : bool :=
  match o with
  | CounterObj c => negb (truthy (Counter.shortcut_disabled c))
  | _ => false
  end.

Definition PyCallable_Check (o : PyObject) : bool :=
  match o with
  | CounterObj _ | Callable _ _ => true
  | NotCallable => false
  end.

(** [PyObject_CallObject(o, NULL)] *)
Definition PyObject_CallObject (o : PyObject) : PyResult PyValue * PyObject :=
  match o with
  | CounterObj c =>
      match Counter.CounterObject_call c with
      | (Ok s, c') => (Ok (PyStr s), CounterObj c')
      | (Raise e, c') => (Raise e, CounterObj c')
      end
  | Callable f n =>
      (match f n with Some v => Ok v | None => Raise Error_in_callable end,
       Callable f (S n))
  | NotCallable => (Raise TypeError_not_callable, o)
  end.

(** ** The mode engine ([block_template.c]) *)

(** Modelled from the spec: the mode tags of [block_template.h], which is
    not among the sources; the six modes in the order the module exports
    them, [MODE_ECB] the least and [MODE_CTR] the greatest, as the range
    check of [ALGnew] requires. *)
Definition MODE_ECB : Z := 1.
Definition MODE_CBC : Z := 2.
Definition MODE_CFB : Z := 3.
Definition MODE_PGP : Z := 4.
Definition MODE_OFB : Z := 5.
Definition MODE_CTR : Z := 6.

Section Engine.

Context {C : BlockCipher}.

(** [ALGobject] (declared in [block_template.h]; the fields are those the
    code uses). *)
Record ALGobject : Type := mkALG {
  mode : Z;
  count : Z;
  segment_size : Z;
  prf_mode : Z;
  IV : list byte;
  oldCipher : list byte;
  counter : option PyObject;
  counter_shortcut : Z;
  st : block_state
}.

Definition set_IV (self : ALGobject) (v : list byte) : ALGobject :=
  mkALG (mode self) (count self) (segment_size self) (prf_mode self) v
        (oldCipher self) (counter self) (counter_shortcut self) (st self).

Definition set_oldCipher (self : ALGobject) (v : list byte) : ALGobject :=
  mkALG (mode self) (count self) (segment_size self) (prf_mode self) (IV self)
        v (counter self) (counter_shortcut self) (st self).

Definition set_count (self : ALGobject) (n : Z) : ALGobject :=
  mkALG (mode self) n (segment_size self) (prf_mode self) (IV self)
        (oldCipher self) (counter self) (counter_shortcut self) (st self).

Definition set_counter (self : ALGobject) (o : option PyObject) : ALGobject :=
  mkALG (mode self) (count self) (segment_size self) (prf_mode self) (IV self)
        (oldCipher self) o (counter_shortcut self) (st self).

Definition set_prf_mode (self : ALGobject) (v : Z) : ALGobject :=
  mkALG (mode self) (count self) (segment_size self) v (IV self)
        (oldCipher self) (counter self) (counter_shortcut self) (st self).

(** [block_encrypt(&(self->st), in, self->IV)] *)
Definition encrypt_into_IV (self : ALGobject) (inp : list byte) : ALGobject :=
  set_IV self (memcpy (IV self) 0 (block_encrypt (st self) inp) BLOCK_SIZE).

(** [ALGnew]: the arguments after keyword parsing.  An absent [IV] is the
    empty string, an absent [counter] is [None], an absent [segment_size]
    is 0. *)
Definition ALGnew (key : list byte) (mode : Z) (IV : list byte)
    (counter : option PyObject) (segment_size : Z) : PyResult ALGobject :=
  let keylen := len key in
  let IVlen := len IV in
  if negb (KEY_SIZE =? 0) && negb (keylen =? KEY_SIZE) then Raise ValueError_key_length
  else if (KEY_SIZE =? 0) && (keylen =? 0) then Raise ValueError_key_null
  else if negb (IVlen =? BLOCK_SIZE) && negb (IVlen =? 0) then Raise ValueError_iv_length
  else if (mode <? MODE_ECB) || (mode >? MODE_CTR) then Raise ValueError_unknown_mode
  else
    let segment_size :=
      if (mode =? MODE_CFB) && (segment_size =? 0) then 8 else segment_size in
    if (mode =? MODE_CFB)
       && ((segment_size <? 1) || (segment_size >? BLOCK_SIZE * 8)
           || negb (Z.land segment_size 7 =? 0))
    then Raise ValueError_segment_size
    else
      let checked : PyResult Z :=
        if mode =? MODE_CTR then
          match counter with
          | None => Raise TypeError_counter_required
          | Some o =>
              if has_shortcut o then Ok 1
              else if negb (PyCallable_Check o) then Raise ValueError_counter_not_callable
              else Ok 0
          end
        else
          match counter with
          | Some _ => Raise ValueError_counter_only_ctr
          | None => Ok 0
          end in
      match checked with
      | Raise e => Raise e
      | Ok counter_shortcut =>
          match block_init key with
          | None => Raise Error_block_init
          | Some state =>
              Ok (mkALG mode
                        (if mode =? MODE_PGP then 8 else BLOCK_SIZE)
                        segment_size
                        0
                        (memcpy (zeros BLOCK_SIZE) 0 IV IVlen)
                        (zeros BLOCK_SIZE)
                        counter
                        counter_shortcut
                        state)
          end
      end.

(** [for(i=0; i<len; i+=step) body].  [str] is the input from offset [i]
    on ([str+i]); the bytes returned are those the loop writes to
    [buffer+i], in order.  The loop runs while input is left. *)
Fixpoint for_blocks (body : ALGobject -> list byte -> list byte * ALGobject)
    (step : Z) (fuel : nat) (self : ALGobject) (str : list byte)
  : list byte * ALGobject :=
  match fuel with
  | O => ([], self)
  | S fuel' =>
      if 0 <? len str then
        let '(out, self1) := body self str in
        let '(rest, self2) := for_blocks body step fuel' self1 (skipn (Z.to_nat step) str) in
        (out ++ rest, self2)
      else ([], self)
  end.

(** *** Loop bodies of [ALG_Encrypt] *)

Definition ecb_encrypt_body (self : ALGobject) (str : list byte) : list byte * ALGobject :=
  (block_encrypt (st self) (sub str 0 BLOCK_SIZE), self).

Definition cbc_encrypt_body (self : ALGobject) (str : list byte) : list byte * ALGobject :=
  let temp := xor_bytes (sub str 0 BLOCK_SIZE) (IV self) in
  let out := block_encrypt (st self) temp in
  (out, set_IV self (memcpy (IV self) 0 out BLOCK_SIZE)).

(** The shift of the CFB register by one segment, [seg] being the new
    ciphertext segment. *)
Definition cfb_shift (self : ALGobject) (seg : list byte) : ALGobject :=
  if segment_size self =? BLOCK_SIZE * 8 then
    set_IV self (memcpy (IV self) 0 seg BLOCK_SIZE)
  else if Z.rem (segment_size self) 8 =? 0 then
    let sz := Z.quot (segment_size self) 8 in
    let moved := memcpy (IV self) 0 (sub (IV self) sz (BLOCK_SIZE - sz)) (BLOCK_SIZE - sz) in
    set_IV self (memcpy moved (BLOCK_SIZE - sz) seg sz)
  else self.

Definition cfb_encrypt_body (self : ALGobject) (str : list byte) : list byte * ALGobject :=
  let temp := block_encrypt (st self) (IV self) in
  let out := xor_bytes (sub str 0 (Z.quot (segment_size self) 8)) temp in
  (out, cfb_shift self out).

Definition ofb_encrypt_body (self : ALGobject) (str : list byte) : list byte * ALGobject :=
  let temp := block_encrypt (st self) (IV self) in
  let self1 := set_IV self (memcpy (IV self) 0 temp BLOCK_SIZE) in
  (xor_bytes (sub str 0 BLOCK_SIZE) temp, self1).

(** [for(j=0; j<n; j++) buffer[i+j] = self->IV[off+j] ^= str[i+j]] *)
Definition xor_into_IV (self : ALGobject) (off : Z) (str : list byte) (n : Z)
  : list byte * ALGobject :=
  let out := xor_bytes (sub (IV self) off n) (sub str 0 n) in
  (out, set_IV self (memcpy (IV self) off out n)).

(** The middle loop of the PGP case,
    [for(; i<len-BLOCK_SIZE; i+=BLOCK_SIZE)]; also returns the input that
    is left ([str+i] on exit). *)
Fixpoint pgp_encrypt_blocks (fuel : nat) (self : ALGobject) (str : list byte)
  : list byte * ALGobject * list byte :=
  match fuel with
  | O => ([], self, str)
  | S fuel' =>
      if BLOCK_SIZE <? len str then
        let self1 := encrypt_into_IV self (oldCipher self) in
        let '(out, self2) := xor_into_IV self1 0 str BLOCK_SIZE in
        let '(rest, self3, more) :=
          pgp_encrypt_blocks fuel' self2 (skipn (Z.to_nat BLOCK_SIZE) str) in
        (out ++ rest, self3, more)
      else ([], self, str)
  end.

(** The PGP case of [ALG_Encrypt]. *)
Definition pgp_encrypt (self : ALGobject) (str : list byte) : list byte * ALGobject :=
  if len str <=? BLOCK_SIZE - count self then
    let '(out, self1) := xor_into_IV self (count self) str (len str) in
    (out, set_count self1 (count self + len str))
  else
    let n := BLOCK_SIZE - count self in
    let '(first, self1) := xor_into_IV self (count self) str n in
    let self2 := set_count self1 0 in
    let '(mid, self3, more) :=
      pgp_encrypt_blocks (length str) self2 (skipn (Z.to_nat n) str) in
    let self4 := encrypt_into_IV self3 (oldCipher self3) in
    let self5 := set_count self4 (len more) in
    let '(last, self6) := xor_into_IV self5 0 more (len more) in
    (first ++ mid ++ last, self6).

(** *** The CTR case of [ALG_Encrypt] *)

(** "Generate a new keystream block": the counter shortcut or the call of
    the counter callable, then [block_encrypt] into [self->IV].  The
    shortcut casts [self->counter] to a counter object; [ALGnew] sets the
    flag for counter objects only, the other branch of that [match] is
    never taken.  In the general path the counter has been called, and
    has moved, before its result is examined: it must be a [str] of
    [BLOCK_SIZE] code points ([PyUnicode_GET_SIZE], one unit for each
    code point), and the block is its ASCII encoding.  The code does not
    test what [PyUnicode_AsASCIIString] returns: on [NULL], with
    [UnicodeEncodeError] set, it goes on to read through the null
    pointer; the call ends there, with that error. *)
Definition ctr_refill (self : ALGobject) : PyResult unit * ALGobject :=
  if truthy (counter_shortcut self) then
    match counter self with
    | Some (CounterObj ctr) =>
        if truthy (Counter.carry ctr) && negb (truthy (Counter.allow_wraparound ctr))
        then (Raise OverflowError_counter_wrapped, self)
        else if negb (Counter.buf_size ctr =? BLOCK_SIZE)
        then (Raise TypeError_ctr_length, self)
        else
          let self1 := encrypt_into_IV self (Counter.val ctr) in
          (Ok tt, set_counter self1 (Some (CounterObj (Counter.increment ctr))))
    | _ => (Raise TypeError_not_callable, self)
    end
  else
    match counter self with
    | Some o =>
        let '(r, o') := PyObject_CallObject o in
        let self1 := set_counter self (Some o') in
        match r with
        | Raise e => (Raise e, self1)
        | Ok PyNotStr => (Raise TypeError_ctr_not_string, self1)
        | Ok (PyStr s) =>
            if negb (Z.of_nat (length s) =? BLOCK_SIZE)
            then (Raise TypeError_ctr_length, self1)
            else
              match PyUnicode_AsASCIIString s with
              | Some block => (Ok tt, encrypt_into_IV self1 block)
              | None => (Raise UnicodeEncodeError_ascii, self1)
              end
        end
    | None => (Raise TypeError_not_callable, self)
    end.

(** [while (i < len)] of the CTR case; [str] is the input from [i] on. *)
Fixpoint ctr_loop (fuel : nat) (self : ALGobject) (str : list byte)
  : PyResult (list byte) * ALGobject :=
  match fuel with
  | O => (Ok [], self)
  | S fuel' =>
      if 0 <? len str then
        if len str <=? BLOCK_SIZE - count self then
          let '(out, self1) := xor_into_IV self (count self) str (len str) in
          (Ok out, set_count self1 (count self + len str))
        else
          let n := BLOCK_SIZE - count self in
          let '(out, self1) := xor_into_IV self (count self) str n in
          let self2 := set_count self1 BLOCK_SIZE in
          match ctr_refill self2 with
          | (Raise e, self3) => (Raise e, self3)
          | (Ok _, self3) =>
              match ctr_loop fuel' (set_count self3 0) (skipn (Z.to_nat n) str) with
              | (Ok rest, self4) => (Ok (out ++ rest), self4)
              | (Raise e, self4) => (Raise e, self4)
              end
          end
      else (Ok [], self)
  end.

(** [ALG_Encrypt] *)
Definition ALG_Encrypt (self : ALGobject) (str : list byte)
  : PyResult (list byte) * ALGobject :=
  if len str =? 0 then (Ok [], self)
  else if negb (Z.rem (len str) BLOCK_SIZE =? 0)
          && negb (mode self =? MODE_CFB) && negb (mode self =? MODE_PGP)
          && negb (mode self =? MODE_CTR)
  then (Raise ValueError_block_multiple, self)
  else if (mode self =? MODE_CFB)
          && negb (Z.rem (len str) (Z.quot (segment_size self) 8) =? 0)
  then (Raise ValueError_segment_multiple, self)
  else if mode self =? MODE_ECB then
    let '(buffer, self1) := for_blocks ecb_encrypt_body BLOCK_SIZE (length str) self str in
    (Ok buffer, self1)
  else if mode self =? MODE_CBC then
    let '(buffer, self1) := for_blocks cbc_encrypt_body BLOCK_SIZE (length str) self str in
    (Ok buffer, self1)
  else if mode self =? MODE_CFB then
    let '(buffer, self1) :=
      for_blocks cfb_encrypt_body (Z.quot (segment_size self) 8) (length str) self str in
    (Ok buffer, self1)
  else if mode self =? MODE_PGP then
    let '(buffer, self1) := pgp_encrypt self str in
    (Ok buffer, self1)
  else if mode self =? MODE_OFB then
    let '(buffer, self1) := for_blocks ofb_encrypt_body BLOCK_SIZE (length str) self str in
    (Ok buffer, self1)
  else if mode self =? MODE_CTR then
    ctr_loop (S (S (length str))) self str
  else (Raise SystemError_unknown_mode, self).

(** *** Loop bodies of [ALG_Decrypt] *)

Definition ecb_decrypt_body (self : ALGobject) (str : list byte) : list byte * ALGobject :=
  (block_decrypt (st self) (sub str 0 BLOCK_SIZE), self).

Definition cbc_decrypt_body (self : ALGobject) (str : list byte) : list byte * ALGobject :=
  let self1 := set_oldCipher self (memcpy (oldCipher self) 0 (IV self) BLOCK_SIZE) in
  let temp := block_decrypt (st self1) (sub str 0 BLOCK_SIZE) in
  let out := xor_bytes temp (IV self1) in
  (out, set_IV self1 (memcpy (IV self1) 0 str BLOCK_SIZE)).

Definition cfb_decrypt_body (self : ALGobject) (str : list byte) : list byte * ALGobject :=
  let temp := block_encrypt (st self) (IV self) in
  let out := xor_bytes (sub str 0 (Z.quot (segment_size self) 8)) temp in
  (out, cfb_shift self str).

Definition ofb_decrypt_body (self : ALGobject) (str : list byte) : list byte * ALGobject :=
  let temp := block_encrypt (st self) (IV self) in
  let self1 := set_IV self (memcpy (IV self) 0 temp BLOCK_SIZE) in
  (xor_bytes (sub str 0 BLOCK_SIZE) (IV self1), self1).

(** [for(j=0; j<n; j++) { t=self->IV[off+j]; buffer[i+j] = t ^ (self->IV[off+j] = str[i+j]); }] *)
Definition swap_into_IV (self : ALGobject) (off : Z) (str : list byte) (n : Z)
  : list byte * ALGobject :=
  let out := xor_bytes (sub (IV self) off n) (sub str 0 n) in
  (out, set_IV self (memcpy (IV self) off str n)).

Fixpoint pgp_decrypt_blocks (fuel : nat) (self : ALGobject) (str : list byte)
  : list byte * ALGobject * list byte :=
  match fuel with
  | O => ([], self, str)
  | S fuel' =>
      if BLOCK_SIZE <? len str then
        let self1 := encrypt_into_IV self (oldCipher self) in
        let '(out, self2) := swap_into_IV self1 0 str BLOCK_SIZE in
        let '(rest, self3, more) :=
          pgp_decrypt_blocks fuel' self2 (skipn (Z.to_nat BLOCK_SIZE) str) in
        (out ++ rest, self3, more)
      else ([], self, str)
  end.

(** The PGP case of [ALG_Decrypt]. *)
Definition pgp_decrypt (self : ALGobject) (str : list byte) : list byte * ALGobject :=
  if len str <=? BLOCK_SIZE - count self then
    let '(out, self1) := swap_into_IV self (count self) str (len str) in
    (out, set_count self1 (count self + len str))
  else
    let n := BLOCK_SIZE - count self in
    let '(first, self1) := swap_into_IV self (count self) str n in
    let self2 := set_count self1 0 in
    let '(mid, self3, more) :=
      pgp_decrypt_blocks (length str) self2 (skipn (Z.to_nat n) str) in
    let self4 := encrypt_into_IV self3 (oldCipher self3) in
    let self5 := set_count self4 (len more) in
    let '(last, self6) := swap_into_IV self5 0 more (len more) in
    (first ++ mid ++ last, self6).

(** [ALG_Decrypt] *)
Definition ALG_Decrypt (self : ALGobject) (str : list byte)
  : PyResult (list byte) * ALGobject :=
  if truthy (prf_mode self) then (Raise ValueError_decrypt_disabled, self)
  else if mode self =? MODE_CTR then ALG_Encrypt self str
  else if len str =? 0 then (Ok [], self)
  else if negb (Z.rem (len str) BLOCK_SIZE =? 0)
          && (negb (mode self =? MODE_CFB) && negb (mode self =? MODE_PGP))
  then (Raise ValueError_block_multiple, self)
  else if (mode self =? MODE_CFB)
          && negb (Z.rem (len str) (Z.quot (segment_size self) 8) =? 0)
  then (Raise ValueError_segment_multiple, self)
  else if mode self =? MODE_ECB then
    let '(buffer, self1) := for_blocks ecb_decrypt_body BLOCK_SIZE (length str) self str in
    (Ok buffer, self1)
  else if mode self =? MODE_CBC then
    let '(buffer, self1) := for_blocks cbc_decrypt_body BLOCK_SIZE (length str) self str in
    (Ok buffer, self1)
  else if mode self =? MODE_CFB then
    let '(buffer, self1) :=
      for_blocks cfb_decrypt_body (Z.quot (segment_size self) 8) (length str) self str in
    (Ok buffer, self1)
  else if mode self =? MODE_PGP then
    let '(buffer, self1) := pgp_decrypt self str in
    (Ok buffer, self1)
  else if mode self =? MODE_OFB then
    let '(buffer, self1) := for_blocks ofb_decrypt_body BLOCK_SIZE (length str) self str in
    (Ok buffer, self1)
  else (Raise SystemError_unknown_mode, self).

(** [ALG_Sync] *)
Definition ALG_Sync (self : ALGobject) : PyResult unit * ALGobject :=
  if negb (mode self =? MODE_PGP) then (Raise SystemError_sync, self)
  else if negb (count self =? 8) then
    let moved := memcpy (IV self) (BLOCK_SIZE - count self) (IV self) (count self) in
    let filled :=
      memcpy moved 0 (sub (oldCipher self) (count self) (BLOCK_SIZE - count self))
             (BLOCK_SIZE - count self) in
    (Ok tt, set_count (set_IV self filled) 8)
  else (Ok tt, self).

(** [ALG_SetMode]; [TRUE] is 1. *)
Definition ALG_SetMode (self : ALGobject) (enable_prf : Z) : PyResult unit * ALGobject :=
  if enable_prf >=? 1 then (Ok tt, set_prf_mode self enable_prf)
  else (Ok tt, self).

(** A method call on an engine, and a sequence of them on one engine. *)
Inductive method_call : Type :=
| call_encrypt (str : list byte)
| call_decrypt (str : list byte)
| call_sync
| call_setMode (enable_prf : Z).

Definition run_call (self : ALGobject) (c : method_call) : ALGobject :=
  match c with
  | call_encrypt str => snd (ALG_Encrypt self str)
  | call_decrypt str => snd (ALG_Decrypt self str)
  | call_sync => snd (ALG_Sync self)
  | call_setMode v => snd (ALG_SetMode self v)
  end.

Definition run_calls (self : ALGobject) (cs : list method_call) : ALGobject :=
  fold_left run_call cs self.

(** Two [encrypt] calls on one engine with a [sync()] between them; the
    two outputs concatenated. *)
Definition encrypt_sync_encrypt (self : ALGobject) (a b : list byte)
  : PyResult (list byte) :=
  match ALG_Encrypt self a with
  | (Raise e, _) => Raise e
  | (Ok c1, self1) =>
      match ALG_Sync self1 with
      | (Raise e, _) => Raise e
      | (Ok _, self2) =>
          match ALG_Encrypt self2 b with
          | (Raise e, _) => Raise e
          | (Ok c2, _) => Ok (c1 ++ c2)
          end
      end
  end.

(** *** Vocabulary of the properties *)

(** [b] differs from [a] at most in the stream state: [IV], [count] and
    the counter source. *)
Definition frame (a b : ALGobject) : Prop :=
  mode b = mode a /\ segment_size b = segment_size a /\ prf_mode b = prf_mode a
  /\ oldCipher b = oldCipher a /\ counter_shortcut b = counter_shortcut a
  /\ st b = st a.

(** What [ALGnew] checks about the configuration and no method changes. *)
Definition config_ok (self : ALGobject) : Prop :=
  MODE_ECB <= mode self <= MODE_CTR
  /\ (mode self = MODE_CFB ->
      1 <= segment_size self <= BLOCK_SIZE * 8 /\ Z.land (segment_size self) 7 = 0).


(** The buffers of an engine have the block size. *)
Definition buffers_ok (self : ALGobject) : Prop :=
  len (IV self) = BLOCK_SIZE /\ len (oldCipher self) = BLOCK_SIZE.

(** A counter object handed to the engine is a well-formed one: its
    [buf_size] is the size of its buffer, as [CounterObject_init] makes
    it. *)
Definition source_ok (o : option PyObject) : Prop :=
  match o with
  | Some (CounterObj c) => Counter.buf_size c = len (Counter.val c)
  | _ => True
  end.

(** Two CTR engines at the same point of the same keystream: same key
    state, same counter source, same offset, and the same keystream
    bytes still to be used. *)
Definition ctr_related (s1 s2 : ALGobject) : Prop :=
  st s1 = st s2 /\ counter s1 = counter s2
  /\ counter_shortcut s1 = counter_shortcut s2
  /\ count s1 = count s2 /\ 0 <= count s1 <= BLOCK_SIZE
  /\ len (IV s1) = BLOCK_SIZE /\ len (IV s2) = BLOCK_SIZE
  /\ skipn (Z.to_nat (count s1)) (IV s1) = skipn (Z.to_nat (count s1)) (IV s2)
  /\ source_ok (counter s1).


(** The shortcut flag is set for counter objects only. *)
Definition shortcut_ok (self : ALGobject) : Prop :=
  truthy (counter_shortcut self) = true -> exists c, counter self = Some (CounterObj c).

(** The segment size [ALGnew] accepts for CFB. *)
Definition cfb_ok (self : ALGobject) : Prop :=
  1 <= segment_size self <= BLOCK_SIZE * 8 /\ Z.land (segment_size self) 7 = 0.

(** The two input-length errors. *)
Definition is_length_error (e : PyErr) : Prop :=
  e = ValueError_block_multiple \/ e = ValueError_segment_multiple.

Definition fails_with_length_error (r : PyResult (list byte)) : Prop :=
  exists e, r = Raise e /\ is_length_error e.

(** The errors of a keystream refill in CTR mode. *)
Definition is_refill_error (e : PyErr) : Prop :=
  e = OverflowError_counter_wrapped \/ e = TypeError_ctr_length
  \/ e = TypeError_ctr_not_string \/ e = TypeError_not_callable
  \/ e = Error_in_callable
  \/ e = UnicodeDecodeError_utf8 \/ e = UnicodeEncodeError_ascii.

(** The length constraint of the specification, violated: the input is
    not a multiple of the block size (ECB, CBC, OFB) or of
    [segment_size/8] (CFB). *)
Definition bad_length (self : ALGobject) (str : list byte) : Prop :=
  ((mode self = MODE_ECB \/ mode self = MODE_CBC \/ mode self = MODE_OFB)
   /\ ~ (BLOCK_SIZE | len str))
  \/ (mode self = MODE_CFB /\ ~ (Z.quot (segment_size self) 8 | len str)).

End Engine.

(** ** A small cipher to run the engine on *)

(** Byte [j] of the block is moved by [sign * (k + j)] modulo 256. *)
Fixpoint caesar (sign k j : Z) (x : list byte) : list byte :=
  match x with
  | [] => []
  | b :: r => byte.of_Z (byte.unsigned b + sign * (k + j)) :: caesar sign k (j + 1) r
  end.

(** An 8-byte block cipher with a key of any positive length: the state is
    the first key byte. *)
Definition caesar_cipher : BlockCipher := {|
  BLOCK_SIZE := 8;
  KEY_SIZE := 0;
  block_state := Z;
  block_init := fun key => match key with [] => None | k :: _ => Some (byte.unsigned k) end;
  block_encrypt := fun k x => caesar 1 k 0 x;
  block_decrypt := fun k x => caesar (-1) k 0 x
|}.

(** Bytes written as numbers. *)
Definition bytes (l : list Z) : list byte := map byte.of_Z l.
Definition numbers (l : list byte) : list Z := map byte.unsigned l.

(** The arguments of the examples: a one-byte key, an 8-byte IV, and a
    block-sized big-endian counter (7 zero bytes of prefix, then a
    one-byte field starting at [start]) that may not wrap around. *)
Definition example_key : list byte := bytes [3].
Definition example_iv : list byte := bytes [1; 2; 3; 4; 5; 6; 7; 8].

(** A one-byte counter that has wrapped: field 0, carry set, no
    wraparound allowed. *)
Definition wrapped_counter : Counter.PCT_CounterObject :=
  Counter.mkCounter (bytes [7]) (bytes [9]) (bytes [7; 0; 9]) 3 1 1 Counter.BigEndian 0 1 0.

(** What the constructors return on these arguments (checked below). *)
Definition counter_at (start : Z) : Counter.PCT_CounterObject :=
  Counter.mkCounter (bytes [0; 0; 0; 0; 0; 0; 0]) [] (bytes [0; 0; 0; 0; 0; 0; 0; start])
                    8 7 1 Counter.BigEndian 0 0 0.

(** The same counter with its shortcut disabled and wraparound allowed:
    an engine reads it through its call. *)
Definition called_counter (start : Z) : Counter.PCT_CounterObject :=
  Counter.mkCounter (bytes [0; 0; 0; 0; 0; 0; 0]) [] (bytes [0; 0; 0; 0; 0; 0; 0; start])
                    8 7 1 Counter.BigEndian 1 0 1.

Definition fresh_engine (mode : Z) (counter : option PyObject) (shortcut : Z)
  : @ALGobject caesar_cipher :=
  @mkALG caesar_cipher mode 8 0 0 example_iv (zeros 8) counter shortcut 3.

Definition cbc_engine : @ALGobject caesar_cipher := fresh_engine MODE_CBC None 0.
Definition pgp_engine : @ALGobject caesar_cipher := fresh_engine MODE_PGP None 0.
Definition ctr_engine (start : Z) : @ALGobject caesar_cipher :=
  fresh_engine MODE_CTR (Some (CounterObj (counter_at start))) 1.


(** A 16-byte stream. *)
Definition example_stream : list byte :=
  bytes [10; 20; 30; 40; 50; 60; 70; 80; 90; 100; 110; 120; 130; 140; 150; 160].

Definition ecb_engine : @ALGobject caesar_cipher := fresh_engine MODE_ECB None 0.
Definition ofb_engine : @ALGobject caesar_cipher := fresh_engine MODE_OFB None 0.

(** The same engines after [setMode(1)]. *)
Definition prf_only (self : @ALGobject caesar_cipher) : @ALGobject caesar_cipher :=
  set_prf_mode self 1.

(** ** Engines across several calls *)

Section EngineStreams.

Context {C : BlockCipher}.

(** The shape of an engine between calls: the two buffers have the block
    size, and [count] is an offset into a block (or the 8 that [ALGnew]
    and [ALG_Sync] give a PGP engine, whatever the block size); a counter
    object behind it is a well-formed one. *)
Definition state_ok (self : ALGobject) : Prop :=
  buffers_ok self
  /\ 0 <= count self
  /\ (count self <= BLOCK_SIZE \/ (mode self = MODE_PGP /\ count self = 8))
  /\ source_ok (counter self).

(** [block_decrypt] writes one block for one block, as [block_encrypt]
    does. *)
Definition decrypts_blocks : Prop :=
  forall state x, len x = BLOCK_SIZE -> len (block_decrypt state x) = BLOCK_SIZE.



(** The first [n] blocks of the keystream of CTR mode behind a counter
    object: the encryption of its buffer, then of its buffer after one
    increment, and so on. *)
Fixpoint keystream (state : block_state) (n : nat) (c : Counter.PCT_CounterObject)
  : list byte :=
  match n with
  | O => []
  | S n' => block_encrypt state (Counter.val c) ++ keystream state n' (Counter.increment c)
  end.

(** The loop CTR mode and PGP mode have in common: use what is left of
    the keystream block in the register, refill the register, go on.
    [into] is the inner loop over the bytes ([xor_into_IV] or
    [swap_into_IV]), [refill] what makes the next keystream block. *)
Fixpoint stream_loop (into : ALGobject -> Z -> list byte -> Z -> list byte * ALGobject)
    (refill : ALGobject -> PyResult unit * ALGobject)
    (fuel : nat) (self : ALGobject) (str : list byte)
  : PyResult (list byte) * ALGobject :=
  match fuel with
  | O => (Ok [], self)
  | S fuel' =>
      if 0 <? len str then
        if len str <=? BLOCK_SIZE - count self then
          let '(out, self1) := into self (count self) str (len str) in
          (Ok out, set_count self1 (count self + len str))
        else
          let n := BLOCK_SIZE - count self in
          let '(out, self1) := into self (count self) str n in
          let self2 := set_count self1 BLOCK_SIZE in
          match refill self2 with
          | (Raise e, self3) => (Raise e, self3)
          | (Ok _, self3) =>
              match stream_loop into refill fuel' (set_count self3 0)
                                (skipn (Z.to_nat n) str) with
              | (Ok rest, self4) => (Ok (out ++ rest), self4)
              | (Raise e, self4) => (Raise e, self4)
              end
          end
      else (Ok [], self)
  end.

(** The refill of PGP mode: [block_encrypt(&(self->st), self->oldCipher,
    self->IV)]. *)
Definition pgp_refill (self : ALGobject) : PyResult unit * ALGobject :=
  (Ok tt, encrypt_into_IV self (oldCipher self)).

(** The fuel that is enough for [stream_loop]: one turn for each byte,
    and one more when the register is used up at the start. *)
Definition enough_fuel (fuel : nat) (self : ALGobject) (str : list byte) : Prop :=
  (length str + (if (count self <? BLOCK_SIZE)%Z then 1 else 2) <= fuel)%nat.

(** [n] copies of one block, one after the other. *)
Fixpoint pad_stream (pad : list byte) (n : nat) : list byte :=
  match n with
  | O => []
  | S n' => pad ++ pad_stream pad n'
  end.


End EngineStreams.

(** ** The counter field read as a number *)

Module CounterValue.
Import Counter.

(** The number a list of bytes stands for, least significant byte
    first. *)
Fixpoint le_value (l : list byte) : Z :=
  match l with
  | [] => 0
  | b :: r => byte.unsigned b + 256 * le_value r
  end.

(** The body of the two increment loops run over the bytes of the field
    alone, from the least significant byte on: the bytes written and the
    carry that is left. *)
Fixpoint add_carry (c : Z) (l : list byte) : list byte * Z :=
  match l with
  | [] => ([], c)
  | b :: r =>
      let tmp := byte.unsigned b + c in
      let '(r', c') := add_carry (Z.shiftr tmp 8) r in
      (byte.of_Z (Z.land tmp 255) :: r', c')
  end.

(** The [nbytes] bytes at [self->p]. *)
Definition field (self : PCT_CounterObject) : list byte :=
  firstn (Z.to_nat (nbytes self)) (skipn (p self) (val self)).

(** The field in the order of increasing significance. *)
Definition digits (self : PCT_CounterObject) : list byte :=
  match inc_func self with
  | LittleEndian => field self
  | BigEndian => rev (field self)
  end.

Definition field_value (self : PCT_CounterObject) : Z := le_value (digits self).

(** [256 ^ nbytes]: the number of values of the field. *)
Definition modulus (self : PCT_CounterObject) : Z := 256 ^ nbytes self.

(** The shape [CounterObject_init] gives a counter: the buffer is prefix,
    field, suffix, [p] points behind the prefix, [buf_size] is the size of
    the buffer, and the carry is a bit. *)
Definition well_formed (self : PCT_CounterObject) : Prop :=
  val self = prefix self ++ field self ++ suffix self
  /\ p self = length (prefix self)
  /\ len (field self) = nbytes self
  /\ buf_size self = len (val self)
  /\ (carry self = 0 \/ carry self = 1).

(** [b] is [a] but for the content of the buffer and the carry. *)
Definition same_envelope (a b : PCT_CounterObject) : Prop :=
  prefix b = prefix a /\ suffix b = suffix a /\ p b = p a /\ nbytes b = nbytes a
  /\ buf_size b = buf_size a /\ inc_func b = inc_func a
  /\ shortcut_disabled b = shortcut_disabled a
  /\ allow_wraparound b = allow_wraparound a.

(** The guard at the head of [CounterObject_call] and of
    [_CounterObject_next_value]. *)
Definition overflowed (self : PCT_CounterObject) : bool :=
  truthy (carry self) && negb (truthy (allow_wraparound self)).

End CounterValue.

(** A little-endian counter with a two-byte field that holds 65534
    (bytes [FE FF]), prefix [07], suffix [09], no wraparound. *)
Definition two_byte_counter : Counter.PCT_CounterObject :=
  Counter.mkCounter (bytes [7]) (bytes [9]) (bytes [7; 254; 255; 9]) 4 1 2
                    Counter.LittleEndian 0 0 0.

(** ** Bytes and buffers: basic facts *)

Lemma lxor_byte_range (a b : Z) :
  0 <= a < 2 ^ 8 -> 0 <= b < 2 ^ 8 -> 0 <= Z.lxor a b < 2 ^ 8.
Proof.
  intros Ha Hb. split.
  - apply Z.lxor_nonneg. lia.
  - assert (Hq : Z.lxor a b / 2 ^ 8 = 0).
    { rewrite <- Z.shiftr_div_pow2 by lia.
      rewrite Z.shiftr_lxor, !Z.shiftr_div_pow2 by lia.
      rewrite (Z.div_small a), (Z.div_small b) by lia. reflexivity. }
    apply Z.div_small_iff in Hq; lia.
Qed.

Lemma unsigned_xor (a b : byte) :
  byte.unsigned (byte.xor a b) = Z.lxor (byte.unsigned a) (byte.unsigned b).
Proof.
  unfold byte.xor. rewrite byte.unsigned_of_Z. unfold byte.wrap.
  apply Z.mod_small, lxor_byte_range; apply byte.unsigned_range.
Qed.


Lemma byte_xor_cancel_l (k a : byte) : byte.xor k (byte.xor k a) = a.
Proof.
  apply byte.unsigned_inj. rewrite !unsigned_xor.
  rewrite <- Z.lxor_assoc, Z.lxor_nilpotent, Z.lxor_0_l. reflexivity.
Qed.

Lemma length_xor_bytes (a b : list byte) :
  length (xor_bytes a b) = Nat.min (length a) (length b).
Proof.
  revert b. induction a as [|x a IH]; intros [|y b]; simpl; auto.
Qed.


Lemma xor_bytes_cancel_l (k a : list byte) :
  (length a <= length k)%nat -> xor_bytes k (xor_bytes k a) = a.
Proof.
  revert k. induction a as [|x a IH]; intros [|y k] H; simpl in *; try lia; auto.
  rewrite byte_xor_cancel_l, IH by lia. reflexivity.
Qed.

Lemma load_middle (pre post : list byte) (b : byte) :
  load (pre ++ b :: post) (length pre) = b.
Proof. unfold load. apply nth_middle. Qed.

Lemma store_middle (pre post : list byte) (b b' : byte) :
  store (pre ++ b :: post) (length pre) b' = pre ++ b' :: post.
Proof. induction pre as [|x pre IH]; simpl; [reflexivity | now rewrite IH]. Qed.

(** ** Python strings: ASCII *)

(** A buffer of bytes below 128 is UTF-8 for the string of the same
    code points. *)
Lemma utf8_decode_ascii (s : list byte) :
  forallb (fun b => byte.unsigned b <? 0x80) s = true ->
  utf8_decode s = Some (map byte.unsigned s).
Proof.
  induction s as [|b r IH]; [reflexivity|]. cbn [forallb map utf8_decode].
  intros H. apply andb_prop in H as [Hb Hr]. rewrite Hb, (IH Hr). reflexivity.
Qed.

Lemma ascii_cons c (u : PyUnicode) block :
  PyUnicode_AsASCIIString (c :: u) = Some block ->
  0 <= c < 0x80
  /\ exists rest, PyUnicode_AsASCIIString u = Some rest /\ block = byte.of_Z c :: rest.
Proof.
  unfold PyUnicode_AsASCIIString. cbn [forallb map].
  destruct ((0 <=? c) && (c <? 0x80)) eqn:Ec; cbn [andb]; [|discriminate].
  destruct (forallb _ u); [|discriminate].
  intros [= <-]. apply andb_prop in Ec as [H1 H2].
  apply Z.leb_le in H1. apply Z.ltb_lt in H2. split; [lia | eauto].
Qed.

(** What [PyUnicode_AsASCIIString] makes of a decoded buffer, when it
    makes anything, is the buffer: a string decoded from UTF-8 is ASCII
    only if every byte stood for itself. *)
Lemma ascii_of_utf8 (n : nat) : forall (s : list byte) u block,
  (length s <= n)%nat ->
  utf8_decode s = Some u -> PyUnicode_AsASCIIString u = Some block ->
  block = s /\ length u = length s.
Proof.
  induction n as [|n IH]; intros s u block Hn Hdec Hasc.
  { destruct s; [|cbn in Hn; lia]. cbn in Hdec. injection Hdec as <-.
    cbn in Hasc. injection Hasc as <-. auto. }
  destruct s as [|b0 r]; [cbn in Hdec; injection Hdec as <-; cbn in Hasc;
                          injection Hasc as <-; auto|].
  cbn [length] in Hn. cbn [utf8_decode] in Hdec. cbv zeta in Hdec.
  pose proof (byte.unsigned_range b0) as R0.
  assert (Hbig : forall c (u' : PyUnicode) (t : option PyUnicode),
             0x80 <= c -> option_map (cons c) t = Some u -> False).
  { intros c u' t Hc Ht. destruct t as [v|]; [|discriminate]. cbn in Ht.
    injection Ht as <-. apply ascii_cons in Hasc as (Hr & _). lia. }
  destruct (byte.unsigned b0 <? 0x80) eqn:E0.
  - destruct (utf8_decode r) as [v|] eqn:Er; [|discriminate]. cbn in Hdec.
    injection Hdec as <-. apply ascii_cons in Hasc as (_ & rest & Hrest & ->).
    destruct (IH r v rest ltac:(lia) Er Hrest) as (-> & Hl).
    rewrite byte.of_Z_unsigned. cbn [length]. auto.
  - exfalso. apply Z.ltb_ge in E0. unfold between in Hdec.
    destruct ((0xC2 <=? byte.unsigned b0) && (byte.unsigned b0 <=? 0xDF)) eqn:E2.
    { apply andb_prop in E2 as [L _]. apply Z.leb_le in L.
      destruct r as [|b1 r1]; [discriminate|].
      destruct ((0x80 <=? byte.unsigned b1) && (byte.unsigned b1 <=? 0xBF)) eqn:C1;
        [|discriminate].
      apply andb_prop in C1 as [L1 _]. apply Z.leb_le in L1.
      eapply (Hbig _ u _ _ Hdec). }
    destruct ((0xE0 <=? byte.unsigned b0) && (byte.unsigned b0 <=? 0xEF)) eqn:E3.
    { apply andb_prop in E3 as [L _]. apply Z.leb_le in L.
      destruct r as [|b1 [|b2 r2]]; try discriminate.
      match type of Hdec with (if ?c then _ else _) = _ =>
        destruct c eqn:C1; [|discriminate] end.
      apply andb_prop in C1 as [C1 C2]. apply andb_prop in C1 as [L1 _].
      apply andb_prop in C2 as [L2 _]. apply Z.leb_le in L1, L2.
      eapply (Hbig _ u _ _ Hdec). }
    destruct ((0xF0 <=? byte.unsigned b0) && (byte.unsigned b0 <=? 0xF4)) eqn:E4;
      [|discriminate].
    apply andb_prop in E4 as [L _]. apply Z.leb_le in L.
    destruct r as [|b1 [|b2 [|b3 r3]]]; try discriminate.
    match type of Hdec with (if ?c then _ else _) = _ =>
      destruct c eqn:C1; [|discriminate] end.
    apply andb_prop in C1 as [C1 C3]. apply andb_prop in C1 as [C1 C2].
    apply andb_prop in C1 as [L1 _]. apply andb_prop in C2 as [L2 _].
    apply andb_prop in C3 as [L3 _]. apply Z.leb_le in L1, L2, L3.
    eapply (Hbig _ u _ _ Hdec).
  Unshelve.
  all: try (destruct (byte.unsigned b0 =? 0xE0) eqn:Q; [apply Z.eqb_eq in Q|apply Z.eqb_neq in Q];
            lia).
  all: try (destruct (byte.unsigned b0 =? 0xF0) eqn:Q; [apply Z.eqb_eq in Q|apply Z.eqb_neq in Q];
            lia).
  all: try lia.
Qed.

Lemma ascii_length (u : PyUnicode) block :
  PyUnicode_AsASCIIString u = Some block -> length block = length u.
Proof.
  unfold PyUnicode_AsASCIIString. destruct (forallb _ u); [|discriminate].
  intros [= <-]. apply length_map.
Qed.

(** The conversion of a buffer: a string or the decoding error. *)
Lemma FromStringAndSize_cases (s : list byte) :
  (exists u, utf8_decode s = Some u /\ PyUnicode_FromStringAndSize s = Ok u)
  \/ (utf8_decode s = None /\ PyUnicode_FromStringAndSize s = Raise UnicodeDecodeError_utf8).
Proof.
  unfold PyUnicode_FromStringAndSize. destruct (utf8_decode s); eauto.
Qed.

(** ** The counter: a one-byte field counts from 0 to 255, then wraps *)

Module CounterFacts.
Import Counter.

(** The counter with a one-byte field holding [v]. *)
Lemma increment_one_byte kind pre post sd aw bs c (v : Z) :
  0 <= v < 256 ->
  increment (mkCounter pre post (pre ++ [byte.of_Z v] ++ post) bs (length pre) 1
                       kind sd c aw)
  = mkCounter pre post (pre ++ [byte.of_Z (Z.land (v + 1) 255)] ++ post) bs (length pre) 1
              kind sd (Z.shiftr (v + 1) 8) aw.
Proof.
  intros Hv.
  assert (Hu : byte.unsigned (byte.of_Z v) = v).
  { rewrite byte.unsigned_of_Z. apply Z.mod_small. lia. }
  destruct kind; unfold increment, CounterLEObject_increment, CounterBEObject_increment.
  all: cbn [inc_func nbytes p val app]; change (Z.to_nat 1) with 1%nat.
  all: rewrite ?Nat.add_sub; cbn [CounterLE_loop CounterBE_loop].
  all: rewrite load_middle, store_middle, Hu; reflexivity.
Qed.

Lemma step_below_255 (v : Z) :
  0 <= v < 255 -> Z.land (v + 1) 255 = v + 1 /\ Z.shiftr (v + 1) 8 = 0.
Proof.
  intros Hv. change 255 with (Z.ones 8). rewrite Z.land_ones, Z.shiftr_div_pow2 by lia.
  split; [apply Z.mod_small | apply Z.div_small]; lia.
Qed.

Lemma after_calls_S (n : nat) (self : PCT_CounterObject) :
  after_calls (S n) self = snd (CounterObject_call (after_calls n self)).
Proof. reflexivity. Qed.

(** After [k <= 255] calls the field holds [k] and the carry is clear. *)
Lemma after_calls_one_byte kind pre post sd aw bs (k : nat) :
  (k <= 255)%nat ->
  after_calls k (mkCounter pre post (pre ++ [byte.of_Z 0] ++ post) bs (length pre) 1
                           kind sd 0 aw)
  = mkCounter pre post (pre ++ [byte.of_Z (Z.of_nat k)] ++ post) bs (length pre) 1
              kind sd 0 aw.
Proof.
  induction k as [|k IH]; intros Hk; [reflexivity|].
  rewrite after_calls_S, IH by lia.
  unfold CounterObject_call. cbn [carry allow_wraparound truthy Z.eqb negb andb snd].
  rewrite increment_one_byte by lia.
  destruct (step_below_255 (Z.of_nat k)) as [-> ->]; [lia|].
  replace (Z.of_nat (S k)) with (Z.of_nat k + 1) by lia. reflexivity.
Qed.

(** What [CounterObject_init] builds from a one-byte zero initial value. *)
Lemma init_one_byte kind pre post aw sd c0 :
  CounterObject_init kind pre post [byte.of_Z 0] aw sd = Ok c0 ->
  c0 = mkCounter pre post (pre ++ [byte.of_Z 0] ++ post)
                 (Z.of_nat (length pre) + Z.of_nat (length post) + 1) (length pre) 1
                 kind sd 0 aw.
Proof.
  unfold CounterObject_init. cbn [length Z.of_nat Pos.of_succ_nat Z.ltb Z.gtb Z.compare Pos.compare Pos.compare_cont].
  destruct (Z.of_nat (length pre) >? 65535); [discriminate|].
  destruct (Z.of_nat (length post) >? 65535); [discriminate|].
  intros H. injection H as <-. reflexivity.
Qed.

(** C2 (as amended): a counter built with a one-byte initial value 0.
    After [k <= 255] calls of [next()] the stored buffer is prefix, the
    byte [k], suffix, and the carry is clear: after 255 calls the buffer
    is prefix, [0xFF], suffix.  None of the first 256 calls is stopped by
    the overflow guard: call number [k] makes a string of the buffer
    prefix, [k-1], suffix (it returns the string, or the decoding error
    when the buffer is not UTF-8) and increments the counter; with a
    prefix and a suffix of ASCII bytes the first 128 calls return their
    buffers.  The 256th call wraps the stored value to 0 and sets the
    carry; the 257th call is the one the guard stops, with the overflow
    error and without a change, when [allow_wraparound] is false, and it
    converts the buffer with value 0 when [allow_wraparound] is true. *)
Theorem one_byte_counter_calls kind pre post aw sd c0 :
  CounterObject_init kind pre post [byte.of_Z 0] aw sd = Ok c0 ->
  (forall k, (k <= 255)%nat ->
     val (after_calls k c0) = pre ++ [byte.of_Z (Z.of_nat k)] ++ post
     /\ carry (after_calls k c0) = 0)
  /\ (forall k, (1 <= k <= 256)%nat ->
       nth_call k c0
       = PyUnicode_FromStringAndSize (pre ++ [byte.of_Z (Z.of_nat k - 1)] ++ post)
       /\ nth_call k c0 <> Raise OverflowError_counter_wrapped)
  /\ (forallb (fun b => byte.unsigned b <? 0x80) (pre ++ post) = true ->
       forall k, (1 <= k <= 128)%nat ->
         nth_call k c0
         = Ok (map byte.unsigned pre ++ [Z.of_nat k - 1] ++ map byte.unsigned post))
  /\ val (after_calls 256 c0) = pre ++ [byte.of_Z 0] ++ post
  /\ carry (after_calls 256 c0) = 1
  /\ (aw = 0 -> nth_call 257 c0 = Raise OverflowError_counter_wrapped
                /\ after_calls 257 c0 = after_calls 256 c0)
  /\ (aw <> 0 ->
       nth_call 257 c0 = PyUnicode_FromStringAndSize (pre ++ [byte.of_Z 0] ++ post)).
Proof.
  intros Hinit. apply init_one_byte in Hinit. subst c0.
  assert (H256 : after_calls 256
            (mkCounter pre post (pre ++ [byte.of_Z 0] ++ post)
               (Z.of_nat (length pre) + Z.of_nat (length post) + 1) (length pre) 1
               kind sd 0 aw)
          = mkCounter pre post (pre ++ [byte.of_Z 0] ++ post)
               (Z.of_nat (length pre) + Z.of_nat (length post) + 1) (length pre) 1
               kind sd 1 aw).
  { change 256%nat with (S 255). rewrite (after_calls_S 255).
    rewrite after_calls_one_byte by lia.
    unfold CounterObject_call. cbn [carry allow_wraparound truthy Z.eqb negb andb snd].
    rewrite increment_one_byte by (cbn; lia). reflexivity. }
  assert (Hcall : forall k, (1 <= k <= 256)%nat ->
            nth_call k (mkCounter pre post (pre ++ [byte.of_Z 0] ++ post)
               (Z.of_nat (length pre) + Z.of_nat (length post) + 1) (length pre) 1
               kind sd 0 aw)
            = PyUnicode_FromStringAndSize (pre ++ [byte.of_Z (Z.of_nat k - 1)] ++ post)).
  { intros k Hk. unfold nth_call. rewrite after_calls_one_byte by lia.
    unfold CounterObject_call. cbn [carry allow_wraparound truthy Z.eqb negb andb fst val].
    replace (Z.of_nat (pred k)) with (Z.of_nat k - 1) by lia. reflexivity. }
  refine (conj _ (conj _ (conj _ (conj _ (conj _ (conj _ _)))))).
  - intros k Hk. rewrite after_calls_one_byte by lia. split; reflexivity.
  - intros k Hk. rewrite (Hcall k Hk). split; [reflexivity|].
    destruct (FromStringAndSize_cases (pre ++ [byte.of_Z (Z.of_nat k - 1)] ++ post))
      as [(u & _ & ->) | (_ & ->)]; discriminate.
  - intros Hascii k Hk. rewrite (Hcall k) by lia.
    unfold PyUnicode_FromStringAndSize. rewrite utf8_decode_ascii.
    + rewrite !map_app. cbn [map]. rewrite byte.unsigned_of_Z.
      unfold byte.wrap. rewrite Z.mod_small by lia. reflexivity.
    + rewrite forallb_app in Hascii. apply andb_prop in Hascii as [Hp Hs].
      rewrite !forallb_app. cbn [forallb]. rewrite Hp, Hs, byte.unsigned_of_Z.
      unfold byte.wrap. rewrite Z.mod_small by lia.
      replace (Z.of_nat k - 1 <? 0x80) with true by (symmetry; apply Z.ltb_lt; lia).
      reflexivity.
  - rewrite H256. reflexivity.
  - rewrite H256. reflexivity.
  - intros ->. split.
    + unfold nth_call. change (pred 257) with 256%nat. rewrite H256. reflexivity.
    + change 257%nat with (S 256). rewrite (after_calls_S 256), H256. reflexivity.
  - intros Haw. unfold nth_call. change (pred 257) with 256%nat. rewrite H256.
    unfold CounterObject_call. cbn [carry allow_wraparound fst val].
    unfold truthy. apply Z.eqb_neq in Haw. rewrite Haw. reflexivity.
Qed.

(** The counter used in the examples: big endian, prefix [07], suffix
    [09], one-byte initial value 0, no wraparound. *)
Lemma one_byte_counter_calls_witness :
  exists c0,
    CounterObject_init BigEndian (bytes [7]) (bytes [9]) [byte.of_Z 0] 0 0 = Ok c0
    /\ nth_call 1 c0 = Ok [7; 0; 9]
    /\ val (after_calls 255 c0) = bytes [7; 255; 9]
    /\ nth_call 257 c0 = Raise OverflowError_counter_wrapped.
Proof.
  eexists. split; [reflexivity|].
  destruct (one_byte_counter_calls BigEndian (bytes [7]) (bytes [9]) 0 0 _ eq_refl)
    as (Hval & _ & Hk & _ & _ & Hfail & _).
  split; [apply (Hk eq_refl 1%nat); lia | ].
  split; [exact (proj1 (Hval 255%nat (le_n 255))) | exact (proj1 (Hfail eq_refl))].
Defined.

(** C2, as the specification states it, fails twice.  The 256th call is
    not refused with the overflow error: the carry is still clear when it
    is made, and the guard stops the 257th call.  And not all of the
    first 255 calls succeed: from the 129th on the field byte is above
    [0x7F], the buffer is not UTF-8, and the call raises the decoding
    error (and increments the counter). *)
Lemma call_256_not_refused :
  exists c0,
    CounterObject_init BigEndian (bytes [7]) (bytes [9]) [byte.of_Z 0] 0 0 = Ok c0
    /\ carry (after_calls 255 c0) = 0
    /\ nth_call 256 c0 = PyUnicode_FromStringAndSize (bytes [7; 255; 9])
    /\ nth_call 256 c0 <> Raise OverflowError_counter_wrapped
    /\ nth_call 129 c0 = Raise UnicodeDecodeError_utf8
    /\ nth_call 257 c0 = Raise OverflowError_counter_wrapped.
Proof.
  eexists. split; [reflexivity|].
  split; [vm_compute; reflexivity|]. split; [vm_compute; reflexivity|].
  split; [vm_compute; discriminate|]. split; vm_compute; reflexivity.
Qed.

(** C6: while the carry is set and wraparound is not allowed, [next()]
    raises the overflow error before anything is returned or changed, and
    [next_value] raises it too. *)
Theorem overflow_checked_before_output self :
  carry self <> 0 -> allow_wraparound self = 0 ->
  CounterObject_call self = (Raise OverflowError_counter_wrapped, self)
  /\ (forall little_endian,
        _CounterObject_next_value self little_endian = Raise OverflowError_counter_wrapped)
  /\ next_value self = Raise OverflowError_counter_wrapped.
Proof.
  intros Hc Ha.
  assert (Hguard : truthy (carry self) && negb (truthy (allow_wraparound self)) = true).
  { unfold truthy. rewrite Ha. apply Z.eqb_neq in Hc. rewrite Hc. reflexivity. }
  refine (conj _ (conj _ _)).
  - unfold CounterObject_call. rewrite Hguard. reflexivity.
  - intros le. unfold _CounterObject_next_value. rewrite Hguard. reflexivity.
  - unfold next_value, CounterLEObject_next_value, CounterBEObject_next_value,
      _CounterObject_next_value.
    rewrite Hguard. destruct (inc_func self); reflexivity.
Qed.

(** A wrapped counter: the one-byte field after 256 calls. *)
Lemma overflow_checked_before_output_witness :
  after_calls 256 (mkCounter (bytes [7]) (bytes [9]) (bytes [7; 0; 9]) 3 1 1 BigEndian 0 0 0)
  = wrapped_counter
  /\ CounterObject_call wrapped_counter = (Raise OverflowError_counter_wrapped, wrapped_counter)
  /\ next_value wrapped_counter = Raise OverflowError_counter_wrapped.
Proof.
  split; [vm_compute; reflexivity|].
  destruct (overflow_checked_before_output wrapped_counter) as (Hcall & _ & Hnv).
  - cbn. discriminate.
  - reflexivity.
  - split; assumption.
Defined.

End CounterFacts.

(** ** The mode engine: what a call leaves alone *)

(** Evaluates the tests on a mode that is a known number. *)
Ltac simp_mode :=
  cbn [Z.eqb Pos.eqb negb andb fst];
  rewrite ?Bool.andb_true_r, ?Bool.andb_false_r;
  cbn [Z.eqb Pos.eqb negb andb fst].

(** One mode of the length-error equivalence, the checks evaluated: the
    work of the mode returns [Ok]. *)
Ltac length_case_ok :=
  repeat match goal with
         | |- context [let '(_, _) := ?x in _] => destruct x
         end;
  cbn [fst];
  split;
  [ intros (e & He & _); discriminate
  | intros [[Hm' Hn] | [Hm' Hn]]; try contradiction; try lia; try discriminate ].

Ltac length_case_raise err :=
  split;
  [ intros _; tauto
  | intros _; exists err; split; [reflexivity | tauto] ].

Section EngineFacts.

Context {C : BlockCipher}.

Lemma frame_refl (a : ALGobject) : frame a a.
Proof. unfold frame; intuition. Qed.

Lemma frame_trans (a b c : ALGobject) : frame a b -> frame b c -> frame a c.
Proof. unfold frame; intuition congruence. Qed.

Lemma frame_set_IV (a : ALGobject) v : frame a (set_IV a v).
Proof. unfold frame; cbn; intuition. Qed.

Lemma frame_set_count (a : ALGobject) n : frame a (set_count a n).
Proof. unfold frame; cbn; intuition. Qed.

Lemma frame_set_counter (a : ALGobject) o : frame a (set_counter a o).
Proof. unfold frame; cbn; intuition. Qed.

Lemma frame_encrypt_into_IV (a : ALGobject) inp : frame a (encrypt_into_IV a inp).
Proof. apply frame_set_IV. Qed.

Lemma frame_xor_into_IV (a : ALGobject) off str n : frame a (snd (xor_into_IV a off str n)).
Proof. apply frame_set_IV. Qed.

Lemma frame_swap_into_IV (a : ALGobject) off str n : frame a (snd (swap_into_IV a off str n)).
Proof. apply frame_set_IV. Qed.

Lemma frame_cfb_shift (a : ALGobject) seg : frame a (cfb_shift a seg).
Proof.
  unfold cfb_shift.
  destruct (segment_size a =? BLOCK_SIZE * 8); [apply frame_set_IV|].
  destruct (Z.rem (segment_size a) 8 =? 0); [apply frame_set_IV | apply frame_refl].
Qed.

Create HintDb frame.
#[local] Hint Resolve frame_refl frame_set_IV frame_set_count frame_set_counter
  frame_encrypt_into_IV frame_xor_into_IV frame_swap_into_IV frame_cfb_shift : frame.

(** A loop keeps every preorder its body keeps. *)
Lemma for_blocks_keeps (R : ALGobject -> ALGobject -> Prop) body step :
  (forall a, R a a) -> (forall a b c, R a b -> R b c -> R a c) ->
  (forall s str, R s (snd (body s str))) ->
  forall fuel s str, R s (snd (for_blocks body step fuel s str)).
Proof.
  intros Hrefl Htrans Hbody. induction fuel as [|fuel IH]; intros s str; cbn [for_blocks].
  - apply Hrefl.
  - destruct (0 <? len str); [|apply Hrefl].
    specialize (Hbody s str). destruct (body s str) as [out s1].
    specialize (IH s1 (skipn (Z.to_nat step) str)).
    destruct (for_blocks body step fuel s1 (skipn (Z.to_nat step) str)) as [rest s2].
    cbn [snd] in *. eauto.
Qed.

Lemma frame_for_blocks body step :
  (forall s str, frame s (snd (body s str))) ->
  forall fuel s str, frame s (snd (for_blocks body step fuel s str)).
Proof. apply for_blocks_keeps; [apply frame_refl | apply frame_trans]. Qed.

Lemma frame_pgp_encrypt_blocks fuel :
  forall s str, frame s (snd (fst (pgp_encrypt_blocks fuel s str))).
Proof.
  induction fuel as [|fuel IH]; intros s str; cbn [pgp_encrypt_blocks].
  - apply frame_refl.
  - destruct (BLOCK_SIZE <? len str); [|apply frame_refl].
    cbn [xor_into_IV].
    match goal with |- context [pgp_encrypt_blocks fuel ?s1 ?r] =>
      specialize (IH s1 r); destruct (pgp_encrypt_blocks fuel s1 r) as [[rest s3] more] end.
    cbn [fst snd] in *.
    eapply frame_trans; [|exact IH].
    eapply frame_trans; [apply frame_encrypt_into_IV | apply frame_set_IV].
Qed.

Lemma frame_pgp_decrypt_blocks fuel :
  forall s str, frame s (snd (fst (pgp_decrypt_blocks fuel s str))).
Proof.
  induction fuel as [|fuel IH]; intros s str; cbn [pgp_decrypt_blocks].
  - apply frame_refl.
  - destruct (BLOCK_SIZE <? len str); [|apply frame_refl].
    cbn [swap_into_IV].
    match goal with |- context [pgp_decrypt_blocks fuel ?s1 ?r] =>
      specialize (IH s1 r); destruct (pgp_decrypt_blocks fuel s1 r) as [[rest s3] more] end.
    cbn [fst snd] in *.
    eapply frame_trans; [|exact IH].
    eapply frame_trans; [apply frame_encrypt_into_IV | apply frame_set_IV].
Qed.

Lemma frame_pgp_encrypt s str : frame s (snd (pgp_encrypt s str)).
Proof.
  unfold pgp_encrypt. destruct (len str <=? BLOCK_SIZE - count s).
  - cbn [xor_into_IV snd]. eapply frame_trans; [apply frame_set_IV | apply frame_set_count].
  - cbn [xor_into_IV].
    match goal with |- context [pgp_encrypt_blocks ?f ?s1 ?r] =>
      pose proof (frame_pgp_encrypt_blocks f s1 r) as H;
      destruct (pgp_encrypt_blocks f s1 r) as [[mid s3] more] end.
    cbn [fst snd] in *.
    repeat (eapply frame_trans; [|apply frame_set_IV || apply frame_set_count]).
    eapply frame_trans; [|exact H].
    eapply frame_trans; [apply frame_set_IV | apply frame_set_count].
Qed.

Lemma frame_pgp_decrypt s str : frame s (snd (pgp_decrypt s str)).
Proof.
  unfold pgp_decrypt. destruct (len str <=? BLOCK_SIZE - count s).
  - cbn [swap_into_IV snd]. eapply frame_trans; [apply frame_set_IV | apply frame_set_count].
  - cbn [swap_into_IV].
    match goal with |- context [pgp_decrypt_blocks ?f ?s1 ?r] =>
      pose proof (frame_pgp_decrypt_blocks f s1 r) as H;
      destruct (pgp_decrypt_blocks f s1 r) as [[mid s3] more] end.
    cbn [fst snd] in *.
    repeat (eapply frame_trans; [|apply frame_set_IV || apply frame_set_count]).
    eapply frame_trans; [|exact H].
    eapply frame_trans; [apply frame_set_IV | apply frame_set_count].
Qed.

Lemma frame_ctr_refill s : frame s (snd (ctr_refill s)).
Proof.
  unfold ctr_refill. destruct (truthy (counter_shortcut s)).
  - destruct (counter s) as [[ctr| |]|]; cbn [snd]; auto with frame.
    destruct (truthy (Counter.carry ctr) && negb (truthy (Counter.allow_wraparound ctr)));
      cbn [snd]; auto with frame.
    destruct (negb (Counter.buf_size ctr =? BLOCK_SIZE)); cbn [snd]; auto with frame.
    eapply frame_trans; [apply frame_encrypt_into_IV | apply frame_set_counter].
  - destruct (counter s) as [o|]; cbn [snd]; auto with frame.
    destruct (PyObject_CallObject o) as [r o'].
    destruct r as [[v|]|e]; cbn [snd]; auto with frame.
    destruct (negb (Z.of_nat (length v) =? BLOCK_SIZE)); cbn [snd]; auto with frame.
    destruct (PyUnicode_AsASCIIString v); cbn [snd]; auto with frame.
    eapply frame_trans; [apply frame_set_counter | apply frame_encrypt_into_IV].
Qed.

Lemma frame_ctr_loop fuel : forall s str, frame s (snd (ctr_loop fuel s str)).
Proof.
  induction fuel as [|fuel IH]; intros s str; cbn [ctr_loop]; [apply frame_refl|].
  destruct (0 <? len str); [|apply frame_refl].
  destruct (len str <=? BLOCK_SIZE - count s).
  - cbn [xor_into_IV snd]. eapply frame_trans; [apply frame_set_IV | apply frame_set_count].
  - cbn [xor_into_IV].
    match goal with |- context [ctr_refill ?s2] =>
      pose proof (frame_ctr_refill s2) as Hr; destruct (ctr_refill s2) as [[u|e] s3] end;
      cbn [snd] in *.
    + match goal with |- context [ctr_loop fuel ?s4 ?r] =>
        specialize (IH s4 r); destruct (ctr_loop fuel s4 r) as [[rest|e] s5] end;
        cbn [snd] in *.
      all: eapply frame_trans; [|exact IH].
      all: eapply frame_trans; [|apply frame_set_count].
      all: eapply frame_trans; [|exact Hr].
      all: eapply frame_trans; [apply frame_set_IV | apply frame_set_count].
    + eapply frame_trans; [|exact Hr].
      eapply frame_trans; [apply frame_set_IV | apply frame_set_count].
Qed.

(** [ALG_Encrypt] writes nothing but [IV], [count] and the counter. *)
Lemma frame_ALG_Encrypt s str : frame s (snd (ALG_Encrypt s str)).
Proof.
  unfold ALG_Encrypt.
  repeat match goal with
         | |- context [if ?b then _ else _] => destruct b
         | |- frame _ (snd (_, _)) => cbn [snd]
         | |- frame ?a ?a => apply frame_refl
         end.
  - pose proof (frame_for_blocks ecb_encrypt_body BLOCK_SIZE
                  (fun a _ => frame_refl a) (length str) s str) as H.
    destruct (for_blocks ecb_encrypt_body BLOCK_SIZE (length str) s str); exact H.
  - pose proof (frame_for_blocks cbc_encrypt_body BLOCK_SIZE
                  (fun a _ => frame_set_IV a _) (length str) s str) as H.
    destruct (for_blocks cbc_encrypt_body BLOCK_SIZE (length str) s str); exact H.
  - pose proof (frame_for_blocks cfb_encrypt_body (Z.quot (segment_size s) 8)
                  (fun a _ => frame_cfb_shift a _) (length str) s str) as H.
    destruct (for_blocks cfb_encrypt_body _ (length str) s str); exact H.
  - pose proof (frame_pgp_encrypt s str) as H.
    destruct (pgp_encrypt s str); exact H.
  - pose proof (frame_for_blocks ofb_encrypt_body BLOCK_SIZE
                  (fun a _ => frame_set_IV a _) (length str) s str) as H.
    destruct (for_blocks ofb_encrypt_body BLOCK_SIZE (length str) s str); exact H.
  - apply frame_ctr_loop.
Qed.

(** [ALG_Decrypt] writes [oldCipher] in CBC mode only. *)
Lemma frame_ALG_Decrypt s str : mode s <> MODE_CBC -> frame s (snd (ALG_Decrypt s str)).
Proof.
  intros Hm. unfold ALG_Decrypt.
  destruct (truthy (prf_mode s)); [apply frame_refl|].
  destruct (mode s =? MODE_CTR); [apply frame_ALG_Encrypt|].
  destruct (mode s =? MODE_CBC) eqn:Ecbc; [apply Z.eqb_eq in Ecbc; contradiction|].
  repeat match goal with
         | |- context [if ?b then _ else _] => destruct b
         | |- frame _ (snd (_, _)) => cbn [snd]
         | |- frame ?a ?a => apply frame_refl
         end.
  - pose proof (frame_for_blocks ecb_decrypt_body BLOCK_SIZE
                  (fun a _ => frame_refl a) (length str) s str) as H.
    destruct (for_blocks ecb_decrypt_body BLOCK_SIZE (length str) s str); exact H.
  - pose proof (frame_for_blocks cfb_decrypt_body (Z.quot (segment_size s) 8)
                  (fun a _ => frame_cfb_shift a _) (length str) s str) as H.
    destruct (for_blocks cfb_decrypt_body _ (length str) s str); exact H.
  - pose proof (frame_pgp_decrypt s str) as H.
    destruct (pgp_decrypt s str); exact H.
  - pose proof (frame_for_blocks ofb_decrypt_body BLOCK_SIZE
                  (fun a _ => frame_set_IV a _) (length str) s str) as H.
    destruct (for_blocks ofb_decrypt_body BLOCK_SIZE (length str) s str); exact H.
Qed.

Lemma frame_ALG_Sync s : frame s (snd (ALG_Sync s)).
Proof.
  unfold ALG_Sync. destruct (negb (mode s =? MODE_PGP)); [apply frame_refl|].
  destruct (negb (count s =? 8)); cbn [snd]; [|apply frame_refl].
  eapply frame_trans; [apply frame_set_IV | apply frame_set_count].
Qed.

(** No method changes the mode or the segment size: every engine reached
    from one with a valid configuration has a valid configuration. *)
Lemma run_call_keeps_config self c :
  mode (run_call self c) = mode self /\ segment_size (run_call self c) = segment_size self.
Proof.
  assert (Hf : forall s', frame self s' ->
            mode s' = mode self /\ segment_size s' = segment_size self).
  { unfold frame. intros s' F. tauto. }
  destruct c as [str | str | | v]; cbn [run_call].
  - apply Hf, frame_ALG_Encrypt.
  - destruct (Z.eq_dec (mode self) MODE_CBC) as [Hcbc | Hcbc];
      [|apply Hf, frame_ALG_Decrypt, Hcbc].
    unfold ALG_Decrypt. rewrite Hcbc.
    unfold MODE_ECB, MODE_CBC, MODE_CFB, MODE_PGP, MODE_OFB, MODE_CTR. simp_mode.
    repeat match goal with
           | |- context [if ?b then _ else _] => destruct b
           end; cbn [snd]; auto.
    pose proof (for_blocks_keeps
                  (fun a b => mode b = mode a /\ segment_size b = segment_size a)
                  cbc_decrypt_body BLOCK_SIZE) as H.
    specialize (H (fun a => conj eq_refl eq_refl)).
    specialize (H (fun a b c Hab Hbc =>
                     conj (eq_trans (proj1 Hbc) (proj1 Hab))
                          (eq_trans (proj2 Hbc) (proj2 Hab)))).
    specialize (H (fun s str => conj eq_refl eq_refl) (length str) self str).
    destruct (for_blocks cbc_decrypt_body BLOCK_SIZE (length str) self str).
    cbn [snd] in *. unfold MODE_CBC in Hcbc. rewrite <- Hcbc. exact H.
  - apply Hf, frame_ALG_Sync.
  - unfold ALG_SetMode. destruct (v >=? 1); cbn; auto.
Qed.

Lemma run_calls_keep_config cs : forall self,
  config_ok self -> config_ok (run_calls self cs).
Proof.
  unfold run_calls. induction cs as [|c cs IH]; intros self Hok; cbn [fold_left]; [exact Hok|].
  apply IH. unfold config_ok in *.
  destruct (run_call_keeps_config self c) as [-> ->]. exact Hok.
Qed.


Lemma ctr_refill_raise s e s' :
  ctr_refill s = (Raise e, s') -> is_refill_error e /\ count s' = count s.
Proof.
  unfold ctr_refill, is_refill_error. intros H.
  destruct (truthy (counter_shortcut s)).
  - destruct (counter s) as [[ctr| |]|]; try (injection H as <- <-; tauto).
    destruct (truthy (Counter.carry ctr) && negb (truthy (Counter.allow_wraparound ctr)));
      [injection H as <- <-; tauto|].
    destruct (negb (Counter.buf_size ctr =? BLOCK_SIZE));
      [injection H as <- <-; tauto | discriminate].
  - destruct (counter s) as [o|]; [|injection H as <- <-; tauto].
    destruct o as [ctr|f n|]; cbn [PyObject_CallObject] in H.
    + unfold Counter.CounterObject_call in H.
      destruct (truthy (Counter.carry ctr) && negb (truthy (Counter.allow_wraparound ctr))).
      * injection H as <- <-. cbn. tauto.
      * unfold PyUnicode_FromStringAndSize in H.
        destruct (utf8_decode (Counter.val ctr)) as [v|];
          [|injection H as <- <-; cbn; tauto].
        destruct (negb (Z.of_nat (length v) =? BLOCK_SIZE));
          [injection H as <- <-; cbn; tauto|].
        destruct (PyUnicode_AsASCIIString v);
          [discriminate | injection H as <- <-; cbn; tauto].
    + destruct (f n) as [[v|]|].
      * destruct (negb (Z.of_nat (length v) =? BLOCK_SIZE));
          [injection H as <- <-; cbn; tauto|].
        destruct (PyUnicode_AsASCIIString v);
          [discriminate | injection H as <- <-; cbn; tauto].
      * injection H as <- <-; cbn; tauto.
      * injection H as <- <-; cbn; tauto.
    + injection H as <- <-; cbn; tauto.
Qed.

(** A failing CTR loop fails in a refill, just after the keystream block
    in use has been consumed: [count] is left at [BLOCK_SIZE]. *)
Lemma ctr_loop_raise fuel : forall s str e s',
  ctr_loop fuel s str = (Raise e, s') -> is_refill_error e /\ count s' = BLOCK_SIZE.
Proof.
  induction fuel as [|fuel IH]; intros s str e s' H; cbn [ctr_loop] in H; [discriminate|].
  destruct (0 <? len str); [|discriminate].
  destruct (len str <=? BLOCK_SIZE - count s); [discriminate|].
  cbn [xor_into_IV] in H.
  match type of H with context [ctr_refill ?s2] =>
    destruct (ctr_refill s2) as [[u|e2] s3] eqn:Hr end.
  - match type of H with context [ctr_loop fuel ?s4 ?r] =>
      destruct (ctr_loop fuel s4 r) as [[rest|e3] s5] eqn:Hl end; [discriminate|].
    injection H as <- <-. eapply IH; eassumption.
  - injection H as <- <-. apply ctr_refill_raise in Hr. cbn in Hr. tauto.
Qed.

Lemma refill_error_not_length e : is_refill_error e -> ~ is_length_error e.
Proof. unfold is_refill_error, is_length_error. intuition congruence. Qed.

(** The first two tests of [ALG_Decrypt]. *)
Lemma ALG_Decrypt_prf self str :
  prf_mode self <> 0 ->
  ALG_Decrypt self str = (Raise ValueError_decrypt_disabled, self).
Proof.
  intros H. unfold ALG_Decrypt, truthy. apply Z.eqb_neq in H. rewrite H. reflexivity.
Qed.

Lemma ALG_Decrypt_CTR self str :
  mode self = MODE_CTR -> prf_mode self = 0 ->
  ALG_Decrypt self str = ALG_Encrypt self str.
Proof.
  intros Hm Hp. unfold ALG_Decrypt, truthy. rewrite Hp, Hm. reflexivity.
Qed.

Lemma ALG_Decrypt_empty self :
  prf_mode self = 0 -> ALG_Decrypt self [] = (Ok [], self).
Proof.
  intros H. unfold ALG_Decrypt, truthy. rewrite H. cbn [Z.eqb negb].
  destruct (mode self =? MODE_CTR); reflexivity.
Qed.

(** ** The claims on single calls *)

(** C9: on an engine in PRF-only mode every [decrypt] is rejected with
    the "decrypt function not enabled" error, whatever the mode and the
    input, and the engine is left exactly as it was. *)
Theorem decrypt_rejected_in_prf_mode self str :
  prf_mode self <> 0 ->
  ALG_Decrypt self str = (Raise ValueError_decrypt_disabled, self).
Proof.
  intros Hprf. unfold ALG_Decrypt.
  assert (Hset : truthy (prf_mode self) = true).
  { unfold truthy. apply Z.eqb_neq in Hprf. rewrite Hprf. reflexivity. }
  rewrite Hset. reflexivity.
Qed.

(** C8 (as amended): empty input to [encrypt] gives empty output and
    leaves the whole engine unchanged; so does empty input to [decrypt]
    on an engine that is not in PRF-only mode; on a PRF-only engine
    [decrypt] of the empty input is rejected like any other, the engine
    unchanged. *)
Theorem empty_input_is_identity self :
  ALG_Encrypt self [] = (Ok [], self)
  /\ (prf_mode self = 0 -> ALG_Decrypt self [] = (Ok [], self))
  /\ (prf_mode self <> 0 -> ALG_Decrypt self [] = (Raise ValueError_decrypt_disabled, self)).
Proof.
  split; [|split].
  - (* the test on the length is the first of [ALG_Encrypt] *)
    reflexivity.
  - intros Hprf. unfold ALG_Decrypt, truthy. rewrite Hprf. cbn [Z.eqb negb].
    destruct (mode self =? MODE_CTR); reflexivity.
  - (* the test on [prf_mode] comes before the one on the length *)
    intros Hprf. unfold ALG_Decrypt, truthy.
    apply Z.eqb_neq in Hprf. rewrite Hprf. reflexivity.
Qed.

(** C5 (as amended): on a CTR engine that is not in PRF-only mode,
    [decrypt] is [encrypt]: same output, same new state. *)
Theorem ctr_decrypt_is_encrypt self str :
  mode self = MODE_CTR -> prf_mode self = 0 ->
  ALG_Decrypt self str = ALG_Encrypt self str.
Proof.
  intros Hmode Hprf. unfold ALG_Decrypt.
  assert (Hclear : truthy (prf_mode self) = false) by (unfold truthy; now rewrite Hprf).
  assert (Hctr : (mode self =? MODE_CTR) = true) by now apply Z.eqb_eq.
  rewrite Hclear, Hctr. reflexivity.
Qed.

Lemma segment_bytes_pos self :
  config_ok self -> mode self = MODE_CFB -> 0 < Z.quot (segment_size self) 8.
Proof.
  intros [_ Hc] Hm. destruct (Hc Hm) as [[Hlo _] Hland].
  change 7 with (Z.ones 3) in Hland. rewrite Z.land_ones in Hland by lia.
  change (2 ^ 3) with 8 in Hland.
  rewrite Z.quot_div_nonneg by lia.
  pose proof (Z.div_mod (segment_size self) 8 ltac:(lia)). lia.
Qed.

Lemma rem_zero_iff_divide (a b : Z) : 0 < b -> (Z.rem a b =? 0) = true <-> (b | a).
Proof.
  intros Hb. rewrite Z.eqb_eq. apply Z.rem_divide. lia.
Qed.

(** The length checks of [ALG_Encrypt], alone. *)
Lemma ALG_Encrypt_length_error self str :
  0 < BLOCK_SIZE -> config_ok self ->
  fails_with_length_error (fst (ALG_Encrypt self str)) <-> bad_length self str.
Proof.
  intros Hbs Hok. pose proof (segment_bytes_pos self Hok) as Hseg. destruct Hok as [Hrange _].
  unfold fails_with_length_error, is_length_error, bad_length, ALG_Encrypt.
  unfold MODE_ECB, MODE_CBC, MODE_CFB, MODE_PGP, MODE_OFB, MODE_CTR in *.
  assert (Hcases : mode self = 1 \/ mode self = 2 \/ mode self = 3 \/ mode self = 4
                   \/ mode self = 5 \/ mode self = 6) by lia.
  destruct (len str =? 0) eqn:E0.
  { apply Z.eqb_eq in E0. rewrite E0. cbn [fst]. split.
    - intros (e & He & _). discriminate.
    - intros [[_ H] | [_ H]]; exfalso; apply H; apply Z.divide_0_r. }
  destruct (Z.rem (len str) BLOCK_SIZE =? 0) eqn:Eb;
    [apply rem_zero_iff_divide in Eb; [|lia] |
     assert (Hnb : ~ (BLOCK_SIZE | len str))
       by (intros Hd; apply rem_zero_iff_divide in Hd; [congruence | lia])].
  all: destruct Hcases as [Hm|[Hm|[Hm|[Hm|[Hm|Hm]]]]]; rewrite Hm in *; simp_mode.
  all: try (specialize (Hseg eq_refl);
            destruct (Z.rem (len str) (Z.quot (segment_size self) 8) =? 0) eqn:Es;
            [apply rem_zero_iff_divide in Es; [|lia] |
             assert (Hns : ~ (Z.quot (segment_size self) 8 | len str))
               by (intros Hd; apply rem_zero_iff_divide in Hd; [congruence | lia])];
            simp_mode).
  all: try solve [length_case_ok].
  all: try solve [length_case_raise ValueError_block_multiple].
  all: try solve [length_case_raise ValueError_segment_multiple].
  (* CTR: a failure of the loop is a refill error *)
  all: destruct (ctr_loop (S (S (length str))) self str) as [[out|e] s'] eqn:Hl;
    cbn [fst];
    (split;
     [ intros (e' & He & Hle); try discriminate; injection He as <-;
       apply ctr_loop_raise in Hl; destruct Hl as [Hre _];
       apply refill_error_not_length in Hre; contradiction
     | intros [[Hm' Hn] | [Hm' Hn]]; lia ]).
Qed.

(** The length checks of [ALG_Decrypt] on an engine that may decrypt. *)
Lemma ALG_Decrypt_length_error self str :
  0 < BLOCK_SIZE -> config_ok self -> prf_mode self = 0 ->
  fails_with_length_error (fst (ALG_Decrypt self str)) <-> bad_length self str.
Proof.
  intros Hbs Hok Hprf.
  destruct (Z.eq_dec (mode self) MODE_CTR) as [Hctr | Hctr].
  { rewrite ALG_Decrypt_CTR by assumption. now apply ALG_Encrypt_length_error. }
  pose proof (segment_bytes_pos self Hok) as Hseg. destruct Hok as [Hrange _].
  unfold fails_with_length_error, is_length_error, bad_length, ALG_Decrypt, truthy.
  rewrite Hprf.
  unfold MODE_ECB, MODE_CBC, MODE_CFB, MODE_PGP, MODE_OFB, MODE_CTR in *.
  assert (Hcases : mode self = 1 \/ mode self = 2 \/ mode self = 3 \/ mode self = 4
                   \/ mode self = 5) by lia.
  destruct (len str =? 0) eqn:E0.
  { apply Z.eqb_eq in E0. rewrite E0.
    destruct Hcases as [Hm|[Hm|[Hm|[Hm|Hm]]]]; rewrite Hm in *; simp_mode.
    all: split; [intros (e & He & _); discriminate
                | intros [[_ H] | [_ H]]; exfalso; apply H; apply Z.divide_0_r]. }
  destruct (Z.rem (len str) BLOCK_SIZE =? 0) eqn:Eb;
    [apply rem_zero_iff_divide in Eb; [|lia] |
     assert (Hnb : ~ (BLOCK_SIZE | len str))
       by (intros Hd; apply rem_zero_iff_divide in Hd; [congruence | lia])].
  all: destruct Hcases as [Hm|[Hm|[Hm|[Hm|Hm]]]]; rewrite Hm in *; simp_mode.
  all: try (specialize (Hseg eq_refl);
            destruct (Z.rem (len str) (Z.quot (segment_size self) 8) =? 0) eqn:Es;
            [apply rem_zero_iff_divide in Es; [|lia] |
             assert (Hns : ~ (Z.quot (segment_size self) 8 | len str))
               by (intros Hd; apply rem_zero_iff_divide in Hd; [congruence | lia])];
            simp_mode).
  all: try solve [length_case_ok].
  all: try solve [length_case_raise ValueError_block_multiple].
  all: try solve [length_case_raise ValueError_segment_multiple].
Qed.

(** C7 (as amended): [encrypt], and [decrypt] on an engine that is not in
    PRF-only mode, fail with a length error exactly when the input length
    is not a multiple of the block size in modes ECB, CBC and OFB, or not
    a multiple of [segment_size/8] in mode CFB.  In particular no length
    is refused in modes PGP and CTR, and PGP mode returns an output for
    every input. *)
Theorem length_error_iff_bad_length self str :
  0 < BLOCK_SIZE -> config_ok self ->
  (fails_with_length_error (fst (ALG_Encrypt self str)) <-> bad_length self str)
  /\ (prf_mode self = 0 ->
      (fails_with_length_error (fst (ALG_Decrypt self str)) <-> bad_length self str))
  /\ (mode self = MODE_PGP \/ mode self = MODE_CTR ->
      ~ fails_with_length_error (fst (ALG_Encrypt self str))
      /\ (prf_mode self = 0 -> ~ fails_with_length_error (fst (ALG_Decrypt self str))))
  /\ (mode self = MODE_PGP ->
      (exists out, fst (ALG_Encrypt self str) = Ok out)
      /\ (prf_mode self = 0 -> exists out, fst (ALG_Decrypt self str) = Ok out)).
Proof.
  intros Hbs Hok.
  pose proof (ALG_Encrypt_length_error self str Hbs Hok) as He.
  pose proof (ALG_Decrypt_length_error self str Hbs Hok) as Hd.
  assert (Hgood : mode self = MODE_PGP \/ mode self = MODE_CTR -> ~ bad_length self str).
  { unfold bad_length, MODE_ECB, MODE_CBC, MODE_CFB, MODE_PGP, MODE_OFB, MODE_CTR. lia. }
  refine (conj He (conj Hd (conj _ _))).
  - intros Hm. split; [|intros Hp; specialize (Hd Hp)]; tauto.
  - intros Hm. unfold ALG_Encrypt, ALG_Decrypt, truthy. rewrite Hm.
    unfold MODE_ECB, MODE_CBC, MODE_CFB, MODE_PGP, MODE_OFB, MODE_CTR. simp_mode.
    split; [|intros ->; simp_mode].
    all: destruct (len str =? 0); cbn [fst]; [eexists; reflexivity|].
    + destruct (pgp_encrypt self str). eexists; reflexivity.
    + destruct (pgp_decrypt self str). eexists; reflexivity.
Qed.

(** *** What [ALGnew] returns *)

Lemma ALGnew_inv key m iv ctr seg self :
  ALGnew key m iv ctr seg = Ok self ->
  exists shortcut state,
    self = mkALG m (if m =? MODE_PGP then 8 else BLOCK_SIZE)
                 (if (m =? MODE_CFB) && (seg =? 0) then 8 else seg) 0
                 (memcpy (zeros BLOCK_SIZE) 0 iv (len iv)) (zeros BLOCK_SIZE)
                 ctr shortcut state
    /\ block_init key = Some state
    /\ (len iv = BLOCK_SIZE \/ len iv = 0)
    /\ MODE_ECB <= m <= MODE_CTR
    /\ (m = MODE_CFB ->
        1 <= segment_size self <= BLOCK_SIZE * 8 /\ Z.land (segment_size self) 7 = 0)
    /\ (m = MODE_CTR ->
        exists o, ctr = Some o
                  /\ ((has_shortcut o = true /\ shortcut = 1)
                      \/ (has_shortcut o = false /\ PyCallable_Check o = true
                          /\ shortcut = 0)))
    /\ (m <> MODE_CTR -> ctr = None /\ shortcut = 0).
Proof.
  unfold ALGnew. intros H.
  destruct (negb (KEY_SIZE =? 0) && negb (len key =? KEY_SIZE)); [discriminate|].
  destruct ((KEY_SIZE =? 0) && (len key =? 0)); [discriminate|].
  destruct (negb (len iv =? BLOCK_SIZE) && negb (len iv =? 0)) eqn:Eiv; [discriminate|].
  destruct ((m <? MODE_ECB) || (m >? MODE_CTR)) eqn:Em; [discriminate|].
  set (seg' := if (m =? MODE_CFB) && (seg =? 0) then 8 else seg) in *.
  destruct ((m =? MODE_CFB)
            && ((seg' <? 1) || (seg' >? BLOCK_SIZE * 8) || negb (Z.land seg' 7 =? 0)))
    eqn:Eseg; [discriminate|].
  assert (Hiv : len iv = BLOCK_SIZE \/ len iv = 0).
  { apply Bool.andb_false_iff in Eiv. rewrite !Bool.negb_false_iff, !Z.eqb_eq in Eiv. exact Eiv. }
  assert (Hm : MODE_ECB <= m <= MODE_CTR).
  { apply Bool.orb_false_iff in Em. destruct Em as [E1 E2].
    apply Z.ltb_ge in E1. rewrite Z.gtb_ltb in E2. apply Z.ltb_ge in E2. lia. }
  assert (Hseg : m = MODE_CFB -> 1 <= seg' <= BLOCK_SIZE * 8 /\ Z.land seg' 7 = 0).
  { intros ->. rewrite Z.eqb_refl in Eseg. cbn [andb] in Eseg.
    apply Bool.orb_false_iff in Eseg. destruct Eseg as [E12 E3].
    apply Bool.orb_false_iff in E12. destruct E12 as [E1 E2].
    apply Z.ltb_ge in E1. rewrite Z.gtb_ltb in E2. apply Z.ltb_ge in E2.
    apply Bool.negb_false_iff, Z.eqb_eq in E3. lia. }
  destruct (m =? MODE_CTR) eqn:Ectr;
    [apply Z.eqb_eq in Ectr | apply Z.eqb_neq in Ectr].
  - destruct ctr as [o|]; [|discriminate].
    destruct (has_shortcut o) eqn:Hs.
    + destruct (block_init key) as [state|]; [|discriminate].
      injection H as <-. exists 1, state. cbn [segment_size].
      repeat (split; [first [reflexivity | assumption]|]). split; [|contradiction].
      intros _. exists o. auto.
    + destruct (PyCallable_Check o) eqn:Hc; cbn [negb] in H; [|discriminate].
      destruct (block_init key) as [state|]; [|discriminate].
      injection H as <-. exists 0, state. cbn [segment_size].
      repeat (split; [first [reflexivity | assumption]|]). split; [|contradiction].
      intros _. exists o. auto.
  - destruct ctr as [o|]; [discriminate|].
    destruct (block_init key) as [state|]; [|discriminate].
    injection H as <-. exists 0, state. cbn [segment_size].
    repeat (split; [first [reflexivity | assumption]|]). split; [contradiction|auto].
Qed.

Lemma ALGnew_config_ok key m iv ctr seg self :
  ALGnew key m iv ctr seg = Ok self -> config_ok self /\ prf_mode self = 0.
Proof.
  intros H. destruct (ALGnew_inv _ _ _ _ _ _ H) as (sc & state & Hself & _ & _ & Hm & Hseg & _).
  unfold config_ok. rewrite Hself in *. cbn [mode prf_mode segment_size] in *. auto.
Qed.

(** *** Rejected calls *)




(** *** PGP mode never writes [oldCipher] *)

Lemma run_call_pgp self c :
  mode self = MODE_PGP ->
  mode (run_call self c) = MODE_PGP
  /\ oldCipher (run_call self c) = oldCipher self
  /\ st (run_call self c) = st self.
Proof.
  intros Hm.
  assert (Hf : forall s', frame self s' ->
     mode s' = MODE_PGP /\ oldCipher s' = oldCipher self /\ st s' = st self).
  { unfold frame. intros s' F. intuition congruence. }
  destruct c as [str | str | | v]; cbn [run_call].
  - apply Hf, frame_ALG_Encrypt.
  - apply Hf, frame_ALG_Decrypt. rewrite Hm. discriminate.
  - apply Hf, frame_ALG_Sync.
  - unfold ALG_SetMode. destruct (v >=? 1); cbn; auto.
Qed.

Lemma run_calls_pgp cs : forall self,
  mode self = MODE_PGP ->
  mode (run_calls self cs) = MODE_PGP
  /\ oldCipher (run_calls self cs) = oldCipher self
  /\ st (run_calls self cs) = st self.
Proof.
  unfold run_calls. induction cs as [|c cs IH]; intros self Hm; cbn [fold_left]; [auto|].
  destruct (run_call_pgp self c Hm) as (Hm1 & Ho1 & Hs1).
  destruct (IH _ Hm1) as (Hm2 & Ho2 & Hs2).
  intuition congruence.
Qed.

End EngineFacts.

(** ** The single-call claims on the example cipher *)

Section Examples.

#[local] Existing Instance caesar_cipher.


Lemma example_engines_built :
  ALGnew example_key MODE_CBC example_iv None 0 = Ok cbc_engine
  /\ ALGnew example_key MODE_PGP example_iv None 0 = Ok pgp_engine
  /\ ALGnew example_key MODE_CTR example_iv (Some (CounterObj (counter_at 0))) 0
     = Ok (ctr_engine 0)
  /\ ALGnew example_key MODE_CTR example_iv (Some (CounterObj (counter_at 255))) 0
     = Ok (ctr_engine 255)
  /\ ALG_SetMode cbc_engine 1 = (Ok tt, prf_only cbc_engine)
  /\ ALG_SetMode (ctr_engine 0) 1 = (Ok tt, prf_only (ctr_engine 0)).
Proof. repeat split; vm_compute; reflexivity. Qed.

Lemma decrypt_rejected_in_prf_mode_witness :
  prf_mode (prf_only cbc_engine) <> 0
  /\ ALG_Decrypt (prf_only cbc_engine) (bytes [1; 2; 3])
     = (Raise ValueError_decrypt_disabled, prf_only cbc_engine).
Proof.
  assert (H : prf_mode (prf_only cbc_engine) <> 0) by (cbn; discriminate).
  split; [exact H | exact (decrypt_rejected_in_prf_mode _ _ H)].
Defined.

Lemma empty_input_is_identity_witness :
  prf_mode cbc_engine = 0
  /\ ALG_Encrypt cbc_engine [] = (Ok [], cbc_engine)
  /\ ALG_Decrypt cbc_engine [] = (Ok [], cbc_engine).
Proof.
  destruct (empty_input_is_identity cbc_engine) as (He & Hd & _).
  split; [reflexivity|]. split; [exact He | exact (Hd eq_refl)].
Defined.

(** C8, as the specification states it, fails: on an engine put in
    PRF-only mode by [setMode(1)], [decrypt] of the empty input returns
    no output but the "decrypt function not enabled" error. *)
Lemma empty_decrypt_rejected_in_prf_mode :
  ALGnew example_key MODE_CBC example_iv None 0 = Ok cbc_engine
  /\ ALG_SetMode cbc_engine 1 = (Ok tt, prf_only cbc_engine)
  /\ ALG_Decrypt (prf_only cbc_engine) []
     = (Raise ValueError_decrypt_disabled, prf_only cbc_engine)
  /\ fst (ALG_Decrypt (prf_only cbc_engine) []) <> Ok [].
Proof.
  split; [apply example_engines_built|]. split; [apply example_engines_built|].
  split; [reflexivity | cbn; discriminate].
Qed.

Lemma ctr_decrypt_is_encrypt_witness :
  mode (ctr_engine 0) = MODE_CTR /\ prf_mode (ctr_engine 0) = 0
  /\ ALG_Decrypt (ctr_engine 0) (bytes [10; 20; 30])
     = ALG_Encrypt (ctr_engine 0) (bytes [10; 20; 30]).
Proof.
  split; [reflexivity|]. split; [reflexivity|].
  apply ctr_decrypt_is_encrypt; reflexivity.
Defined.

(** C5, as the specification states it, fails: on a CTR engine put in
    PRF-only mode, [encrypt] returns the ciphertext and [decrypt] of the
    same input is rejected. *)
Lemma ctr_decrypt_differs_in_prf_mode :
  ALGnew example_key MODE_CTR example_iv (Some (CounterObj (counter_at 0))) 0
  = Ok (ctr_engine 0)
  /\ ALG_SetMode (ctr_engine 0) 1 = (Ok tt, prf_only (ctr_engine 0))
  /\ mode (prf_only (ctr_engine 0)) = MODE_CTR
  /\ fst (ALG_Encrypt (prf_only (ctr_engine 0)) (bytes [10; 20; 30])) = Ok (bytes [9; 16; 27])
  /\ fst (ALG_Decrypt (prf_only (ctr_engine 0)) (bytes [10; 20; 30]))
     = Raise ValueError_decrypt_disabled
  /\ ALG_Decrypt (prf_only (ctr_engine 0)) (bytes [10; 20; 30])
     <> ALG_Encrypt (prf_only (ctr_engine 0)) (bytes [10; 20; 30]).
Proof.
  split; [apply example_engines_built|]. split; [apply example_engines_built|].
  split; [reflexivity|].
  assert (He : fst (ALG_Encrypt (prf_only (ctr_engine 0)) (bytes [10; 20; 30]))
               = Ok (bytes [9; 16; 27])) by (vm_compute; reflexivity).
  assert (Hd : fst (ALG_Decrypt (prf_only (ctr_engine 0)) (bytes [10; 20; 30]))
               = Raise ValueError_decrypt_disabled) by reflexivity.
  split; [exact He|]. split; [exact Hd|].
  intros H. rewrite H, He in Hd. discriminate Hd.
Qed.

Lemma three_not_multiple_of_eight (self : ALGobject) :
  mode self = MODE_ECB \/ mode self = MODE_CBC \/ mode self = MODE_OFB ->
  bad_length self (bytes [1; 2; 3]).
Proof.
  intros Hm. left. split; [exact Hm|].
  intros [k Hk]. change (3 = k * 8) in Hk. lia.
Qed.

Lemma cbc_engine_config_ok : config_ok cbc_engine /\ config_ok (prf_only cbc_engine).
Proof.
  split; (split; [cbv; split; discriminate | intros Hm; cbv in Hm; discriminate Hm]).
Qed.

Lemma length_error_iff_bad_length_witness :
  bad_length cbc_engine (bytes [1; 2; 3])
  /\ fails_with_length_error (fst (ALG_Encrypt cbc_engine (bytes [1; 2; 3])))
  /\ fails_with_length_error (fst (ALG_Decrypt cbc_engine (bytes [1; 2; 3]))).
Proof.
  assert (Hbad : bad_length cbc_engine (bytes [1; 2; 3]))
    by (apply three_not_multiple_of_eight; right; left; reflexivity).
  destruct (length_error_iff_bad_length cbc_engine (bytes [1; 2; 3]) eq_refl
              (proj1 cbc_engine_config_ok)) as (He & Hd & _).
  split; [exact Hbad|]. split; [apply He; exact Hbad | apply (Hd eq_refl); exact Hbad].
Defined.

(** C7, as the specification states it, fails: on an engine in PRF-only
    mode a [decrypt] whose input is not a multiple of the block size is
    rejected, but not with a length error. *)
Lemma bad_length_decrypt_in_prf_mode :
  ALGnew example_key MODE_CBC example_iv None 0 = Ok cbc_engine
  /\ ALG_SetMode cbc_engine 1 = (Ok tt, prf_only cbc_engine)
  /\ bad_length (prf_only cbc_engine) (bytes [1; 2; 3])
  /\ fst (ALG_Decrypt (prf_only cbc_engine) (bytes [1; 2; 3]))
     = Raise ValueError_decrypt_disabled
  /\ ~ fails_with_length_error (fst (ALG_Decrypt (prf_only cbc_engine) (bytes [1; 2; 3]))).
Proof.
  split; [apply example_engines_built|]. split; [apply example_engines_built|].
  split; [apply three_not_multiple_of_eight; right; left; reflexivity|].
  split; [reflexivity|].
  intros (e & He & Hl). cbn in He. injection He as <-.
  destruct Hl; discriminate.
Qed.




End Examples.

(** ** PGP mode: a stream cut in two chunks *)

Section PGPChunks.

Lemma bytes16 (p : list byte) :
  len p = 16 ->
  exists b0 b1 b2 b3 b4 b5 b6 b7 b8 b9 b10 b11 b12 b13 b14 b15,
    p = [b0; b1; b2; b3; b4; b5; b6; b7; b8; b9; b10; b11; b12; b13; b14; b15].
Proof.
  unfold len. intros H.
  do 16 (destruct p as [|? p]; [simpl length in H; lia|]).
  destruct p; [|simpl length in H; lia].
  repeat eexists.
Qed.

Lemma bytes8 (p : list byte) :
  len p = 8 -> exists b0 b1 b2 b3 b4 b5 b6 b7, p = [b0; b1; b2; b3; b4; b5; b6; b7].
Proof.
  unfold len. intros H.
  do 8 (destruct p as [|? p]; [simpl length in H; lia|]).
  destruct p; [|simpl length in H; lia].
  repeat eexists.
Qed.

(** Runs a call on explicit bytes; [HK] names the bytes of the one
    keystream block. *)
Ltac run_pgp HK :=
  cbv - [byte.xor zero_byte]; rewrite ?HK;
  cbv - [byte.xor zero_byte]; rewrite ?HK;
  cbv - [byte.xor zero_byte]; reflexivity.

(** C4 (as amended): in PGP mode with block size 8, on a freshly built
    engine, encrypting a 16-byte stream as a chunk of 5 bytes and then a
    chunk of 11 bytes, with no [sync()] between them, gives byte for byte
    the ciphertext of the whole stream encrypted in one call on an
    identically built engine, and leaves the engine in the same state. *)
Theorem pgp_two_chunks_without_sync (C : BlockCipher) key iv ctr seg self p :
  BlockCipherLaws C -> BLOCK_SIZE = 8 ->
  ALGnew key MODE_PGP iv ctr seg = Ok self -> len p = 16 ->
  exists c1 self1 c2 self2,
    ALG_Encrypt self (firstn 5 p) = (Ok c1, self1)
    /\ ALG_Encrypt self1 (skipn 5 p) = (Ok c2, self2)
    /\ ALG_Encrypt self p = (Ok (c1 ++ c2), self2).
Proof.
  intros Hlaws HBS Hnew Hlen.
  apply ALGnew_inv in Hnew as (sc & state & -> & _ & Hiv & _).
  assert (HK : len (block_encrypt state (repeat zero_byte 8)) = 8).
  { rewrite <- HBS. apply (block_encrypt_len C Hlaws). rewrite HBS. reflexivity. }
  apply bytes8 in HK as (k0 & k1 & k2 & k3 & k4 & k5 & k6 & k7 & HK).
  apply bytes16 in Hlen
    as (b0 & b1 & b2 & b3 & b4 & b5 & b6 & b7 & b8 & b9 & b10 & b11 & b12 & b13 & b14 & b15 & ->).
  destruct C as [BS KS bstate binit benc bdec].
  cbn [BLOCK_SIZE block_encrypt block_state repeat] in HBS, Hiv, HK, state. subst BS.
  destruct Hiv as [Hiv | Hiv].
  - apply bytes8 in Hiv as (i0 & i1 & i2 & i3 & i4 & i5 & i6 & i7 & ->).
    do 4 eexists.
    split; [run_pgp HK | split; run_pgp HK].
  - destruct iv; [|unfold len in Hiv; simpl length in Hiv; lia].
    do 4 eexists.
    split; [run_pgp HK | split; run_pgp HK].
Qed.

(** The example cipher is a block cipher. *)
Lemma length_caesar sign k (x : list byte) : forall j, length (caesar sign k j x) = length x.
Proof. induction x as [|b x IH]; intros j; cbn [caesar length]; [|rewrite IH]; reflexivity. Qed.

Lemma caesar_inverse k (x : list byte) : forall j, caesar (-1) k j (caesar 1 k j x) = x.
Proof.
  induction x as [|b x IH]; intros j; cbn [caesar]; [reflexivity|].
  rewrite IH. f_equal.
  rewrite <- (byte.of_Z_unsigned b) at 2.
  apply byte.unsigned_inj. rewrite !byte.unsigned_of_Z. unfold byte.wrap.
  rewrite Zplus_mod_idemp_l. f_equal. lia.
Qed.

Lemma caesar_laws : BlockCipherLaws caesar_cipher.
Proof.
  split.
  - reflexivity.
  - intros st x H. unfold len in *. cbn [block_encrypt caesar_cipher].
    rewrite length_caesar. exact H.
  - intros st x _. apply caesar_inverse.
Qed.

Lemma pgp_two_chunks_without_sync_witness :
  exists c1 self1 c2 self2,
    ALG_Encrypt pgp_engine (firstn 5 example_stream) = (Ok c1, self1)
    /\ ALG_Encrypt self1 (skipn 5 example_stream) = (Ok c2, self2)
    /\ ALG_Encrypt pgp_engine example_stream = (Ok (c1 ++ c2), self2).
Proof.
  apply (pgp_two_chunks_without_sync caesar_cipher example_key example_iv None 0).
  - exact caesar_laws.
  - reflexivity.
  - vm_compute. reflexivity.
  - reflexivity.
Defined.

(** C4, as the specification states it, fails: with a [sync()] between
    the chunk of 5 bytes and the chunk of 11 bytes the keystream block is
    restarted for the second chunk, and the ciphertext differs from that
    of the single call from its sixth byte on. *)
Lemma pgp_sync_between_chunks_differs :
  @ALGnew caesar_cipher example_key MODE_PGP example_iv None 0 = Ok pgp_engine
  /\ @BLOCK_SIZE caesar_cipher = 8
  /\ fst (ALG_Encrypt pgp_engine example_stream)
     = Ok (bytes [9; 16; 27; 46; 53; 52; 79; 90; 89; 96; 107; 126; 133; 132; 159; 170])
  /\ encrypt_sync_encrypt pgp_engine (firstn 5 example_stream) (skipn 5 example_stream)
     = Ok (bytes [9; 16; 27; 46; 53; 63; 66; 85; 92; 99; 102; 113; 136; 143; 146; 165])
  /\ encrypt_sync_encrypt pgp_engine (firstn 5 example_stream) (skipn 5 example_stream)
     <> fst (ALG_Encrypt pgp_engine example_stream).
Proof.
  assert (H1 : fst (ALG_Encrypt pgp_engine example_stream)
    = Ok (bytes [9; 16; 27; 46; 53; 52; 79; 90; 89; 96; 107; 126; 133; 132; 159; 170]))
    by (vm_compute; reflexivity).
  assert (H2 :
    encrypt_sync_encrypt pgp_engine (firstn 5 example_stream) (skipn 5 example_stream)
    = Ok (bytes [9; 16; 27; 46; 53; 63; 66; 85; 92; 99; 102; 113; 136; 143; 146; 165]))
    by (vm_compute; reflexivity).
  split; [vm_compute; reflexivity|]. split; [reflexivity|].
  split; [exact H1|]. split; [exact H2|].
  rewrite H1, H2. intros H.
  apply (f_equal (fun r => match r with Ok l => numbers l | Raise _ => [] end)) in H.
  vm_compute in H. discriminate H.
Qed.

End PGPChunks.

(** ** Lengths and slices of buffers *)

Lemma len_nonneg (l : list byte) : 0 <= len l.
Proof. unfold len. lia. Qed.

Lemma len_app (a b : list byte) : len (a ++ b) = len a + len b.
Proof. unfold len. rewrite length_app. lia. Qed.

Lemma len_firstn n (l : list byte) : len (firstn n l) = Z.min (Z.of_nat n) (len l).
Proof. unfold len. rewrite length_firstn. lia. Qed.

Lemma len_skipn n (l : list byte) : len (skipn n l) = Z.max 0 (len l - Z.of_nat n).
Proof. unfold len. rewrite length_skipn. lia. Qed.

Lemma len_xor_bytes (a b : list byte) : len (xor_bytes a b) = Z.min (len a) (len b).
Proof. unfold len. rewrite length_xor_bytes. lia. Qed.

Lemma len_sub (l : list byte) off n :
  len (sub l off n) = Z.max 0 (Z.min n (len l - Z.max 0 off)).
Proof. unfold sub. rewrite len_firstn, len_skipn. lia. Qed.

Lemma len_memcpy (dst src : list byte) off n :
  len (memcpy dst off src n)
  = Z.min (Z.max 0 off) (len dst) + Z.min (Z.max 0 n) (len src)
    + Z.max 0 (len dst - (Z.max 0 off + Z.max 0 n)).
Proof. unfold memcpy. rewrite !len_app, !len_firstn, len_skipn. lia. Qed.

Lemma len_zeros n : len (zeros n) = Z.max 0 n.
Proof. unfold len, zeros. rewrite repeat_length. lia. Qed.

Create Rewrite HintDb len.
#[local] Hint Rewrite len_app len_firstn len_skipn len_xor_bytes len_sub len_memcpy
  len_zeros : len.

Ltac len_lia := autorewrite with len in *; lia.

Lemma sub_0 (l : list byte) n : sub l 0 n = firstn (Z.to_nat n) l.
Proof. reflexivity. Qed.

Lemma firstn_app_exact (a b : list byte) n : len a = Z.of_nat n -> firstn n (a ++ b) = a.
Proof.
  unfold len. intros H. rewrite firstn_app, firstn_all2 by lia.
  replace (n - length a)%nat with 0%nat by lia. cbn [firstn]. apply app_nil_r.
Qed.

Lemma skipn_app_exact (a b : list byte) n : len a = Z.of_nat n -> skipn n (a ++ b) = b.
Proof.
  unfold len. intros H. rewrite skipn_app, skipn_all2 by lia.
  replace (n - length a)%nat with 0%nat by lia. reflexivity.
Qed.

Lemma sub_0_app (a b : list byte) n : len a = n -> sub (a ++ b) 0 n = a.
Proof. intros H. rewrite sub_0. apply firstn_app_exact. pose proof (len_nonneg a). lia. Qed.

Lemma sub_0_all (a : list byte) n : len a = n -> sub a 0 n = a.
Proof. intros H. rewrite <- (app_nil_r a) at 1. now apply sub_0_app. Qed.

Lemma memcpy_app_src (dst a b : list byte) off n :
  len a = n -> memcpy dst off (a ++ b) n = memcpy dst off a n.
Proof.
  intros H. unfold memcpy. pose proof (len_nonneg a).
  rewrite firstn_app_exact by lia.
  rewrite (@firstn_all2 _ (Z.to_nat n) a) by (unfold len in *; lia).
  reflexivity.
Qed.

Lemma memcpy_all (dst src : list byte) n :
  len dst = n -> len src = n -> memcpy dst 0 src n = src.
Proof.
  intros Hd Hs. unfold memcpy, len in *. cbn [Z.to_nat firstn app Nat.add].
  rewrite firstn_all2, skipn_all2 by lia. apply app_nil_r.
Qed.


Lemma xor_bytes_cancel_l_len (k a : list byte) :
  len a <= len k -> xor_bytes k (xor_bytes k a) = a.
Proof. unfold len. intros H. apply xor_bytes_cancel_l. lia. Qed.

(** ** Encrypt, then decrypt *)

Section RoundTrip.

Context {C : BlockCipher}.
Hypothesis laws : BlockCipherLaws C.

Lemma for_blocks_S body step fuel s str :
  for_blocks body step (S fuel) s str
  = if 0 <? len str then
      (fst (body s str)
         ++ fst (for_blocks body step fuel (snd (body s str)) (skipn (Z.to_nat step) str)),
       snd (for_blocks body step fuel (snd (body s str)) (skipn (Z.to_nat step) str)))
    else ([], s).
Proof.
  cbn [for_blocks]. destruct (0 <? len str); [|reflexivity].
  destruct (body s str) as [out s1]. cbn [fst snd].
  destruct (for_blocks body step fuel s1 (skipn (Z.to_nat step) str)). reflexivity.
Qed.





(** Arithmetic of an accepted segment size. *)
Lemma cfb_ok_bytes s :
  cfb_ok s ->
  1 <= Z.quot (segment_size s) 8 <= BLOCK_SIZE
  /\ segment_size s = 8 * Z.quot (segment_size s) 8
  /\ Z.rem (segment_size s) 8 = 0.
Proof.
  intros [[Hlo Hhi] Hland].
  change 7 with (Z.ones 3) in Hland. rewrite Z.land_ones in Hland by lia.
  change (2 ^ 3) with 8 in Hland.
  rewrite Z.rem_mod_nonneg, Z.quot_div_nonneg by lia.
  pose proof (Z.div_mod (segment_size s) 8 ltac:(lia)). lia.
Qed.



(** *** PGP mode *)

(** What [xor_into_IV] writes, [swap_into_IV] reads back: same output
    bytes in, same register out. *)
Lemma xor_swap_inverse s off str rest n :
  n <= 0 \/ (0 <= off /\ off + n <= len (IV s) /\ n <= len str) ->
  len (fst (xor_into_IV s off str n)) = Z.max 0 n
  /\ swap_into_IV s off (fst (xor_into_IV s off str n) ++ rest) n
     = (sub str 0 n, snd (xor_into_IV s off str n))
  /\ len (IV (snd (xor_into_IV s off str n))) = len (IV s).
Proof.
  intros H. unfold xor_into_IV, swap_into_IV. cbn [fst snd IV set_IV].
  destruct (Z.le_gt_cases n 0) as [Hn | Hn].
  - unfold sub, memcpy. replace (Z.to_nat n) with 0%nat by lia.
    cbn [firstn xor_bytes app]. rewrite Nat.add_0_r, firstn_skipn.
    split; [unfold len; cbn; lia|]. split; reflexivity.
  - destruct H as [H | (Hoff & Hiv & Hstr)]; [lia|].
    set (K := sub (IV s) off n). set (X := sub str 0 n).
    assert (HK : len K = n) by (subst K; len_lia).
    assert (HX : len X = n) by (subst X; len_lia).
    assert (Hout : len (xor_bytes K X) = n) by len_lia.
    split; [lia|]. split; [|len_lia].
    rewrite sub_0_app by exact Hout. rewrite memcpy_app_src by exact Hout.
    rewrite xor_bytes_cancel_l_len by lia. reflexivity.
Qed.

Lemma buffers_ok_encrypt_into_IV s :
  buffers_ok s -> buffers_ok (encrypt_into_IV s (oldCipher s)).
Proof.
  intros [Hiv Hold]. unfold buffers_ok, encrypt_into_IV. cbn [IV oldCipher set_IV].
  pose proof (block_encrypt_len C laws (st s) _ Hold). rewrite memcpy_all by assumption. auto.
Qed.

Lemma pgp_encrypt_blocks_S fuel s str :
  pgp_encrypt_blocks (S fuel) s str
  = if BLOCK_SIZE <? len str then
      let s1 := encrypt_into_IV s (oldCipher s) in
      let r := pgp_encrypt_blocks fuel (snd (xor_into_IV s1 0 str BLOCK_SIZE))
                                  (skipn (Z.to_nat BLOCK_SIZE) str) in
      (fst (xor_into_IV s1 0 str BLOCK_SIZE) ++ fst (fst r), snd (fst r), snd r)
    else ([], s, str).
Proof.
  cbn [pgp_encrypt_blocks]. destruct (BLOCK_SIZE <? len str); [|reflexivity].
  cbn [xor_into_IV fst snd].
  match goal with |- context [pgp_encrypt_blocks fuel ?a ?b] =>
    destruct (pgp_encrypt_blocks fuel a b) as [[? ?] ?] end.
  reflexivity.
Qed.

Lemma pgp_decrypt_blocks_S fuel s str :
  pgp_decrypt_blocks (S fuel) s str
  = if BLOCK_SIZE <? len str then
      let s1 := encrypt_into_IV s (oldCipher s) in
      let r := pgp_decrypt_blocks fuel (snd (swap_into_IV s1 0 str BLOCK_SIZE))
                                  (skipn (Z.to_nat BLOCK_SIZE) str) in
      (fst (swap_into_IV s1 0 str BLOCK_SIZE) ++ fst (fst r), snd (fst r), snd r)
    else ([], s, str).
Proof.
  cbn [pgp_decrypt_blocks]. destruct (BLOCK_SIZE <? len str); [|reflexivity].
  cbn [swap_into_IV fst snd].
  match goal with |- context [pgp_decrypt_blocks fuel ?a ?b] =>
    destruct (pgp_decrypt_blocks fuel a b) as [[? ?] ?] end.
  reflexivity.
Qed.


Lemma pgp_encrypt_eq s str :
  pgp_encrypt s str
  = if len str <=? BLOCK_SIZE - count s then
      (fst (xor_into_IV s (count s) str (len str)),
       set_count (snd (xor_into_IV s (count s) str (len str))) (count s + len str))
    else
      let n := BLOCK_SIZE - count s in
      let x := xor_into_IV s (count s) str n in
      let r := pgp_encrypt_blocks (length str) (set_count (snd x) 0)
                                  (skipn (Z.to_nat n) str) in
      let s5 := set_count (encrypt_into_IV (snd (fst r)) (oldCipher (snd (fst r))))
                          (len (snd r)) in
      let y := xor_into_IV s5 0 (snd r) (len (snd r)) in
      (fst x ++ fst (fst r) ++ fst y, snd y).
Proof.
  unfold pgp_encrypt. destruct (len str <=? BLOCK_SIZE - count s); [reflexivity|].
  cbn [xor_into_IV fst snd].
  match goal with |- context [pgp_encrypt_blocks ?f ?a ?b] =>
    destruct (pgp_encrypt_blocks f a b) as [[? ?] ?] end.
  reflexivity.
Qed.

Lemma pgp_decrypt_eq s str :
  pgp_decrypt s str
  = if len str <=? BLOCK_SIZE - count s then
      (fst (swap_into_IV s (count s) str (len str)),
       set_count (snd (swap_into_IV s (count s) str (len str))) (count s + len str))
    else
      let n := BLOCK_SIZE - count s in
      let x := swap_into_IV s (count s) str n in
      let r := pgp_decrypt_blocks (length str) (set_count (snd x) 0)
                                  (skipn (Z.to_nat n) str) in
      let s5 := set_count (encrypt_into_IV (snd (fst r)) (oldCipher (snd (fst r))))
                          (len (snd r)) in
      let y := swap_into_IV s5 0 (snd r) (len (snd r)) in
      (fst x ++ fst (fst r) ++ fst y, snd y).
Proof.
  unfold pgp_decrypt. destruct (len str <=? BLOCK_SIZE - count s); [reflexivity|].
  cbn [swap_into_IV fst snd].
  match goal with |- context [pgp_decrypt_blocks ?f ?a ?b] =>
    destruct (pgp_decrypt_blocks f a b) as [[? ?] ?] end.
  reflexivity.
Qed.


(** *** CTR mode *)

Lemma length_store buf off b : length (store buf off b) = length buf.
Proof.
  revert off. induction buf as [|x buf IH]; intros [|off]; cbn [store length]; auto.
Qed.

Lemma length_CounterLE_loop n : forall p c v,
  length (fst (Counter.CounterLE_loop n p c v)) = length v.
Proof.
  induction n as [|n IH]; intros p c v; cbn [Counter.CounterLE_loop fst]; [reflexivity|].
  rewrite IH. apply length_store.
Qed.

Lemma length_CounterBE_loop n : forall p c v,
  length (fst (Counter.CounterBE_loop n p c v)) = length v.
Proof.
  induction n as [|n IH]; intros p c v; cbn [Counter.CounterBE_loop fst]; [reflexivity|].
  rewrite IH. apply length_store.
Qed.

(** An increment keeps the size of the buffer. *)
Lemma increment_keeps_size c :
  Counter.buf_size (Counter.increment c) = Counter.buf_size c
  /\ len (Counter.val (Counter.increment c)) = len (Counter.val c).
Proof.
  unfold Counter.increment, Counter.CounterLEObject_increment,
    Counter.CounterBEObject_increment, len.
  destruct (Counter.inc_func c).
  - pose proof (length_CounterLE_loop (Z.to_nat (Counter.nbytes c)) (Counter.p c) 1
                  (Counter.val c)) as H.
    destruct (Counter.CounterLE_loop _ _ _ _) as [v k]. cbn in *. rewrite H. auto.
  - pose proof (length_CounterBE_loop (Z.to_nat (Counter.nbytes c))
                  (Counter.p c + Z.to_nat (Counter.nbytes c) - 1)%nat 1
                  (Counter.val c)) as H.
    destruct (Counter.CounterBE_loop _ _ _ _) as [v k]. cbn in *. rewrite H. auto.
Qed.

Lemma source_ok_call o r o' :
  source_ok (Some o) -> PyObject_CallObject o = (r, o') -> source_ok (Some o').
Proof.
  destruct o as [c|f n|]; cbn [PyObject_CallObject source_ok].
  - unfold Counter.CounterObject_call.
    destruct (truthy (Counter.carry c) && negb (truthy (Counter.allow_wraparound c)));
      intros H E; [injection E as <- <-; exact H|].
    destruct (PyUnicode_FromStringAndSize (Counter.val c)); injection E as <- <-;
      cbn [source_ok]; destruct (increment_keeps_size c) as [-> ->]; exact H.
  - intros _ E. injection E as <- <-. exact I.
  - intros _ E. injection E as <- <-. exact I.
Qed.

Lemma skipn_memcpy (dst src : list byte) off n :
  0 <= off -> 0 <= n -> off + n <= len dst -> n <= len src ->
  skipn (Z.to_nat (off + n)) (memcpy dst off src n) = skipn (Z.to_nat (off + n)) dst.
Proof.
  intros Hoff Hn Hdst Hsrc. unfold memcpy. rewrite app_assoc.
  rewrite skipn_app_exact by len_lia. f_equal. lia.
Qed.

(** The same keystream bytes XORed over the plaintext, then over the
    ciphertext. *)
Lemma xor_twice s1 s2 off p rest n :
  0 <= off -> 0 <= n -> off + n <= BLOCK_SIZE -> n <= len p ->
  len (IV s1) = BLOCK_SIZE -> len (IV s2) = BLOCK_SIZE ->
  skipn (Z.to_nat off) (IV s1) = skipn (Z.to_nat off) (IV s2) ->
  len (fst (xor_into_IV s1 off p n)) = n
  /\ fst (xor_into_IV s2 off (fst (xor_into_IV s1 off p n) ++ rest) n) = sub p 0 n
  /\ len (IV (snd (xor_into_IV s1 off p n))) = BLOCK_SIZE
  /\ len (IV (snd (xor_into_IV s2 off (fst (xor_into_IV s1 off p n) ++ rest) n)))
     = BLOCK_SIZE
  /\ skipn (Z.to_nat (off + n)) (IV (snd (xor_into_IV s1 off p n)))
     = skipn (Z.to_nat (off + n))
             (IV (snd (xor_into_IV s2 off (fst (xor_into_IV s1 off p n) ++ rest) n))).
Proof.
  intros Hoff Hn Hfit Hp Hiv1 Hiv2 Hsk.
  unfold xor_into_IV. cbn [fst snd IV set_IV].
  assert (HK : sub (IV s2) off n = sub (IV s1) off n) by (unfold sub; now rewrite Hsk).
  rewrite HK.
  set (K := sub (IV s1) off n). set (X := sub p 0 n).
  assert (HKlen : len K = n) by (subst K; len_lia).
  assert (HXlen : len X = n) by (subst X; len_lia).
  assert (Hout : len (xor_bytes K X) = n) by len_lia.
  rewrite sub_0_app by exact Hout.
  rewrite xor_bytes_cancel_l_len by lia.
  refine (conj Hout (conj eq_refl (conj _ (conj _ _)))).
  - len_lia.
  - len_lia.
  - rewrite !skipn_memcpy by lia.
    replace (Z.to_nat (off + n)) with (Z.to_nat n + Z.to_nat off)%nat by lia.
    rewrite <- !skipn_skipn. now rewrite Hsk.
Qed.

Lemma ctr_loop_S fuel s str :
  ctr_loop (S fuel) s str
  = if 0 <? len str then
      if len str <=? BLOCK_SIZE - count s then
        (Ok (fst (xor_into_IV s (count s) str (len str))),
         set_count (snd (xor_into_IV s (count s) str (len str))) (count s + len str))
      else
        let n := BLOCK_SIZE - count s in
        let x := xor_into_IV s (count s) str n in
        match ctr_refill (set_count (snd x) BLOCK_SIZE) with
        | (Raise e, s3) => (Raise e, s3)
        | (Ok _, s3) =>
            match ctr_loop fuel (set_count s3 0) (skipn (Z.to_nat n) str) with
            | (Ok rest, s4) => (Ok (fst x ++ rest), s4)
            | (Raise e, s4) => (Raise e, s4)
            end
        end
    else (Ok [], s).
Proof. reflexivity. Qed.

(** A refill that succeeds on one engine succeeds on a related one, and
    both hold the same fresh keystream block. *)
Lemma ctr_refill_related s1 s2 u s1' :
  ctr_related s1 s2 -> ctr_refill s1 = (Ok u, s1') ->
  exists s2', ctr_refill s2 = (Ok u, s2')
              /\ ctr_related (set_count s1' 0) (set_count s2' 0).
Proof.
  intros (Hst & Hctr & Hsc & Hcnt & Hrange & Hiv1 & Hiv2 & Hsk & Hsrc).
  unfold ctr_refill. rewrite <- Hctr, <- Hsc.
  destruct (truthy (counter_shortcut s1)).
  - destruct (counter s1) as [[ctr| |]|] eqn:Ec; try discriminate.
    destruct (truthy (Counter.carry ctr) && negb (truthy (Counter.allow_wraparound ctr)));
      [discriminate|].
    destruct (negb (Counter.buf_size ctr =? BLOCK_SIZE)) eqn:Eb; [discriminate|].
    apply Bool.negb_false_iff, Z.eqb_eq in Eb.
    intros H. injection H as <- <-. eexists. split; [reflexivity|].
    cbn [source_ok] in Hsrc.
    assert (Hblk : len (Counter.val ctr) = BLOCK_SIZE) by lia.
    pose proof (block_encrypt_len C laws (st s1) _ Hblk) as HE.
    unfold ctr_related, encrypt_into_IV.
    cbn [st counter counter_shortcut count IV set_IV set_count set_counter source_ok].
    rewrite <- Hst. rewrite !memcpy_all by assumption.
    destruct (increment_keeps_size ctr) as [Hbs Hlen].
    repeat split; auto; lia.
  - destruct (counter s1) as [o|] eqn:Ec; [|discriminate].
    destruct (PyObject_CallObject o) as [r o'] eqn:Ecall.
    destruct r as [[v|]|e]; try discriminate.
    destruct (negb (Z.of_nat (length v) =? BLOCK_SIZE)) eqn:Eb; [discriminate|].
    apply Bool.negb_false_iff, Z.eqb_eq in Eb.
    destruct (PyUnicode_AsASCIIString v) as [block|] eqn:Easc; [|discriminate].
    assert (Hblock : len block = BLOCK_SIZE)
      by (unfold len; rewrite (ascii_length v block Easc); exact Eb).
    intros H. injection H as <- <-. eexists. split; [reflexivity|].
    pose proof (block_encrypt_len C laws (st s1) _ Hblock) as HE.
    unfold ctr_related, encrypt_into_IV.
    cbn [st counter counter_shortcut count IV set_IV set_count set_counter].
    rewrite <- Hst. rewrite !memcpy_all by assumption.
    repeat split; auto; try lia.
    eapply source_ok_call; eassumption.
Qed.


(** *** The six modes together *)





Lemma rem_divide_pos (a b : Z) : 0 < b -> Z.rem a b = 0 -> (b | a).
Proof. intros Hb H. apply Z.rem_divide; [lia | exact H]. Qed.


Lemma ALGnew_state key m iv ctr seg self :
  ALGnew key m iv ctr seg = Ok self ->
  mode self = m /\ prf_mode self = 0 /\ counter self = ctr
  /\ buffers_ok self /\ config_ok self
  /\ (count self = 8 \/ count self = BLOCK_SIZE)
  /\ (m <> MODE_PGP -> count self = BLOCK_SIZE)
  /\ shortcut_ok self.
Proof.
  pose proof (BLOCK_SIZE_pos C laws) as BS_pos.
  intros H. pose proof (ALGnew_config_ok _ _ _ _ _ _ H) as [Hcfg Hprf].
  destruct (ALGnew_inv _ _ _ _ _ _ H) as (sc & state & Hself & _ & Hiv & _ & _ & Hc & Hnc).
  refine (conj _ (conj Hprf (conj _ (conj _ (conj Hcfg (conj _ (conj _ _))))))); rewrite Hself;
    cbn [mode counter count]; try reflexivity.
  - unfold buffers_ok. cbn [IV oldCipher]. split; len_lia.
  - destruct (m =? MODE_PGP); auto.
  - intros Hm. apply Z.eqb_neq in Hm. rewrite Hm. reflexivity.
  - unfold shortcut_ok. cbn [counter counter_shortcut]. intros Hsc.
    destruct (Z.eq_dec m MODE_CTR) as [Hm | Hm].
    + destruct (Hc Hm) as (o & -> & [[Hs _] | [_ [_ ->]]]); [|discriminate Hsc].
      destruct o as [c| |]; try discriminate Hs. eauto.
    + destruct (Hnc Hm) as [_ ->]. discriminate Hsc.
Qed.

(** *** CTR mode with a source that never refuses *)











Lemma ALG_Encrypt_CTR self p :
  mode self = MODE_CTR -> len p <> 0 ->
  ALG_Encrypt self p = ctr_loop (S (S (length p))) self p.
Proof.
  intros Hm Hp. unfold ALG_Encrypt. rewrite Hm. apply Z.eqb_neq in Hp. rewrite Hp.
  unfold MODE_ECB, MODE_CBC, MODE_CFB, MODE_PGP, MODE_OFB, MODE_CTR. simp_mode.
  reflexivity.
Qed.


End RoundTrip.

(** ** The round trip on the example cipher *)

Section RoundTripExamples.

#[local] Existing Instance caesar_cipher.

(** Every counter the constructor returns is well formed, and stays so
    when it is called. *)
Lemma CounterObject_init_source_ok kind pre post initval aw sd c n :
  Counter.CounterObject_init kind pre post initval aw sd = Ok c ->
  source_ok (Some (CounterObj (Counter.after_calls n c))).
Proof.
  intros H. cbn [source_ok].
  assert (H0 : Counter.buf_size c = len (Counter.val c)).
  { unfold Counter.CounterObject_init in H.
    repeat match type of H with
           | context [if ?b then _ else _] => destruct b; [discriminate|]
           end.
    injection H as <-. cbn [Counter.buf_size Counter.val]. rewrite !len_app.
    unfold len. lia. }
  induction n as [|n IH]; [exact H0|].
  cbn [Counter.after_calls]. unfold Counter.CounterObject_call.
  destruct (truthy (Counter.carry (Counter.after_calls n c))
            && negb (truthy (Counter.allow_wraparound (Counter.after_calls n c))));
    cbn [snd]; [exact IH|].
  destruct (increment_keeps_size (Counter.after_calls n c)) as [-> ->]. exact IH.
Qed.




(** A counter object whose shortcut is disabled is read through its
    call, which makes a string of the buffer.  It serves while its bytes
    are ASCII; a buffer with a byte above [0x7F] is not UTF-8, the call
    raises the decoding error and [encrypt] is refused, wraparound or
    not. *)
Lemma call_path_needs_ascii :
  ALGnew example_key MODE_CTR example_iv (Some (CounterObj (called_counter 5))) 0
  = Ok (fresh_engine MODE_CTR (Some (CounterObj (called_counter 5))) 0)
  /\ fst (ALG_Encrypt (fresh_engine MODE_CTR (Some (CounterObj (called_counter 5))) 0)
                      (bytes [10; 20; 30]))
     = Ok (bytes [9; 16; 27])
  /\ ALGnew example_key MODE_CTR example_iv (Some (CounterObj (called_counter 200))) 0
     = Ok (fresh_engine MODE_CTR (Some (CounterObj (called_counter 200))) 0)
  /\ fst (ALG_Encrypt (fresh_engine MODE_CTR (Some (CounterObj (called_counter 200))) 0)
                      (bytes [10; 20; 30]))
     = Raise UnicodeDecodeError_utf8.
Proof. repeat split; vm_compute; reflexivity. Qed.

End RoundTripExamples.

(** ** The counter in numbers *)

Module CounterArith.
Import Counter CounterValue.

Lemma lor_shiftl_byte (x b : Z) :
  0 <= b < 256 -> Z.lor (Z.shiftl x 8) b = x * 256 + b.
Proof.
  intros Hb.
  assert (Hland : Z.land (Z.shiftl x 8) b = 0).
  { apply Z.bits_inj'. intros n Hn. rewrite Z.land_spec, Z.bits_0.
    destruct (Z.ltb_spec n 8).
    - rewrite Z.shiftl_spec_low by lia. reflexivity.
    - rewrite (Z.bits_above_log2 b n), andb_false_r; [reflexivity | lia |].
      destruct (Z.eq_dec b 0) as [->|]; [simpl; lia|].
      apply Z.log2_lt_pow2; [lia|]. change (2 ^ 8) with 256 in *.
      apply Z.lt_le_trans with (2 ^ 8); [change (2 ^ 8) with 256; lia|].
      apply Z.pow_le_mono_r; lia. }
  rewrite <- Z.lxor_lor, <- Z.add_nocarry_lxor by exact Hland.
  rewrite Z.shiftl_mul_pow2 by lia. reflexivity.
Qed.

Lemma byte_range (b : byte) : 0 <= byte.unsigned b < 256.
Proof. exact (byte.unsigned_range b). Qed.

Lemma le_value_range (l : list byte) : 0 <= le_value l < 256 ^ len l.
Proof.
  unfold len. induction l as [|b l IH]; [simpl; lia|].
  cbn [le_value length]. rewrite Nat2Z.inj_succ, Z.pow_succ_r by lia.
  pose proof (byte_range b). lia.
Qed.

Lemma le_value_app (l : list byte) (b : byte) :
  le_value (l ++ [b]) = le_value l + 256 ^ len l * byte.unsigned b.
Proof.
  unfold len. induction l as [|x l IH].
  { cbn [le_value app length Z.of_nat]. rewrite Z.pow_0_r. lia. }
  cbn [le_value length app]. rewrite IH, Nat2Z.inj_succ, Z.pow_succ_r by lia. lia.
Qed.

Lemma add_carry_cons c b r :
  add_carry c (b :: r)
  = (byte.of_Z (Z.land (byte.unsigned b + c) 255)
       :: fst (add_carry (Z.shiftr (byte.unsigned b + c) 8) r),
     snd (add_carry (Z.shiftr (byte.unsigned b + c) 8) r)).
Proof. cbn [add_carry]. destruct (add_carry _ r). reflexivity. Qed.

Lemma byte_step (b : byte) (c : Z) :
  0 <= c <= 1 ->
  byte.unsigned (byte.of_Z (Z.land (byte.unsigned b + c) 255))
  = (byte.unsigned b + c) mod 256
  /\ Z.shiftr (byte.unsigned b + c) 8 = (byte.unsigned b + c) / 256
  /\ 0 <= (byte.unsigned b + c) / 256 <= 1.
Proof.
  intros Hc. pose proof (byte_range b) as Hb.
  change 255 with (Z.ones 8). rewrite Z.land_ones, Z.shiftr_div_pow2 by lia.
  change (2 ^ 8) with 256 in *.
  rewrite byte.unsigned_of_Z. unfold byte.wrap. change (2 ^ 8) with 256.
  rewrite Z.mod_mod by lia.
  refine (conj eq_refl (conj eq_refl _)).
  split; [apply Z.div_pos; lia | ].
  apply Z.lt_succ_r. apply Z.div_lt_upper_bound; lia.
Qed.

(** Adding a bit to the digits: the sum is kept, digit by digit. *)
Lemma add_carry_sum (l : list byte) : forall c,
  0 <= c <= 1 ->
  length (fst (add_carry c l)) = length l
  /\ 0 <= snd (add_carry c l) <= 1
  /\ le_value (fst (add_carry c l)) + 256 ^ len l * snd (add_carry c l) = le_value l + c.
Proof.
  unfold len. induction l as [|b l IH]; intros c Hc.
  - cbn [add_carry fst snd le_value length Z.of_nat]. rewrite Z.pow_0_r. lia.
  - rewrite add_carry_cons. cbn [fst snd length le_value].
    destruct (byte_step b c Hc) as (Hlow & Hhigh & Hbit).
    rewrite Hlow, Hhigh.
    destruct (IH ((byte.unsigned b + c) / 256) Hbit) as (Hlen & Hbit' & Hsum).
    rewrite Hlen, Nat2Z.inj_succ, Z.pow_succ_r by lia.
    refine (conj eq_refl (conj Hbit' _)).
    pose proof (Z.div_mod (byte.unsigned b + c) 256). lia.
Qed.

Lemma CounterLE_loop_app (f : list byte) : forall pre post c,
  CounterLE_loop (length f) (length pre) c (pre ++ f ++ post)
  = (pre ++ fst (add_carry c f) ++ post, snd (add_carry c f)).
Proof.
  induction f as [|b f IH]; intros pre post c; [reflexivity|].
  rewrite add_carry_cons. cbn [length CounterLE_loop fst snd app].
  rewrite load_middle, store_middle.
  specialize (IH (pre ++ [byte.of_Z (Z.land (byte.unsigned b + c) 255)]) post
                 (Z.shiftr (byte.unsigned b + c) 8)).
  rewrite length_app, Nat.add_1_r, <- !app_assoc in IH. exact IH.
Qed.

Lemma CounterBE_loop_app (rf : list byte) : forall pre post c,
  CounterBE_loop (length rf) (length pre + length rf - 1)%nat c (pre ++ rev rf ++ post)
  = (pre ++ rev (fst (add_carry c rf)) ++ post, snd (add_carry c rf)).
Proof.
  induction rf as [|b rf IH]; intros pre post c; [reflexivity|].
  rewrite add_carry_cons. cbn [length CounterBE_loop fst snd rev].
  replace (length pre + S (length rf) - 1)%nat with (length (pre ++ rev rf))
    by (rewrite length_app, length_rev; lia).
  rewrite <- !app_assoc. cbn [app]. rewrite (app_assoc pre (rev rf)).
  rewrite load_middle, store_middle.
  replace (pred (length (pre ++ rev rf))) with (length pre + length rf - 1)%nat
    by (rewrite length_app, length_rev; lia).
  rewrite <- app_assoc.
  destruct rf as [|b' rf'].
  - reflexivity.
  - exact (IH pre _ _).
Qed.

Lemma next_value_loop_up (f : list byte) : forall pre post x,
  next_value_loop (length f) (length pre) true x (pre ++ f ++ post)
  = x * 256 ^ len f + le_value (rev f).
Proof.
  unfold len. induction f as [|b f IH]; intros pre post x; [cbn [length next_value_loop rev le_value Z.of_nat]; rewrite Z.pow_0_r; lia|].
  cbn [length next_value_loop rev app]. rewrite load_middle.
  rewrite lor_shiftl_byte by apply byte_range.
  specialize (IH (pre ++ [b]) post (x * 256 + byte.unsigned b)).
  rewrite length_app, Nat.add_1_r, <- !app_assoc in IH. cbn [app] in IH. rewrite IH.
  rewrite le_value_app. unfold len. rewrite length_rev, Nat2Z.inj_succ, Z.pow_succ_r by lia.
  lia.
Qed.

Lemma next_value_loop_down (rf : list byte) : forall pre post x,
  next_value_loop (length rf) (length pre + length rf - 1)%nat false x (pre ++ rev rf ++ post)
  = x * 256 ^ len rf + le_value (rev rf).
Proof.
  unfold len. induction rf as [|b rf IH]; intros pre post x; [cbn [length next_value_loop rev le_value Z.of_nat]; rewrite Z.pow_0_r; lia|].
  cbn [length next_value_loop rev].
  replace (length pre + S (length rf) - 1)%nat with (length (pre ++ rev rf))
    by (rewrite length_app, length_rev; lia).
  rewrite <- !app_assoc. cbn [app]. rewrite (app_assoc pre (rev rf)).
  rewrite load_middle, lor_shiftl_byte by apply byte_range.
  replace (pred (length (pre ++ rev rf))) with (length pre + length rf - 1)%nat
    by (rewrite length_app, length_rev; lia).
  rewrite <- app_assoc.
  specialize (IH pre (b :: post) (x * 256 + byte.unsigned b)).
  rewrite IH, le_value_app. unfold len.
  rewrite length_rev, Nat2Z.inj_succ, Z.pow_succ_r by lia. lia.
Qed.


(** *** Counters in the shape [CounterObject_init] gives them *)

Lemma field_mk pre post f bs k sd cy aw :
  field (mkCounter pre post (pre ++ f ++ post) bs (length pre) (len f) k sd cy aw) = f.
Proof.
  unfold field, len. cbn [nbytes p val]. rewrite Nat2Z.id.
  rewrite skipn_app_exact by reflexivity. apply firstn_app_exact. reflexivity.
Qed.

Lemma well_formed_inv pre post v bs q n k sd cy aw :
  well_formed (mkCounter pre post v bs q n k sd cy aw) ->
  exists f, v = pre ++ f ++ post /\ q = length pre /\ n = len f /\ bs = len v
            /\ (cy = 0 \/ cy = 1).
Proof.
  unfold well_formed. cbn [prefix suffix val p nbytes buf_size carry].
  intros (Hv & Hq & Hn & Hbs & Hcy). eexists. repeat split; eauto.
Qed.

Lemma well_formed_mk pre post f k sd cy aw :
  cy = 0 \/ cy = 1 ->
  well_formed (mkCounter pre post (pre ++ f ++ post) (len (pre ++ f ++ post)) (length pre)
                         (len f) k sd cy aw).
Proof.
  intros Hcy. unfold well_formed. rewrite field_mk.
  cbn [prefix suffix val p nbytes buf_size carry]. auto.
Qed.

Lemma increment_mk pre post f bs k sd cy aw :
  increment (mkCounter pre post (pre ++ f ++ post) bs (length pre) (len f) k sd cy aw)
  = mkCounter pre post
      (pre ++ match k with
              | LittleEndian => fst (add_carry 1 f)
              | BigEndian => rev (fst (add_carry 1 (rev f)))
              end ++ post)
      bs (length pre) (len f) k sd
      (snd (add_carry 1 match k with LittleEndian => f | BigEndian => rev f end)) aw.
Proof.
  unfold increment, CounterLEObject_increment, CounterBEObject_increment, len.
  destruct k; cbn [inc_func nbytes p val]; rewrite Nat2Z.id.
  - rewrite CounterLE_loop_app. reflexivity.
  - rewrite <- (rev_involutive f) at 3. rewrite <- (length_rev f).
    rewrite CounterBE_loop_app. reflexivity.
Qed.

Lemma digits_mk pre post f bs k sd cy aw :
  digits (mkCounter pre post (pre ++ f ++ post) bs (length pre) (len f) k sd cy aw)
  = match k with LittleEndian => f | BigEndian => rev f end.
Proof. unfold digits. rewrite field_mk. reflexivity. Qed.

Lemma len_rev (l : list byte) : len (rev l) = len l.
Proof. unfold len. now rewrite length_rev. Qed.

Lemma len_add_carry c (l : list byte) : 0 <= c <= 1 -> len (fst (add_carry c l)) = len l.
Proof. intros Hc. unfold len. now destruct (add_carry_sum l c Hc) as (-> & _). Qed.

(** [increment] on a well-formed counter: the digits are those of
    [add_carry], everything but the field and the carry stays. *)
Lemma increment_digits c :
  well_formed c ->
  well_formed (increment c)
  /\ digits (increment c) = fst (add_carry 1 (digits c))
  /\ carry (increment c) = snd (add_carry 1 (digits c))
  /\ prefix (increment c) = prefix c /\ suffix (increment c) = suffix c
  /\ nbytes (increment c) = nbytes c /\ inc_func (increment c) = inc_func c
  /\ allow_wraparound (increment c) = allow_wraparound c
  /\ shortcut_disabled (increment c) = shortcut_disabled c
  /\ buf_size (increment c) = buf_size c /\ len (val (increment c)) = len (val c)
  /\ len (digits c) = nbytes c.
Proof.
  destruct c as [pre post v bs q n k sd cy aw]. intros Hwf.
  destruct (well_formed_inv _ _ _ _ _ _ _ _ _ _ Hwf) as (f & -> & -> & -> & -> & Hcy).
  rewrite increment_mk, digits_mk.
  cbn [prefix suffix nbytes inc_func allow_wraparound shortcut_disabled buf_size val carry].
  assert (Hbit : 0 <= 1 <= 1) by lia.
  assert (Hd : len (match k with LittleEndian => f | BigEndian => rev f end) = len f).
  { destruct k; [reflexivity | apply len_rev]. }
  assert (Hnew : len (match k with
                      | LittleEndian => fst (add_carry 1 f)
                      | BigEndian => rev (fst (add_carry 1 (rev f)))
                      end) = len f).
  { destruct k; rewrite ?len_rev, len_add_carry, ?len_rev by lia; reflexivity. }
  assert (Hlen : len (pre ++ match k with
                             | LittleEndian => fst (add_carry 1 f)
                             | BigEndian => rev (fst (add_carry 1 (rev f)))
                             end ++ post) = len (pre ++ f ++ post)).
  { rewrite !len_app, Hnew. reflexivity. }
  refine (conj _ (conj _ (conj eq_refl (conj eq_refl (conj eq_refl (conj eq_refl
          (conj eq_refl (conj eq_refl (conj eq_refl (conj eq_refl (conj Hlen Hd))))))))))).
  - rewrite <- Hlen, <- Hnew. apply well_formed_mk.
    destruct (add_carry_sum (match k with LittleEndian => f | BigEndian => rev f end) 1 Hbit)
      as (_ & Hc & _). lia.
  - rewrite <- Hnew, digits_mk. destruct k; [reflexivity | apply rev_involutive].
Qed.


Lemma field_value_range c : well_formed c -> 0 <= field_value c < modulus c.
Proof.
  intros Hwf. destruct (increment_digits c Hwf) as (_ & _ & _ & _ & _ & _ & _ & _ & _ & _ & _ & Hd).
  unfold field_value, modulus. rewrite <- Hd. apply le_value_range.
Qed.

(** The increment adds one modulo [256 ^ nbytes]; the carry is what is
    lost. *)
Lemma increment_value c :
  well_formed c ->
  field_value (increment c) = (field_value c + 1) mod modulus c
  /\ carry (increment c) = (field_value c + 1) / modulus c.
Proof.
  intros Hwf.
  destruct (increment_digits c Hwf)
    as (_ & Hdig & Hcy & _ & _ & _ & _ & _ & _ & _ & _ & Hd).
  assert (Hbit : 0 <= 1 <= 1) by lia.
  destruct (add_carry_sum (digits c) 1 Hbit) as (_ & Hc & Hsum).
  pose proof (le_value_range (fst (add_carry 1 (digits c)))) as Hr.
  rewrite len_add_carry, Hd in Hr by lia. rewrite Hd in Hsum.
  unfold field_value, modulus in *. rewrite Hdig, Hcy.
  split.
  - apply Z.mod_unique with (snd (add_carry 1 (digits c))); [left; lia | lia].
  - apply Z.div_unique with (le_value (fst (add_carry 1 (digits c)))); [left; lia | lia].
Qed.

Lemma same_envelope_refl c : same_envelope c c.
Proof. unfold same_envelope. tauto. Qed.

Lemma same_envelope_trans a b c :
  same_envelope a b -> same_envelope b c -> same_envelope a c.
Proof. unfold same_envelope. intuition congruence. Qed.

Lemma same_envelope_increment c : same_envelope c (increment c).
Proof.
  unfold increment, CounterLEObject_increment, CounterBEObject_increment.
  destruct (inc_func c) eqn:Hk.
  - destruct (CounterLE_loop _ _ _ _). unfold same_envelope. cbn. rewrite Hk. tauto.
  - destruct (CounterBE_loop _ _ _ _). unfold same_envelope. cbn. rewrite Hk. tauto.
Qed.

Lemma CounterObject_call_cases c :
  (overflowed c = true
   /\ CounterObject_call c = (Raise OverflowError_counter_wrapped, c))
  \/ (overflowed c = false
      /\ CounterObject_call c = (PyUnicode_FromStringAndSize (val c), increment c)).
Proof.
  unfold CounterObject_call, overflowed.
  destruct (truthy (carry c) && negb (truthy (allow_wraparound c))); auto.
Qed.

Lemma same_envelope_call c : same_envelope c (snd (CounterObject_call c)).
Proof.
  destruct (CounterObject_call_cases c) as [(_ & ->) | (_ & ->)]; cbn [snd].
  - apply same_envelope_refl.
  - apply same_envelope_increment.
Qed.

Lemma well_formed_call c : well_formed c -> well_formed (snd (CounterObject_call c)).
Proof.
  intros Hwf. destruct (CounterObject_call_cases c) as [(_ & ->) | (_ & ->)]; cbn [snd].
  - exact Hwf.
  - apply increment_digits, Hwf.
Qed.

Lemma after_calls_keep n c :
  well_formed c ->
  well_formed (after_calls n c) /\ same_envelope c (after_calls n c).
Proof.
  intros Hwf. induction n as [|n [IHw IHe]].
  - split; [exact Hwf | apply same_envelope_refl].
  - rewrite CounterFacts.after_calls_S. split.
    + apply well_formed_call, IHw.
    + eapply same_envelope_trans; [exact IHe | apply same_envelope_call].
Qed.

Lemma CounterObject_init_inv kind pre post iv aw sd c :
  CounterObject_init kind pre post iv aw sd = Ok c ->
  c = mkCounter pre post (pre ++ iv ++ post) (len (pre ++ iv ++ post)) (length pre) (len iv)
                kind sd 0 aw
  /\ 1 <= len iv <= 65535 /\ len pre <= 65535 /\ len post <= 65535.
Proof.
  unfold CounterObject_init. fold (len iv) (len pre) (len post).
  destruct (Z.ltb_spec (len iv) 1); [discriminate|].
  destruct (Z.gtb_spec (len iv) 65535); [discriminate|].
  destruct (Z.gtb_spec (len pre) 65535); [discriminate|].
  destruct (Z.gtb_spec (len post) 65535); [discriminate|].
  intros H3. injection H3 as <-. rewrite !len_app.
  replace (len pre + len post + len iv) with (len pre + (len iv + len post)) by lia.
  repeat split; lia.
Qed.

Lemma CounterObject_init_well_formed kind pre post iv aw sd c :
  CounterObject_init kind pre post iv aw sd = Ok c -> well_formed c.
Proof.
  intros H. apply CounterObject_init_inv in H. destruct H as (-> & _). apply well_formed_mk. now left.
Qed.

(** [next_value] reads the field as a number. *)
Lemma next_value_cases c :
  well_formed c ->
  (overflowed c = true /\ next_value c = Raise OverflowError_counter_wrapped)
  \/ (overflowed c = false /\ next_value c = Ok (field_value c)).
Proof.
  destruct c as [pre post v bs q n k sd cy aw]. intros Hwf.
  destruct (well_formed_inv _ _ _ _ _ _ _ _ _ _ Hwf) as (f & -> & -> & -> & -> & Hcy).
  unfold field_value. rewrite digits_mk.
  unfold next_value, CounterLEObject_next_value, CounterBEObject_next_value,
    _CounterObject_next_value, overflowed.
  cbn [inc_func carry allow_wraparound nbytes p val].
  destruct (truthy cy && negb (truthy aw)).
  - left. destruct k; auto.
  - right. split; [reflexivity|]. unfold len. rewrite Nat2Z.id.
    destruct k; cbn [truthy Z.eqb negb].
    + rewrite <- (rev_involutive f) at 3. rewrite <- (length_rev f).
      rewrite next_value_loop_down, rev_involutive. reflexivity.
    + rewrite next_value_loop_up. reflexivity.
Qed.


Lemma overflowed_false c :
  carry c = 0 \/ allow_wraparound c <> 0 -> overflowed c = false.
Proof.
  unfold overflowed, truthy. intros [-> | H]; [reflexivity|].
  apply Z.eqb_neq in H. rewrite H. apply andb_false_r.
Qed.

Lemma overflowed_true c :
  carry c = 1 -> allow_wraparound c = 0 -> overflowed c = true.
Proof. unfold overflowed, truthy. intros -> ->. reflexivity. Qed.

Lemma modulus_pos c : well_formed c -> 0 < modulus c.
Proof. intros H. pose proof (field_value_range c H). lia. Qed.

(** One call that the guard lets through, in numbers. *)
Lemma call_step c :
  well_formed c -> overflowed c = false ->
  CounterObject_call c = (PyUnicode_FromStringAndSize (val c), increment c)
  /\ well_formed (increment c)
  /\ modulus (increment c) = modulus c
  /\ allow_wraparound (increment c) = allow_wraparound c
  /\ field_value (increment c) = (field_value c + 1) mod modulus c
  /\ carry (increment c) = (field_value c + 1) / modulus c.
Proof.
  intros Hwf Hov.
  destruct (CounterObject_call_cases c) as [(H & _) | (_ & Hcall)]; [congruence|].
  destruct (increment_digits c Hwf) as (Hwf' & _ & _ & _ & _ & Hn & _ & Haw & _).
  destruct (increment_value c Hwf) as (Hv & Hc).
  unfold modulus. rewrite Hn. auto 10.
Qed.

Lemma carry_of_sum (v m : Z) :
  0 <= v < m -> (v + 1) / m = (if v + 1 =? m then 1 else 0)
                /\ (v + 1 < m -> (v + 1) mod m = v + 1)
                /\ (v + 1 = m -> (v + 1) mod m = 0).
Proof.
  intros Hv. destruct (Z.eqb_spec (v + 1) m) as [<- | Hne].
  - rewrite Z.div_same, Z.mod_same by lia. repeat split; lia.
  - rewrite Z.div_small, Z.mod_small by lia. repeat split; lia.
Qed.

Lemma after_calls_add a : forall b c,
  after_calls (a + b) c = after_calls a (after_calls b c).
Proof.
  induction a as [|a IH]; intros b c; [reflexivity|].
  cbn [Nat.add]. rewrite !CounterFacts.after_calls_S, IH. reflexivity.
Qed.

(** A counter that refuses stays as it is. *)
Lemma after_calls_overflowed c k : overflowed c = true -> after_calls k c = c.
Proof.
  intros Hov. induction k as [|k IH]; [reflexivity|].
  rewrite CounterFacts.after_calls_S, IH.
  destruct (CounterObject_call_cases c) as [(_ & ->) | (H & _)]; [reflexivity | congruence].
Qed.

(** Before the field has run through its values: [k] calls add [k]. *)
Lemma after_calls_counting c :
  well_formed c -> carry c = 0 ->
  forall k, Z.of_nat k < modulus c - field_value c ->
    carry (after_calls k c) = 0
    /\ field_value (after_calls k c) = field_value c + Z.of_nat k.
Proof.
  intros Hwf Hc. induction k as [|k IH]; intros Hk.
  - cbn [after_calls Z.of_nat]. split; [exact Hc | lia].
  - destruct IH as (IHc & IHv); [lia|].
    destruct (after_calls_keep k c Hwf) as (Hwf' & Henv).
    destruct (call_step _ Hwf' (overflowed_false _ (or_introl IHc)))
      as (Hcall & _ & _ & _ & Hv & Hcy).
    assert (Hm : modulus (after_calls k c) = modulus c).
    { unfold modulus. destruct Henv as (_ & _ & _ & -> & _). reflexivity. }
    rewrite CounterFacts.after_calls_S, Hcall. cbn [snd].
    rewrite Hv, Hcy, Hm, IHv.
    pose proof (field_value_range c Hwf) as Hr.
    rewrite Z.mod_small, Z.div_small by lia. split; lia.
Qed.

(** The call that returns the greatest value sets the carry. *)
Lemma after_calls_wrap c :
  well_formed c -> carry c = 0 ->
  carry (after_calls (Z.to_nat (modulus c - field_value c)) c) = 1
  /\ field_value (after_calls (Z.to_nat (modulus c - field_value c)) c) = 0.
Proof.
  intros Hwf Hc. pose proof (field_value_range c Hwf) as Hr.
  destruct (Z.to_nat (modulus c - field_value c)) as [|k] eqn:Hn; [lia|].
  destruct (after_calls_counting c Hwf Hc k) as (IHc & IHv); [lia|].
  destruct (after_calls_keep k c Hwf) as (Hwf' & Henv).
  destruct (call_step _ Hwf' (overflowed_false _ (or_introl IHc)))
    as (Hcall & _ & _ & _ & Hv & Hcy).
  assert (Hm : modulus (after_calls k c) = modulus c).
  { unfold modulus. destruct Henv as (_ & _ & _ & -> & _). reflexivity. }
  rewrite CounterFacts.after_calls_S, Hcall. cbn [snd].
  rewrite Hv, Hcy, Hm, IHv.
  replace (field_value c + Z.of_nat k + 1) with (modulus c) by lia.
  rewrite Z.mod_same, Z.div_same by lia. split; reflexivity.
Qed.

(** With wraparound the calls count modulo [256 ^ nbytes]. *)
Lemma after_calls_modular c :
  well_formed c -> allow_wraparound c <> 0 ->
  forall k, field_value (after_calls k c) = (field_value c + Z.of_nat k) mod modulus c
            /\ overflowed (after_calls k c) = false.
Proof.
  intros Hwf Haw. pose proof (field_value_range c Hwf) as Hr.
  assert (Hov : forall k, overflowed (after_calls k c) = false).
  { intros k. apply overflowed_false. right.
    destruct (after_calls_keep k c Hwf) as (_ & Henv).
    destruct Henv as (_ & _ & _ & _ & _ & _ & _ & ->). exact Haw. }
  induction k as [|k (IHv & _)]; (split; [|apply Hov]).
  - cbn [after_calls Z.of_nat]. rewrite Z.add_0_r, Z.mod_small by lia. reflexivity.
  - destruct (after_calls_keep k c Hwf) as (Hwf' & Henv).
    destruct (call_step _ Hwf' (Hov k)) as (Hcall & _ & _ & _ & Hv & _).
    assert (Hm : modulus (after_calls k c) = modulus c).
    { unfold modulus. destruct Henv as (_ & _ & _ & -> & _). reflexivity. }
    rewrite CounterFacts.after_calls_S, Hcall. cbn [snd].
    rewrite Hv, Hm, IHv, Z.add_mod_idemp_l by lia. f_equal. lia.
Qed.


Lemma overflowed_inv c :
  well_formed c -> overflowed c = true -> carry c = 1 /\ allow_wraparound c = 0.
Proof.
  intros (_ & _ & _ & _ & Hcy). unfold overflowed, truthy. intros H.
  apply andb_true_iff in H. destruct H as (H1 & H2).
  apply negb_true_iff, negb_false_iff, Z.eqb_eq in H2.
  destruct Hcy as [Hcy | Hcy]; rewrite Hcy in *; [discriminate H1 | auto].
Qed.

Lemma nth_call_S n c :
  nth_call (S n) c = fst (CounterObject_call (after_calls n c)).
Proof. reflexivity. Qed.

(** X1: what [CounterObject_init] accepts, which error it raises, and what it
    builds: the buffer is prefix, initial value, suffix; the first call
    converts that buffer to a string; [next_value] reads the initial
    value in the byte order of the counter. *)
Theorem CounterObject_init_checks kind pre post iv aw sd :
  ((exists c, CounterObject_init kind pre post iv aw sd = Ok c)
   <-> 1 <= len iv <= 65535 /\ len pre <= 65535 /\ len post <= 65535)
  /\ (forall e, CounterObject_init kind pre post iv aw sd = Raise e ->
        (e = ValueError_initval_too_small /\ len iv < 1)
        \/ (e = ValueError_initval_too_large /\ 65535 < len iv)
        \/ (e = ValueError_prefix_too_large /\ 1 <= len iv <= 65535 /\ 65535 < len pre)
        \/ (e = ValueError_suffix_too_large /\ 1 <= len iv <= 65535 /\ len pre <= 65535
            /\ 65535 < len post))
  /\ (forall c, CounterObject_init kind pre post iv aw sd = Ok c ->
        val c = pre ++ iv ++ post
        /\ buf_size c = len pre + len iv + len post
        /\ carry c = 0
        /\ nth_call 1 c = PyUnicode_FromStringAndSize (pre ++ iv ++ post)
        /\ next_value c
           = Ok (le_value match kind with LittleEndian => iv | BigEndian => rev iv end)).
Proof.
  refine (conj _ (conj _ _)).
  - split.
    + intros (c & H). apply CounterObject_init_inv in H. tauto.
    + intros (Hiv & Hpre & Hpost). unfold CounterObject_init. fold (len iv) (len pre) (len post).
      destruct (Z.ltb_spec (len iv) 1); [lia|].
      destruct (Z.gtb_spec (len iv) 65535); [lia|].
      destruct (Z.gtb_spec (len pre) 65535); [lia|].
      destruct (Z.gtb_spec (len post) 65535); [lia|].
      eexists. reflexivity.
  - intros e. unfold CounterObject_init. fold (len iv) (len pre) (len post).
    destruct (Z.ltb_spec (len iv) 1); [intros [= <-]; left; auto|].
    destruct (Z.gtb_spec (len iv) 65535); [intros [= <-]; right; left; split; [reflexivity|lia]|].
    destruct (Z.gtb_spec (len pre) 65535);
      [intros [= <-]; right; right; left; split; [reflexivity|lia]|].
    destruct (Z.gtb_spec (len post) 65535);
      [intros [= <-]; right; right; right; split; [reflexivity|lia]|].
    discriminate.
  - intros c H. pose proof (CounterObject_init_well_formed _ _ _ _ _ _ _ H) as Hwf.
    apply CounterObject_init_inv in H. destruct H as (Hc & _).
    destruct (next_value_cases c Hwf) as [(Hov & _) | (_ & Hnv)].
    { rewrite Hc in Hov. discriminate Hov. }
    rewrite Hnv. unfold field_value. subst c. rewrite digits_mk.
    cbn [val buf_size carry]. rewrite !len_app.
    refine (conj eq_refl (conj _ (conj eq_refl (conj eq_refl eq_refl)))). lia.
Qed.

(** X2: calls change the field and the carry bit and nothing else: after any
    number of calls the buffer is prefix, [len initval] bytes, suffix, of
    the size fixed at construction; the carry is 0 or 1.  A call that
    returns a string returns the one the buffer, as it was before the
    call, encodes in UTF-8.  A call fails in two ways only: with the
    overflow error, when the carry is set and wraparound is not allowed,
    and then it changes nothing; or with the decoding error, when the
    buffer is not UTF-8, and then the counter has been incremented. *)
Theorem calls_keep_the_envelope kind pre post iv aw sd c0 n :
  CounterObject_init kind pre post iv aw sd = Ok c0 ->
  (exists f, val (after_calls n c0) = pre ++ f ++ post /\ len f = len iv)
  /\ len (val (after_calls n c0)) = buf_size c0
  /\ buf_size (after_calls n c0) = buf_size c0
  /\ (carry (after_calls n c0) = 0 \/ carry (after_calls n c0) = 1)
  /\ allow_wraparound (after_calls n c0) = aw
  /\ (forall s, nth_call (S n) c0 = Ok s ->
        utf8_decode (val (after_calls n c0)) = Some s
        /\ after_calls (S n) c0 = increment (after_calls n c0))
  /\ (forall e, nth_call (S n) c0 = Raise e ->
        (e = OverflowError_counter_wrapped /\ aw = 0 /\ carry (after_calls n c0) = 1
         /\ after_calls (S n) c0 = after_calls n c0)
        \/ (e = UnicodeDecodeError_utf8 /\ utf8_decode (val (after_calls n c0)) = None
            /\ after_calls (S n) c0 = increment (after_calls n c0))).
Proof.
  intros H. pose proof (CounterObject_init_well_formed _ _ _ _ _ _ _ H) as Hwf0.
  apply CounterObject_init_inv in H. destruct H as (Hc0 & _).
  destruct (after_calls_keep n c0 Hwf0) as (Hwf & Henv).
  destruct Henv as (Hpre & Hpost & _ & Hn & Hbs & _ & _ & Haw).
  assert (Hfields : prefix c0 = pre /\ suffix c0 = post /\ nbytes c0 = len iv
                    /\ allow_wraparound c0 = aw) by (subst c0; cbn; auto).
  destruct Hfields as (Epre & Epost & En & Eaw).
  pose proof Hwf as (Hval & _ & Hlen & Hsize & Hcy).
  rewrite Hpre, Hpost, Epre, Epost in Hval. rewrite Hn, En in Hlen.
  rewrite CounterFacts.after_calls_S, nth_call_S.
  refine (conj _ (conj _ (conj Hbs (conj Hcy (conj _ (conj _ _)))))).
  - exists (field (after_calls n c0)). auto.
  - rewrite <- Hsize. exact Hbs.
  - congruence.
  - intros s. destruct (CounterObject_call_cases (after_calls n c0)) as [(_ & ->) | (_ & ->)];
      cbn [fst snd]; [discriminate|].
    destruct (FromStringAndSize_cases (val (after_calls n c0))) as [(u & Hu & ->) | (_ & ->)];
      [|discriminate].
    intros [= <-]. auto.
  - intros e. destruct (CounterObject_call_cases (after_calls n c0)) as [(Hov & ->) | (_ & ->)];
      cbn [fst snd].
    + intros [= <-]. destruct (overflowed_inv _ Hwf Hov) as (H1 & H2).
      left. repeat split; congruence.
    + destruct (FromStringAndSize_cases (val (after_calls n c0)))
        as [(u & _ & ->) | (Hnone & ->)]; [discriminate|].
      intros [= <-]. right. auto.
Qed.


Lemma CounterObject_init_facts kind pre post iv aw sd c0 :
  CounterObject_init kind pre post iv aw sd = Ok c0 ->
  well_formed c0 /\ carry c0 = 0 /\ modulus c0 = 256 ^ len iv /\ allow_wraparound c0 = aw.
Proof.
  intros H. split; [exact (CounterObject_init_well_formed _ _ _ _ _ _ _ H)|].
  apply CounterObject_init_inv in H. destruct H as (-> & _). unfold modulus. cbn. auto.
Qed.

Lemma after_calls_facts n c :
  well_formed c ->
  well_formed (after_calls n c) /\ modulus (after_calls n c) = modulus c
  /\ allow_wraparound (after_calls n c) = allow_wraparound c.
Proof.
  intros Hwf. destruct (after_calls_keep n c Hwf) as (Hwf' & Henv).
  destruct Henv as (_ & _ & _ & Hn & _ & _ & _ & Haw).
  unfold modulus. rewrite Hn. auto.
Qed.

Lemma next_value_Ok c v :
  well_formed c -> next_value c = Ok v -> overflowed c = false /\ v = field_value c.
Proof.
  intros Hwf H. destruct (next_value_cases c Hwf) as [(_ & E) | (Hov & E)];
    rewrite E in H; [discriminate | injection H as <-; auto].
Qed.

(** X3: one call seen through [next_value]: the value read before the call is
    below [256 ^ len initval]; the call converts the buffer that holds
    it to a string and, whether that gives a string or the decoding
    error, adds one; the carry is set exactly when the buffer held the
    greatest value, and then the field is back at 0. *)
Theorem next_value_steps_by_one kind pre post iv aw sd c0 n v :
  CounterObject_init kind pre post iv aw sd = Ok c0 ->
  next_value (after_calls n c0) = Ok v ->
  0 <= v < 256 ^ len iv
  /\ nth_call (S n) c0 = PyUnicode_FromStringAndSize (val (after_calls n c0))
  /\ carry (after_calls (S n) c0) = (if v + 1 =? 256 ^ len iv then 1 else 0)
  /\ (v + 1 < 256 ^ len iv -> next_value (after_calls (S n) c0) = Ok (v + 1))
  /\ (v + 1 = 256 ^ len iv ->
      next_value (after_calls (S n) c0)
      = if aw =? 0 then Raise OverflowError_counter_wrapped else Ok 0).
Proof.
  intros Hinit Hnv.
  destruct (CounterObject_init_facts _ _ _ _ _ _ _ Hinit) as (Hwf0 & _ & Hm0 & Haw0).
  destruct (after_calls_facts n c0 Hwf0) as (Hwf & Hm & Haw).
  destruct (next_value_Ok _ _ Hwf Hnv) as (Hov & ->).
  pose proof (field_value_range _ Hwf) as Hr.
  destruct (call_step _ Hwf Hov) as (Hcall & Hwf' & _ & Haw' & Hv & Hcy).
  rewrite Hm, Hm0 in *. rewrite Haw, Haw0 in Haw'.
  destruct (carry_of_sum _ _ Hr) as (Hdiv & Hsmall & Hfull).
  rewrite nth_call_S, CounterFacts.after_calls_S, Hcall. cbn [fst snd].
  rewrite Hcy, Hdiv.
  refine (conj Hr (conj eq_refl (conj eq_refl (conj _ _)))); intros Hcase.
  - destruct (next_value_cases _ Hwf') as [(Hov' & _) | (_ & ->)].
    + apply (overflowed_inv _ Hwf') in Hov'. destruct Hov' as (Hc1 & _).
      rewrite Hcy, Hdiv in Hc1. destruct (Z.eqb_spec (field_value (after_calls n c0) + 1)
                                                     (256 ^ len iv)); [lia | discriminate].
    + rewrite Hv, Hsmall by exact Hcase. reflexivity.
  - assert (Hc1 : carry (increment (after_calls n c0)) = 1).
    { rewrite Hcy, Hdiv. apply Z.eqb_eq in Hcase. rewrite Hcase. reflexivity. }
    destruct (Z.eqb_spec aw 0) as [E | E].
    + destruct (next_value_cases _ Hwf') as [(_ & ->) | (Hov' & _)]; [reflexivity|].
      rewrite overflowed_true in Hov' by congruence. discriminate.
    + destruct (next_value_cases _ Hwf') as [(Hov' & _) | (_ & ->)].
      * rewrite overflowed_false in Hov' by (right; congruence). discriminate.
      * rewrite Hv, Hfull by exact Hcase. reflexivity.
Qed.

(** X4: how long a counter lasts.  With [v0] the initial value and
    [N = 256 ^ len initval - v0]: the guard lets the first [N] calls
    through, each converts its buffer to a string (or raises the
    decoding error) and they count up from [v0] by one; without
    wraparound every later call raises the overflow error and the
    counter stays as call [N] left it; with wraparound the guard never
    stops a call and the values go round modulo [256 ^ len initval]. *)
Theorem calls_count_up kind pre post iv aw sd c0 v0 :
  CounterObject_init kind pre post iv aw sd = Ok c0 ->
  next_value c0 = Ok v0 ->
  (forall k, Z.of_nat k < 256 ^ len iv - v0 ->
     next_value (after_calls k c0) = Ok (v0 + Z.of_nat k))
  /\ (forall k, 1 <= Z.of_nat k <= 256 ^ len iv - v0 ->
        nth_call k c0 = PyUnicode_FromStringAndSize (val (after_calls (pred k) c0))
        /\ nth_call k c0 <> Raise OverflowError_counter_wrapped)
  /\ (aw = 0 -> forall k, 256 ^ len iv - v0 < Z.of_nat k ->
        nth_call k c0 = Raise OverflowError_counter_wrapped
        /\ after_calls k c0 = after_calls (Z.to_nat (256 ^ len iv - v0)) c0)
  /\ (aw <> 0 -> forall k,
        next_value (after_calls k c0) = Ok ((v0 + Z.of_nat k) mod 256 ^ len iv)
        /\ nth_call (S k) c0 = PyUnicode_FromStringAndSize (val (after_calls k c0))
        /\ nth_call (S k) c0 <> Raise OverflowError_counter_wrapped).
Proof.
  intros Hinit Hnv.
  destruct (CounterObject_init_facts _ _ _ _ _ _ _ Hinit) as (Hwf0 & Hc0 & Hm0 & Haw0).
  destruct (next_value_Ok _ _ Hwf0 Hnv) as (_ & ->).
  pose proof (field_value_range _ Hwf0) as Hr.
  rewrite <- Hm0.
  assert (Hcount : forall k, Z.of_nat k < modulus c0 - field_value c0 ->
            overflowed (after_calls k c0) = false
            /\ next_value (after_calls k c0) = Ok (field_value c0 + Z.of_nat k)).
  { intros k Hk. destruct (after_calls_counting c0 Hwf0 Hc0 k Hk) as (Hc & Hv).
    destruct (after_calls_facts k c0 Hwf0) as (Hwf & _).
    pose proof (overflowed_false _ (or_introl Hc)) as Hov. split; [exact Hov|].
    destruct (next_value_cases _ Hwf) as [(E & _) | (_ & ->)]; congruence. }
  refine (conj _ (conj _ (conj _ _))).
  - intros k Hk. apply Hcount, Hk.
  - intros [|k] Hk; [lia|]. destruct (Hcount k) as (Hov & _); [lia|].
    rewrite nth_call_S. cbn [pred].
    destruct (CounterObject_call_cases (after_calls k c0)) as [(E & _) | (_ & ->)];
      [congruence|]. cbn [fst]. split; [reflexivity|].
    destruct (FromStringAndSize_cases (val (after_calls k c0))) as [(u & _ & ->) | (_ & ->)];
      discriminate.
  - intros Haw k Hk.
    destruct (after_calls_wrap c0 Hwf0 Hc0) as (Hc & _).
    set (N := Z.to_nat (modulus c0 - field_value c0)) in *.
    destruct (after_calls_facts N c0 Hwf0) as (_ & _ & HawN).
    assert (Hov : overflowed (after_calls N c0) = true)
      by (apply overflowed_true; congruence).
    assert (Hfrozen : forall j, (N <= j)%nat -> after_calls j c0 = after_calls N c0).
    { intros j Hj. replace j with ((j - N) + N)%nat by lia.
      rewrite after_calls_add. apply after_calls_overflowed, Hov. }
    split; [|apply Hfrozen; lia].
    destruct k as [|k]; [lia|]. rewrite nth_call_S, Hfrozen by lia.
    destruct (CounterObject_call_cases (after_calls N c0)) as [(_ & ->) | (E & _)];
      [reflexivity | congruence].
  - intros Haw k. rewrite <- Haw0 in Haw.
    destruct (after_calls_modular c0 Hwf0 Haw k) as (Hv & Hov).
    destruct (after_calls_facts k c0 Hwf0) as (Hwf & _).
    split.
    + destruct (next_value_cases _ Hwf) as [(E & _) | (_ & ->)]; congruence.
    + rewrite nth_call_S.
      destruct (CounterObject_call_cases (after_calls k c0)) as [(E & _) | (_ & ->)];
        [congruence|]. cbn [fst]. split; [reflexivity|].
      destruct (FromStringAndSize_cases (val (after_calls k c0))) as [(u & _ & ->) | (_ & ->)];
        discriminate.
Qed.

(** The two-byte little-endian counter of the examples. *)
Lemma calls_keep_the_envelope_witness :
  CounterObject_init LittleEndian (bytes [7]) (bytes [9]) (bytes [254; 255]) 0 0
  = Ok two_byte_counter
  /\ len (val (after_calls 3 two_byte_counter)) = buf_size two_byte_counter.
Proof.
  split; [reflexivity|].
  destruct (calls_keep_the_envelope LittleEndian (bytes [7]) (bytes [9]) (bytes [254; 255])
              0 0 two_byte_counter 3 eq_refl) as (_ & H & _).
  exact H.
Defined.

(** Its second call returns the greatest value, 65535, and sets the
    carry. *)
Lemma next_value_steps_by_one_witness :
  next_value (after_calls 1 two_byte_counter) = Ok 65535
  /\ nth_call 2 two_byte_counter
     = PyUnicode_FromStringAndSize (val (after_calls 1 two_byte_counter))
  /\ carry (after_calls 2 two_byte_counter) = 1.
Proof.
  split; [reflexivity|].
  destruct (next_value_steps_by_one LittleEndian (bytes [7]) (bytes [9]) (bytes [254; 255])
              0 0 two_byte_counter 1 65535 eq_refl eq_refl) as (_ & Hcall & Hcarry & _).
  split; [exact Hcall | exact Hcarry].
Defined.

(** It starts at 65534: the guard lets two calls through and stops the
    third. *)
Lemma calls_count_up_witness :
  next_value two_byte_counter = Ok 65534
  /\ nth_call 2 two_byte_counter <> Raise OverflowError_counter_wrapped
  /\ nth_call 3 two_byte_counter = Raise OverflowError_counter_wrapped.
Proof.
  split; [reflexivity|].
  destruct (calls_count_up LittleEndian (bytes [7]) (bytes [9]) (bytes [254; 255])
              0 0 two_byte_counter 65534 eq_refl eq_refl) as (_ & Hok & Hfail & _).
  split.
  - apply (Hok 2%nat). cbn. lia.
  - apply (Hfail eq_refl 3%nat). cbn. lia.
Defined.

End CounterArith.

(** ** The engine, mode by mode *)

Ltac mode_eqbs :=
  repeat match goal with
         | |- context [?a =? ?b] =>
             let E := fresh "E" in
             destruct (Z.eqb_spec a b) as [E | E];
             [ try (exfalso; unfold MODE_ECB, MODE_CBC, MODE_CFB, MODE_PGP, MODE_OFB,
                      MODE_CTR in *; lia)
             | try (exfalso; unfold MODE_ECB, MODE_CBC, MODE_CFB, MODE_PGP, MODE_OFB,
                      MODE_CTR in *; lia) ]
         end.

Ltac mode_clash :=
  exfalso; unfold MODE_ECB, MODE_CBC, MODE_CFB, MODE_PGP, MODE_OFB, MODE_CTR in *; lia.


Section EngineDispatch.

Context {C : BlockCipher}.

(** The result of a loop over blocks, as [ALG_Encrypt] and [ALG_Decrypt]
    return it. *)
Lemma let_pair_eta {A B D : Type} (x : A * B) (f : A -> B -> D) :
  (let '(a, b) := x in f a b) = f (fst x) (snd x).
Proof. destruct x; reflexivity. Qed.

Lemma ALG_Encrypt_dispatch self str :
  len str <> 0 ->
  (exists body step e,
      ((mode self = MODE_ECB /\ body = ecb_encrypt_body /\ step = BLOCK_SIZE
        /\ e = ValueError_block_multiple)
       \/ (mode self = MODE_CBC /\ body = cbc_encrypt_body /\ step = BLOCK_SIZE
           /\ e = ValueError_block_multiple)
       \/ (mode self = MODE_CFB /\ body = cfb_encrypt_body
           /\ step = Z.quot (segment_size self) 8 /\ e = ValueError_segment_multiple)
       \/ (mode self = MODE_OFB /\ body = ofb_encrypt_body /\ step = BLOCK_SIZE
           /\ e = ValueError_block_multiple))
      /\ ALG_Encrypt self str
         = if Z.rem (len str) step =? 0
           then (Ok (fst (for_blocks body step (length str) self str)),
                 snd (for_blocks body step (length str) self str))
           else (Raise e, self))
  \/ (mode self = MODE_PGP
      /\ ALG_Encrypt self str = (Ok (fst (pgp_encrypt self str)), snd (pgp_encrypt self str)))
  \/ (mode self = MODE_CTR /\ ALG_Encrypt self str = ctr_loop (S (S (length str))) self str)
  \/ (~ MODE_ECB <= mode self <= MODE_CTR
      /\ exists e, ALG_Encrypt self str = (Raise e, self)).
Proof.
  intros Hlen. apply Z.eqb_neq in Hlen. unfold ALG_Encrypt. rewrite Hlen, !let_pair_eta.
  assert (Hcases : mode self = MODE_ECB \/ mode self = MODE_CBC \/ mode self = MODE_CFB
                   \/ mode self = MODE_PGP \/ mode self = MODE_OFB \/ mode self = MODE_CTR
                   \/ ~ MODE_ECB <= mode self <= MODE_CTR).
  { unfold MODE_ECB, MODE_CBC, MODE_CFB, MODE_PGP, MODE_OFB, MODE_CTR. lia. }
  destruct Hcases as [Hm | [Hm | [Hm | [Hm | [Hm | [Hm | Hm]]]]]].
  - left. exists ecb_encrypt_body, BLOCK_SIZE, ValueError_block_multiple.
    split; [tauto|]. rewrite Hm. simp_mode.
    destruct (Z.rem (len str) BLOCK_SIZE =? 0); reflexivity.
  - left. exists cbc_encrypt_body, BLOCK_SIZE, ValueError_block_multiple.
    split; [tauto|]. rewrite Hm. simp_mode.
    destruct (Z.rem (len str) BLOCK_SIZE =? 0); reflexivity.
  - left. exists cfb_encrypt_body, (Z.quot (segment_size self) 8), ValueError_segment_multiple.
    split; [tauto|]. rewrite Hm. simp_mode.
    destruct (Z.rem (len str) (Z.quot (segment_size self) 8) =? 0); reflexivity.
  - right. left. split; [exact Hm|]. rewrite Hm. simp_mode. reflexivity.
  - left. exists ofb_encrypt_body, BLOCK_SIZE, ValueError_block_multiple.
    split; [tauto|]. rewrite Hm. simp_mode.
    destruct (Z.rem (len str) BLOCK_SIZE =? 0); reflexivity.
  - right. right. left. split; [exact Hm|]. rewrite Hm. simp_mode. reflexivity.
  - right. right. right. split; [exact Hm|].
    destruct (Z.rem (len str) BLOCK_SIZE =? 0); mode_eqbs; cbn [negb andb]; eexists; reflexivity.
Qed.

Lemma ALG_Decrypt_dispatch self str :
  prf_mode self = 0 -> len str <> 0 ->
  (exists body step e,
      ((mode self = MODE_ECB /\ body = ecb_decrypt_body /\ step = BLOCK_SIZE
        /\ e = ValueError_block_multiple)
       \/ (mode self = MODE_CBC /\ body = cbc_decrypt_body /\ step = BLOCK_SIZE
           /\ e = ValueError_block_multiple)
       \/ (mode self = MODE_CFB /\ body = cfb_decrypt_body
           /\ step = Z.quot (segment_size self) 8 /\ e = ValueError_segment_multiple)
       \/ (mode self = MODE_OFB /\ body = ofb_decrypt_body /\ step = BLOCK_SIZE
           /\ e = ValueError_block_multiple))
      /\ ALG_Decrypt self str
         = if Z.rem (len str) step =? 0
           then (Ok (fst (for_blocks body step (length str) self str)),
                 snd (for_blocks body step (length str) self str))
           else (Raise e, self))
  \/ (mode self = MODE_PGP
      /\ ALG_Decrypt self str = (Ok (fst (pgp_decrypt self str)), snd (pgp_decrypt self str)))
  \/ (mode self = MODE_CTR /\ ALG_Decrypt self str = ctr_loop (S (S (length str))) self str)
  \/ (~ MODE_ECB <= mode self <= MODE_CTR
      /\ exists e, ALG_Decrypt self str = (Raise e, self)).
Proof.
  intros Hprf Hlen.
  assert (Hcases : mode self = MODE_ECB \/ mode self = MODE_CBC \/ mode self = MODE_CFB
                   \/ mode self = MODE_PGP \/ mode self = MODE_OFB \/ mode self = MODE_CTR
                   \/ ~ MODE_ECB <= mode self <= MODE_CTR).
  { unfold MODE_ECB, MODE_CBC, MODE_CFB, MODE_PGP, MODE_OFB, MODE_CTR. lia. }
  destruct Hcases as [Hm | [Hm | [Hm | [Hm | [Hm | [Hm | Hm]]]]]].
  6:{ right. right. left. split; [exact Hm|].
      rewrite ALG_Decrypt_CTR by assumption. apply ALG_Encrypt_CTR; assumption. }
  all: apply Z.eqb_neq in Hlen; unfold ALG_Decrypt, truthy.
  all: rewrite Hprf, Hlen, !let_pair_eta.
  - left. exists ecb_decrypt_body, BLOCK_SIZE, ValueError_block_multiple.
    split; [tauto|]. rewrite Hm. simp_mode.
    destruct (Z.rem (len str) BLOCK_SIZE =? 0); reflexivity.
  - left. exists cbc_decrypt_body, BLOCK_SIZE, ValueError_block_multiple.
    split; [tauto|]. rewrite Hm. simp_mode.
    destruct (Z.rem (len str) BLOCK_SIZE =? 0); reflexivity.
  - left. exists cfb_decrypt_body, (Z.quot (segment_size self) 8), ValueError_segment_multiple.
    split; [tauto|]. rewrite Hm. simp_mode.
    destruct (Z.rem (len str) (Z.quot (segment_size self) 8) =? 0); reflexivity.
  - right. left. split; [exact Hm|]. rewrite Hm. simp_mode. reflexivity.
  - left. exists ofb_decrypt_body, BLOCK_SIZE, ValueError_block_multiple.
    split; [tauto|]. rewrite Hm. simp_mode.
    destruct (Z.rem (len str) BLOCK_SIZE =? 0); reflexivity.
  - right. right. right. split; [exact Hm|]. cbn [Z.eqb negb].
    destruct (Z.rem (len str) BLOCK_SIZE =? 0); mode_eqbs; cbn [negb andb]; eexists; reflexivity.
Qed.

End EngineDispatch.

(** ** [sync], [setMode] and ECB: what they do to the engine *)

Section EngineCalls.

Context {C : BlockCipher}.

Lemma ALG_Sync_cases self :
  (mode self <> MODE_PGP /\ ALG_Sync self = (Raise SystemError_sync, self))
  \/ (mode self = MODE_PGP /\ count self = 8 /\ ALG_Sync self = (Ok tt, self))
  \/ (mode self = MODE_PGP /\ count self <> 8
      /\ ALG_Sync self
         = (Ok tt,
            set_count
              (set_IV self
                 (memcpy (memcpy (IV self) (BLOCK_SIZE - count self) (IV self) (count self)) 0
                    (sub (oldCipher self) (count self) (BLOCK_SIZE - count self))
                    (BLOCK_SIZE - count self))) 8)).
Proof.
  unfold ALG_Sync.
  destruct (Z.eqb_spec (mode self) MODE_PGP) as [Hm | Hm]; cbn [negb]; [|auto].
  destruct (Z.eqb_spec (count self) 8) as [Hc | Hc]; cbn [negb]; auto.
Qed.

(** The register after a [sync()] that has something to do: the unused
    bytes of [oldCipher], then the used bytes of the register. *)
Lemma sync_register (iv old : list byte) (n : Z) :
  len iv = BLOCK_SIZE -> len old = BLOCK_SIZE -> 0 <= n <= BLOCK_SIZE ->
  memcpy (memcpy iv (BLOCK_SIZE - n) iv n) 0 (sub old n (BLOCK_SIZE - n)) (BLOCK_SIZE - n)
  = sub old n (BLOCK_SIZE - n) ++ sub iv 0 n.
Proof.
  intros Hiv Hold Hn. unfold memcpy at 1. cbn [Z.to_nat firstn app Nat.add].
  assert (Hs : len (sub old n (BLOCK_SIZE - n)) = BLOCK_SIZE - n) by (rewrite len_sub; lia).
  rewrite (firstn_all2 (n := Z.to_nat (BLOCK_SIZE - n))) by (unfold len in Hs; lia).
  f_equal. unfold memcpy.
  rewrite skipn_app_exact by (rewrite len_firstn; lia).
  rewrite (skipn_all2 (n := (Z.to_nat (BLOCK_SIZE - n) + Z.to_nat n)%nat))
    by (unfold len in Hiv; lia).
  rewrite app_nil_r. symmetry. apply sub_0.
Qed.

Lemma prf_mode_run_call self c :
  prf_mode self <> 0 -> prf_mode (run_call self c) <> 0.
Proof.
  intros Hprf. destruct c as [str | str | | v]; cbn [run_call].
  - destruct (frame_ALG_Encrypt self str) as (_ & _ & -> & _). exact Hprf.
  - rewrite ALG_Decrypt_prf by exact Hprf. exact Hprf.
  - destruct (frame_ALG_Sync self) as (_ & _ & -> & _). exact Hprf.
  - unfold ALG_SetMode. destruct (Z.geb_spec v 1); cbn [snd set_prf_mode prf_mode]; lia.
Qed.

Lemma prf_mode_run_calls cs : forall self,
  prf_mode self <> 0 -> prf_mode (run_calls self cs) <> 0.
Proof.
  induction cs as [|c cs IH]; intros self Hprf; [exact Hprf|].
  cbn [run_calls fold_left]. apply IH, prf_mode_run_call, Hprf.
Qed.

Lemma for_blocks_fixed body step :
  (forall s str, snd (body s str) = s) ->
  forall fuel s str, snd (for_blocks body step fuel s str) = s.
Proof.
  intros Hbody fuel s str.
  apply (for_blocks_keeps (fun a b => b = a) body step); [reflexivity | congruence |].
  intros s0 str0. apply Hbody.
Qed.

(** The output of a loop that leaves the engine alone is that of any
    engine with the same key state. *)
Lemma for_blocks_same_key body step :
  (forall s str, snd (body s str) = s) ->
  (forall s s' str, st s = st s' -> fst (body s str) = fst (body s' str)) ->
  forall fuel s s' str,
    st s = st s' ->
    fst (for_blocks body step fuel s str) = fst (for_blocks body step fuel s' str).
Proof.
  intros Hfix Hkey. induction fuel as [|fuel IH]; intros s s' str Hst; [reflexivity|].
  cbn [for_blocks]. destruct (0 <? len str); [|reflexivity].
  rewrite !let_pair_eta. cbn [fst]. rewrite !Hfix.
  rewrite (Hkey s s' str Hst), (IH s s' _ Hst). reflexivity.
Qed.

(** X5: [sync()] is refused on an engine that is not in PGP mode, and
    nothing changes; on a PGP engine it succeeds, sets [count] to 8 and
    writes nothing but [IV] and [count]; at [count = 8] it does nothing;
    otherwise the register becomes the unused bytes of [oldCipher]
    followed by the used bytes of the register; a second [sync()] right
    after the first does nothing. *)
Theorem sync_realigns_once self :
  (mode self <> MODE_PGP -> ALG_Sync self = (Raise SystemError_sync, self))
  /\ (mode self = MODE_PGP ->
      fst (ALG_Sync self) = Ok tt /\ count (snd (ALG_Sync self)) = 8
      /\ frame self (snd (ALG_Sync self))
      /\ counter (snd (ALG_Sync self)) = counter self
      /\ (count self = 8 -> snd (ALG_Sync self) = self)
      /\ (count self <> 8 -> buffers_ok self -> 0 <= count self <= BLOCK_SIZE ->
          IV (snd (ALG_Sync self))
          = sub (oldCipher self) (count self) (BLOCK_SIZE - count self)
              ++ sub (IV self) 0 (count self)))
  /\ ALG_Sync (snd (ALG_Sync self)) = (fst (ALG_Sync self), snd (ALG_Sync self)).
Proof.
  refine (conj _ (conj _ _)).
  - intros Hm. destruct (ALG_Sync_cases self) as [(_ & ->) | [(E & _) | (E & _)]];
      [reflexivity | contradiction | contradiction].
  - intros Hm. pose proof (frame_ALG_Sync self) as Hfr.
    destruct (ALG_Sync_cases self) as [(E & _) | [(_ & Hc & Hs) | (_ & Hc & Hs)]];
      [contradiction | |]; rewrite Hs in *; cbn [fst snd] in *.
    + refine (conj eq_refl (conj Hc (conj Hfr (conj eq_refl (conj _ _))))); [auto | tauto].
    + refine (conj eq_refl (conj eq_refl (conj Hfr (conj eq_refl (conj _ _))))); [tauto|].
      intros _ (Hiv & Hold) Hn. cbn [set_count set_IV IV]. apply sync_register; assumption.
  - destruct (ALG_Sync_cases self) as [(Hm & Hs) | [(Hm & Hc & Hs) | (Hm & Hc & Hs)]];
      rewrite Hs; cbn [fst snd]; [exact Hs | exact Hs |].
    match goal with |- ALG_Sync ?s = _ =>
      destruct (ALG_Sync_cases s) as [(Hm' & _) | [(_ & _ & ->) | (_ & Hc' & _)]]
    end; [contradiction | reflexivity | cbn in Hc'; lia].
Qed.

(** X6: [setMode] never fails; an argument below 1 changes nothing; an
    argument of 1 or more turns the engine into a PRF for good: whatever
    is called afterwards, [decrypt] is refused and leaves the engine as it
    is. *)
Theorem setMode_is_one_way self v cs str :
  fst (ALG_SetMode self v) = Ok tt
  /\ (v < 1 -> snd (ALG_SetMode self v) = self)
  /\ (1 <= v \/ prf_mode self <> 0 ->
      ALG_Decrypt (run_calls (snd (ALG_SetMode self v)) cs) str
      = (Raise ValueError_decrypt_disabled, run_calls (snd (ALG_SetMode self v)) cs)).
Proof.
  refine (conj _ (conj _ _)).
  - unfold ALG_SetMode. destruct (v >=? 1); reflexivity.
  - intros Hv. unfold ALG_SetMode. destruct (Z.geb_spec v 1); [lia | reflexivity].
  - intros Hv. apply ALG_Decrypt_prf, prf_mode_run_calls.
    unfold ALG_SetMode. destruct (Z.geb_spec v 1); cbn [snd set_prf_mode prf_mode]; lia.
Qed.

(** X7: ECB keeps no state.  Neither [encrypt] nor [decrypt] changes an
    ECB engine, whether the call succeeds or not, and what they return
    depends on the key state and the input only. *)
Theorem ecb_keeps_no_state self other str :
  mode self = MODE_ECB -> mode other = MODE_ECB -> st other = st self ->
  snd (ALG_Encrypt self str) = self
  /\ snd (ALG_Decrypt self str) = self
  /\ fst (ALG_Encrypt other str) = fst (ALG_Encrypt self str)
  /\ (prf_mode other = prf_mode self ->
      fst (ALG_Decrypt other str) = fst (ALG_Decrypt self str)).
Proof.
  intros Hm Hm' Hst.
  assert (Henc : forall s, mode s = MODE_ECB ->
            ALG_Encrypt s str
            = if len str =? 0 then (Ok [], s)
              else if Z.rem (len str) BLOCK_SIZE =? 0
                   then (Ok (fst (for_blocks ecb_encrypt_body BLOCK_SIZE (length str) s str)), s)
                   else (Raise ValueError_block_multiple, s)).
  { intros s Hs. destruct (Z.eqb_spec (len str) 0) as [E | E].
    - unfold ALG_Encrypt. apply Z.eqb_eq in E. rewrite E. reflexivity.
    - destruct (ALG_Encrypt_dispatch s str E)
        as [(body & step & e & Hb & ->) | [(H & _) | [(H & _) | (H & _)]]];
        try (exfalso; unfold MODE_ECB, MODE_CBC, MODE_CFB, MODE_PGP, MODE_OFB, MODE_CTR in *;
             lia).
      destruct Hb as [(_ & -> & -> & ->) | [(H & _) | [(H & _) | (H & _)]]];
        try (exfalso; unfold MODE_ECB, MODE_CBC, MODE_CFB, MODE_PGP, MODE_OFB, MODE_CTR in *;
             lia).
      rewrite for_blocks_fixed by reflexivity. reflexivity. }
  assert (Hdec : forall s, mode s = MODE_ECB ->
            ALG_Decrypt s str
            = if truthy (prf_mode s) then (Raise ValueError_decrypt_disabled, s)
              else if len str =? 0 then (Ok [], s)
              else if Z.rem (len str) BLOCK_SIZE =? 0
                   then (Ok (fst (for_blocks ecb_decrypt_body BLOCK_SIZE (length str) s str)), s)
                   else (Raise ValueError_block_multiple, s)).
  { intros s Hs. unfold truthy. destruct (Z.eqb_spec (prf_mode s) 0) as [P | P]; cbn [negb].
    2:{ apply ALG_Decrypt_prf, P. }
    destruct (Z.eqb_spec (len str) 0) as [E | E].
    - unfold ALG_Decrypt, truthy. apply Z.eqb_eq in E. rewrite P, Hs, E. reflexivity.
    - destruct (ALG_Decrypt_dispatch s str P E)
        as [(body & step & e & Hb & ->) | [(H & _) | [(H & _) | (H & _)]]];
        try (exfalso; unfold MODE_ECB, MODE_CBC, MODE_CFB, MODE_PGP, MODE_OFB, MODE_CTR in *;
             lia).
      destruct Hb as [(_ & -> & -> & ->) | [(H & _) | [(H & _) | (H & _)]]];
        try (exfalso; unfold MODE_ECB, MODE_CBC, MODE_CFB, MODE_PGP, MODE_OFB, MODE_CTR in *;
             lia).
      rewrite for_blocks_fixed by reflexivity. reflexivity. }
  rewrite !Henc, !Hdec by assumption.
  refine (conj _ (conj _ (conj _ _))).
  - destruct (len str =? 0); [reflexivity|]. destruct (Z.rem _ _ =? 0); reflexivity.
  - destruct (truthy (prf_mode self)); [reflexivity|].
    destruct (len str =? 0); [reflexivity|]. destruct (Z.rem _ _ =? 0); reflexivity.
  - destruct (len str =? 0); [reflexivity|]. destruct (Z.rem _ _ =? 0); [|reflexivity].
    cbn [fst]. f_equal. apply for_blocks_same_key; [reflexivity | | exact Hst].
    intros s s' x E. unfold ecb_encrypt_body. cbn [fst]. rewrite E. reflexivity.
  - intros ->. destruct (truthy (prf_mode self)); [reflexivity|].
    destruct (len str =? 0); [reflexivity|]. destruct (Z.rem _ _ =? 0); [|reflexivity].
    cbn [fst]. f_equal. apply for_blocks_same_key; [reflexivity | | exact Hst].
    intros s s' x E. unfold ecb_decrypt_body. cbn [fst]. rewrite E. reflexivity.
Qed.

End EngineCalls.

(** ** What [ALGnew] accepts *)

Section EngineNew.

Context {C : BlockCipher}.



End EngineNew.

(** ** The shape of the engine between calls *)

Section EngineShape.

Context {C : BlockCipher}.
Hypothesis laws : BlockCipherLaws C.

(** A loop over whole blocks keeps what its body keeps, and returns as
    many bytes as it reads when its body returns one block for one
    block. *)
Lemma for_blocks_invariant (I : ALGobject -> Prop) (L : Prop) body step :
  0 < step ->
  (forall s str, I s -> step <= len str ->
     I (snd (body s str)) /\ (L -> len (fst (body s str)) = step)) ->
  forall fuel s str,
    I s -> (step | len str) -> (length str <= fuel)%nat ->
    I (snd (for_blocks body step fuel s str))
    /\ (L -> len (fst (for_blocks body step fuel s str)) = len str).
Proof.
  intros Hstep Hbody.
  induction fuel as [|fuel IH]; intros s str HI Hdiv Hfuel.
  { destruct str; [|cbn in Hfuel; lia]. cbn. auto. }
  rewrite for_blocks_S. destruct (0 <? len str) eqn:Epos.
  2:{ apply Z.ltb_ge in Epos. pose proof (len_nonneg str). cbn [fst snd].
      split; [exact HI | intros _; unfold len in *; cbn [length]; lia]. }
  apply Z.ltb_lt in Epos. cbn [fst snd].
  assert (Hle : step <= len str).
  { destruct Hdiv as [k Hk]. destruct (Z.le_gt_cases k 0); nia. }
  assert (Hdiv' : (step | len (skipn (Z.to_nat step) str))).
  { rewrite len_skipn. replace (Z.max 0 (len str - Z.of_nat (Z.to_nat step)))
      with (len str - step) by lia.
    apply Z.divide_sub_r; [assumption | apply Z.divide_refl]. }
  destruct (Hbody s str HI Hle) as (HI' & Hlen).
  destruct (IH (snd (body s str)) (skipn (Z.to_nat step) str) HI' Hdiv') as (IHI & IHlen).
  { rewrite length_skipn. unfold len in *. lia. }
  split; [exact IHI|]. intros HL. rewrite len_app, Hlen, IHlen, len_skipn by exact HL. lia.
Qed.

Lemma for_blocks_count body step :
  (forall s str, count (snd (body s str)) = count s) ->
  forall fuel s str, count (snd (for_blocks body step fuel s str)) = count s.
Proof.
  intros Hbody fuel s str.
  apply (for_blocks_keeps (fun a b => count b = count a) body step);
    [reflexivity | congruence | exact Hbody].
Qed.

Lemma for_blocks_counter body step :
  (forall s str, counter (snd (body s str)) = counter s) ->
  forall fuel s str, counter (snd (for_blocks body step fuel s str)) = counter s.
Proof.
  intros Hbody fuel s str.
  apply (for_blocks_keeps (fun a b => counter b = counter a) body step);
    [reflexivity | congruence | exact Hbody].
Qed.

Lemma count_cfb_shift s seg : count (cfb_shift s seg) = count s.
Proof.
  unfold cfb_shift. destruct (_ =? _); [reflexivity|]. destruct (_ =? _); reflexivity.
Qed.

Lemma counter_cfb_shift s seg : counter (cfb_shift s seg) = counter s.
Proof.
  unfold cfb_shift. destruct (_ =? _); [reflexivity|]. destruct (_ =? _); reflexivity.
Qed.

Lemma oldCipher_cfb_shift s seg : oldCipher (cfb_shift s seg) = oldCipher s.
Proof.
  unfold cfb_shift. destruct (_ =? _); [reflexivity|]. destruct (_ =? _); reflexivity.
Qed.

Lemma segment_size_cfb_shift s seg : segment_size (cfb_shift s seg) = segment_size s.
Proof.
  unfold cfb_shift. destruct (_ =? _); [reflexivity|]. destruct (_ =? _); reflexivity.
Qed.

Lemma len_cfb_shift s seg :
  cfb_ok s -> len (IV s) = BLOCK_SIZE -> Z.quot (segment_size s) 8 <= len seg ->
  len (IV (cfb_shift s seg)) = BLOCK_SIZE.
Proof.
  intros Hok Hiv Hseg. destruct (cfb_ok_bytes s Hok) as (Hsz & Heq & Hrem).
  unfold cfb_shift. destruct (Z.eqb_spec (segment_size s) (BLOCK_SIZE * 8)) as [E | E].
  - cbn [IV set_IV]. len_lia.
  - rewrite Hrem. cbn [Z.eqb IV set_IV]. len_lia.
Qed.

(** The loop bodies keep the size of the buffers, [count] and the
    counter, and return one block (one segment) for one. *)
Lemma block_bodies_shape body (dec : bool) :
  (dec = false /\ (body = ecb_encrypt_body \/ body = cbc_encrypt_body
                   \/ body = ofb_encrypt_body))
  \/ (dec = true /\ (body = ecb_decrypt_body \/ body = cbc_decrypt_body
                     \/ body = ofb_decrypt_body)) ->
  forall s str,
    buffers_ok s -> BLOCK_SIZE <= len str ->
    buffers_ok (snd (body s str))
    /\ count (snd (body s str)) = count s
    /\ counter (snd (body s str)) = counter s
    /\ ((dec = true -> decrypts_blocks) -> len (fst (body s str)) = BLOCK_SIZE).
Proof.
  pose proof (BLOCK_SIZE_pos C laws) as BS_pos.
  intros Hbody s str (Hiv & Hold) Hlen.
  pose proof (block_encrypt_len C laws (st s)) as Henc.
  assert (Hsub : len (sub str 0 BLOCK_SIZE) = BLOCK_SIZE) by len_lia.
  destruct Hbody as [(-> & [-> | [-> | ->]]) | (-> & [-> | [-> | ->]])].
  - cbn [ecb_encrypt_body fst snd]. repeat split; auto.
  - unfold cbc_encrypt_body. cbn [fst snd].
    assert (Hout : len (block_encrypt (st s) (xor_bytes (sub str 0 BLOCK_SIZE) (IV s)))
                   = BLOCK_SIZE) by (apply Henc; len_lia).
    unfold buffers_ok. cbn [IV oldCipher set_IV count counter].
    repeat split; auto; intros; len_lia.
  - unfold ofb_encrypt_body. cbn [fst snd]. pose proof (Henc _ Hiv) as Hout.
    unfold buffers_ok. cbn [IV oldCipher set_IV count counter].
    repeat split; auto; intros; len_lia.
  - cbn [ecb_decrypt_body fst snd]. repeat split; auto. intros Hdec. exact (Hdec eq_refl (st s) _ Hsub).
  - unfold cbc_decrypt_body. cbn [fst snd].
    unfold buffers_ok. cbn [IV oldCipher set_IV set_oldCipher count counter st].
    refine (conj (conj _ _) (conj eq_refl (conj eq_refl _))); [len_lia | len_lia |].
    intros Hdec. specialize (Hdec eq_refl (st s) _ Hsub). len_lia.
  - unfold ofb_decrypt_body. cbn [fst snd]. pose proof (Henc _ Hiv) as Hout.
    unfold buffers_ok. cbn [IV oldCipher set_IV count counter].
    repeat split; auto; intros; len_lia.
Qed.

Lemma cfb_bodies_shape body seg0 :
  body = cfb_encrypt_body \/ body = cfb_decrypt_body ->
  forall s str,
    buffers_ok s /\ cfb_ok s /\ segment_size s = seg0 -> Z.quot seg0 8 <= len str ->
    (buffers_ok (snd (body s str)) /\ cfb_ok (snd (body s str))
     /\ segment_size (snd (body s str)) = seg0)
    /\ count (snd (body s str)) = count s
    /\ counter (snd (body s str)) = counter s
    /\ len (fst (body s str)) = Z.quot seg0 8.
Proof.
  intros Hbody s str ((Hiv & Hold) & Hok & <-) Hlen.
  destruct (cfb_ok_bytes s Hok) as (Hsz & Heq & Hrem).
  pose proof (block_encrypt_len C laws (st s) _ Hiv) as Htemp.
  assert (Hout : len (xor_bytes (sub str 0 (Z.quot (segment_size s) 8))
                                (block_encrypt (st s) (IV s)))
                 = Z.quot (segment_size s) 8) by len_lia.
  destruct Hbody as [-> | ->]; unfold cfb_encrypt_body, cfb_decrypt_body; cbn [fst snd].
  all: rewrite count_cfb_shift, counter_cfb_shift.
  all: refine (conj _ (conj eq_refl (conj eq_refl Hout))).
  all: unfold buffers_ok, cfb_ok.
  all: rewrite oldCipher_cfb_shift, segment_size_cfb_shift, len_cfb_shift by (auto; lia).
  all: auto.
Qed.

(** *** PGP mode *)

Lemma into_IV_shape s off str n :
  n <= 0 \/ (0 <= off /\ off + n <= len (IV s) /\ n <= len str) ->
  (len (fst (xor_into_IV s off str n)) = Z.max 0 n
   /\ len (IV (snd (xor_into_IV s off str n))) = len (IV s))
  /\ (len (fst (swap_into_IV s off str n)) = Z.max 0 n
      /\ len (IV (snd (swap_into_IV s off str n))) = len (IV s)).
Proof.
  intros H. destruct (xor_swap_inverse s off str [] n H) as (H1 & _ & H3).
  split; [split; assumption|]. split; [exact H1|].
  unfold swap_into_IV. cbn [snd IV set_IV].
  destruct (Z.le_gt_cases n 0) as [Hn | Hn].
  - unfold memcpy. replace (Z.to_nat n) with 0%nat by lia.
    cbn [firstn app]. rewrite Nat.add_0_r, firstn_skipn. reflexivity.
  - destruct H as [H | (Hoff & Hiv & Hstr)]; [lia | len_lia].
Qed.

Lemma pgp_encrypt_blocks_shape fuel : forall s str,
  buffers_ok s ->
  len (fst (fst (pgp_encrypt_blocks fuel s str))) + len (snd (pgp_encrypt_blocks fuel s str))
  = len str
  /\ buffers_ok (snd (fst (pgp_encrypt_blocks fuel s str)))
  /\ ((length str <= fuel)%nat -> len (snd (pgp_encrypt_blocks fuel s str)) <= BLOCK_SIZE)
  /\ count (snd (fst (pgp_encrypt_blocks fuel s str))) = count s
  /\ counter (snd (fst (pgp_encrypt_blocks fuel s str))) = counter s.
Proof.
  pose proof (BLOCK_SIZE_pos C laws) as BS_pos.
  induction fuel as [|fuel IH]; intros s str Hok.
  { cbn [pgp_encrypt_blocks fst snd]. unfold len at 1. cbn [length].
    refine (conj _ (conj Hok (conj _ (conj eq_refl eq_refl)))); unfold len; lia. }
  rewrite pgp_encrypt_blocks_S. destruct (BLOCK_SIZE <? len str) eqn:E.
  2:{ apply Z.ltb_ge in E. cbn [fst snd]. unfold len at 1. cbn [length].
      refine (conj _ (conj Hok (conj _ (conj eq_refl eq_refl)))); lia. }
  apply Z.ltb_lt in E. cbv zeta. cbn [fst snd].
  pose proof (buffers_ok_encrypt_into_IV laws s Hok) as [Hiv1 Hold1].
  destruct (into_IV_shape (encrypt_into_IV s (oldCipher s)) 0 str BLOCK_SIZE)
    as ((Hlen & Hiv) & _); [right; lia|].
  destruct (IH (snd (xor_into_IV (encrypt_into_IV s (oldCipher s)) 0 str BLOCK_SIZE))
               (skipn (Z.to_nat BLOCK_SIZE) str)) as (IHlen & IHok & IHfuel & IHc & IHs).
  { split; [lia | exact Hold1]. }
  rewrite len_skipn in IHlen. rewrite IHc, IHs.
  refine (conj _ (conj IHok (conj _ (conj eq_refl eq_refl)))).
  - rewrite len_app. lia.
  - intros Hf. apply IHfuel. rewrite length_skipn. unfold len in E. lia.
Qed.

Lemma pgp_decrypt_blocks_shape fuel : forall s str,
  buffers_ok s ->
  len (fst (fst (pgp_decrypt_blocks fuel s str))) + len (snd (pgp_decrypt_blocks fuel s str))
  = len str
  /\ buffers_ok (snd (fst (pgp_decrypt_blocks fuel s str)))
  /\ ((length str <= fuel)%nat -> len (snd (pgp_decrypt_blocks fuel s str)) <= BLOCK_SIZE)
  /\ count (snd (fst (pgp_decrypt_blocks fuel s str))) = count s
  /\ counter (snd (fst (pgp_decrypt_blocks fuel s str))) = counter s.
Proof.
  pose proof (BLOCK_SIZE_pos C laws) as BS_pos.
  induction fuel as [|fuel IH]; intros s str Hok.
  { cbn [pgp_decrypt_blocks fst snd]. unfold len at 1. cbn [length].
    refine (conj _ (conj Hok (conj _ (conj eq_refl eq_refl)))); unfold len; lia. }
  rewrite pgp_decrypt_blocks_S. destruct (BLOCK_SIZE <? len str) eqn:E.
  2:{ apply Z.ltb_ge in E. cbn [fst snd]. unfold len at 1. cbn [length].
      refine (conj _ (conj Hok (conj _ (conj eq_refl eq_refl)))); lia. }
  apply Z.ltb_lt in E. cbv zeta. cbn [fst snd].
  pose proof (buffers_ok_encrypt_into_IV laws s Hok) as [Hiv1 Hold1].
  destruct (into_IV_shape (encrypt_into_IV s (oldCipher s)) 0 str BLOCK_SIZE)
    as (_ & (Hlen & Hiv)); [right; lia|].
  destruct (IH (snd (swap_into_IV (encrypt_into_IV s (oldCipher s)) 0 str BLOCK_SIZE))
               (skipn (Z.to_nat BLOCK_SIZE) str)) as (IHlen & IHok & IHfuel & IHc & IHs).
  { split; [lia | exact Hold1]. }
  rewrite len_skipn in IHlen. rewrite IHc, IHs.
  refine (conj _ (conj IHok (conj _ (conj eq_refl eq_refl)))).
  - rewrite len_app. lia.
  - intros Hf. apply IHfuel. rewrite length_skipn. unfold len in E. lia.
Qed.

(** Both PGP loops keep the buffers, leave [count] inside the block, do
    not touch the counter and return as many bytes as they read. *)
Lemma pgp_shape s str :
  buffers_ok s -> 0 <= count s ->
  (buffers_ok (snd (pgp_encrypt s str))
   /\ 0 <= count (snd (pgp_encrypt s str)) <= BLOCK_SIZE
   /\ counter (snd (pgp_encrypt s str)) = counter s
   /\ len (fst (pgp_encrypt s str)) = len str)
  /\ (buffers_ok (snd (pgp_decrypt s str))
      /\ 0 <= count (snd (pgp_decrypt s str)) <= BLOCK_SIZE
      /\ counter (snd (pgp_decrypt s str)) = counter s
      /\ len (fst (pgp_decrypt s str)) = len str).
Proof.
  pose proof (BLOCK_SIZE_pos C laws) as BS_pos.
  intros Hok Hcount. pose proof Hok as [Hiv Hold]. pose proof (len_nonneg str) as Hp.
  rewrite pgp_encrypt_eq, pgp_decrypt_eq.
  destruct (len str <=? BLOCK_SIZE - count s) eqn:E.
  - apply Z.leb_le in E. cbn [fst snd].
    destruct (into_IV_shape s (count s) str (len str)) as ((H1 & H2) & (H3 & H4));
      [right; lia|].
    unfold buffers_ok. cbn [IV oldCipher count counter set_count].
    rewrite H1, H2, H3, H4.
    repeat split; auto; lia.
  - apply Z.leb_gt in E. cbv zeta. cbn [fst snd].
    set (n := BLOCK_SIZE - count s) in *.
    destruct (into_IV_shape s (count s) str n) as ((H1 & H2) & (H3 & H4)).
    { destruct (Z.le_gt_cases n 0); [left; lia | right; lia]. }
    split.
    + set (x := xor_into_IV s (count s) str n) in *.
      destruct (pgp_encrypt_blocks_shape (length str) (set_count (snd x) 0)
                  (skipn (Z.to_nat n) str)) as (Hrlen & Hrok & Hfuel & _ & Hrs).
      { split; cbn [IV oldCipher set_count]; [lia | exact Hold]. }
      set (r := pgp_encrypt_blocks (length str) (set_count (snd x) 0)
                                   (skipn (Z.to_nat n) str)) in *.
      assert (Hmore : len (snd r) <= BLOCK_SIZE).
      { apply Hfuel. rewrite length_skipn. lia. }
      pose proof (len_nonneg (snd r)) as Hmore0.
      pose proof (buffers_ok_encrypt_into_IV laws _ Hrok) as [Hiv4 Hold4].
      rewrite len_skipn in Hrlen.
      set (s5 := set_count (encrypt_into_IV (snd (fst r)) (oldCipher (snd (fst r))))
                           (len (snd r))) in *.
      destruct (into_IV_shape s5 0 (snd r) (len (snd r))) as ((H5 & H6) & _).
      { right. subst s5. cbn [IV set_count]. lia. }
      unfold buffers_ok. rewrite H6, !len_app, H1, H5.
      subst s5. cbn [IV oldCipher count counter set_count set_IV xor_into_IV snd
                     encrypt_into_IV].
      cbn [IV oldCipher count counter set_count set_IV xor_into_IV snd
           encrypt_into_IV] in Hiv4, Hold4, Hrs.
      rewrite Hrs. subst x. cbn [xor_into_IV snd counter set_IV].
      split; [split; [exact Hiv4 | exact Hold4]|]. split; [lia|]. split; [reflexivity | lia].
    + set (x := swap_into_IV s (count s) str n) in *.
      destruct (pgp_decrypt_blocks_shape (length str) (set_count (snd x) 0)
                  (skipn (Z.to_nat n) str)) as (Hrlen & Hrok & Hfuel & _ & Hrs).
      { split; cbn [IV oldCipher set_count]; [lia | exact Hold]. }
      set (r := pgp_decrypt_blocks (length str) (set_count (snd x) 0)
                                   (skipn (Z.to_nat n) str)) in *.
      assert (Hmore : len (snd r) <= BLOCK_SIZE).
      { apply Hfuel. rewrite length_skipn. lia. }
      pose proof (len_nonneg (snd r)) as Hmore0.
      pose proof (buffers_ok_encrypt_into_IV laws _ Hrok) as [Hiv4 Hold4].
      rewrite len_skipn in Hrlen.
      set (s5 := set_count (encrypt_into_IV (snd (fst r)) (oldCipher (snd (fst r))))
                           (len (snd r))) in *.
      destruct (into_IV_shape s5 0 (snd r) (len (snd r))) as (_ & (H5 & H6)).
      { right. subst s5. cbn [IV set_count]. lia. }
      unfold buffers_ok. rewrite H6, !len_app, H3, H5.
      subst s5. cbn [IV oldCipher count counter set_count set_IV swap_into_IV snd
                     encrypt_into_IV].
      cbn [IV oldCipher count counter set_count set_IV swap_into_IV snd
           encrypt_into_IV] in Hiv4, Hold4, Hrs.
      rewrite Hrs. subst x. cbn [swap_into_IV snd counter set_IV].
      split; [split; [exact Hiv4 | exact Hold4]|]. split; [lia|]. split; [reflexivity | lia].
Qed.


(** *** CTR mode *)

Lemma ctr_refill_shape s :
  len (IV s) = BLOCK_SIZE -> source_ok (counter s) ->
  len (IV (snd (ctr_refill s))) = BLOCK_SIZE
  /\ source_ok (counter (snd (ctr_refill s)))
  /\ count (snd (ctr_refill s)) = count s
  /\ oldCipher (snd (ctr_refill s)) = oldCipher s.
Proof.
  intros Hiv Hsrc. unfold ctr_refill.
  destruct (truthy (counter_shortcut s)).
  - destruct (counter s) as [[ctr| |]|] eqn:Ec; cbn [snd]; rewrite ?Ec; auto.
    destruct (truthy (Counter.carry ctr) && negb (truthy (Counter.allow_wraparound ctr)));
      cbn [snd]; rewrite ?Ec; auto.
    destruct (negb (Counter.buf_size ctr =? BLOCK_SIZE)) eqn:Eb; cbn [snd]; rewrite ?Ec; auto.
    apply Bool.negb_false_iff, Z.eqb_eq in Eb. cbn [source_ok] in Hsrc.
    assert (Hblk : len (Counter.val ctr) = BLOCK_SIZE) by lia.
    pose proof (block_encrypt_len C laws (st s) _ Hblk) as HE.
    unfold encrypt_into_IV.
    cbn [counter count IV oldCipher set_IV set_counter source_ok].
    destruct (increment_keeps_size ctr) as [Hbs Hlen].
    rewrite memcpy_all by assumption. repeat split; auto; lia.
  - destruct (counter s) as [o|] eqn:Ec; cbn [snd]; rewrite ?Ec; auto.
    destruct (PyObject_CallObject o) as [r o'] eqn:Ecall.
    pose proof (source_ok_call o r o' Hsrc Ecall) as Hsrc'.
    destruct r as [[v|]|e]; cbn [snd counter count IV oldCipher set_counter]; auto.
    destruct (negb (Z.of_nat (length v) =? BLOCK_SIZE)) eqn:Eb;
      cbn [snd counter count IV oldCipher set_counter]; auto.
    apply Bool.negb_false_iff, Z.eqb_eq in Eb.
    destruct (PyUnicode_AsASCIIString v) as [block|] eqn:Easc;
      cbn [snd counter count IV oldCipher set_counter]; auto.
    assert (Hblock : len block = BLOCK_SIZE)
      by (unfold len; rewrite (ascii_length v block Easc); exact Eb).
    pose proof (block_encrypt_len C laws (st s) _ Hblock) as HE.
    unfold encrypt_into_IV. cbn [counter count IV oldCipher set_IV set_counter st].
    rewrite memcpy_all by assumption. auto.
Qed.

(** The CTR loop, whether it ends well or not, keeps the buffers, leaves
    [count] inside the block and the counter well-formed. *)
Lemma ctr_loop_shape fuel : forall s str,
  len (IV s) = BLOCK_SIZE -> 0 <= count s <= BLOCK_SIZE -> source_ok (counter s) ->
  len (IV (snd (ctr_loop fuel s str))) = BLOCK_SIZE
  /\ 0 <= count (snd (ctr_loop fuel s str)) <= BLOCK_SIZE
  /\ source_ok (counter (snd (ctr_loop fuel s str)))
  /\ oldCipher (snd (ctr_loop fuel s str)) = oldCipher s.
Proof.
  pose proof (BLOCK_SIZE_pos C laws) as BS_pos.
  induction fuel as [|fuel IH]; intros s str Hiv Hcount Hsrc; [cbn; auto|].
  pose proof (len_nonneg str) as Hp.
  rewrite ctr_loop_S. destruct (0 <? len str) eqn:Epos; [|cbn [snd]; auto].
  apply Z.ltb_lt in Epos.
  destruct (len str <=? BLOCK_SIZE - count s) eqn:Efit.
  - apply Z.leb_le in Efit. cbn [snd].
    destruct (into_IV_shape s (count s) str (len str)) as ((_ & H2) & _); [right; lia|].
    cbn [IV count counter oldCipher set_count]. rewrite H2.
    unfold xor_into_IV. cbn [snd counter oldCipher set_IV]. repeat split; auto; lia.
  - apply Z.leb_gt in Efit. cbv zeta.
    destruct (into_IV_shape s (count s) str (BLOCK_SIZE - count s)) as ((_ & H2) & _);
      [right; lia|].
    set (x := xor_into_IV s (count s) str (BLOCK_SIZE - count s)) in *.
    destruct (ctr_refill_shape (set_count (snd x) BLOCK_SIZE)) as (R1 & R2 & R3 & R4).
    { cbn [IV set_count]. lia. }
    { subst x. exact Hsrc. }
    cbn [count oldCipher set_count] in R3, R4.
    assert (Hold : oldCipher (snd x) = oldCipher s) by reflexivity.
    destruct (ctr_refill (set_count (snd x) BLOCK_SIZE)) as [[u|e] s3]; cbn [snd] in *.
    + destruct (IH (set_count s3 0) (skipn (Z.to_nat (BLOCK_SIZE - count s)) str))
        as (I1 & I2 & I3 & I4); cbn [IV count counter set_count]; auto; try lia.
      cbn [oldCipher set_count] in I4.
      destruct (ctr_loop fuel (set_count s3 0) _) as [[rest|e] s4]; cbn [snd] in *;
        repeat split; auto; try lia; congruence.
    + repeat split; auto; try lia; congruence.
Qed.

(** The CTR loop run on its own output from a related engine gives the
    input back and leaves the two engines related. *)
Lemma ctr_loop_lockstep fuel : forall s1 s2 p c s1',
  ctr_related s1 s2 ->
  (length p + (if (count s1 =? BLOCK_SIZE)%Z then 2 else 1) <= fuel)%nat ->
  ctr_loop fuel s1 p = (Ok c, s1') ->
  len c = len p
  /\ exists s2', ctr_loop fuel s2 c = (Ok p, s2') /\ ctr_related s1' s2'.
Proof.
  pose proof (BLOCK_SIZE_pos C laws) as BS_pos.
  induction fuel as [|fuel IH]; intros s1 s2 p c s1' HR Hfuel Hrun.
  { destruct (count s1 =? BLOCK_SIZE); lia. }
  pose proof HR as (Hst & Hctr & Hsc & Hcnt & Hrange & Hiv1 & Hiv2 & Hsk & Hsrc).
  pose proof (len_nonneg p) as Hp.
  rewrite ctr_loop_S in Hrun. rewrite ctr_loop_S.
  destruct (0 <? len p) eqn:Epos.
  2:{ injection Hrun as <- <-. apply Z.ltb_ge in Epos.
      destruct p; [|unfold len in Epos; cbn [length] in Epos; lia].
      split; [reflexivity|]. cbn. eexists; split; [reflexivity | exact HR]. }
  apply Z.ltb_lt in Epos.
  destruct (len p <=? BLOCK_SIZE - count s1) eqn:Efit.
  - apply Z.leb_le in Efit.
    destruct (xor_twice s1 s2 (count s1) p [] (len p))
      as (Hlen & Hback & Hl1 & Hl2 & Hsk'); try lia.
    { exact Hsk. }
    rewrite app_nil_r in Hback, Hl2, Hsk'.
    set (out := fst (xor_into_IV s1 (count s1) p (len p))) in *.
    assert (Hc : c = out) by congruence.
    assert (Hs : s1' = set_count (snd (xor_into_IV s1 (count s1) p (len p)))
                                 (count s1 + len p)) by congruence.
    subst c s1'. clear Hrun.
    split; [exact Hlen|].
    rewrite Hlen, <- Hcnt.
    replace (0 <? len p) with true by (symmetry; apply Z.ltb_lt; lia).
    replace (len p <=? BLOCK_SIZE - count s1) with true by (symmetry; apply Z.leb_le; lia).
    eexists. split; [rewrite Hback, sub_0_all by reflexivity; reflexivity|].
    unfold ctr_related.
    cbn [st counter counter_shortcut count IV set_count].
    refine (conj _ (conj _ (conj _ (conj eq_refl (conj _ (conj Hl1 (conj Hl2
             (conj Hsk' _)))))))); try assumption; try lia.
  - apply Z.leb_gt in Efit. cbv zeta in Hrun.
    set (n := BLOCK_SIZE - count s1) in *.
    set (x := xor_into_IV s1 (count s1) p n) in *.
    destruct (ctr_refill (set_count (snd x) BLOCK_SIZE)) as [[u|e] s3] eqn:Hrefill;
      [|discriminate].
    destruct (ctr_loop fuel (set_count s3 0) (skipn (Z.to_nat n) p)) as [[rest|e] s4]
      eqn:Hloop; [|discriminate].
    assert (Hc : c = fst x ++ rest) by congruence.
    assert (Hs : s1' = s4) by congruence. subst c s1'. clear Hrun.
    assert (Hx : forall tl,
      len (fst x) = n
      /\ fst (xor_into_IV s2 (count s1) (fst x ++ tl) n) = sub p 0 n
      /\ len (IV (snd x)) = BLOCK_SIZE
      /\ len (IV (snd (xor_into_IV s2 (count s1) (fst x ++ tl) n))) = BLOCK_SIZE).
    { intros tl. destruct (xor_twice s1 s2 (count s1) p tl n) as (H1 & H2 & H3 & H4 & _);
        try lia; [exact Hsk|]. fold x in H1, H2, H3, H4. auto. }
    destruct (Hx rest) as (Hxlen & Hxback & Hxiv1 & Hxiv2).
    set (y := xor_into_IV s2 (count s1) (fst x ++ rest) n) in *.
    assert (HR2 : ctr_related (set_count (snd x) BLOCK_SIZE) (set_count (snd y) BLOCK_SIZE)).
    { unfold ctr_related. subst x y. unfold xor_into_IV in *.
      cbn [st counter counter_shortcut count IV set_IV set_count fst snd] in *.
      refine (conj Hst (conj Hctr (conj Hsc (conj eq_refl (conj _ (conj Hxiv1
               (conj Hxiv2 (conj _ Hsrc)))))))); [lia|].
      rewrite !skipn_all2 by (unfold len in *; lia). reflexivity. }
    destruct (ctr_refill_related laws _ _ _ _ HR2 Hrefill) as (s3' & Hrefill' & HR3).
    assert (Hfuel' : (length (skipn (Z.to_nat n) p)
                      + (if (count (set_count s3 0) =? BLOCK_SIZE)%Z then 2 else 1) <= fuel)%nat).
    { cbn [count set_count].
      replace (0 =? BLOCK_SIZE) with false by (symmetry; apply Z.eqb_neq; lia).
      rewrite length_skipn. unfold len in *.
      destruct (count s1 =? BLOCK_SIZE) eqn:Ec;
        [apply Z.eqb_eq in Ec | apply Z.eqb_neq in Ec]; lia. }
    destruct (IH _ _ _ _ _ HR3 Hfuel' Hloop) as (Hrestlen & s2' & Hloop' & HR4).
    rewrite len_skipn in Hrestlen.
    split; [rewrite len_app; lia|].
    replace (0 <? len (fst x ++ rest)) with true
      by (symmetry; apply Z.ltb_lt; rewrite len_app; lia).
    rewrite <- Hcnt. fold n.
    replace (len (fst x ++ rest) <=? n) with false
      by (symmetry; apply Z.leb_gt; rewrite len_app; lia).
    cbv zeta. fold y. rewrite Hrefill'.
    rewrite skipn_app_exact by lia. rewrite Hloop'.
    exists s2'. split; [|exact HR4]. rewrite Hxback, sub_0, firstn_skipn. reflexivity.
Qed.


(** *** The calls *)

Lemma block_loop_shape body step (dec : bool) s str :
  (((dec = false /\ (body = ecb_encrypt_body \/ body = cbc_encrypt_body
                     \/ body = ofb_encrypt_body))
    \/ (dec = true /\ (body = ecb_decrypt_body \/ body = cbc_decrypt_body
                       \/ body = ofb_decrypt_body)))
   /\ step = BLOCK_SIZE)
  \/ ((body = cfb_encrypt_body \/ body = cfb_decrypt_body)
      /\ step = Z.quot (segment_size s) 8 /\ cfb_ok s) ->
  buffers_ok s -> Z.rem (len str) step = 0 ->
  buffers_ok (snd (for_blocks body step (length str) s str))
  /\ count (snd (for_blocks body step (length str) s str)) = count s
  /\ counter (snd (for_blocks body step (length str) s str)) = counter s
  /\ ((dec = true -> decrypts_blocks) ->
      len (fst (for_blocks body step (length str) s str)) = len str).
Proof.
  pose proof (BLOCK_SIZE_pos C laws) as BS_pos.
  intros [(Hbody & ->) | (Hbody & -> & Hcfb)] Hok Hrem.
  - assert (Hstep : forall x y,
              buffers_ok x /\ count x = count s /\ counter x = counter s ->
              BLOCK_SIZE <= len y ->
              (buffers_ok (snd (body x y)) /\ count (snd (body x y)) = count s
               /\ counter (snd (body x y)) = counter s)
              /\ ((dec = true -> decrypts_blocks) -> len (fst (body x y)) = BLOCK_SIZE)).
    { intros x y (Ha & Hb & Hc) Hy.
      destruct (block_bodies_shape body dec Hbody x y Ha Hy) as (B1 & B2 & B3 & B4).
      refine (conj (conj B1 (conj _ _)) B4); congruence. }
    pose proof (for_blocks_invariant
                  (fun x => buffers_ok x /\ count x = count s /\ counter x = counter s)
                  (dec = true -> decrypts_blocks) body BLOCK_SIZE BS_pos Hstep (length str)
                  s str (conj Hok (conj eq_refl eq_refl))
                  (rem_divide_pos _ _ BS_pos Hrem) (le_n _)) as ((H1 & H2 & H3) & H4).
    auto.
  - destruct (cfb_ok_bytes s Hcfb) as (Hsz & _).
    assert (Hpos : 0 < Z.quot (segment_size s) 8) by lia.
    assert (Hstep : forall x y,
              (buffers_ok x /\ cfb_ok x /\ segment_size x = segment_size s)
              /\ count x = count s /\ counter x = counter s ->
              Z.quot (segment_size s) 8 <= len y ->
              ((buffers_ok (snd (body x y)) /\ cfb_ok (snd (body x y))
                /\ segment_size (snd (body x y)) = segment_size s)
               /\ count (snd (body x y)) = count s /\ counter (snd (body x y)) = counter s)
              /\ (True -> len (fst (body x y)) = Z.quot (segment_size s) 8)).
    { intros x y (Ha & Hb & Hc) Hy.
      destruct (cfb_bodies_shape body (segment_size s) Hbody x y Ha Hy) as (B1 & B2 & B3 & B4).
      refine (conj (conj B1 (conj _ _)) (fun _ => B4)); congruence. }
    pose proof (for_blocks_invariant _ True body _ Hpos Hstep (length str) s str
                  (conj (conj Hok (conj Hcfb eq_refl)) (conj eq_refl eq_refl))
                  (rem_divide_pos _ _ Hpos Hrem) (le_n _)) as (((H1 & _) & H2 & H3) & H4).
    auto.
Qed.

Lemma state_ok_ctr_related s :
  state_ok s -> mode s = MODE_CTR -> ctr_related s s.
Proof.
  intros ((Hiv & _) & Hc0 & Hc & Hsrc) Hm. unfold ctr_related.
  assert (count s <= BLOCK_SIZE).
  { destruct Hc as [Hc | (Hp & _)]; [exact Hc|].
    unfold MODE_PGP, MODE_CTR in *. congruence. }
  repeat split; auto.
Qed.

(** [encrypt] keeps the shape of the engine, whether it succeeds or not,
    and its output has the length of its input. *)
Lemma ALG_Encrypt_shape s str :
  config_ok s -> state_ok s ->
  state_ok (snd (ALG_Encrypt s str))
  /\ (forall c s', ALG_Encrypt s str = (Ok c, s') -> len c = len str).
Proof.
  intros Hcfg Hok. pose proof Hok as (Hbuf & Hc0 & Hc & Hsrc).
  pose proof (frame_ALG_Encrypt s str) as (Hmode & _).
  destruct (Z.eq_dec (len str) 0) as [E0 | E0].
  { destruct str; [|unfold len in E0; cbn [length] in E0; lia].
    unfold ALG_Encrypt. cbn. split; [exact Hok|]. intros c s' [= <- <-]. reflexivity. }
  revert Hmode.
  destruct (ALG_Encrypt_dispatch s str E0)
    as [(body & step & e & Hb & ->) | [(Hm & ->) | [(Hm & ->) | (Hm & e & ->)]]].
  - destruct (Z.eqb_spec (Z.rem (len str) step) 0) as [Hrem | Hrem]; cbn [snd].
    2:{ intros _. split; [exact Hok | discriminate]. }
    intros Hmode.
    destruct (block_loop_shape body step false s str) as (B1 & B2 & B3 & B4); auto.
    { destruct Hb as [(_ & -> & -> & _) | [(_ & -> & -> & _) | [(Hm & -> & -> & _)
                     | (_ & -> & -> & _)]]];
        try (left; split; [left; split; [reflexivity | tauto] | reflexivity]).
      right. split; [tauto|]. split; [reflexivity|]. apply Hcfg, Hm. }
    split.
    + unfold state_ok. rewrite B2, B3, Hmode. auto.
    + intros c s' [= <- <-]. apply B4. discriminate.
  - cbn [snd]. intros Hmode. destruct (pgp_shape s str Hbuf Hc0) as ((P1 & P2 & P3 & P4) & _).
    split.
    + unfold state_ok. rewrite P3.
      exact (conj P1 (conj (proj1 P2) (conj (or_introl (proj2 P2)) Hsrc))).
    + intros c s' [= <- <-]. exact P4.
  - intros Hmode. pose proof (state_ok_ctr_related s Hok Hm) as HR.
    pose proof HR as (_ & _ & _ & _ & Hrange & Hiv & _).
    destruct (ctr_loop_shape (S (S (length str))) s str Hiv Hrange Hsrc)
      as (S1 & S2 & S3 & S4).
    split.
    + unfold state_ok, buffers_ok. rewrite S4. destruct Hbuf as (_ & Hold).
      exact (conj (conj S1 Hold) (conj (proj1 S2) (conj (or_introl (proj2 S2)) S3))).
    + intros c s' Hrun.
      destruct (ctr_loop_lockstep (S (S (length str))) s s str c s' HR) as (Hlen & _); auto.
      destruct (count s =? BLOCK_SIZE); lia.
  - cbn [snd]. intros _. split; [exact Hok | discriminate].
Qed.

(** The same for [decrypt]; in ECB and CBC mode the length of the output
    is that of what [block_decrypt] writes. *)
Lemma ALG_Decrypt_shape s str :
  config_ok s -> state_ok s ->
  state_ok (snd (ALG_Decrypt s str))
  /\ (decrypts_blocks -> forall p s', ALG_Decrypt s str = (Ok p, s') -> len p = len str).
Proof.
  intros Hcfg Hok. pose proof Hok as (Hbuf & Hc0 & Hc & Hsrc).
  destruct (Z.eq_dec (prf_mode s) 0) as [Hprf | Hprf].
  2:{ rewrite ALG_Decrypt_prf by exact Hprf. cbn [snd]. split; [exact Hok | discriminate]. }
  destruct (Z.eq_dec (len str) 0) as [E0 | E0].
  { destruct str; [|unfold len in E0; cbn [length] in E0; lia].
    rewrite ALG_Decrypt_empty by exact Hprf. cbn [snd]. split; [exact Hok|].
    intros _ p s' [= <- <-]. reflexivity. }
  pose proof (run_call_keeps_config s (call_decrypt str)) as (Hmode & _).
  cbn [run_call] in Hmode. revert Hmode.
  destruct (ALG_Decrypt_dispatch s str Hprf E0)
    as [(body & step & e & Hb & ->) | [(Hm & ->) | [(Hm & ->) | (Hm & e & ->)]]].
  - destruct (Z.eqb_spec (Z.rem (len str) step) 0) as [Hrem | Hrem]; cbn [snd].
    2:{ intros _. split; [exact Hok | discriminate]. }
    intros Hmode.
    destruct (block_loop_shape body step true s str) as (B1 & B2 & B3 & B4); auto.
    { destruct Hb as [(_ & -> & -> & _) | [(_ & -> & -> & _) | [(Hm & -> & -> & _)
                     | (_ & -> & -> & _)]]];
        try (left; split; [right; split; [reflexivity | tauto] | reflexivity]).
      right. split; [tauto|]. split; [reflexivity|]. apply Hcfg, Hm. }
    split.
    + unfold state_ok. rewrite B2, B3, Hmode. auto.
    + intros Hdec p s' [= <- <-]. apply B4. intros _. exact Hdec.
  - cbn [snd]. intros Hmode. destruct (pgp_shape s str Hbuf Hc0) as (_ & (P1 & P2 & P3 & P4)).
    split.
    + unfold state_ok. rewrite P3.
      exact (conj P1 (conj (proj1 P2) (conj (or_introl (proj2 P2)) Hsrc))).
    + intros _ p s' [= <- <-]. exact P4.
  - intros Hmode. pose proof (state_ok_ctr_related s Hok Hm) as HR.
    pose proof HR as (_ & _ & _ & _ & Hrange & Hiv & _).
    destruct (ctr_loop_shape (S (S (length str))) s str Hiv Hrange Hsrc)
      as (S1 & S2 & S3 & S4).
    split.
    + unfold state_ok, buffers_ok. rewrite S4. destruct Hbuf as (_ & Hold).
      exact (conj (conj S1 Hold) (conj (proj1 S2) (conj (or_introl (proj2 S2)) S3))).
    + intros _ c s' Hrun.
      destruct (ctr_loop_lockstep (S (S (length str))) s s str c s' HR) as (Hlen & _); auto.
      destruct (count s =? BLOCK_SIZE); lia.
  - cbn [snd]. intros _. split; [exact Hok | discriminate].
Qed.

Lemma ALG_Sync_shape s : state_ok s -> state_ok (snd (ALG_Sync s)).
Proof.
  intros Hok. pose proof Hok as ((Hiv & Hold) & Hc0 & Hc & Hsrc).
  destruct (ALG_Sync_cases s) as [(_ & ->) | [(_ & _ & ->) | (Hm & Hne & ->)]];
    cbn [snd]; auto.
  assert (Hrange : 0 <= count s <= BLOCK_SIZE) by (destruct Hc as [Hc | (_ & Hc)]; lia).
  unfold state_ok, buffers_ok. cbn [IV oldCipher count counter mode set_count set_IV].
  rewrite sync_register by assumption.
  refine (conj (conj _ Hold) (conj _ (conj (or_intror (conj Hm eq_refl)) Hsrc))); [len_lia | lia].
Qed.

(** No call takes the engine out of shape. *)
Lemma run_call_shape s c :
  config_ok s -> state_ok s -> state_ok (run_call s c) /\ st (run_call s c) = st s.
Proof.
  intros Hcfg Hok. destruct c as [str | str | | v]; cbn [run_call].
  - split; [apply ALG_Encrypt_shape; assumption|].
    destruct (frame_ALG_Encrypt s str) as (_ & _ & _ & _ & _ & H). exact H.
  - split; [apply ALG_Decrypt_shape; assumption|].
    destruct (Z.eq_dec (mode s) MODE_CBC) as [Hm | Hm].
    2:{ destruct (frame_ALG_Decrypt s str Hm) as (_ & _ & _ & _ & _ & H). exact H. }
    destruct (Z.eq_dec (prf_mode s) 0) as [Hprf | Hprf];
      [|rewrite ALG_Decrypt_prf by exact Hprf; reflexivity].
    destruct (Z.eq_dec (len str) 0) as [E0 | E0].
    { destruct str; [|unfold len in E0; cbn [length] in E0; lia].
      rewrite ALG_Decrypt_empty by exact Hprf. reflexivity. }
    destruct (ALG_Decrypt_dispatch s str Hprf E0)
      as [(body & step & e & Hb & ->) | [(H & _) | [(H & _) | (H & _)]]];
      try (exfalso; unfold MODE_ECB, MODE_CBC, MODE_CFB, MODE_PGP, MODE_OFB, MODE_CTR in *;
           lia).
    destruct Hb as [(H & _) | [(_ & -> & -> & _) | [(H & _) | (H & _)]]];
      try (exfalso; unfold MODE_ECB, MODE_CBC, MODE_CFB, MODE_PGP, MODE_OFB, MODE_CTR in *;
           lia).
    destruct (Z.rem (len str) BLOCK_SIZE =? 0); cbn [snd]; [|reflexivity].
    apply (for_blocks_keeps (fun a b => st b = st a)); [reflexivity | congruence |].
    intros x y. reflexivity.
  - split; [apply ALG_Sync_shape, Hok|].
    destruct (frame_ALG_Sync s) as (_ & _ & _ & _ & _ & H). exact H.
  - unfold ALG_SetMode. destruct (v >=? 1); cbn [snd]; auto.
Qed.

Lemma run_calls_shape cs : forall s,
  config_ok s -> state_ok s ->
  state_ok (run_calls s cs) /\ config_ok (run_calls s cs) /\ st (run_calls s cs) = st s
  /\ mode (run_calls s cs) = mode s /\ segment_size (run_calls s cs) = segment_size s.
Proof.
  induction cs as [|c cs IH]; intros s Hcfg Hok; [cbn; auto|].
  cbn [run_calls fold_left]. fold (run_calls (run_call s c) cs).
  destruct (run_call_shape s c Hcfg Hok) as (Hok' & Hst).
  destruct (run_call_keeps_config s c) as (Hm & Hseg).
  assert (Hcfg' : config_ok (run_call s c)).
  { exact (run_calls_keep_config [c] s Hcfg). }
  destruct (IH _ Hcfg' Hok') as (I1 & I2 & I3 & I4 & I5).
  refine (conj I1 (conj I2 (conj _ (conj _ _)))); congruence.
Qed.

Lemma ALGnew_state_ok key m iv ctr seg self :
  ALGnew key m iv ctr seg = Ok self -> source_ok ctr -> state_ok self /\ config_ok self.
Proof.
  intros Hnew Hsrc. pose proof (BLOCK_SIZE_pos C laws) as BS_pos.
  destruct (ALGnew_state laws _ _ _ _ _ _ Hnew)
    as (Hm & _ & Hctr & Hbuf & Hcfg & Hcount & Hnp & _).
  split; [|exact Hcfg]. unfold state_ok. rewrite Hctr.
  refine (conj Hbuf (conj _ (conj _ Hsrc))).
  - destruct Hcount; lia.
  - destruct (Z.eq_dec m MODE_PGP) as [E | E].
    + destruct Hcount as [H8 | Hb]; [right; split; congruence | left; lia].
    + left. rewrite (Hnp E). lia.
Qed.

(** X9: the shape of an engine never changes.  Whatever is called on an
    engine built by [ALGnew], with whatever result: the register and
    [oldCipher] have the block size, [count] is an offset into a block
    (or the 8 of a PGP engine before its first byte and after [sync()]),
    and mode, segment size and key state are those of the new engine. *)
Theorem engine_shape_is_kept key m iv ctr seg self cs :
  ALGnew key m iv ctr seg = Ok self -> source_ok ctr ->
  len (IV (run_calls self cs)) = BLOCK_SIZE
  /\ len (oldCipher (run_calls self cs)) = BLOCK_SIZE
  /\ 0 <= count (run_calls self cs)
  /\ (count (run_calls self cs) <= BLOCK_SIZE
      \/ (m = MODE_PGP /\ count (run_calls self cs) = 8))
  /\ mode (run_calls self cs) = m
  /\ segment_size (run_calls self cs) = segment_size self
  /\ st (run_calls self cs) = st self.
Proof.
  intros Hnew Hsrc.
  destruct (ALGnew_state_ok _ _ _ _ _ _ Hnew Hsrc) as (Hok & Hcfg).
  destruct (ALGnew_state laws _ _ _ _ _ _ Hnew) as (Hm & _).
  destruct (run_calls_shape cs self Hcfg Hok)
    as (((Hiv & Hold) & Hc0 & Hc & _) & _ & Hst & Hmode & Hseg).
  rewrite Hmode, Hm in *. auto 10.
Qed.

(** X10: what [encrypt] returns has the length of its input, in every
    mode and at every point of the life of an engine; the same holds for
    [decrypt] when [block_decrypt] writes whole blocks. *)
Theorem output_has_input_length key m iv ctr seg self cs str out self' :
  ALGnew key m iv ctr seg = Ok self -> source_ok ctr ->
  (ALG_Encrypt (run_calls self cs) str = (Ok out, self') -> len out = len str)
  /\ (decrypts_blocks ->
      ALG_Decrypt (run_calls self cs) str = (Ok out, self') -> len out = len str).
Proof.
  intros Hnew Hsrc.
  destruct (ALGnew_state_ok _ _ _ _ _ _ Hnew Hsrc) as (Hok & Hcfg).
  destruct (run_calls_shape cs self Hcfg Hok) as (Hok' & Hcfg' & _).
  split.
  - intros Hrun. exact (proj2 (ALG_Encrypt_shape _ str Hcfg' Hok') _ _ Hrun).
  - intros Hdec Hrun. exact (proj2 (ALG_Decrypt_shape _ str Hcfg' Hok') Hdec _ _ Hrun).
Qed.

End EngineShape.

(** ** Two engines on one stream *)

Section EngineLockstep.

Context {C : BlockCipher}.
Hypothesis laws : BlockCipherLaws C.


Lemma prf_mode_ALG_Decrypt s str : prf_mode (snd (ALG_Decrypt s str)) = prf_mode s.
Proof.
  destruct (Z.eq_dec (mode s) MODE_CBC) as [Hm | Hm].
  2:{ destruct (frame_ALG_Decrypt s str Hm) as (_ & _ & H & _). exact H. }
  destruct (Z.eq_dec (prf_mode s) 0) as [Hprf | Hprf];
    [|rewrite ALG_Decrypt_prf by exact Hprf; reflexivity].
  destruct (Z.eq_dec (len str) 0) as [E0 | E0].
  { destruct str; [|unfold len in E0; cbn [length] in E0; lia].
    rewrite ALG_Decrypt_empty by exact Hprf. reflexivity. }
  destruct (ALG_Decrypt_dispatch s str Hprf E0)
    as [(body & step & e & Hb & ->) | [(H & _) | [(H & _) | (H & _)]]];
    try (exfalso; unfold MODE_ECB, MODE_CBC, MODE_CFB, MODE_PGP, MODE_OFB, MODE_CTR in *;
         lia).
  destruct Hb as [(H & _) | [(_ & -> & -> & _) | [(H & _) | (H & _)]]];
    try (exfalso; unfold MODE_ECB, MODE_CBC, MODE_CFB, MODE_PGP, MODE_OFB, MODE_CTR in *;
         lia).
  destruct (Z.rem (len str) BLOCK_SIZE =? 0); cbn [snd]; [|reflexivity].
  apply (for_blocks_keeps (fun a b => prf_mode b = prf_mode a)); [reflexivity | congruence |].
  intros x y. reflexivity.
Qed.

Lemma ALG_Decrypt_in_block_mode s str body step e :
  prf_mode s = 0 -> len str <> 0 ->
  (mode s = MODE_ECB /\ body = ecb_decrypt_body /\ step = BLOCK_SIZE
   /\ e = ValueError_block_multiple)
  \/ (mode s = MODE_CBC /\ body = cbc_decrypt_body /\ step = BLOCK_SIZE
      /\ e = ValueError_block_multiple)
  \/ (mode s = MODE_CFB /\ body = cfb_decrypt_body
      /\ step = Z.quot (segment_size s) 8 /\ e = ValueError_segment_multiple)
  \/ (mode s = MODE_OFB /\ body = ofb_decrypt_body /\ step = BLOCK_SIZE
      /\ e = ValueError_block_multiple) ->
  ALG_Decrypt s str
  = if Z.rem (len str) step =? 0
    then (Ok (fst (for_blocks body step (length str) s str)),
          snd (for_blocks body step (length str) s str))
    else (Raise e, s).
Proof.
  intros Hprf Hlen Hb.
  destruct (ALG_Decrypt_dispatch s str Hprf Hlen)
    as [(body' & step' & e' & Hb' & ->) | [(H & _) | [(H & _) | (H & _)]]].
  - destruct Hb as [(M & -> & -> & ->) | [(M & -> & -> & ->) | [(M & -> & -> & ->)
                   | (M & -> & -> & ->)]]];
      destruct Hb' as [(M' & -> & -> & ->) | [(M' & -> & -> & ->) | [(M' & -> & -> & ->)
                      | (M' & -> & -> & ->)]]];
      first [reflexivity | mode_clash].
  - destruct Hb as [(M & _) | [(M & _) | [(M & _) | (M & _)]]]; mode_clash.
  - destruct Hb as [(M & _) | [(M & _) | [(M & _) | (M & _)]]]; mode_clash.
  - destruct Hb as [(M & _) | [(M & _) | [(M & _) | (M & _)]]]; mode_clash.
Qed.








End EngineLockstep.

(** ** A stream cut into calls *)

Section EngineChunks.

Context {C : BlockCipher}.

(** More fuel than input changes nothing. *)
Lemma for_blocks_fuel body step :
  0 < step ->
  forall f1 f2 s str,
    (length str <= f1)%nat -> (length str <= f2)%nat ->
    for_blocks body step f1 s str = for_blocks body step f2 s str.
Proof.
  intros Hstep. induction f1 as [|f1 IH]; intros f2 s str H1 H2.
  - destruct str; [|cbn in H1; lia]. destruct f2; reflexivity.
  - destruct f2 as [|f2].
    + destruct str; [|cbn in H2; lia]. reflexivity.
    + rewrite !for_blocks_S. destruct (0 <? len str) eqn:E; [|reflexivity].
      apply Z.ltb_lt in E.
      rewrite (IH f2 (snd (body s str)) (skipn (Z.to_nat step) str)); [reflexivity | |];
        rewrite length_skipn; unfold len in E; lia.
Qed.

(** A body that reads one block of its input only. *)
Lemma sub_0_app_long (a b : list byte) n : n <= len a -> sub (a ++ b) 0 n = sub a 0 n.
Proof.
  intros H. rewrite !sub_0. rewrite firstn_app.
  replace (Z.to_nat n - length a)%nat with 0%nat by (unfold len in H; lia).
  cbn [firstn]. apply app_nil_r.
Qed.

Lemma memcpy_app_src_long (dst a b : list byte) off n :
  n <= len a -> memcpy dst off (a ++ b) n = memcpy dst off a n.
Proof.
  intros H. unfold memcpy. rewrite firstn_app.
  replace (Z.to_nat n - length a)%nat with 0%nat by (unfold len in H; lia).
  cbn [firstn]. rewrite app_nil_r. reflexivity.
Qed.

Lemma cfb_shift_app s (a b : list byte) :
  0 <= Z.quot (segment_size s) 8 <= BLOCK_SIZE ->
  Z.quot (segment_size s) 8 <= len a ->
  (segment_size s = BLOCK_SIZE * 8 -> BLOCK_SIZE <= len a) ->
  cfb_shift s (a ++ b) = cfb_shift s a.
Proof.
  intros Hsz Ha Hfull. unfold cfb_shift.
  destruct (Z.eqb_spec (segment_size s) (BLOCK_SIZE * 8)) as [E | E].
  - rewrite memcpy_app_src_long by auto. reflexivity.
  - destruct (Z.rem (segment_size s) 8 =? 0); [|reflexivity].
    rewrite memcpy_app_src_long by lia. reflexivity.
Qed.

Lemma bodies_read_one_block body step s :
  ((body = ecb_encrypt_body \/ body = cbc_encrypt_body \/ body = ofb_encrypt_body
    \/ body = ecb_decrypt_body \/ body = cbc_decrypt_body \/ body = ofb_decrypt_body)
   /\ step = BLOCK_SIZE)
  \/ ((body = cfb_encrypt_body \/ body = cfb_decrypt_body)
      /\ step = Z.quot (segment_size s) 8 /\ cfb_ok s) ->
  forall a b, step <= len a -> body s (a ++ b) = body s a.
Proof.
  intros [([-> | [-> | [-> | [-> | [-> | ->]]]]] & ->) | ([-> | ->] & -> & Hok)] a b Ha.
  - unfold ecb_encrypt_body. rewrite sub_0_app_long by exact Ha. reflexivity.
  - unfold cbc_encrypt_body. rewrite sub_0_app_long by exact Ha. reflexivity.
  - unfold ofb_encrypt_body. rewrite sub_0_app_long by exact Ha. reflexivity.
  - unfold ecb_decrypt_body. rewrite sub_0_app_long by exact Ha. reflexivity.
  - unfold cbc_decrypt_body.
    rewrite sub_0_app_long, memcpy_app_src_long by exact Ha. reflexivity.
  - unfold ofb_decrypt_body. rewrite sub_0_app_long by exact Ha. reflexivity.
  - unfold cfb_encrypt_body. rewrite sub_0_app_long by exact Ha. reflexivity.
  - destruct (cfb_ok_bytes s Hok) as (Hsz & Heq & _).
    unfold cfb_decrypt_body. rewrite sub_0_app_long by exact Ha.
    rewrite cfb_shift_app; [reflexivity | lia | exact Ha | lia].
Qed.

Lemma for_blocks_app (I : ALGobject -> Prop) body step :
  0 < step ->
  (forall s a b, I s -> step <= len a -> body s (a ++ b) = body s a) ->
  (forall s a, I s -> I (snd (body s a))) ->
  forall fuel a b s,
    I s -> (step | len a) -> (length a <= fuel)%nat ->
    for_blocks body step (fuel + length b) s (a ++ b)
    = (fst (for_blocks body step fuel s a)
         ++ fst (for_blocks body step (length b) (snd (for_blocks body step fuel s a)) b),
       snd (for_blocks body step (length b) (snd (for_blocks body step fuel s a)) b)).
Proof.
  intros Hstep Hlocal Hkeep.
  induction fuel as [|fuel IH]; intros a b s HI Hdiv Hfuel.
  { destruct a; [|cbn in Hfuel; lia]. cbn [for_blocks fst snd app Nat.add].
    destruct (for_blocks body step (length b) s b). reflexivity. }
  destruct (Z.eq_dec (len a) 0) as [E0 | E0].
  { destruct a; [|unfold len in E0; cbn [length] in E0; lia].
    cbn [app]. rewrite (for_blocks_S body step fuel s []).
    cbn [len length Z.of_nat Z.ltb Z.compare fst snd app].
    rewrite (for_blocks_fuel body step Hstep (S fuel + length b) (length b)) by lia.
    destruct (for_blocks body step (length b) s b). reflexivity. }
  pose proof (len_nonneg a) as Ha0.
  assert (Hle : step <= len a).
  { destruct Hdiv as [k Hk]. destruct (Z.le_gt_cases k 0); nia. }
  assert (Hdiv' : (step | len (skipn (Z.to_nat step) a))).
  { rewrite len_skipn. replace (Z.max 0 (len a - Z.of_nat (Z.to_nat step)))
      with (len a - step) by lia.
    apply Z.divide_sub_r; [assumption | apply Z.divide_refl]. }
  cbn [Nat.add]. rewrite !for_blocks_S.
  replace (0 <? len (a ++ b)) with true
    by (symmetry; apply Z.ltb_lt; rewrite len_app; pose proof (len_nonneg b); lia).
  replace (0 <? len a) with true by (symmetry; apply Z.ltb_lt; lia).
  rewrite (Hlocal s a b HI Hle). cbn [fst snd].
  assert (Hsk : skipn (Z.to_nat step) (a ++ b) = skipn (Z.to_nat step) a ++ b).
  { rewrite skipn_app.
    replace (Z.to_nat step - length a)%nat with 0%nat by (unfold len in Hle; lia).
    reflexivity. }
  rewrite Hsk, (IH _ b (snd (body s a)) (Hkeep s a HI) Hdiv').
  2:{ rewrite length_skipn. unfold len in Hle. lia. }
  cbn [fst snd]. rewrite app_assoc. reflexivity.
Qed.

Lemma ALG_Encrypt_in_block_mode s str body step e :
  len str <> 0 ->
  (mode s = MODE_ECB /\ body = ecb_encrypt_body /\ step = BLOCK_SIZE
   /\ e = ValueError_block_multiple)
  \/ (mode s = MODE_CBC /\ body = cbc_encrypt_body /\ step = BLOCK_SIZE
      /\ e = ValueError_block_multiple)
  \/ (mode s = MODE_CFB /\ body = cfb_encrypt_body
      /\ step = Z.quot (segment_size s) 8 /\ e = ValueError_segment_multiple)
  \/ (mode s = MODE_OFB /\ body = ofb_encrypt_body /\ step = BLOCK_SIZE
      /\ e = ValueError_block_multiple) ->
  ALG_Encrypt s str
  = if Z.rem (len str) step =? 0
    then (Ok (fst (for_blocks body step (length str) s str)),
          snd (for_blocks body step (length str) s str))
    else (Raise e, s).
Proof.
  intros Hlen Hb.
  destruct (ALG_Encrypt_dispatch s str Hlen)
    as [(body' & step' & e' & Hb' & ->) | [(H & _) | [(H & _) | (H & _)]]].
  - destruct Hb as [(M & -> & -> & ->) | [(M & -> & -> & ->) | [(M & -> & -> & ->)
                   | (M & -> & -> & ->)]]];
      destruct Hb' as [(M' & -> & -> & ->) | [(M' & -> & -> & ->) | [(M' & -> & -> & ->)
                      | (M' & -> & -> & ->)]]];
      first [reflexivity | mode_clash].
  - destruct Hb as [(M & _) | [(M & _) | [(M & _) | (M & _)]]]; mode_clash.
  - destruct Hb as [(M & _) | [(M & _) | [(M & _) | (M & _)]]]; mode_clash.
  - destruct Hb as [(M & _) | [(M & _) | [(M & _) | (M & _)]]]; mode_clash.
Qed.

(** One call on [a ++ b] is a call on [a] followed by a call on [b], for
    any function that runs a loop over blocks on non-empty input and
    returns at once on empty input. *)
Lemma loop_takes_chunks (call : ALGobject -> list byte -> PyResult (list byte) * ALGobject)
    (I : ALGobject -> Prop) body step e s a b ca s1 cb s2 :
  0 < step ->
  (forall x u v, I x -> step <= len u -> body x (u ++ v) = body x u) ->
  (forall x u, I x -> I (snd (body x u))) ->
  (forall x, I x -> call x [] = (Ok [], x)) ->
  (forall x str, I x -> len str <> 0 ->
     call x str
     = if Z.rem (len str) step =? 0
       then (Ok (fst (for_blocks body step (length str) x str)),
             snd (for_blocks body step (length str) x str))
       else (Raise e, x)) ->
  I s ->
  call s a = (Ok ca, s1) -> call s1 b = (Ok cb, s2) ->
  call s (a ++ b) = (Ok (ca ++ cb), s2).
Proof.
  intros Hstep Hlocal Hkeep Hnil Hrun HI Ha Hb.
  destruct (Z.eq_dec (len a) 0) as [Ea | Ea].
  { destruct a; [|unfold len in Ea; cbn [length] in Ea; lia].
    rewrite Hnil in Ha by exact HI. injection Ha as <- <-. exact Hb. }
  rewrite Hrun in Ha by assumption.
  destruct (Z.eqb_spec (Z.rem (len a) step) 0) as [Ra | Ra]; [|discriminate].
  injection Ha as <- <-.
  assert (HI1 : I (snd (for_blocks body step (length a) s a))).
  { apply (for_blocks_keeps (fun x y => I x -> I y)); auto. }
  destruct (Z.eq_dec (len b) 0) as [Eb | Eb].
  { destruct b; [|unfold len in Eb; cbn [length] in Eb; lia].
    rewrite Hnil in Hb by exact HI1. injection Hb as <- <-.
    rewrite !app_nil_r, Hrun by assumption.
    apply Z.eqb_eq in Ra. rewrite Ra. reflexivity. }
  rewrite Hrun in Hb by assumption.
  destruct (Z.eqb_spec (Z.rem (len b) step) 0) as [Rb | Rb]; [|discriminate].
  injection Hb as <- <-.
  pose proof (len_nonneg a). pose proof (len_nonneg b).
  rewrite Hrun by (try assumption; rewrite len_app; lia).
  assert (Rab : Z.rem (len (a ++ b)) step = 0).
  { apply Z.rem_divide; [lia|]. rewrite len_app.
    apply Z.divide_add_r; apply rem_divide_pos; assumption. }
  apply Z.eqb_eq in Rab. rewrite Rab, length_app.
  rewrite (for_blocks_app I body step Hstep Hlocal Hkeep (length a) a b s HI
             (rem_divide_pos _ _ Hstep Ra) (le_n _)).
  reflexivity.
Qed.

Lemma bodies_keep_config body :
  body = ecb_encrypt_body \/ body = cbc_encrypt_body \/ body = ofb_encrypt_body
  \/ body = ecb_decrypt_body \/ body = cbc_decrypt_body \/ body = ofb_decrypt_body
  \/ body = cfb_encrypt_body \/ body = cfb_decrypt_body ->
  forall s str,
    mode (snd (body s str)) = mode s /\ segment_size (snd (body s str)) = segment_size s
    /\ prf_mode (snd (body s str)) = prf_mode s.
Proof.
  intros [-> | [-> | [-> | [-> | [-> | [-> | [-> | ->]]]]]]] s str;
    try (cbn; auto; fail).
  - unfold cfb_encrypt_body. cbn [snd].
    destruct (frame_cfb_shift s (xor_bytes (sub str 0 (Z.quot (segment_size s) 8))
                                           (block_encrypt (st s) (IV s))))
      as (H1 & H2 & H3 & _). auto.
  - unfold cfb_decrypt_body. cbn [snd].
    destruct (frame_cfb_shift s str) as (H1 & H2 & H3 & _). auto.
Qed.

(** X12: in ECB, CBC, CFB and OFB mode a stream may be cut between any
    two blocks (segments): a call on [a ++ b] returns what a call on [a]
    followed by a call on [b] returns, and leaves the same engine, for
    [encrypt] and for [decrypt]. *)
Theorem block_modes_take_chunks self a b :
  0 < BLOCK_SIZE -> config_ok self ->
  mode self = MODE_ECB \/ mode self = MODE_CBC \/ mode self = MODE_CFB
  \/ mode self = MODE_OFB ->
  (forall ca s1 cb s2,
     ALG_Encrypt self a = (Ok ca, s1) -> ALG_Encrypt s1 b = (Ok cb, s2) ->
     ALG_Encrypt self (a ++ b) = (Ok (ca ++ cb), s2))
  /\ (forall pa s1 pb s2,
        ALG_Decrypt self a = (Ok pa, s1) -> ALG_Decrypt s1 b = (Ok pb, s2) ->
        ALG_Decrypt self (a ++ b) = (Ok (pa ++ pb), s2)).
Proof.
  intros BS_pos Hcfg Hm.
  pose (I := fun x : ALGobject =>
               mode x = mode self /\ segment_size x = segment_size self
               /\ prf_mode x = prf_mode self).
  assert (HI : I self) by (unfold I; auto).
  assert (Hkeep : forall body,
            body = ecb_encrypt_body \/ body = cbc_encrypt_body \/ body = ofb_encrypt_body
            \/ body = ecb_decrypt_body \/ body = cbc_decrypt_body \/ body = ofb_decrypt_body
            \/ body = cfb_encrypt_body \/ body = cfb_decrypt_body ->
            forall x u, I x -> I (snd (body x u))).
  { intros body Hb x u (I1 & I2 & I3).
    destruct (bodies_keep_config body Hb x u) as (K1 & K2 & K3).
    unfold I. repeat split; congruence. }
  assert (Hnil : forall x, ALG_Encrypt x [] = (Ok [], x)) by reflexivity.
  assert (Hstep : mode self = MODE_CFB -> 0 < Z.quot (segment_size self) 8).
  { intros M. destruct (cfb_ok_bytes self (proj2 Hcfg M)) as (H & _). lia. }
  assert (Hlocal : forall body step x,
            ((body = ecb_encrypt_body \/ body = cbc_encrypt_body \/ body = ofb_encrypt_body
              \/ body = ecb_decrypt_body \/ body = cbc_decrypt_body
              \/ body = ofb_decrypt_body) /\ step = BLOCK_SIZE)
            \/ ((body = cfb_encrypt_body \/ body = cfb_decrypt_body)
                /\ step = Z.quot (segment_size self) 8 /\ mode self = MODE_CFB) ->
            forall u v, I x -> step <= len u -> body x (u ++ v) = body x u).
  { intros body step x Hb u v (I1 & I2 & I3) Hu.
    apply (bodies_read_one_block body step x); [|exact Hu].
    destruct Hb as [Hb | (Hb & -> & M)]; [left; exact Hb | right].
    split; [exact Hb|]. rewrite I2. split; [reflexivity|].
    unfold cfb_ok. rewrite I2. exact (proj2 Hcfg M). }
  split.
  - intros ca s1 cb s2.
    destruct Hm as [M | [M | [M | M]]].
    + apply (loop_takes_chunks ALG_Encrypt I ecb_encrypt_body BLOCK_SIZE
               ValueError_block_multiple);
        [ exact BS_pos
        | intros x u v; apply Hlocal; left; split; [tauto | reflexivity]
        | apply Hkeep; tauto
        | intros x _; apply Hnil
        |
        | exact HI ].
      intros x str Hx Hs. unfold I in Hx. destruct Hx as (I1 & I2 & I3).
      apply ALG_Encrypt_in_block_mode; [exact Hs|].
      left. repeat split; congruence.
    + apply (loop_takes_chunks ALG_Encrypt I cbc_encrypt_body BLOCK_SIZE
               ValueError_block_multiple);
        [ exact BS_pos
        | intros x u v; apply Hlocal; left; split; [tauto | reflexivity]
        | apply Hkeep; tauto
        | intros x _; apply Hnil
        |
        | exact HI ].
      intros x str Hx Hs. unfold I in Hx. destruct Hx as (I1 & I2 & I3).
      apply ALG_Encrypt_in_block_mode; [exact Hs|].
      right. left. repeat split; congruence.
    + apply (loop_takes_chunks ALG_Encrypt I cfb_encrypt_body (Z.quot (segment_size self) 8)
               ValueError_segment_multiple);
        [ exact (Hstep M)
        | intros x u v; apply Hlocal; right; split; [tauto|]; split; [reflexivity | exact M]
        | apply Hkeep; tauto
        | intros x _; apply Hnil
        |
        | exact HI ].
      intros x str Hx Hs. unfold I in Hx. destruct Hx as (I1 & I2 & I3).
      apply ALG_Encrypt_in_block_mode; [exact Hs|].
      right. right. left. rewrite I2. repeat split; congruence.
    + apply (loop_takes_chunks ALG_Encrypt I ofb_encrypt_body BLOCK_SIZE
               ValueError_block_multiple);
        [ exact BS_pos
        | intros x u v; apply Hlocal; left; split; [tauto | reflexivity]
        | apply Hkeep; tauto
        | intros x _; apply Hnil
        |
        | exact HI ].
      intros x str Hx Hs. unfold I in Hx. destruct Hx as (I1 & I2 & I3).
      apply ALG_Encrypt_in_block_mode; [exact Hs|].
      right. right. right. repeat split; congruence.
  - intros pa s1 pb s2.
    destruct (Z.eq_dec (prf_mode self) 0) as [Hprf | Hprf].
    2:{ rewrite ALG_Decrypt_prf by exact Hprf. discriminate. }
    assert (Hnil' : forall x, I x -> ALG_Decrypt x [] = (Ok [], x)).
    { intros x Hx. unfold I in Hx. destruct Hx as (_ & _ & I3).
      apply ALG_Decrypt_empty. congruence. }
    destruct Hm as [M | [M | [M | M]]].
    + apply (loop_takes_chunks ALG_Decrypt I ecb_decrypt_body BLOCK_SIZE
               ValueError_block_multiple);
        [ exact BS_pos
        | intros x u v; apply Hlocal; left; split; [tauto | reflexivity]
        | apply Hkeep; tauto
        | exact Hnil'
        |
        | exact HI ].
      intros x str Hx Hs. unfold I in Hx. destruct Hx as (I1 & I2 & I3).
      apply ALG_Decrypt_in_block_mode; [congruence | exact Hs|].
      left. repeat split; congruence.
    + apply (loop_takes_chunks ALG_Decrypt I cbc_decrypt_body BLOCK_SIZE
               ValueError_block_multiple);
        [ exact BS_pos
        | intros x u v; apply Hlocal; left; split; [tauto | reflexivity]
        | apply Hkeep; tauto
        | exact Hnil'
        |
        | exact HI ].
      intros x str Hx Hs. unfold I in Hx. destruct Hx as (I1 & I2 & I3).
      apply ALG_Decrypt_in_block_mode; [congruence | exact Hs|].
      right. left. repeat split; congruence.
    + apply (loop_takes_chunks ALG_Decrypt I cfb_decrypt_body (Z.quot (segment_size self) 8)
               ValueError_segment_multiple);
        [ exact (Hstep M)
        | intros x u v; apply Hlocal; right; split; [tauto|]; split; [reflexivity | exact M]
        | apply Hkeep; tauto
        | exact Hnil'
        |
        | exact HI ].
      intros x str Hx Hs. unfold I in Hx. destruct Hx as (I1 & I2 & I3).
      apply ALG_Decrypt_in_block_mode; [congruence | exact Hs|].
      right. right. left. rewrite I2. repeat split; congruence.
    + apply (loop_takes_chunks ALG_Decrypt I ofb_decrypt_body BLOCK_SIZE
               ValueError_block_multiple);
        [ exact BS_pos
        | intros x u v; apply Hlocal; left; split; [tauto | reflexivity]
        | apply Hkeep; tauto
        | exact Hnil'
        |
        | exact HI ].
      intros x str Hx Hs. unfold I in Hx. destruct Hx as (I1 & I2 & I3).
      apply ALG_Decrypt_in_block_mode; [congruence | exact Hs|].
      right. right. right. repeat split; congruence.
Qed.

End EngineChunks.

Section MoreExamples.

#[local] Existing Instance caesar_cipher.

(** An ECB engine and the same engine with another register. *)
Lemma ecb_keeps_no_state_witness :
  snd (ALG_Encrypt ecb_engine example_stream) = ecb_engine
  /\ fst (ALG_Encrypt (set_IV ecb_engine (zeros 8)) example_stream)
     = fst (ALG_Encrypt ecb_engine example_stream).
Proof.
  destruct (ecb_keeps_no_state ecb_engine (set_IV ecb_engine (zeros 8)) example_stream
              eq_refl eq_refl eq_refl) as (H1 & _ & H3 & _).
  split; [exact H1 | exact H3].
Defined.

(** The CBC engine after three calls, one of them refused. *)
Lemma engine_shape_is_kept_witness :
  len (IV (run_calls cbc_engine
             [call_encrypt example_stream; call_sync; call_decrypt (bytes [1; 2; 3])]))
  = 8.
Proof.
  destruct (engine_shape_is_kept caesar_laws example_key MODE_CBC example_iv None 0
              cbc_engine
              [call_encrypt example_stream; call_sync; call_decrypt (bytes [1; 2; 3])]
              (proj1 example_engines_built) I) as (H & _).
  exact H.
Defined.

Lemma output_has_input_length_witness :
  exists out self',
    ALG_Encrypt cbc_engine example_stream = (Ok out, self') /\ len out = 16.
Proof.
  destruct (ALG_Encrypt cbc_engine example_stream) as [[out|e] self'] eqn:Hrun.
  - exists out, self'. split; [reflexivity|].
    exact (proj1 (output_has_input_length caesar_laws example_key MODE_CBC example_iv None 0
                    cbc_engine [] example_stream out self'
                    (proj1 example_engines_built) I) Hrun).
  - exfalso. apply (f_equal fst) in Hrun. vm_compute in Hrun. discriminate Hrun.
Defined.


(** The 16-byte stream cut between its two blocks, in CBC mode. *)
Lemma block_modes_take_chunks_witness :
  exists ca s1 cb s2,
    ALG_Encrypt cbc_engine (firstn 8 example_stream) = (Ok ca, s1)
    /\ ALG_Encrypt s1 (skipn 8 example_stream) = (Ok cb, s2)
    /\ ALG_Encrypt cbc_engine (firstn 8 example_stream ++ skipn 8 example_stream)
       = (Ok (ca ++ cb), s2).
Proof.
  destruct (ALG_Encrypt cbc_engine (firstn 8 example_stream)) as [[ca|e] s1] eqn:Ha.
  2:{ exfalso. apply (f_equal fst) in Ha. vm_compute in Ha. discriminate Ha. }
  assert (Hs1 : s1 = snd (ALG_Encrypt cbc_engine (firstn 8 example_stream)))
    by (rewrite Ha; reflexivity).
  destruct (ALG_Encrypt s1 (skipn 8 example_stream)) as [[cb|e] s2] eqn:Hb.
  2:{ exfalso. rewrite Hs1 in Hb. apply (f_equal fst) in Hb. vm_compute in Hb.
      discriminate Hb. }
  exists ca, s1, cb, s2. split; [reflexivity|]. split; [exact Hb|].
  exact (proj1 (block_modes_take_chunks cbc_engine (firstn 8 example_stream)
                  (skipn 8 example_stream) eq_refl
                  (proj1 (ALGnew_config_ok _ _ _ _ _ _ (proj1 example_engines_built)))
                  (or_intror (or_introl eq_refl))) ca s1 cb s2 Ha Hb).
Defined.

End MoreExamples.

(** ** The feedback register *)

Section EngineRegister.

Context {C : BlockCipher}.
Hypothesis laws : BlockCipherLaws C.

(** Two bodies that agree where an invariant holds give the same loop. *)
Lemma for_blocks_ext (I : ALGobject -> Prop) body1 body2 step :
  (forall s str, I s -> body1 s str = body2 s str /\ I (snd (body1 s str))) ->
  forall fuel s str,
    I s -> for_blocks body1 step fuel s str = for_blocks body2 step fuel s str.
Proof.
  intros Hbody. induction fuel as [|fuel IH]; intros s str HI; [reflexivity|].
  rewrite !for_blocks_S. destruct (0 <? len str); [|reflexivity].
  destruct (Hbody s str HI) as (<- & HI'). rewrite (IH _ _ HI'). reflexivity.
Qed.

(** A loop whose body moves the engine in a way that does not depend on
    the input ends in an engine that depends on the length of the input
    only. *)
Lemma for_blocks_blind body step :
  (forall s str1 str2, snd (body s str1) = snd (body s str2)) ->
  forall fuel s str1 str2,
    length str1 = length str2 ->
    snd (for_blocks body step fuel s str1) = snd (for_blocks body step fuel s str2).
Proof.
  intros Hbody. induction fuel as [|fuel IH]; intros s str1 str2 Hlen; [reflexivity|].
  rewrite !for_blocks_S. unfold len. rewrite Hlen.
  destruct (0 <? Z.of_nat (length str2)); [|reflexivity]. cbn [snd].
  rewrite (Hbody s str1 str2). apply IH. rewrite !length_skipn. lia.
Qed.

Lemma ofb_bodies_agree s str :
  len (IV s) = BLOCK_SIZE ->
  ofb_decrypt_body s str = ofb_encrypt_body s str
  /\ len (IV (snd (ofb_decrypt_body s str))) = BLOCK_SIZE.
Proof.
  intros Hiv. pose proof (block_encrypt_len C laws (st s) _ Hiv) as Htemp.
  unfold ofb_decrypt_body, ofb_encrypt_body. cbn [IV set_IV snd].
  rewrite memcpy_all by assumption. auto.
Qed.

(** X13: OFB mode is its own inverse and its keystream does not depend
    on the data.  On an engine that may decrypt, [decrypt] is [encrypt]:
    same result, same engine afterwards; and the engine a call leaves
    depends on the length of the input only, not on its bytes. *)
Theorem ofb_decrypt_is_encrypt self str other :
  mode self = MODE_OFB -> len (IV self) = BLOCK_SIZE ->
  (prf_mode self = 0 -> ALG_Decrypt self str = ALG_Encrypt self str)
  /\ (len other = len str ->
      snd (ALG_Encrypt self other) = snd (ALG_Encrypt self str)).
Proof.
  intros Hm Hiv.
  assert (Henc : forall x,
            ALG_Encrypt self x
            = if len x =? 0 then (Ok [], self)
              else if Z.rem (len x) BLOCK_SIZE =? 0
                   then (Ok (fst (for_blocks ofb_encrypt_body BLOCK_SIZE (length x) self x)),
                         snd (for_blocks ofb_encrypt_body BLOCK_SIZE (length x) self x))
                   else (Raise ValueError_block_multiple, self)).
  { intros x. unfold ALG_Encrypt. rewrite Hm. destruct (len x =? 0); [reflexivity|].
    simp_mode. destruct (Z.rem (len x) BLOCK_SIZE =? 0); [|reflexivity].
    destruct (for_blocks ofb_encrypt_body BLOCK_SIZE (length x) self x). reflexivity. }
  split.
  - intros Hprf. rewrite Henc. unfold ALG_Decrypt, truthy. rewrite Hprf, Hm.
    destruct (len str =? 0); [reflexivity|]. simp_mode.
    destruct (Z.rem (len str) BLOCK_SIZE =? 0); [|reflexivity].
    rewrite (for_blocks_ext (fun s => len (IV s) = BLOCK_SIZE) ofb_decrypt_body
               ofb_encrypt_body BLOCK_SIZE) by (try exact Hiv; intros; apply ofb_bodies_agree;
                                                assumption).
    destruct (for_blocks ofb_encrypt_body BLOCK_SIZE (length str) self str). reflexivity.
  - intros Hlen. rewrite !Henc. rewrite Hlen.
    destruct (len str =? 0); [reflexivity|].
    destruct (Z.rem (len str) BLOCK_SIZE =? 0); [|reflexivity]. cbn [snd].
    assert (Hl : length other = length str) by (unfold len in Hlen; lia).
    rewrite Hl. apply for_blocks_blind; [|exact Hl]. reflexivity.
Qed.

(** *** CBC and CFB: the register is a window on the ciphertext *)

(** The last [BLOCK_SIZE] bytes of a list that long and [m] bytes more. *)
Lemma last_block (x : list byte) m :
  0 <= m -> len x = BLOCK_SIZE + m -> sub x m BLOCK_SIZE = skipn (Z.to_nat m) x.
Proof.
  intros Hm Hx. unfold sub. apply firstn_all2. rewrite length_skipn. unfold len in Hx. lia.
Qed.

(** Sliding the window over [out], then over [rest], is sliding it over
    both. *)
Lemma window_slides (iv out rest : list byte) :
  len iv = BLOCK_SIZE ->
  sub (sub (iv ++ out) (len out) BLOCK_SIZE ++ rest) (len rest) BLOCK_SIZE
  = sub (iv ++ out ++ rest) (len (out ++ rest)) BLOCK_SIZE.
Proof.
  intros Hiv. pose proof (len_nonneg out). pose proof (len_nonneg rest).
  pose proof (len_nonneg iv).
  rewrite (last_block (iv ++ out)) by (rewrite ?len_app; lia).
  rewrite (last_block (skipn _ _ ++ rest)) by (rewrite ?len_app, ?len_skipn, ?len_app; lia).
  rewrite (last_block (iv ++ out ++ rest)) by (rewrite ?len_app; lia).
  rewrite (app_assoc iv out rest).
  rewrite (skipn_app (Z.to_nat (len rest))), (skipn_app (Z.to_nat (len (out ++ rest)))).
  rewrite skipn_skipn, length_skipn. f_equal.
  - f_equal. rewrite len_app. lia.
  - f_equal. rewrite len_app, !length_app. unfold len in *. lia.
Qed.

Lemma window_start (iv : list byte) :
  len iv = BLOCK_SIZE -> sub (iv ++ []) (len (@nil byte)) BLOCK_SIZE = iv.
Proof.
  intros Hiv. rewrite app_nil_r. unfold sub, len. cbn [length Z.of_nat Z.to_nat skipn].
  apply firstn_all2. unfold len in Hiv. lia.
Qed.

(** The shift of the CFB register: the window moves by one segment. *)
Lemma cfb_shift_window s (seg : list byte) :
  cfb_ok s -> len (IV s) = BLOCK_SIZE -> Z.quot (segment_size s) 8 <= len seg ->
  IV (cfb_shift s seg)
  = sub (IV s ++ firstn (Z.to_nat (Z.quot (segment_size s) 8)) seg)
        (Z.quot (segment_size s) 8) BLOCK_SIZE.
Proof.
  intros Hok Hiv Hseg. destruct (cfb_ok_bytes s Hok) as (Hsz & Heq & Hrem).
  set (sz := Z.quot (segment_size s) 8) in *.
  assert (HF : len (firstn (Z.to_nat sz) seg) = sz) by len_lia.
  rewrite last_block by (rewrite ?len_app; lia).
  rewrite skipn_app.
  replace (Z.to_nat sz - length (IV s))%nat with 0%nat by (unfold len in Hiv; lia).
  cbn [skipn].
  unfold cfb_shift. destruct (Z.eqb_spec (segment_size s) (BLOCK_SIZE * 8)) as [E | E].
  - assert (sz = BLOCK_SIZE) by lia. cbn [IV set_IV]. unfold memcpy.
    cbn [Z.to_nat firstn app Nat.add].
    rewrite !skipn_all2 by (unfold len in Hiv; lia). rewrite app_nil_r.
    cbn [app]. f_equal. lia.
  - rewrite Hrem. cbn [Z.eqb IV set_IV]. fold sz. unfold memcpy at 1.
    assert (Hmoved : len (memcpy (IV s) 0 (sub (IV s) sz (BLOCK_SIZE - sz)) (BLOCK_SIZE - sz))
                     = BLOCK_SIZE) by len_lia.
    rewrite (skipn_all2 (n := (Z.to_nat (BLOCK_SIZE - sz) + Z.to_nat sz)%nat))
      by (unfold len in Hmoved; lia).
    rewrite app_nil_r. f_equal.
    unfold memcpy. cbn [Z.to_nat firstn app Nat.add].
    assert (Hs : len (sub (IV s) sz (BLOCK_SIZE - sz)) = BLOCK_SIZE - sz) by len_lia.
    rewrite (@firstn_all2 _ (Z.to_nat (BLOCK_SIZE - sz)) (sub (IV s) sz (BLOCK_SIZE - sz)))
      by (unfold len in Hs; lia).
    rewrite firstn_app_exact by lia.
    unfold sub. apply firstn_all2. rewrite length_skipn. unfold len in Hiv. lia.
Qed.

(** A loop whose body slides the window over [seen s str], a chunk of
    [step] bytes: the window ends behind all the chunks.  For an
    encrypting body the chunk is what the body returns, for a decrypting
    body it is what the body reads. *)
Lemma for_blocks_window (I : ALGobject -> Prop) (enc : bool) body step :
  0 < step ->
  (forall s str, I s -> step <= len str ->
     I (snd (body s str))
     /\ (enc = true -> len (fst (body s str)) = step)
     /\ IV (snd (body s str))
        = sub (IV s ++ (if enc then fst (body s str) else firstn (Z.to_nat step) str))
              step BLOCK_SIZE) ->
  forall fuel s str,
    I s -> len (IV s) = BLOCK_SIZE -> (step | len str) -> (length str <= fuel)%nat ->
    IV (snd (for_blocks body step fuel s str))
    = sub (IV s ++ (if enc then fst (for_blocks body step fuel s str) else str))
          (len str) BLOCK_SIZE
    /\ (enc = true -> len (fst (for_blocks body step fuel s str)) = len str).
Proof.
  intros Hstep Hbody.
  assert (Hnil : forall s, len (IV s) = BLOCK_SIZE ->
            IV s = sub (IV s ++ (if enc then [] else [])) (len (@nil byte)) BLOCK_SIZE).
  { intros s Hs. destruct enc; symmetry; apply window_start, Hs. }
  induction fuel as [|fuel IH]; intros s str HI Hiv Hdiv Hfuel.
  { destruct str; [|cbn in Hfuel; lia]. cbn [for_blocks fst snd].
    split; [apply Hnil, Hiv | reflexivity]. }
  rewrite for_blocks_S. destruct (0 <? len str) eqn:Epos.
  2:{ apply Z.ltb_ge in Epos. pose proof (len_nonneg str).
      destruct str; [|unfold len in *; cbn [length] in *; lia]. cbn [fst snd].
      split; [apply Hnil, Hiv | reflexivity]. }
  apply Z.ltb_lt in Epos. cbn [fst snd].
  assert (Hle : step <= len str).
  { destruct Hdiv as [k Hk]. destruct (Z.le_gt_cases k 0); nia. }
  assert (Hdiv' : (step | len (skipn (Z.to_nat step) str))).
  { rewrite len_skipn. replace (Z.max 0 (len str - Z.of_nat (Z.to_nat step)))
      with (len str - step) by lia.
    apply Z.divide_sub_r; [assumption | apply Z.divide_refl]. }
  destruct (Hbody s str HI Hle) as (HI' & Hout & Hwin).
  assert (Hiv' : len (IV (snd (body s str))) = BLOCK_SIZE).
  { rewrite Hwin. pose proof (len_nonneg (IV s)).
    destruct enc; rewrite len_sub, len_app, ?Hout, ?len_firstn by reflexivity; lia. }
  destruct (IH (snd (body s str)) (skipn (Z.to_nat step) str) HI' Hiv' Hdiv')
    as (IHwin & IHlen).
  { rewrite length_skipn. unfold len in *. lia. }
  rewrite len_skipn in IHlen, IHwin.
  replace (Z.max 0 (len str - Z.of_nat (Z.to_nat step))) with (len str - step) in * by lia.
  split; [|intros E; rewrite len_app, Hout, IHlen by exact E; lia].
  rewrite IHwin, Hwin.
  destruct enc.
  - specialize (Hout eq_refl). specialize (IHlen eq_refl).
    set (out := fst (body s str)) in *.
    set (rest := fst (for_blocks body step fuel (snd (body s str))
                        (skipn (Z.to_nat step) str))) in *.
    replace step with (len out) at 1 by exact Hout.
    replace (len str - step) with (len rest) by lia.
    rewrite window_slides by exact Hiv. rewrite len_app. f_equal. lia.
  - set (out := firstn (Z.to_nat step) str) in *.
    set (rest := skipn (Z.to_nat step) str) in *.
    assert (Ho : len out = step) by (subst out; len_lia).
    assert (Hr : len rest = len str - step) by (subst rest; len_lia).
    replace step with (len out) at 1 by exact Ho.
    rewrite <- Hr. rewrite window_slides by exact Hiv.
    subst out rest. rewrite firstn_skipn. f_equal.
Qed.

Lemma window_one (iv chunk : list byte) :
  len iv = BLOCK_SIZE -> len chunk = BLOCK_SIZE ->
  sub (iv ++ chunk) BLOCK_SIZE BLOCK_SIZE = chunk.
Proof.
  intros Hiv Hc. pose proof (len_nonneg iv).
  rewrite last_block by (rewrite ?len_app; lia).
  apply skipn_app_exact. lia.
Qed.

Lemma cbc_bodies_window (enc : bool) s str :
  len (IV s) = BLOCK_SIZE -> BLOCK_SIZE <= len str ->
  let body := if enc then cbc_encrypt_body else cbc_decrypt_body in
  len (IV (snd (body s str))) = BLOCK_SIZE
  /\ (enc = true -> len (fst (body s str)) = BLOCK_SIZE)
  /\ IV (snd (body s str))
     = sub (IV s ++ (if enc then fst (body s str) else firstn (Z.to_nat BLOCK_SIZE) str))
           BLOCK_SIZE BLOCK_SIZE.
Proof.
  pose proof (BLOCK_SIZE_pos C laws) as BS_pos.
  intros Hiv Hstr. cbv zeta. destruct enc.
  - unfold cbc_encrypt_body. cbn [fst snd IV set_IV].
    assert (Hout : len (block_encrypt (st s) (xor_bytes (sub str 0 BLOCK_SIZE) (IV s)))
                   = BLOCK_SIZE) by (apply (block_encrypt_len C laws); len_lia).
    rewrite memcpy_all, window_one by assumption. auto.
  - unfold cbc_decrypt_body. cbn [fst snd IV set_IV set_oldCipher].
    assert (HF : len (firstn (Z.to_nat BLOCK_SIZE) str) = BLOCK_SIZE) by len_lia.
    assert (Hm : memcpy (IV s) 0 str BLOCK_SIZE = firstn (Z.to_nat BLOCK_SIZE) str).
    { rewrite <- (firstn_skipn (Z.to_nat BLOCK_SIZE) str) at 1.
      rewrite memcpy_app_src by exact HF. apply memcpy_all; assumption. }
    rewrite Hm, window_one by assumption.
    split; [exact HF|]. split; [discriminate | reflexivity].
Qed.

Lemma cfb_bodies_window (enc : bool) seg0 s str :
  len (IV s) = BLOCK_SIZE /\ cfb_ok s /\ segment_size s = seg0 ->
  Z.quot seg0 8 <= len str ->
  let body := if enc then cfb_encrypt_body else cfb_decrypt_body in
  (len (IV (snd (body s str))) = BLOCK_SIZE /\ cfb_ok (snd (body s str))
   /\ segment_size (snd (body s str)) = seg0)
  /\ (enc = true -> len (fst (body s str)) = Z.quot seg0 8)
  /\ IV (snd (body s str))
     = sub (IV s ++ (if enc then fst (body s str) else firstn (Z.to_nat (Z.quot seg0 8)) str))
           (Z.quot seg0 8) BLOCK_SIZE.
Proof.
  intros (Hiv & Hok & <-) Hstr. cbv zeta.
  destruct (cfb_ok_bytes s Hok) as (Hsz & _).
  pose proof (block_encrypt_len C laws (st s) _ Hiv) as Htemp.
  assert (Hout : len (xor_bytes (sub str 0 (Z.quot (segment_size s) 8))
                                (block_encrypt (st s) (IV s)))
                 = Z.quot (segment_size s) 8) by len_lia.
  destruct enc; unfold cfb_encrypt_body, cfb_decrypt_body; cbn [fst snd].
  - unfold cfb_ok. rewrite segment_size_cfb_shift, len_cfb_shift by (auto; lia).
    rewrite cfb_shift_window by (auto; lia).
    rewrite (@firstn_all2 _ (Z.to_nat (Z.quot (segment_size s) 8)))
      by (unfold len in Hout; lia).
    exact (conj (conj eq_refl (conj Hok eq_refl)) (conj (fun _ => Hout) eq_refl)).
  - unfold cfb_ok. rewrite segment_size_cfb_shift, len_cfb_shift by (auto; lia).
    rewrite cfb_shift_window by (auto; lia).
    refine (conj (conj eq_refl (conj Hok eq_refl)) (conj _ eq_refl)). discriminate.
Qed.

(** X14: in CBC and in CFB mode the register is a window on the
    ciphertext.  After a call that succeeds, [IV] holds the last
    [BLOCK_SIZE] bytes of the register it had before the call followed by
    the ciphertext of the call: what [encrypt] returned, what [decrypt]
    was given.  So after a block or more of ciphertext the register is
    the last ciphertext block. *)
Theorem register_is_ciphertext_window self str out self' :
  config_ok self -> len (IV self) = BLOCK_SIZE ->
  mode self = MODE_CBC \/ mode self = MODE_CFB ->
  (ALG_Encrypt self str = (Ok out, self') ->
   IV self' = sub (IV self ++ out) (len out) BLOCK_SIZE)
  /\ (ALG_Decrypt self str = (Ok out, self') ->
      IV self' = sub (IV self ++ str) (len str) BLOCK_SIZE).
Proof.
  pose proof (BLOCK_SIZE_pos C laws) as BS_pos.
  intros Hcfg Hiv Hm.
  destruct (Z.eq_dec (len str) 0) as [E0 | E0].
  { destruct str; [|unfold len in E0; cbn [length] in E0; lia].
    split.
    - unfold ALG_Encrypt. cbn. intros [= <- <-]. symmetry. apply window_start, Hiv.
    - destruct (Z.eq_dec (prf_mode self) 0) as [P | P];
        [rewrite ALG_Decrypt_empty by exact P | rewrite ALG_Decrypt_prf by exact P];
        intros [= <- <-]. symmetry. apply window_start, Hiv. }
  assert (Hwin : forall (enc : bool) body step fuel,
            (mode self = MODE_CBC /\ step = BLOCK_SIZE
             /\ body = (if enc then cbc_encrypt_body else cbc_decrypt_body))
            \/ (mode self = MODE_CFB /\ step = Z.quot (segment_size self) 8
                /\ body = (if enc then cfb_encrypt_body else cfb_decrypt_body)) ->
            Z.rem (len str) step = 0 -> (length str <= fuel)%nat ->
            IV (snd (for_blocks body step fuel self str))
            = sub (IV self ++ (if enc then fst (for_blocks body step fuel self str) else str))
                  (len str) BLOCK_SIZE
            /\ (enc = true -> len (fst (for_blocks body step fuel self str)) = len str)).
  { intros enc body step fuel [(M & -> & ->) | (M & -> & ->)] Hrem Hfuel.
    - apply (for_blocks_window (fun s => len (IV s) = BLOCK_SIZE) enc _ BLOCK_SIZE BS_pos);
        auto using rem_divide_pos.
      intros s x Hs Hx. apply (cbc_bodies_window enc s x Hs Hx).
    - destruct (cfb_ok_bytes self (proj2 Hcfg M)) as (Hsz & _).
      apply (for_blocks_window
               (fun s => len (IV s) = BLOCK_SIZE /\ cfb_ok s
                         /\ segment_size s = segment_size self) enc _
               (Z.quot (segment_size self) 8)); auto; try lia.
      + intros s x Hs Hx. apply (cfb_bodies_window enc (segment_size self) s x Hs Hx).
      + split; [exact Hiv|]. split; [exact (proj2 Hcfg M) | reflexivity].
      + apply rem_divide_pos; [lia | assumption]. }
  split.
  - intros Hrun.
    destruct Hm as [M | M].
    + rewrite (ALG_Encrypt_in_block_mode self str cbc_encrypt_body BLOCK_SIZE
                 ValueError_block_multiple E0) in Hrun by tauto.
      destruct (Z.eqb_spec (Z.rem (len str) BLOCK_SIZE) 0) as [R | R]; [|discriminate].
      injection Hrun as <- <-.
      destruct (Hwin true cbc_encrypt_body BLOCK_SIZE (length str)) as (W & L); auto.
      rewrite W, L; reflexivity.
    + rewrite (ALG_Encrypt_in_block_mode self str cfb_encrypt_body
                 (Z.quot (segment_size self) 8) ValueError_segment_multiple E0) in Hrun
        by tauto.
      destruct (Z.eqb_spec (Z.rem (len str) (Z.quot (segment_size self) 8)) 0) as [R | R];
        [|discriminate].
      injection Hrun as <- <-.
      destruct (Hwin true cfb_encrypt_body (Z.quot (segment_size self) 8) (length str))
        as (W & L); auto.
      rewrite W, L; reflexivity.
  - intros Hrun.
    destruct (Z.eq_dec (prf_mode self) 0) as [P | P];
      [|rewrite ALG_Decrypt_prf in Hrun by exact P; discriminate].
    destruct Hm as [M | M].
    + rewrite (ALG_Decrypt_in_block_mode self str cbc_decrypt_body BLOCK_SIZE
                 ValueError_block_multiple P E0) in Hrun by tauto.
      destruct (Z.eqb_spec (Z.rem (len str) BLOCK_SIZE) 0) as [R | R]; [|discriminate].
      injection Hrun as <- <-.
      destruct (Hwin false cbc_decrypt_body BLOCK_SIZE (length str)) as (W & _); auto.
    + rewrite (ALG_Decrypt_in_block_mode self str cfb_decrypt_body
                 (Z.quot (segment_size self) 8) ValueError_segment_multiple P E0) in Hrun
        by tauto.
      destruct (Z.eqb_spec (Z.rem (len str) (Z.quot (segment_size self) 8)) 0) as [R | R];
        [|discriminate].
      injection Hrun as <- <-.
      destruct (Hwin false cfb_decrypt_body (Z.quot (segment_size self) 8) (length str))
        as (W & _); auto.
Qed.

End EngineRegister.

(** ** CTR mode: the keystream *)

Lemma xor_bytes_app (a1 a2 b1 b2 : list byte) :
  length a1 = length b1 ->
  xor_bytes (a1 ++ a2) (b1 ++ b2) = xor_bytes a1 b1 ++ xor_bytes a2 b2.
Proof.
  revert b1. induction a1 as [|x a1 IH]; intros [|y b1] H; cbn in H; try discriminate.
  - reflexivity.
  - cbn [app xor_bytes]. rewrite IH by lia. reflexivity.
Qed.

Lemma xor_bytes_nil_r (a : list byte) : xor_bytes a [] = [].
Proof. destruct a; reflexivity. Qed.

Lemma xor_bytes_short (a a2 b : list byte) :
  (length b <= length a)%nat -> xor_bytes (a ++ a2) b = xor_bytes a b.
Proof.
  revert b. induction a as [|x a IH]; intros [|y b] H; cbn in H; try lia.
  - cbn [app]. apply xor_bytes_nil_r.
  - reflexivity.
  - cbn [app xor_bytes]. rewrite IH by lia. reflexivity.
Qed.

Lemma xor_bytes_firstn (a b : list byte) :
  xor_bytes (firstn (length b) a) b = xor_bytes a b.
Proof.
  revert b. induction a as [|x a IH]; intros [|y b]; try reflexivity.
  cbn [length firstn xor_bytes]. rewrite IH. reflexivity.
Qed.

Section EngineKeystream.

Context {C : BlockCipher}.
Hypothesis laws : BlockCipherLaws C.

(** A refill that succeeds on a counter object: the buffer of the counter
    is encrypted into the register and the counter is incremented, by the
    shortcut and by the call alike. *)
Lemma ctr_refill_counter s c u s3 :
  counter s = Some (CounterObj c) -> source_ok (counter s) ->
  ctr_refill s = (Ok u, s3) ->
  s3 = set_counter (encrypt_into_IV s (Counter.val c))
                   (Some (CounterObj (Counter.increment c)))
  /\ len (Counter.val c) = BLOCK_SIZE.
Proof.
  intros Hc Hsrc. unfold ctr_refill. rewrite Hc in *. cbn [source_ok] in Hsrc.
  destruct (truthy (counter_shortcut s)).
  - destruct (truthy (Counter.carry c) && negb (truthy (Counter.allow_wraparound c)));
      [discriminate|].
    destruct (Z.eqb_spec (Counter.buf_size c) BLOCK_SIZE) as [E | E]; cbn [negb];
      [|discriminate].
    intros [= _ <-]. split; [reflexivity | lia].
  - cbn [PyObject_CallObject]. unfold Counter.CounterObject_call.
    destruct (truthy (Counter.carry c) && negb (truthy (Counter.allow_wraparound c)));
      [discriminate|].
    unfold PyUnicode_FromStringAndSize.
    destruct (utf8_decode (Counter.val c)) as [v|] eqn:Edec; [|discriminate].
    destruct (Z.eqb_spec (Z.of_nat (length v)) BLOCK_SIZE) as [E | E]; cbn [negb];
      [|discriminate].
    destruct (PyUnicode_AsASCIIString v) as [block|] eqn:Easc; [|discriminate].
    destruct (ascii_of_utf8 _ _ _ _ (le_n _) Edec Easc) as (-> & Hlen).
    intros [= _ <-]. split; [reflexivity | unfold len; lia].
Qed.

Lemma keystream_S state n c :
  keystream state (S n) c
  = block_encrypt state (Counter.val c) ++ keystream state n (Counter.increment c).
Proof. reflexivity. Qed.

(** What the CTR loop returns: the input XORed with what is left of the
    keystream block in the register, then with the keystream of the
    counter. *)
Lemma ctr_loop_keystream fuel : forall s p out s' c (N : nat),
  counter s = Some (CounterObj c) -> source_ok (counter s) ->
  len (IV s) = BLOCK_SIZE -> 0 <= count s <= BLOCK_SIZE ->
  (length p + (if (count s =? BLOCK_SIZE)%Z then 2 else 1) <= fuel)%nat ->
  ctr_loop fuel s p = (Ok out, s') ->
  len p <= BLOCK_SIZE - count s + Z.of_nat N * BLOCK_SIZE ->
  out = xor_bytes (skipn (Z.to_nat (count s)) (IV s) ++ keystream (st s) N c) p.
Proof.
  pose proof (BLOCK_SIZE_pos C laws) as BS_pos.
  induction fuel as [|fuel IH]; intros s p out s' c N Hc Hsrc Hiv Hcount Hfuel Hrun HN.
  { destruct (count s =? BLOCK_SIZE); lia. }
  pose proof (len_nonneg p) as Hp.
  rewrite ctr_loop_S in Hrun.
  destruct (0 <? len p) eqn:Epos.
  2:{ injection Hrun as <- <-. apply Z.ltb_ge in Epos.
      destruct p; [|unfold len in Epos; cbn [length] in Epos; lia].
      symmetry. apply xor_bytes_nil_r. }
  apply Z.ltb_lt in Epos.
  assert (Hrest : length (skipn (Z.to_nat (count s)) (IV s))
                  = Z.to_nat (BLOCK_SIZE - count s)).
  { rewrite length_skipn. unfold len in Hiv. lia. }
  destruct (len p <=? BLOCK_SIZE - count s) eqn:Efit.
  - apply Z.leb_le in Efit. injection Hrun as <- _.
    unfold xor_into_IV. cbn [fst]. rewrite sub_0_all by reflexivity.
    rewrite xor_bytes_short by (unfold len in *; lia).
    unfold sub, len. rewrite Nat2Z.id. apply xor_bytes_firstn.
  - apply Z.leb_gt in Efit. cbv zeta in Hrun.
    set (n := BLOCK_SIZE - count s) in *.
    set (x := xor_into_IV s (count s) p n) in *.
    destruct (ctr_refill (set_count (snd x) BLOCK_SIZE)) as [[u|e] s3] eqn:Hrefill;
      [|discriminate].
    destruct (ctr_loop fuel (set_count s3 0) (skipn (Z.to_nat n) p)) as [[rest|e] s4]
      eqn:Hloop; [|discriminate].
    injection Hrun as <- _.
    destruct (ctr_refill_counter (set_count (snd x) BLOCK_SIZE) c u s3 Hc Hsrc Hrefill)
      as (Hs3 & Hval).
    pose proof (block_encrypt_len C laws (st s) _ Hval) as HE.
    assert (Hxiv : len (IV (snd x)) = BLOCK_SIZE).
    { destruct (into_IV_shape s (count s) p n) as ((_ & H) & _); [right; lia|].
      fold x in H. lia. }
    destruct N as [|N]; [lia|].
    assert (Hiv3 : IV s3 = block_encrypt (st s) (Counter.val c)).
    { rewrite Hs3. unfold encrypt_into_IV. cbn [IV set_IV set_counter set_count st].
      apply memcpy_all; assumption. }
    assert (Hst3 : st s3 = st s) by (rewrite Hs3; reflexivity).
    assert (Hc3 : counter s3 = Some (CounterObj (Counter.increment c)))
      by (rewrite Hs3; reflexivity).
    assert (Hsrc3 : source_ok (Some (CounterObj (Counter.increment c)))).
    { rewrite Hc in Hsrc. cbn [source_ok] in *.
      destruct (increment_keeps_size c) as (-> & ->). exact Hsrc. }
    assert (Hfuel3 : (length (skipn (Z.to_nat n) p)
                      + (if (0 =? BLOCK_SIZE)%Z then 2 else 1) <= fuel)%nat).
    { replace (0 =? BLOCK_SIZE) with false by (symmetry; apply Z.eqb_neq; lia).
      rewrite length_skipn. unfold len in *.
      destruct (count s =? BLOCK_SIZE) eqn:Ec;
        [apply Z.eqb_eq in Ec | apply Z.eqb_neq in Ec]; lia. }
    assert (HN3 : len (skipn (Z.to_nat n) p) <= BLOCK_SIZE - 0 + Z.of_nat N * BLOCK_SIZE).
    { rewrite len_skipn. lia. }
    assert (Hiv3' : len (IV (set_count s3 0)) = BLOCK_SIZE).
    { cbn [IV set_count]. rewrite Hiv3. exact HE. }
    rewrite (IH (set_count s3 0) _ rest s4 (Counter.increment c) N Hc3
               (eq_ind_r source_ok Hsrc3 Hc3) Hiv3' (conj (Z.le_refl 0) (Z.lt_le_incl _ _ BS_pos))
               Hfuel3 Hloop HN3).
    cbn [count IV st set_count Z.to_nat skipn]. rewrite Hiv3, Hst3, <- keystream_S.
    subst x. unfold xor_into_IV. cbn [fst].
    rewrite sub_0.
    rewrite <- (firstn_skipn (Z.to_nat n) p) at 3.
    rewrite <- xor_bytes_app.
    + f_equal. f_equal. unfold sub. apply firstn_all2. lia.
    + unfold sub. rewrite length_firstn, length_firstn, Hrest. unfold len in *. lia.
Qed.

(** X15: CTR mode is the XOR with the keystream of the counter.  On a new
    CTR engine over a counter object, what [encrypt] returns is its input
    XORed, byte by byte, with the encryptions of the successive values of
    the counter; the IV given to [ALGnew] plays no part. *)
Theorem ctr_output_is_keystream_xor key iv c0 seg self p out self' :
  ALGnew key MODE_CTR iv (Some (CounterObj c0)) seg = Ok self ->
  source_ok (Some (CounterObj c0)) ->
  ALG_Encrypt self p = (Ok out, self') ->
  out = xor_bytes (keystream (st self) (length p) c0) p.
Proof.
  intros Hnew Hsrc Hrun. pose proof (BLOCK_SIZE_pos C laws) as BS_pos.
  destruct (ALGnew_state laws _ _ _ _ _ _ Hnew)
    as (Hm & _ & Hctr & (Hiv & _) & _ & _ & Hcount & _).
  specialize (Hcount ltac:(discriminate)).
  destruct (Z.eq_dec (len p) 0) as [E0 | E0].
  { destruct p; [|unfold len in E0; cbn [length] in E0; lia].
    unfold ALG_Encrypt in Hrun. cbn in Hrun. injection Hrun as <- _. reflexivity. }
  rewrite ALG_Encrypt_CTR in Hrun by assumption.
  assert (Hsrc' : source_ok (counter self)) by (rewrite Hctr; exact Hsrc).
  assert (Hfuel : (length p + (if (count self =? BLOCK_SIZE)%Z then 2 else 1)
                   <= S (S (length p)))%nat).
  { rewrite Hcount, Z.eqb_refl. lia. }
  assert (HN : len p <= BLOCK_SIZE - count self + Z.of_nat (length p) * BLOCK_SIZE).
  { fold (len p). pose proof (len_nonneg p). nia. }
  rewrite (ctr_loop_keystream _ self p out self' c0 (length p) Hctr Hsrc' Hiv
             ltac:(lia) Hfuel Hrun HN).
  rewrite Hcount, skipn_all2 by (unfold len in Hiv; lia). reflexivity.
Qed.

End EngineKeystream.

Section RegisterExamples.

#[local] Existing Instance caesar_cipher.

Lemma ofb_decrypt_is_encrypt_witness :
  ALG_Decrypt ofb_engine example_stream = ALG_Encrypt ofb_engine example_stream.
Proof.
  exact (proj1 (ofb_decrypt_is_encrypt caesar_laws ofb_engine example_stream [] eq_refl
                  eq_refl) eq_refl).
Defined.

(** The CBC engine after the 16-byte stream: its register is the second
    ciphertext block. *)
Lemma register_is_ciphertext_window_witness :
  exists out self',
    ALG_Encrypt cbc_engine example_stream = (Ok out, self')
    /\ IV self' = sub (IV cbc_engine ++ out) (len out) 8.
Proof.
  destruct (ALG_Encrypt cbc_engine example_stream) as [[out|e] self'] eqn:Hrun.
  - exists out, self'. split; [reflexivity|].
    exact (proj1 (register_is_ciphertext_window caesar_laws cbc_engine example_stream out
                    self' (proj1 (ALGnew_config_ok _ _ _ _ _ _ (proj1 example_engines_built)))
                    eq_refl (or_introl eq_refl)) Hrun).
  - exfalso. apply (f_equal fst) in Hrun. vm_compute in Hrun. discriminate Hrun.
Defined.

(** Thirteen bytes through the CTR engine over the counter that starts
    at 0. *)
Lemma ctr_output_is_keystream_xor_witness :
  exists out self',
    ALG_Encrypt (ctr_engine 0) (firstn 13 example_stream) = (Ok out, self')
    /\ out = xor_bytes (keystream 3 13 (counter_at 0)) (firstn 13 example_stream).
Proof.
  destruct (ALG_Encrypt (ctr_engine 0) (firstn 13 example_stream)) as [[out|e] self']
    eqn:Hrun.
  - exists out, self'. split; [reflexivity|].
    exact (ctr_output_is_keystream_xor caesar_laws example_key example_iv (counter_at 0) 0
             (ctr_engine 0) (firstn 13 example_stream) out self'
             (proj1 (proj2 (proj2 example_engines_built))) eq_refl Hrun).
  - exfalso. apply (f_equal fst) in Hrun. vm_compute in Hrun. discriminate Hrun.
Defined.

End RegisterExamples.

(** ** CTR mode and PGP mode: one stream over many calls *)

Lemma firstn_plus (l : list byte) (m k : nat) :
  firstn (m + k) l = firstn m l ++ firstn k (skipn m l).
Proof.
  revert l. induction m as [|m IH]; intros [|x l]; cbn [Nat.add firstn skipn app];
    try reflexivity.
  - destruct k; reflexivity.
  - rewrite IH. reflexivity.
Qed.

(** Writing [x ++ y] at an offset in one go is writing [x], then [y]
    behind it. *)
Lemma memcpy_parts (iv x y : list byte) (o k : nat) :
  (o + length x + k <= length iv)%nat ->
  let iv1 := firstn o iv ++ firstn (length x) x ++ skipn (o + length x) iv in
  firstn o iv ++ firstn (length x + k) (x ++ y) ++ skipn (o + (length x + k)) iv
  = firstn (o + length x) iv1 ++ firstn k y ++ skipn (o + length x + k) iv1
  /\ skipn (o + length x) iv1 = skipn (o + length x) iv.
Proof.
  intros H iv1. subst iv1. rewrite firstn_all.
  assert (Ho : length (firstn o iv) = o) by (rewrite length_firstn; lia).
  assert (Hpre : forall r, firstn (o + length x) (firstn o iv ++ x ++ r) = firstn o iv ++ x).
  { intros r. rewrite app_assoc.
    replace (o + length x)%nat with (length (firstn o iv ++ x) + 0)%nat
      by (rewrite length_app, Ho; lia).
    rewrite firstn_app_2. cbn [firstn]. apply app_nil_r. }
  assert (Hpost : forall j r, skipn (o + length x + j) (firstn o iv ++ x ++ r) = skipn j r).
  { intros j r. rewrite app_assoc, skipn_app.
    rewrite skipn_all2 by (rewrite length_app, Ho; lia).
    rewrite length_app, Ho. cbn [app]. f_equal. lia. }
  split.
  - rewrite Hpre, Hpost, skipn_skipn.
    replace (length x + k)%nat with (length x + k)%nat by reflexivity.
    rewrite firstn_app_2, <- !app_assoc.
    do 3 f_equal. f_equal. lia.
  - replace (o + length x)%nat with (o + length x + 0)%nat at 1 by lia.
    rewrite Hpost. reflexivity.
Qed.

Lemma to_nat_len (a : list byte) : Z.to_nat (len a) = length a.
Proof. unfold len. apply Nat2Z.id. Qed.

Section IntoParts.

Context {C : BlockCipher}.

(** The inner loop on [a ++ b] is the inner loop on [a], then on [b]
    where that stopped. *)
Lemma xor_into_IV_app s off (a b : list byte) n' :
  0 <= off -> 0 <= n' -> off + len a + n' <= len (IV s) -> n' <= len b ->
  xor_into_IV s off (a ++ b) (len a + n')
  = (fst (xor_into_IV s off a (len a))
       ++ fst (xor_into_IV (snd (xor_into_IV s off a (len a))) (off + len a) b n'),
     snd (xor_into_IV (snd (xor_into_IV s off a (len a))) (off + len a) b n')).
Proof.
  intros Hoff Hn Hiv Hb. pose proof (len_nonneg a) as Ha.
  unfold xor_into_IV. cbn [fst snd IV set_IV]. unfold sub, memcpy.
  cbn [Z.to_nat skipn].
  rewrite !Z2Nat.inj_add, !to_nat_len by lia.
  set (o := Z.to_nat off). set (k := Z.to_nat n').
  assert (Hlen : (o + length a + k <= length (IV s))%nat) by (unfold len in *; lia).
  set (oa := xor_bytes (firstn (length a) (skipn o (IV s))) (firstn (length a) a)).
  assert (Hoa : length oa = length a).
  { subst oa. rewrite firstn_all. apply Nat2Z.inj. fold (len a).
    change (len (xor_bytes (firstn (length a) (skipn o (IV s))) a) = len a).
    autorewrite with len. unfold len in *. lia. }
  destruct (memcpy_parts (IV s) oa
              (xor_bytes (firstn k (skipn (o + length a) (IV s))) (firstn k b)) o k)
    as (P1 & P2); [lia|].
  rewrite Hoa in P1, P2.
  assert (Hsub : firstn k (skipn (o + length a)
                   (firstn o (IV s) ++ firstn (length a) oa
                      ++ skipn (o + length a) (IV s)))
                 = firstn k (skipn (o + length a) (IV s))).
  { rewrite P2. reflexivity. }
  rewrite Hsub.
  assert (Hout : xor_bytes (firstn (length a + k) (skipn o (IV s)))
                   (firstn (length a + k) (a ++ b))
                 = oa ++ xor_bytes (firstn k (skipn (o + length a) (IV s))) (firstn k b)).
  { rewrite firstn_plus, firstn_app_2, skipn_skipn.
    rewrite xor_bytes_app.
    - subst oa. rewrite firstn_all, (Nat.add_comm (length a) o). reflexivity.
    - rewrite length_firstn, length_skipn. lia. }
  rewrite Hout, P1. reflexivity.
Qed.

Lemma swap_into_IV_app s off (a b : list byte) n' :
  0 <= off -> 0 <= n' -> off + len a + n' <= len (IV s) -> n' <= len b ->
  swap_into_IV s off (a ++ b) (len a + n')
  = (fst (swap_into_IV s off a (len a))
       ++ fst (swap_into_IV (snd (swap_into_IV s off a (len a))) (off + len a) b n'),
     snd (swap_into_IV (snd (swap_into_IV s off a (len a))) (off + len a) b n')).
Proof.
  intros Hoff Hn Hiv Hb. pose proof (len_nonneg a) as Ha.
  unfold swap_into_IV. cbn [fst snd IV set_IV]. unfold sub, memcpy.
  cbn [Z.to_nat skipn].
  rewrite !Z2Nat.inj_add, !to_nat_len by lia.
  set (o := Z.to_nat off). set (k := Z.to_nat n').
  assert (Hlen : (o + length a + k <= length (IV s))%nat) by (unfold len in *; lia).
  destruct (memcpy_parts (IV s) a b o k) as (P1 & P2); [lia|].
  rewrite P2.
  assert (Hout : xor_bytes (firstn (length a + k) (skipn o (IV s)))
                   (firstn (length a + k) (a ++ b))
                 = xor_bytes (firstn (length a) (skipn o (IV s))) (firstn (length a) a)
                     ++ xor_bytes (firstn k (skipn (o + length a) (IV s))) (firstn k b)).
  { rewrite firstn_plus, firstn_app_2, skipn_skipn.
    rewrite xor_bytes_app.
    - rewrite firstn_all, (Nat.add_comm (length a) o). reflexivity.
    - rewrite length_firstn, length_skipn. lia. }
  rewrite Hout, P1. reflexivity.
Qed.

End IntoParts.

Lemma stream_loop_S {C : BlockCipher} into refill fuel s str :
  stream_loop into refill (S fuel) s str
  = if 0 <? len str then
      if len str <=? BLOCK_SIZE - count s then
        (Ok (fst (into s (count s) str (len str))),
         set_count (snd (into s (count s) str (len str))) (count s + len str))
      else
        let n := BLOCK_SIZE - count s in
        let x := into s (count s) str n in
        match refill (set_count (snd x) BLOCK_SIZE) with
        | (Raise e, s3) => (Raise e, s3)
        | (Ok _, s3) =>
            match stream_loop into refill fuel (set_count s3 0) (skipn (Z.to_nat n) str) with
            | (Ok rest, s4) => (Ok (fst x ++ rest), s4)
            | (Raise e, s4) => (Raise e, s4)
            end
        end
    else (Ok [], s).
Proof.
  cbn [stream_loop]. destruct (0 <? len str); [|reflexivity].
  destruct (len str <=? BLOCK_SIZE - count s).
  - destruct (into s (count s) str (len str)); reflexivity.
  - cbv zeta. destruct (into s (count s) str (BLOCK_SIZE - count s)); reflexivity.
Qed.

(** The CTR loop is the shared loop with the counter as refill. *)
Lemma ctr_loop_stream {C : BlockCipher} fuel : forall s str,
  ctr_loop fuel s str = stream_loop xor_into_IV ctr_refill fuel s str.
Proof.
  induction fuel as [|fuel IH]; intros s str; [reflexivity|].
  rewrite ctr_loop_S, stream_loop_S.
  destruct (0 <? len str); [|reflexivity].
  destruct (len str <=? BLOCK_SIZE - count s); [reflexivity|].
  cbv zeta.
  destruct (ctr_refill (set_count (snd (xor_into_IV s (count s) str (BLOCK_SIZE - count s)))
                                  BLOCK_SIZE)) as [[u|e] s3]; [|reflexivity].
  rewrite IH. reflexivity.
Qed.

Section StreamLoop.

Context {C : BlockCipher}.
Variable into : ALGobject -> Z -> list byte -> Z -> list byte * ALGobject.
Variable refill : ALGobject -> PyResult unit * ALGobject.
Variable I : ALGobject -> Prop.

Hypothesis BS_pos : 0 < BLOCK_SIZE.
Hypothesis I_count : forall s k, I s -> I (set_count s k).
Hypothesis I_into : forall s off str n,
  I s -> n <= 0 \/ (0 <= off /\ off + n <= BLOCK_SIZE /\ n <= len str) ->
  I (snd (into s off str n)).
Hypothesis I_refill : forall s u s', I s -> refill s = (Ok u, s') -> I s'.
Hypothesis into_set_count : forall s k off str n,
  into (set_count s k) off str n
  = (fst (into s off str n), set_count (snd (into s off str n)) k).
Hypothesis into_local : forall s off a b n,
  n <= len a -> into s off (a ++ b) n = into s off a n.
Hypothesis into_app : forall s off a b n',
  I s -> 0 <= off -> 0 <= n' -> off + len a + n' <= BLOCK_SIZE -> n' <= len b ->
  into s off (a ++ b) (len a + n')
  = (fst (into s off a (len a))
       ++ fst (into (snd (into s off a (len a))) (off + len a) b n'),
     snd (into (snd (into s off a (len a))) (off + len a) b n')).

(** More fuel than enough changes nothing. *)
Lemma stream_loop_fuel f1 : forall f2 s str,
  enough_fuel f1 s str -> enough_fuel f2 s str ->
  stream_loop into refill f1 s str = stream_loop into refill f2 s str.
Proof.
  unfold enough_fuel.
  induction f1 as [|f1 IH]; intros f2 s str H1 H2.
  { destruct (count s <? BLOCK_SIZE); lia. }
  destruct f2 as [|f2]; [destruct (count s <? BLOCK_SIZE); lia|].
  rewrite !stream_loop_S.
  destruct (0 <? len str) eqn:Epos; [|reflexivity].
  destruct (len str <=? BLOCK_SIZE - count s) eqn:Efit; [reflexivity|].
  apply Z.leb_gt in Efit. cbv zeta.
  destruct (refill _) as [[u|e] s3]; [|reflexivity].
  assert (E0 : (count (set_count s3 0) <? BLOCK_SIZE) = true)
    by (apply Z.ltb_lt; cbn [count set_count]; lia).
  rewrite (IH f2 (set_count s3 0) _); [reflexivity | |];
    rewrite E0, length_skipn; unfold len in *;
    destruct (count s <? BLOCK_SIZE) eqn:Ec;
    [apply Z.ltb_lt in Ec | apply Z.ltb_ge in Ec |
     apply Z.ltb_lt in Ec | apply Z.ltb_ge in Ec]; lia.
Qed.

(** Two calls of the loop, the second from where the first stopped, do
    what one call on the joined input does. *)
Lemma stream_loop_app fa : forall f fb s a b ca s1 cb s2,
  I s -> 0 <= count s ->
  enough_fuel fa s a -> enough_fuel fb s1 b -> enough_fuel f s (a ++ b) ->
  stream_loop into refill fa s a = (Ok ca, s1) ->
  stream_loop into refill fb s1 b = (Ok cb, s2) ->
  stream_loop into refill f s (a ++ b) = (Ok (ca ++ cb), s2).
Proof.
  induction fa as [|fa IH]; intros f fb s a b ca s1 cb s2 HI Hc Hfa Hfb Hf Ha Hb.
  { unfold enough_fuel in Hfa. destruct (count s <? BLOCK_SIZE); lia. }
  pose proof (len_nonneg a) as Hla. pose proof (len_nonneg b) as Hlb.
  (* nothing in the second call *)
  destruct b as [|y b'].
  { rewrite app_nil_r in *.
    destruct fb as [|fb];
      [unfold enough_fuel in Hfb; destruct (count s1 <? BLOCK_SIZE); lia|].
    rewrite stream_loop_S in Hb. cbn [len length Z.of_nat Z.ltb Z.compare] in Hb.
    injection Hb as <- <-. rewrite app_nil_r.
    rewrite (stream_loop_fuel f (S fa) s a Hf Hfa). exact Ha. }
  set (b := y :: b') in *.
  assert (Hb0 : 0 < len b) by (unfold len, b; cbn [length]; lia).
  rewrite stream_loop_S in Ha.
  destruct (0 <? len a) eqn:Epos.
  2:{ injection Ha as <- <-. apply Z.ltb_ge in Epos.
      destruct a; [|unfold len in Epos; cbn [length] in Epos; lia].
      cbn [app]. rewrite (stream_loop_fuel f fb s b Hf Hfb). exact Hb. }
  apply Z.ltb_lt in Epos.
  destruct f as [|f]; [unfold enough_fuel in Hf; destruct (count s <? BLOCK_SIZE); lia|].
  rewrite stream_loop_S.
  assert (Eab : (0 <? len (a ++ b)) = true) by (apply Z.ltb_lt; rewrite len_app; lia).
  rewrite Eab.
  destruct (len a <=? BLOCK_SIZE - count s) eqn:Efit.
  - apply Z.leb_le in Efit. injection Ha as <- <-.
    destruct fb as [|fb];
      [unfold enough_fuel in Hfb;
       destruct (count (set_count (snd (into s (count s) a (len a))) (count s + len a))
                 <? BLOCK_SIZE); lia|].
    rewrite stream_loop_S in Hb.
    replace (0 <? len b) with true in Hb by (symmetry; apply Z.ltb_lt; lia).
    cbn [count set_count] in Hb. rewrite !into_set_count in Hb. cbn [fst snd] in Hb.
    destruct (len b <=? BLOCK_SIZE - (count s + len a)) eqn:Efitb.
    + apply Z.leb_le in Efitb. injection Hb as <- <-.
      replace (len (a ++ b) <=? BLOCK_SIZE - count s) with true
        by (symmetry; apply Z.leb_le; rewrite len_app; lia).
      rewrite len_app, into_app by (assumption || lia). cbn [fst snd].
      rewrite Z.add_assoc. reflexivity.
    + apply Z.leb_gt in Efitb. cbv zeta in Hb.
      replace (len (a ++ b) <=? BLOCK_SIZE - count s) with false
        by (symmetry; apply Z.leb_gt; rewrite len_app; lia).
      cbv zeta.
      replace (BLOCK_SIZE - count s) with (len a + (BLOCK_SIZE - (count s + len a))) by lia.
      rewrite into_app by (assumption || lia). cbn [fst snd].
      set (x := into (snd (into s (count s) a (len a))) (count s + len a) b
                     (BLOCK_SIZE - (count s + len a))) in *.
      change (set_count (set_count (snd x) (count s + len a)) BLOCK_SIZE)
        with (set_count (snd x) BLOCK_SIZE) in Hb.
      destruct (refill (set_count (snd x) BLOCK_SIZE)) as [[u|e] s3]; [|discriminate].
      assert (Hskip : skipn (Z.to_nat (len a + (BLOCK_SIZE - (count s + len a)))) (a ++ b)
                      = skipn (Z.to_nat (BLOCK_SIZE - (count s + len a))) b).
      { rewrite Z2Nat.inj_add, to_nat_len by lia.
        rewrite skipn_app, skipn_all2 by lia. cbn [app]. f_equal. lia. }
      rewrite Hskip.
      assert (E0 : (count (set_count s3 0) <? BLOCK_SIZE) = true)
        by (apply Z.ltb_lt; cbn [count set_count]; lia).
      assert (Hlen : (length (skipn (Z.to_nat (BLOCK_SIZE - (count s + len a))) b)
                      <= length b - 0)%nat) by (rewrite length_skipn; unfold len in *; lia).
      rewrite (stream_loop_fuel f fb (set_count s3 0) _).
      * destruct (stream_loop into refill fb (set_count s3 0) _) as [[rest|e] s4];
          [|discriminate].
        injection Hb as <- <-. rewrite app_assoc. reflexivity.
      * unfold enough_fuel in *. rewrite E0. rewrite length_app in Hf.
        destruct (count s <? BLOCK_SIZE) eqn:Ec; [|apply Z.ltb_ge in Ec; lia].
        rewrite length_skipn. unfold len in *. lia.
      * unfold enough_fuel in *. rewrite E0. cbn [count set_count] in Hfb.
        rewrite length_skipn. unfold len in *.
        destruct (count s + Z.of_nat (length a) <? BLOCK_SIZE) eqn:Ec;
          [apply Z.ltb_lt in Ec | apply Z.ltb_ge in Ec]; lia.
  - apply Z.leb_gt in Efit. cbv zeta in Ha.
    replace (len (a ++ b) <=? BLOCK_SIZE - count s) with false
      by (symmetry; apply Z.leb_gt; rewrite len_app; lia).
    cbv zeta. rewrite into_local by lia.
    set (n := BLOCK_SIZE - count s) in *.
    set (x := into s (count s) a n) in *.
    destruct (refill (set_count (snd x) BLOCK_SIZE)) as [[u|e] s3] eqn:Hrefill;
      [|discriminate].
    destruct (stream_loop into refill fa (set_count s3 0) (skipn (Z.to_nat n) a))
      as [[rest|e] s4] eqn:Hloop; [|discriminate].
    injection Ha as <- <-.
    assert (Hskip : skipn (Z.to_nat n) (a ++ b) = skipn (Z.to_nat n) a ++ b).
    { rewrite skipn_app. f_equal.
      replace (Z.to_nat n - length a)%nat with 0%nat by (unfold len in *; lia).
      reflexivity. }
    rewrite Hskip.
    assert (HI3 : I (set_count s3 0)).
    { apply I_count. apply (I_refill _ u _ (I_count _ BLOCK_SIZE
        (I_into s (count s) a n HI ltac:(lia))) Hrefill). }
    assert (E0 : (count (set_count s3 0) <? BLOCK_SIZE) = true)
      by (apply Z.ltb_lt; cbn [count set_count]; lia).
    rewrite (IH f fb (set_count s3 0) (skipn (Z.to_nat n) a) b rest s4 cb s2 HI3).
    + rewrite app_assoc. reflexivity.
    + cbn [count set_count]. lia.
    + unfold enough_fuel in *. rewrite E0, length_skipn. unfold len in *.
      destruct (count s <? BLOCK_SIZE) eqn:Ec;
        [apply Z.ltb_lt in Ec | apply Z.ltb_ge in Ec]; lia.
    + exact Hfb.
    + unfold enough_fuel in *. rewrite E0, length_app, length_skipn.
      rewrite length_app in Hf. unfold len in *.
      destruct (count s <? BLOCK_SIZE) eqn:Ec;
        [apply Z.ltb_lt in Ec | apply Z.ltb_ge in Ec]; lia.
    + exact Hloop.
    + exact Hb.
Qed.

End StreamLoop.

Section StreamModes.

Context {C : BlockCipher}.
Hypothesis laws : BlockCipherLaws C.

(** The middle loop and the last part of the PGP case are the shared
    loop started behind a refill. *)
Lemma pgp_encrypt_blocks_stream fuel : forall f t str,
  0 < len str -> (length str <= fuel)%nat -> (length str + 1 <= f)%nat ->
  let r := pgp_encrypt_blocks fuel t str in
  let s5 := set_count (encrypt_into_IV (snd (fst r)) (oldCipher (snd (fst r))))
                      (len (snd r)) in
  let y := xor_into_IV s5 0 (snd r) (len (snd r)) in
  stream_loop xor_into_IV pgp_refill f (set_count (encrypt_into_IV t (oldCipher t)) 0) str
  = (Ok (fst (fst r) ++ fst y), snd y).
Proof.
  pose proof (BLOCK_SIZE_pos C laws) as BS_pos.
  induction fuel as [|fuel IH]; intros f t str Hpos Hfuel Hf; [unfold len in Hpos; lia|].
  destruct f as [|f]; [lia|].
  rewrite stream_loop_S, pgp_encrypt_blocks_S.
  replace (0 <? len str) with true by (symmetry; apply Z.ltb_lt; lia).
  cbn [count set_count]. rewrite Z.sub_0_r.
  destruct (BLOCK_SIZE <? len str) eqn:E.
  - apply Z.ltb_lt in E.
    replace (len str <=? BLOCK_SIZE) with false by (symmetry; apply Z.leb_gt; lia).
    cbv zeta. unfold pgp_refill at 1. cbn [fst snd].
    set (t' := snd (xor_into_IV (encrypt_into_IV t (oldCipher t)) 0 str BLOCK_SIZE)).
    assert (Hrest : 0 < len (skipn (Z.to_nat BLOCK_SIZE) str)) by (rewrite len_skipn; lia).
    assert (Hrf : (length (skipn (Z.to_nat BLOCK_SIZE) str) <= fuel)%nat)
      by (rewrite length_skipn; unfold len in *; lia).
    assert (Hrf' : (length (skipn (Z.to_nat BLOCK_SIZE) str) + 1 <= f)%nat)
      by (rewrite length_skipn; unfold len in *; lia).
    pose proof (IH f t' (skipn (Z.to_nat BLOCK_SIZE) str) Hrest Hrf Hrf') as H.
    cbv zeta in H.
    change (set_count (encrypt_into_IV t' (oldCipher t')) 0)
      with (set_count
              (encrypt_into_IV
                 (set_count
                    (snd (xor_into_IV (set_count (encrypt_into_IV t (oldCipher t)) 0) 0 str
                            BLOCK_SIZE)) BLOCK_SIZE)
                 (oldCipher
                    (set_count
                       (snd (xor_into_IV (set_count (encrypt_into_IV t (oldCipher t)) 0) 0
                               str BLOCK_SIZE)) BLOCK_SIZE))) 0) in H.
    rewrite H. rewrite <- app_assoc. reflexivity.
  - apply Z.ltb_ge in E.
    replace (len str <=? BLOCK_SIZE) with true by (symmetry; apply Z.leb_le; lia).
    reflexivity.
Qed.

Lemma pgp_decrypt_blocks_stream fuel : forall f t str,
  0 < len str -> (length str <= fuel)%nat -> (length str + 1 <= f)%nat ->
  let r := pgp_decrypt_blocks fuel t str in
  let s5 := set_count (encrypt_into_IV (snd (fst r)) (oldCipher (snd (fst r))))
                      (len (snd r)) in
  let y := swap_into_IV s5 0 (snd r) (len (snd r)) in
  stream_loop swap_into_IV pgp_refill f (set_count (encrypt_into_IV t (oldCipher t)) 0) str
  = (Ok (fst (fst r) ++ fst y), snd y).
Proof.
  pose proof (BLOCK_SIZE_pos C laws) as BS_pos.
  induction fuel as [|fuel IH]; intros f t str Hpos Hfuel Hf; [unfold len in Hpos; lia|].
  destruct f as [|f]; [lia|].
  rewrite stream_loop_S, pgp_decrypt_blocks_S.
  replace (0 <? len str) with true by (symmetry; apply Z.ltb_lt; lia).
  cbn [count set_count]. rewrite Z.sub_0_r.
  destruct (BLOCK_SIZE <? len str) eqn:E.
  - apply Z.ltb_lt in E.
    replace (len str <=? BLOCK_SIZE) with false by (symmetry; apply Z.leb_gt; lia).
    cbv zeta. unfold pgp_refill at 1. cbn [fst snd].
    set (t' := snd (swap_into_IV (encrypt_into_IV t (oldCipher t)) 0 str BLOCK_SIZE)).
    assert (Hrest : 0 < len (skipn (Z.to_nat BLOCK_SIZE) str)) by (rewrite len_skipn; lia).
    assert (Hrf : (length (skipn (Z.to_nat BLOCK_SIZE) str) <= fuel)%nat)
      by (rewrite length_skipn; unfold len in *; lia).
    assert (Hrf' : (length (skipn (Z.to_nat BLOCK_SIZE) str) + 1 <= f)%nat)
      by (rewrite length_skipn; unfold len in *; lia).
    pose proof (IH f t' (skipn (Z.to_nat BLOCK_SIZE) str) Hrest Hrf Hrf') as H.
    cbv zeta in H.
    change (set_count (encrypt_into_IV t' (oldCipher t')) 0)
      with (set_count
              (encrypt_into_IV
                 (set_count
                    (snd (swap_into_IV (set_count (encrypt_into_IV t (oldCipher t)) 0) 0 str
                            BLOCK_SIZE)) BLOCK_SIZE)
                 (oldCipher
                    (set_count
                       (snd (swap_into_IV (set_count (encrypt_into_IV t (oldCipher t)) 0) 0
                               str BLOCK_SIZE)) BLOCK_SIZE))) 0) in H.
    rewrite H. rewrite <- app_assoc. reflexivity.
  - apply Z.ltb_ge in E.
    replace (len str <=? BLOCK_SIZE) with true by (symmetry; apply Z.leb_le; lia).
    reflexivity.
Qed.

(** The PGP cases of [ALG_Encrypt] and [ALG_Decrypt] are the shared
    loop: the last part of the C code is its last turn. *)
Lemma pgp_encrypt_stream s str f :
  0 < len str -> (length str + 2 <= f)%nat ->
  stream_loop xor_into_IV pgp_refill f s str
  = (Ok (fst (pgp_encrypt s str)), snd (pgp_encrypt s str)).
Proof.
  intros Hpos Hf. destruct f as [|f]; [lia|].
  rewrite stream_loop_S, pgp_encrypt_eq.
  replace (0 <? len str) with true by (symmetry; apply Z.ltb_lt; lia).
  destruct (len str <=? BLOCK_SIZE - count s) eqn:Efit; [reflexivity|].
  apply Z.leb_gt in Efit. cbv zeta. unfold pgp_refill at 1. cbn [fst snd].
  set (n := BLOCK_SIZE - count s) in *.
  set (x := xor_into_IV s (count s) str n).
  assert (Hrest : 0 < len (skipn (Z.to_nat n) str)) by (rewrite len_skipn; lia).
  assert (Hrf : (length (skipn (Z.to_nat n) str) <= length str)%nat)
    by (rewrite length_skipn; unfold len in *; lia).
  assert (Hrf' : (length (skipn (Z.to_nat n) str) + 1 <= f)%nat)
    by (rewrite length_skipn; unfold len in *; lia).
  pose proof (pgp_encrypt_blocks_stream (length str) f (set_count (snd x) 0)
                (skipn (Z.to_nat n) str) Hrest Hrf Hrf') as H.
  cbv zeta in H.
  change (set_count (encrypt_into_IV (set_count (snd x) 0)
                                     (oldCipher (set_count (snd x) 0))) 0)
    with (set_count (encrypt_into_IV (set_count (snd x) BLOCK_SIZE)
                                     (oldCipher (set_count (snd x) BLOCK_SIZE))) 0) in H.
  rewrite H. cbn [fst snd]. reflexivity.
Qed.

Lemma pgp_decrypt_stream s str f :
  0 < len str -> (length str + 2 <= f)%nat ->
  stream_loop swap_into_IV pgp_refill f s str
  = (Ok (fst (pgp_decrypt s str)), snd (pgp_decrypt s str)).
Proof.
  intros Hpos Hf. destruct f as [|f]; [lia|].
  rewrite stream_loop_S, pgp_decrypt_eq.
  replace (0 <? len str) with true by (symmetry; apply Z.ltb_lt; lia).
  destruct (len str <=? BLOCK_SIZE - count s) eqn:Efit; [reflexivity|].
  apply Z.leb_gt in Efit. cbv zeta. unfold pgp_refill at 1. cbn [fst snd].
  set (n := BLOCK_SIZE - count s) in *.
  set (x := swap_into_IV s (count s) str n).
  assert (Hrest : 0 < len (skipn (Z.to_nat n) str)) by (rewrite len_skipn; lia).
  assert (Hrf : (length (skipn (Z.to_nat n) str) <= length str)%nat)
    by (rewrite length_skipn; unfold len in *; lia).
  assert (Hrf' : (length (skipn (Z.to_nat n) str) + 1 <= f)%nat)
    by (rewrite length_skipn; unfold len in *; lia).
  pose proof (pgp_decrypt_blocks_stream (length str) f (set_count (snd x) 0)
                (skipn (Z.to_nat n) str) Hrest Hrf Hrf') as H.
  cbv zeta in H.
  change (set_count (encrypt_into_IV (set_count (snd x) 0)
                                     (oldCipher (set_count (snd x) 0))) 0)
    with (set_count (encrypt_into_IV (set_count (snd x) BLOCK_SIZE)
                                     (oldCipher (set_count (snd x) BLOCK_SIZE))) 0) in H.
  rewrite H. cbn [fst snd]. reflexivity.
Qed.

Lemma ALG_Encrypt_PGP_call s p :
  mode s = MODE_PGP -> len p <> 0 ->
  ALG_Encrypt s p = (Ok (fst (pgp_encrypt s p)), snd (pgp_encrypt s p)).
Proof.
  intros Hm Hp. unfold ALG_Encrypt. rewrite Hm. apply Z.eqb_neq in Hp. rewrite Hp.
  unfold MODE_ECB, MODE_CBC, MODE_CFB, MODE_PGP, MODE_OFB, MODE_CTR. simp_mode.
  destruct (pgp_encrypt s p); reflexivity.
Qed.

Lemma ALG_Decrypt_PGP_call s p :
  mode s = MODE_PGP -> prf_mode s = 0 -> len p <> 0 ->
  ALG_Decrypt s p = (Ok (fst (pgp_decrypt s p)), snd (pgp_decrypt s p)).
Proof.
  intros Hm Hprf Hp. unfold ALG_Decrypt, truthy. rewrite Hprf, Hm.
  apply Z.eqb_neq in Hp. rewrite Hp.
  unfold MODE_ECB, MODE_CBC, MODE_CFB, MODE_PGP, MODE_OFB, MODE_CTR. simp_mode.
  destruct (pgp_decrypt s p); reflexivity.
Qed.

Lemma xor_into_IV_keeps s off str n :
  n <= 0 \/ (0 <= off /\ off + n <= BLOCK_SIZE /\ n <= len str) ->
  len (IV s) = BLOCK_SIZE ->
  len (IV (snd (xor_into_IV s off str n))) = BLOCK_SIZE
  /\ len (IV (snd (swap_into_IV s off str n))) = BLOCK_SIZE.
Proof.
  intros H Hiv.
  destruct (into_IV_shape s off str n) as ((_ & H1) & (_ & H2)); [rewrite Hiv; exact H|].
  rewrite H1, H2. auto.
Qed.

(** The CTR loop on a joined input. *)
Lemma ctr_loop_app f fa fb s a b ca s1 cb s2 :
  len (IV s) = BLOCK_SIZE -> source_ok (counter s) -> 0 <= count s ->
  enough_fuel fa s a -> enough_fuel fb s1 b -> enough_fuel f s (a ++ b) ->
  ctr_loop fa s a = (Ok ca, s1) -> ctr_loop fb s1 b = (Ok cb, s2) ->
  ctr_loop f s (a ++ b) = (Ok (ca ++ cb), s2).
Proof.
  pose proof (BLOCK_SIZE_pos C laws) as BS_pos.
  rewrite !ctr_loop_stream. intros Hiv Hsrc Hc Hfa Hfb Hf Ha Hb.
  apply (stream_loop_app xor_into_IV ctr_refill
           (fun s => len (IV s) = BLOCK_SIZE /\ source_ok (counter s)))
    with (fa := fa) (fb := fb) (s1 := s1); try assumption.
  - intros t k Ht. exact Ht.
  - intros t off str n (Ht & Hts) Hn. split; [|exact Hts].
    apply xor_into_IV_keeps; assumption.
  - intros t u t' (Ht & Hts) Hr.
    destruct (ctr_refill_shape laws t Ht Hts) as (H1 & H2 & _).
    rewrite Hr in H1, H2. auto.
  - reflexivity.
  - intros t off x y n Hn. unfold xor_into_IV. rewrite sub_0_app_long by exact Hn.
    reflexivity.
  - intros t off x y n (Ht & _) H1 H2 H3 H4. apply xor_into_IV_app; try assumption.
    rewrite Ht. exact H3.
  - split; assumption.
Qed.

(** The PGP loops on a joined input. *)
Lemma pgp_loops_app f fa fb s a b ca s1 cb s2 :
  buffers_ok s -> 0 <= count s ->
  enough_fuel fa s a -> enough_fuel fb s1 b -> enough_fuel f s (a ++ b) ->
  (stream_loop xor_into_IV pgp_refill fa s a = (Ok ca, s1) ->
   stream_loop xor_into_IV pgp_refill fb s1 b = (Ok cb, s2) ->
   stream_loop xor_into_IV pgp_refill f s (a ++ b) = (Ok (ca ++ cb), s2))
  /\ (stream_loop swap_into_IV pgp_refill fa s a = (Ok ca, s1) ->
      stream_loop swap_into_IV pgp_refill fb s1 b = (Ok cb, s2) ->
      stream_loop swap_into_IV pgp_refill f s (a ++ b) = (Ok (ca ++ cb), s2)).
Proof.
  pose proof (BLOCK_SIZE_pos C laws) as BS_pos.
  intros Hbuf Hc Hfa Hfb Hf.
  assert (Hrefill : forall t u t', buffers_ok t -> pgp_refill t = (Ok u, t') -> buffers_ok t').
  { intros t u t' Ht Hr. unfold pgp_refill in Hr. injection Hr as _ <-.
    apply (buffers_ok_encrypt_into_IV laws). exact Ht. }
  split; intros Ha Hb.
  - apply (stream_loop_app xor_into_IV pgp_refill buffers_ok)
      with (fa := fa) (fb := fb) (s1 := s1); try assumption.
    + intros t k Ht. exact Ht.
    + intros t off str n (Ht & Hto) Hn. split; [|exact Hto].
      apply xor_into_IV_keeps; assumption.
    + reflexivity.
    + intros t off x y n Hn. unfold xor_into_IV. rewrite sub_0_app_long by exact Hn.
      reflexivity.
    + intros t off x y n (Ht & _) H1 H2 H3 H4. apply xor_into_IV_app; try assumption.
      rewrite Ht. exact H3.
  - apply (stream_loop_app swap_into_IV pgp_refill buffers_ok)
      with (fa := fa) (fb := fb) (s1 := s1); try assumption.
    + intros t k Ht. exact Ht.
    + intros t off str n (Ht & Hto) Hn. split; [|exact Hto].
      apply xor_into_IV_keeps; assumption.
    + reflexivity.
    + intros t off x y n Hn. unfold swap_into_IV.
      rewrite sub_0_app_long, memcpy_app_src_long by exact Hn. reflexivity.
    + intros t off x y n (Ht & _) H1 H2 H3 H4. apply swap_into_IV_app; try assumption.
      rewrite Ht. exact H3.
Qed.

Lemma enough_fuel_call s p : enough_fuel (S (S (length p))) s p.
Proof. unfold enough_fuel. destruct (count s <? BLOCK_SIZE); lia. Qed.

Lemma len_zero_nil (p : list byte) : len p = 0 -> p = [].
Proof. destruct p; [reflexivity|]. unfold len. cbn [length]. lia. Qed.

Lemma len_pos_cases (p : list byte) : p = [] \/ (0 < len p /\ len p <> 0).
Proof. destruct p; [left; reflexivity | right; unfold len; cbn [length]; lia]. Qed.

(** [encrypt] in CTR mode and in PGP mode: two calls do what one call
    on the joined input does. *)
Lemma stream_encrypt_chunks s a b ca s1 cb s2 :
  state_ok s -> mode s = MODE_CTR \/ mode s = MODE_PGP ->
  ALG_Encrypt s a = (Ok ca, s1) -> ALG_Encrypt s1 b = (Ok cb, s2) ->
  ALG_Encrypt s (a ++ b) = (Ok (ca ++ cb), s2).
Proof.
  intros (Hbuf & Hc0 & _ & Hsrc) Hm Ha Hb.
  destruct (len_pos_cases a) as [-> | (Hap & Ha0)].
  { cbn in Ha. injection Ha as <- <-. exact Hb. }
  destruct (len_pos_cases b) as [-> | (Hbp & Hb0)].
  { cbn in Hb. injection Hb as <- <-. rewrite !app_nil_r. exact Ha. }
  assert (Hab : len (a ++ b) <> 0) by (rewrite len_app; lia).
  assert (Hm1 : mode s1 = mode s).
  { pose proof (frame_ALG_Encrypt s a) as (H & _). rewrite Ha in H. exact H. }
  destruct Hm as [Hm | Hm].
  - rewrite ALG_Encrypt_CTR in * by congruence.
    apply (ctr_loop_app _ (S (S (length a))) (S (S (length b))) s a b ca s1 cb s2);
      try assumption; try apply enough_fuel_call.
    exact (proj1 Hbuf).
  - rewrite ALG_Encrypt_PGP_call in * by congruence.
    rewrite <- (pgp_encrypt_stream _ _ (S (S (length a)))) in Ha by (assumption || lia).
    rewrite <- (pgp_encrypt_stream _ _ (S (S (length b)))) in Hb by (assumption || lia).
    rewrite <- (pgp_encrypt_stream _ _ (S (S (length (a ++ b)))))
      by (rewrite ?len_app; lia).
    apply (proj1 (pgp_loops_app _ (S (S (length a))) (S (S (length b))) s a b ca s1 cb s2
                    Hbuf Hc0 (enough_fuel_call _ _) (enough_fuel_call _ _)
                    (enough_fuel_call _ _))); assumption.
Qed.

Lemma stream_decrypt_chunks s a b pa s1 pb s2 :
  state_ok s -> mode s = MODE_CTR \/ mode s = MODE_PGP ->
  ALG_Decrypt s a = (Ok pa, s1) -> ALG_Decrypt s1 b = (Ok pb, s2) ->
  ALG_Decrypt s (a ++ b) = (Ok (pa ++ pb), s2).
Proof.
  intros Hok Hm Ha Hb. pose proof Hok as (Hbuf & Hc0 & _ & Hsrc).
  destruct (Z.eq_dec (prf_mode s) 0) as [Hprf | Hprf];
    [|rewrite ALG_Decrypt_prf in Ha by exact Hprf; discriminate].
  assert (Hprf1 : prf_mode s1 = 0).
  { pose proof (prf_mode_ALG_Decrypt s a) as H. rewrite Ha in H. cbn [snd] in H.
    congruence. }
  destruct (len_pos_cases a) as [-> | (Hap & Ha0)].
  { rewrite ALG_Decrypt_empty in Ha by exact Hprf. injection Ha as <- <-. exact Hb. }
  destruct (len_pos_cases b) as [-> | (Hbp & Hb0)].
  { rewrite ALG_Decrypt_empty in Hb by exact Hprf1. injection Hb as <- <-.
    rewrite !app_nil_r. exact Ha. }
  assert (Hab : len (a ++ b) <> 0) by (rewrite len_app; lia).
  assert (Hm1 : mode s1 = mode s).
  { assert (Hn : mode s <> MODE_CBC)
      by (unfold MODE_CBC, MODE_CTR, MODE_PGP in *; lia).
    pose proof (frame_ALG_Decrypt s a Hn) as (H & _). rewrite Ha in H. exact H. }
  destruct Hm as [Hm | Hm].
  - rewrite ALG_Decrypt_CTR in * by congruence.
    exact (stream_encrypt_chunks s a b pa s1 pb s2 Hok (or_introl Hm) Ha Hb).
  - rewrite ALG_Decrypt_PGP_call in * by congruence.
    rewrite <- (pgp_decrypt_stream _ _ (S (S (length a)))) in Ha by (assumption || lia).
    rewrite <- (pgp_decrypt_stream _ _ (S (S (length b)))) in Hb by (assumption || lia).
    rewrite <- (pgp_decrypt_stream _ _ (S (S (length (a ++ b)))))
      by (rewrite ?len_app; lia).
    apply (proj2 (pgp_loops_app _ (S (S (length a))) (S (S (length b))) s a b pa s1 pb s2
                    Hbuf Hc0 (enough_fuel_call _ _) (enough_fuel_call _ _)
                    (enough_fuel_call _ _))); assumption.
Qed.

(** X16: CTR mode and PGP mode work on one stream of bytes, however it
    is cut into calls.  On an engine that [ALGnew] has built in one of
    the two modes, after any calls, two [encrypt] calls that return
    outputs do what one call on the joined input does: the same bytes
    come out and the same engine is left.  [decrypt] does as well.  The
    cut may fall anywhere, also inside a block. *)
Theorem stream_modes_take_chunks key m iv ctr seg self cs a b :
  ALGnew key m iv ctr seg = Ok self -> source_ok ctr ->
  m = MODE_CTR \/ m = MODE_PGP ->
  (forall ca s1 cb s2,
      ALG_Encrypt (run_calls self cs) a = (Ok ca, s1) -> ALG_Encrypt s1 b = (Ok cb, s2) ->
      ALG_Encrypt (run_calls self cs) (a ++ b) = (Ok (ca ++ cb), s2))
  /\ (forall pa s1 pb s2,
      ALG_Decrypt (run_calls self cs) a = (Ok pa, s1) -> ALG_Decrypt s1 b = (Ok pb, s2) ->
      ALG_Decrypt (run_calls self cs) (a ++ b) = (Ok (pa ++ pb), s2)).
Proof.
  intros Hnew Hsrc Hm.
  destruct (ALGnew_state_ok laws key m iv ctr seg self Hnew Hsrc) as (Hok & Hcfg).
  destruct (run_calls_shape laws cs self Hcfg Hok) as (Hok' & _ & _ & Hmode & _).
  assert (Hm0 : mode self = m).
  { destruct (ALGnew_state laws _ _ _ _ _ _ Hnew) as (H & _). exact H. }
  assert (Hm' : mode (run_calls self cs) = MODE_CTR \/ mode (run_calls self cs) = MODE_PGP)
    by (rewrite Hmode, Hm0; exact Hm).
  split.
  - intros ca s1 cb s2 Ha Hb.
    exact (stream_encrypt_chunks (run_calls self cs) a b ca s1 cb s2 Hok' Hm' Ha Hb).
  - intros pa s1 pb s2 Ha Hb.
    exact (stream_decrypt_chunks (run_calls self cs) a b pa s1 pb s2 Hok' Hm' Ha Hb).
Qed.

End StreamModes.

(** ** PGP mode: the keystream *)

Lemma xor_bytes_split (k1 k2 p : list byte) :
  (length k1 <= length p)%nat ->
  xor_bytes (k1 ++ k2) p
  = xor_bytes k1 (firstn (length k1) p) ++ xor_bytes k2 (skipn (length k1) p).
Proof.
  intros H. rewrite <- (firstn_skipn (length k1) p) at 1.
  apply xor_bytes_app. rewrite length_firstn. lia.
Qed.

Section PgpKeystream.

Context {C : BlockCipher}.
Hypothesis laws : BlockCipherLaws C.

(** What the shared loop returns with the refill of PGP mode, whichever
    of the two inner loops it runs: the input XORed with what is left of
    the register, then with copies of one block, the encryption of
    [oldCipher]. *)
Lemma stream_loop_pad into :
  (forall s off str n,
      fst (into s off str n) = xor_bytes (sub (IV s) off n) (sub str 0 n)) ->
  (forall s off str n,
      st (snd (into s off str n)) = st s
      /\ oldCipher (snd (into s off str n)) = oldCipher s) ->
  (forall s off str n,
      n <= 0 \/ (0 <= off /\ off + n <= BLOCK_SIZE /\ n <= len str) ->
      len (IV s) = BLOCK_SIZE -> len (IV (snd (into s off str n))) = BLOCK_SIZE) ->
  forall f s p out s' (N : nat),
    buffers_ok s -> 0 <= count s -> enough_fuel f s p ->
    stream_loop into pgp_refill f s p = (Ok out, s') ->
    len p <= Z.max 0 (BLOCK_SIZE - count s) + Z.of_nat N * BLOCK_SIZE ->
    out = xor_bytes (skipn (Z.to_nat (count s)) (IV s)
                       ++ pad_stream (block_encrypt (st s) (oldCipher s)) N) p.
Proof.
  intros Hfst Hkeep Hlen. pose proof (BLOCK_SIZE_pos C laws) as BS_pos.
  induction f as [|f IH]; intros s p out s' N Hbuf Hcount Hfuel Hrun HN.
  { unfold enough_fuel in Hfuel. destruct (count s <? BLOCK_SIZE); lia. }
  pose proof (len_nonneg p) as Hp. pose proof Hbuf as (Hiv & Hold).
  rewrite stream_loop_S in Hrun.
  destruct (0 <? len p) eqn:Epos.
  2:{ injection Hrun as <- <-. apply Z.ltb_ge in Epos.
      destruct p; [|unfold len in Epos; cbn [length] in Epos; lia].
      symmetry. apply xor_bytes_nil_r. }
  apply Z.ltb_lt in Epos.
  assert (Hrest : length (skipn (Z.to_nat (count s)) (IV s))
                  = Z.to_nat (BLOCK_SIZE - count s)).
  { rewrite length_skipn. unfold len in Hiv. lia. }
  destruct (len p <=? BLOCK_SIZE - count s) eqn:Efit.
  - apply Z.leb_le in Efit. injection Hrun as <- _.
    rewrite Hfst, sub_0_all by reflexivity.
    rewrite xor_bytes_short by (unfold len in *; lia).
    unfold sub, len. rewrite Nat2Z.id. apply xor_bytes_firstn.
  - apply Z.leb_gt in Efit. cbv zeta in Hrun.
    set (n := BLOCK_SIZE - count s) in *.
    set (x := into s (count s) p n) in *.
    unfold pgp_refill at 1 in Hrun.
    set (s3 := encrypt_into_IV (set_count (snd x) BLOCK_SIZE)
                               (oldCipher (set_count (snd x) BLOCK_SIZE))) in *.
    destruct (stream_loop into pgp_refill f (set_count s3 0) (skipn (Z.to_nat n) p))
      as [[rest|e] s4] eqn:Hloop; [|discriminate].
    injection Hrun as <- _.
    destruct (Hkeep s (count s) p n) as (Hst & Hoc). fold x in Hst, Hoc.
    assert (Hxiv : len (IV (snd x)) = BLOCK_SIZE).
    { apply Hlen; [|exact Hiv]. destruct (Z.le_gt_cases n 0); [left; lia | right; lia]. }
    assert (Hbx : buffers_ok (set_count (snd x) BLOCK_SIZE)).
    { split; cbn [IV oldCipher set_count]; congruence. }
    pose proof (buffers_ok_encrypt_into_IV laws _ Hbx) as Hb3. fold s3 in Hb3.
    assert (Hpad : len (block_encrypt (st s) (oldCipher s)) = BLOCK_SIZE)
      by (apply (block_encrypt_len C laws); exact Hold).
    assert (Hiv3 : IV s3 = block_encrypt (st s) (oldCipher s)).
    { subst s3. unfold encrypt_into_IV. cbn [IV set_IV set_count st oldCipher].
      rewrite Hst, Hoc. apply memcpy_all; assumption. }
    assert (Hst3 : st s3 = st s) by (subst s3; cbn; exact Hst).
    assert (Hoc3 : oldCipher s3 = oldCipher s) by (subst s3; cbn; exact Hoc).
    destruct N as [|N]; [lia|].
    assert (E0 : (count (set_count s3 0) <? BLOCK_SIZE) = true)
      by (apply Z.ltb_lt; cbn [count set_count]; lia).
    assert (Hfuel3 : enough_fuel f (set_count s3 0) (skipn (Z.to_nat n) p)).
    { unfold enough_fuel in *. rewrite E0, length_skipn. unfold len in *.
      destruct (count s <? BLOCK_SIZE) eqn:Ec;
        [apply Z.ltb_lt in Ec | apply Z.ltb_ge in Ec]; lia. }
    assert (HN3 : len (skipn (Z.to_nat n) p)
                  <= Z.max 0 (BLOCK_SIZE - count (set_count s3 0))
                     + Z.of_nat N * BLOCK_SIZE).
    { cbn [count set_count]. rewrite len_skipn. lia. }
    rewrite (IH (set_count s3 0) _ rest s4 N Hb3 (Z.le_refl 0) Hfuel3 Hloop HN3).
    cbn [count IV st oldCipher set_count Z.to_nat skipn pad_stream].
    rewrite Hiv3, Hst3, Hoc3.
    rewrite (xor_bytes_split (skipn (Z.to_nat (count s)) (IV s)))
      by (rewrite Hrest; unfold len in *; lia).
    rewrite Hrest. f_equal.
    subst x. rewrite Hfst, sub_0. f_equal. unfold sub. apply firstn_all2. lia.
Qed.

(** X17: the keystream of PGP mode is one block, over and over.  On an
    engine that [ALGnew] has built in PGP mode, after any calls, what
    [encrypt] returns is its input XORed with the bytes of the register
    from [count] on and then with copies of one and the same block, the
    encryption of the all-zero block; what [decrypt] returns is its
    input XORed with the very same bytes.  Nothing of the data that went
    through the engine enters the blocks that follow. *)
Theorem pgp_keystream_is_one_block key iv ctr seg self cs p :
  ALGnew key MODE_PGP iv ctr seg = Ok self -> source_ok ctr ->
  (forall out self', ALG_Encrypt (run_calls self cs) p = (Ok out, self') ->
      out = xor_bytes (skipn (Z.to_nat (count (run_calls self cs))) (IV (run_calls self cs))
                         ++ pad_stream (block_encrypt (st self) (zeros BLOCK_SIZE)) (length p))
                      p)
  /\ (forall out self', ALG_Decrypt (run_calls self cs) p = (Ok out, self') ->
      out = xor_bytes (skipn (Z.to_nat (count (run_calls self cs))) (IV (run_calls self cs))
                         ++ pad_stream (block_encrypt (st self) (zeros BLOCK_SIZE)) (length p))
                      p).
Proof.
  intros Hnew Hsrc. pose proof (BLOCK_SIZE_pos C laws) as BS_pos.
  destruct (ALGnew_state_ok laws key MODE_PGP iv ctr seg self Hnew Hsrc) as (Hok & Hcfg).
  destruct (run_calls_shape laws cs self Hcfg Hok) as ((Hbuf & Hc0 & _) & _).
  destruct (ALGnew_inv _ _ _ _ _ _ Hnew) as (sc & state & Hself & _).
  assert (Hm : mode self = MODE_PGP) by (rewrite Hself; reflexivity).
  assert (Ho : oldCipher self = zeros BLOCK_SIZE) by (rewrite Hself; reflexivity).
  destruct (run_calls_pgp cs self Hm) as (Hm' & Ho' & Hs').
  rewrite <- Ho, <- Ho', <- Hs'.
  set (s := run_calls self cs) in *.
  assert (HN : len p <= Z.max 0 (BLOCK_SIZE - count s) + Z.of_nat (length p) * BLOCK_SIZE).
  { fold (len p). pose proof (len_nonneg p). nia. }
  split; intros out self' Hrun.
  - destruct (len_pos_cases p) as [-> | (Hpos & Hp0)].
    { cbn in Hrun. injection Hrun as <- _. symmetry. apply xor_bytes_nil_r. }
    rewrite ALG_Encrypt_PGP_call in Hrun by assumption.
    rewrite <- (pgp_encrypt_stream laws _ _ (S (S (length p)))) in Hrun
      by (assumption || lia).
    apply (stream_loop_pad xor_into_IV) with (f := S (S (length p))) (s' := self');
      try assumption.
    + reflexivity.
    + intros; split; reflexivity.
    + intros t off str n Hn Ht. apply xor_into_IV_keeps; assumption.
    + apply enough_fuel_call.
  - destruct (Z.eq_dec (prf_mode s) 0) as [Hprf | Hprf];
      [|rewrite ALG_Decrypt_prf in Hrun by exact Hprf; discriminate].
    destruct (len_pos_cases p) as [-> | (Hpos & Hp0)].
    { rewrite ALG_Decrypt_empty in Hrun by exact Hprf. injection Hrun as <- _.
      symmetry. apply xor_bytes_nil_r. }
    rewrite ALG_Decrypt_PGP_call in Hrun by assumption.
    rewrite <- (pgp_decrypt_stream laws _ _ (S (S (length p)))) in Hrun
      by (assumption || lia).
    apply (stream_loop_pad swap_into_IV) with (f := S (S (length p))) (s' := self');
      try assumption.
    + reflexivity.
    + intros; split; reflexivity.
    + intros t off str n Hn Ht. apply xor_into_IV_keeps; assumption.
    + apply enough_fuel_call.
Qed.

End PgpKeystream.

Section StreamExamples.

#[local] Existing Instance caesar_cipher.

(** The 16-byte stream through the CTR engine in calls of 3 and 13
    bytes: the cut falls inside the first block. *)
Lemma stream_modes_take_chunks_witness :
  exists ca s1 cb s2,
    ALG_Encrypt (ctr_engine 0) (firstn 3 example_stream) = (Ok ca, s1)
    /\ ALG_Encrypt s1 (skipn 3 example_stream) = (Ok cb, s2)
    /\ ALG_Encrypt (ctr_engine 0) (firstn 3 example_stream ++ skipn 3 example_stream)
       = (Ok (ca ++ cb), s2).
Proof.
  destruct (ALG_Encrypt (ctr_engine 0) (firstn 3 example_stream)) as [[ca|e] s1] eqn:Ha.
  2:{ exfalso. apply (f_equal fst) in Ha. vm_compute in Ha. discriminate Ha. }
  assert (Hs1 : s1 = snd (ALG_Encrypt (ctr_engine 0) (firstn 3 example_stream)))
    by (rewrite Ha; reflexivity).
  destruct (ALG_Encrypt s1 (skipn 3 example_stream)) as [[cb|e] s2] eqn:Hb.
  2:{ exfalso. rewrite Hs1 in Hb. apply (f_equal fst) in Hb. vm_compute in Hb.
      discriminate Hb. }
  exists ca, s1, cb, s2. split; [reflexivity|]. split; [exact Hb|].
  exact (proj1 (stream_modes_take_chunks caesar_laws example_key MODE_CTR example_iv
                  (Some (CounterObj (counter_at 0))) 0 (ctr_engine 0) []
                  (firstn 3 example_stream) (skipn 3 example_stream)
                  (proj1 (proj2 (proj2 example_engines_built))) eq_refl
                  (or_introl eq_refl)) ca s1 cb s2 Ha Hb).
Defined.

(** The 16-byte stream through the new PGP engine: both of its blocks
    are XORed with the encryption of the all-zero block. *)
Lemma pgp_keystream_is_one_block_witness :
  exists out self',
    ALG_Encrypt pgp_engine example_stream = (Ok out, self')
    /\ out = xor_bytes (skipn (Z.to_nat (count pgp_engine)) (IV pgp_engine)
                          ++ pad_stream (block_encrypt (st pgp_engine) (zeros BLOCK_SIZE))
                                        (length example_stream))
                       example_stream.
Proof.
  destruct (ALG_Encrypt pgp_engine example_stream) as [[out|e] self'] eqn:Hrun.
  - exists out, self'. split; [reflexivity|].
    exact (proj1 (pgp_keystream_is_one_block caesar_laws example_key example_iv None 0
                    pgp_engine [] example_stream
                    (proj1 (proj2 example_engines_built)) I) out self' Hrun).
  - exfalso. apply (f_equal fst) in Hrun. vm_compute in Hrun. discriminate Hrun.
Defined.

End StreamExamples.

(** ** CTR mode: the counter values taken *)

Section CtrCounter.

Context {C : BlockCipher}.
Hypothesis laws : BlockCipherLaws C.

(** The CTR loop increments the counter once for every refill, and
    [count] tells how far into the last keystream block it is. *)
Lemma ctr_loop_uses fuel : forall s p out s' c,
  counter s = Some (CounterObj c) -> source_ok (counter s) ->
  len (IV s) = BLOCK_SIZE -> 0 <= count s <= BLOCK_SIZE ->
  enough_fuel fuel s p ->
  ctr_loop fuel s p = (Ok out, s') ->
  exists k : nat,
    counter s' = Some (CounterObj (Nat.iter k Counter.increment c))
    /\ count s' = count s + len p - Z.of_nat k * BLOCK_SIZE
    /\ 0 <= count s' <= BLOCK_SIZE
    /\ (k <> 0%nat -> 0 < count s')
    /\ len (IV s') = BLOCK_SIZE /\ source_ok (counter s').
Proof.
  pose proof (BLOCK_SIZE_pos C laws) as BS_pos.
  induction fuel as [|fuel IH]; intros s p out s' c Hc Hsrc Hiv Hcount Hfuel Hrun.
  { unfold enough_fuel in Hfuel. destruct (count s <? BLOCK_SIZE); lia. }
  pose proof (len_nonneg p) as Hp.
  rewrite ctr_loop_S in Hrun.
  destruct (0 <? len p) eqn:Epos.
  2:{ injection Hrun as _ <-. apply Z.ltb_ge in Epos. exists 0%nat.
      cbn [Nat.iter nat_rect Z.of_nat].
      refine (conj Hc (conj _ (conj Hcount (conj _ (conj Hiv Hsrc))))); [lia | congruence]. }
  apply Z.ltb_lt in Epos.
  destruct (len p <=? BLOCK_SIZE - count s) eqn:Efit.
  - apply Z.leb_le in Efit. injection Hrun as _ <-. exists 0%nat.
    cbn [Nat.iter nat_rect Z.of_nat count counter set_count].
    change (counter (snd (xor_into_IV s (count s) p (len p)))) with (counter s).
    refine (conj Hc (conj _ (conj _ (conj _ (conj _ Hsrc))))); try lia.
    exact (proj1 (xor_into_IV_keeps s (count s) p (len p) ltac:(right; lia) Hiv)).
  - apply Z.leb_gt in Efit. cbv zeta in Hrun.
    set (n := BLOCK_SIZE - count s) in *.
    set (x := xor_into_IV s (count s) p n) in *.
    destruct (ctr_refill (set_count (snd x) BLOCK_SIZE)) as [[u|e] s3] eqn:Hrefill;
      [|discriminate].
    destruct (ctr_loop fuel (set_count s3 0) (skipn (Z.to_nat n) p)) as [[rest|e] s4]
      eqn:Hloop; [|discriminate].
    injection Hrun as _ <-.
    destruct (ctr_refill_counter (set_count (snd x) BLOCK_SIZE) c u s3 Hc Hsrc Hrefill)
      as (Hs3 & Hval).
    pose proof (block_encrypt_len C laws (st s) _ Hval) as HE.
    assert (Hxiv : len (IV (snd x)) = BLOCK_SIZE).
    { exact (proj1 (xor_into_IV_keeps s (count s) p n ltac:(right; lia) Hiv)). }
    assert (Hiv3 : len (IV (set_count s3 0)) = BLOCK_SIZE).
    { rewrite Hs3. unfold encrypt_into_IV. cbn [IV set_IV set_counter set_count st].
      rewrite memcpy_all; assumption. }
    assert (Hc3 : counter (set_count s3 0) = Some (CounterObj (Counter.increment c)))
      by (rewrite Hs3; reflexivity).
    assert (Hsrc3 : source_ok (counter (set_count s3 0))).
    { rewrite Hc3. rewrite Hc in Hsrc. cbn [source_ok] in *.
      destruct (increment_keeps_size c) as (-> & ->). exact Hsrc. }
    assert (E0 : (count (set_count s3 0) <? BLOCK_SIZE) = true)
      by (apply Z.ltb_lt; cbn [count set_count]; lia).
    assert (Hfuel3 : enough_fuel fuel (set_count s3 0) (skipn (Z.to_nat n) p)).
    { unfold enough_fuel in *. rewrite E0, length_skipn. unfold len in *.
      destruct (count s <? BLOCK_SIZE) eqn:Ec;
        [apply Z.ltb_lt in Ec | apply Z.ltb_ge in Ec]; lia. }
    destruct (IH (set_count s3 0) _ rest s4 (Counter.increment c) Hc3 Hsrc3 Hiv3
                 ltac:(cbn [count set_count]; lia) Hfuel3 Hloop)
      as (k & K1 & K2 & K3 & K4 & K5 & K6).
    exists (S k). rewrite Nat.iter_succ_r.
    cbn [count set_count] in K2. rewrite len_skipn in K2.
    refine (conj K1 (conj _ (conj K3 (conj _ (conj K5 K6))))).
    + rewrite K2. lia.
    + intros _. destruct k as [|k]; [|apply K4; discriminate].
      rewrite K2. lia.
Qed.

(** X18: CTR mode takes one value of the counter for every keystream
    block it starts, and no other.  When [encrypt] returns an output on
    a CTR engine over a counter object, the counter has been incremented
    [k] times, where [k] is the number of blocks begun by this call:
    [count] moves on by the length of the input less [k] blocks and
    stays within the block, above 0 when [k] is not 0.  The engine is
    left ready for the next call. *)
Theorem ctr_takes_one_value_per_block self c p out self' :
  mode self = MODE_CTR -> counter self = Some (CounterObj c) ->
  source_ok (counter self) -> len (IV self) = BLOCK_SIZE ->
  0 <= count self <= BLOCK_SIZE ->
  ALG_Encrypt self p = (Ok out, self') ->
  exists k : nat,
    counter self' = Some (CounterObj (Nat.iter k Counter.increment c))
    /\ count self' = count self + len p - Z.of_nat k * BLOCK_SIZE
    /\ 0 <= count self' <= BLOCK_SIZE
    /\ (k <> 0%nat -> 0 < count self')
    /\ mode self' = MODE_CTR /\ len (IV self') = BLOCK_SIZE
    /\ source_ok (counter self').
Proof.
  intros Hm Hc Hsrc Hiv Hcount Hrun.
  assert (Hm' : mode self' = MODE_CTR).
  { pose proof (frame_ALG_Encrypt self p) as (H & _). rewrite Hrun in H. cbn [snd] in H.
    congruence. }
  destruct (len_pos_cases p) as [-> | (Hpos & Hp0)].
  { cbn in Hrun. injection Hrun as _ <-. exists 0%nat.
    cbn [Nat.iter nat_rect Z.of_nat len length].
    refine (conj Hc (conj _ (conj Hcount (conj _ (conj Hm (conj Hiv Hsrc))))));
      [lia | congruence]. }
  rewrite ALG_Encrypt_CTR in Hrun by assumption.
  destruct (ctr_loop_uses _ self p out self' c Hc Hsrc Hiv Hcount (enough_fuel_call _ _) Hrun)
    as (k & K1 & K2 & K3 & K4 & K5 & K6).
  exists k. exact (conj K1 (conj K2 (conj K3 (conj K4 (conj Hm' (conj K5 K6)))))).
Qed.

End CtrCounter.

Section CounterExamples.

#[local] Existing Instance caesar_cipher.

(** Thirteen bytes through the new CTR engine: two blocks are begun. *)
Lemma ctr_takes_one_value_per_block_witness :
  exists out self' (k : nat),
    ALG_Encrypt (ctr_engine 0) (firstn 13 example_stream) = (Ok out, self')
    /\ counter self' = Some (CounterObj (Nat.iter k Counter.increment (counter_at 0)))
    /\ count self' = count (ctr_engine 0) + 13 - Z.of_nat k * 8.
Proof.
  destruct (ALG_Encrypt (ctr_engine 0) (firstn 13 example_stream)) as [[out|e] self']
    eqn:Hrun.
  - destruct (ctr_takes_one_value_per_block caesar_laws (ctr_engine 0) (counter_at 0)
                (firstn 13 example_stream) out self' eq_refl eq_refl eq_refl eq_refl
                (conj (proj1 (Z.leb_le 0 8) eq_refl) (proj1 (Z.leb_le 8 8) eq_refl)) Hrun)
      as (k & K1 & K2 & _).
    exists out, self', k. split; [reflexivity|]. split; [exact K1 | exact K2].
  - exfalso. apply (f_equal fst) in Hrun. vm_compute in Hrun. discriminate Hrun.
Defined.

End CounterExamples.

(** ** CBC and CFB decryption: a wrong register is forgotten *)

(** Two runs of one loop from engines that a relation ties together. *)
Lemma for_blocks_agree {C : BlockCipher} (R : ALGobject -> ALGobject -> Prop) body step :
  (forall s1 s2 str, R s1 s2 ->
     fst (body s1 str) = fst (body s2 str) /\ R (snd (body s1 str)) (snd (body s2 str))) ->
  forall fuel s1 s2 str,
    R s1 s2 ->
    fst (for_blocks body step fuel s1 str) = fst (for_blocks body step fuel s2 str)
    /\ R (snd (for_blocks body step fuel s1 str)) (snd (for_blocks body step fuel s2 str)).
Proof.
  intros Hbody. induction fuel as [|fuel IH]; intros s1 s2 str HR; [cbn; auto|].
  rewrite !for_blocks_S. destruct (0 <? len str); [|cbn; auto].
  destruct (Hbody s1 s2 str HR) as (Hout & HR').
  destruct (IH _ _ (skipn (Z.to_nat step) str) HR') as (Hrest & HR'').
  cbn [fst snd]. rewrite Hout, Hrest. auto.
Qed.

(** Once a block of ciphertext has gone by, the window holds ciphertext
    only. *)
Lemma window_full {C : BlockCipher} (iv a : list byte) :
  len iv = BLOCK_SIZE -> BLOCK_SIZE <= len a ->
  sub (iv ++ a) (len a) BLOCK_SIZE = skipn (Z.to_nat (len a - BLOCK_SIZE)) a.
Proof.
  intros Hiv Ha. pose proof (len_nonneg iv).
  rewrite last_block by (rewrite ?len_app; lia).
  rewrite skipn_app, skipn_all2 by (unfold len in *; lia).
  cbn [app]. f_equal. unfold len in *. lia.
Qed.

Section Resynchronise.

Context {C : BlockCipher}.
Hypothesis laws : BlockCipherLaws C.

(** Same key state, same segment size, same register. *)
Lemma decrypt_bodies_agree body s1 s2 str :
  body = cbc_decrypt_body \/ body = cfb_decrypt_body ->
  IV s1 = IV s2 /\ st s1 = st s2 /\ segment_size s1 = segment_size s2 ->
  fst (body s1 str) = fst (body s2 str)
  /\ IV (snd (body s1 str)) = IV (snd (body s2 str))
  /\ st (snd (body s1 str)) = st (snd (body s2 str))
  /\ segment_size (snd (body s1 str)) = segment_size (snd (body s2 str)).
Proof.
  intros [-> | ->] (Hiv & Hst & Hseg).
  - unfold cbc_decrypt_body. cbn [fst snd IV st segment_size set_IV set_oldCipher].
    rewrite Hiv, Hst. auto.
  - unfold cfb_decrypt_body. cbn [fst snd]. rewrite Hiv, Hst, Hseg.
    split; [reflexivity|].
    destruct (frame_cfb_shift s1 str) as (_ & Hg1 & _ & _ & _ & Hs1).
    destruct (frame_cfb_shift s2 str) as (_ & Hg2 & _ & _ & _ & Hs2).
    refine (conj _ (conj _ _)); [|congruence|congruence].
    unfold cfb_shift. rewrite Hseg, Hiv.
    destruct (segment_size s2 =? BLOCK_SIZE * 8); [reflexivity|].
    destruct (Z.rem (segment_size s2) 8 =? 0); [reflexivity | exact Hiv].
Qed.

(** The register after a decryption loop in CBC or CFB mode. *)
Lemma decrypt_loop_window s str body step fuel :
  config_ok s -> len (IV s) = BLOCK_SIZE ->
  (mode s = MODE_CBC /\ step = BLOCK_SIZE /\ body = cbc_decrypt_body)
  \/ (mode s = MODE_CFB /\ step = Z.quot (segment_size s) 8 /\ body = cfb_decrypt_body) ->
  Z.rem (len str) step = 0 -> (length str <= fuel)%nat ->
  IV (snd (for_blocks body step fuel s str)) = sub (IV s ++ str) (len str) BLOCK_SIZE.
Proof.
  pose proof (BLOCK_SIZE_pos C laws) as BS_pos.
  intros Hcfg Hiv [(M & -> & ->) | (M & -> & ->)] Hrem Hfuel.
  - apply (for_blocks_window (fun s => len (IV s) = BLOCK_SIZE) false _ BLOCK_SIZE
             BS_pos); auto using rem_divide_pos.
    intros t x Ht Hx. apply (cbc_bodies_window laws false t x Ht Hx).
  - destruct (cfb_ok_bytes s (proj2 Hcfg M)) as (Hsz & _).
    apply (for_blocks_window
             (fun t => len (IV t) = BLOCK_SIZE /\ cfb_ok t
                       /\ segment_size t = segment_size s) false _
             (Z.quot (segment_size s) 8)); auto; try lia.
    + intros t x Ht Hx. apply (cfb_bodies_window laws false (segment_size s) t x Ht Hx).
    + split; [exact Hiv|]. split; [exact (proj2 Hcfg M) | reflexivity].
    + apply rem_divide_pos; [lia | assumption].
Qed.

Lemma decrypt_loop_key body step fuel s str :
  body = cbc_decrypt_body \/ body = cfb_decrypt_body ->
  st (snd (for_blocks body step fuel s str)) = st s
  /\ segment_size (snd (for_blocks body step fuel s str)) = segment_size s.
Proof.
  intros Hb.
  apply (for_blocks_keeps (fun a b => st b = st a /\ segment_size b = segment_size a)
           body step).
  - auto.
  - intros a b c (H1 & H2) (H3 & H4). split; congruence.
  - intros t x. destruct Hb as [-> | ->].
    + cbn. auto.
    + unfold cfb_decrypt_body. cbn [snd].
      destruct (frame_cfb_shift t x) as (_ & Hg & _ & _ & _ & Hs). auto.
Qed.

(** X19: decryption in CBC and CFB mode forgets a wrong register.  Take
    two engines in one of the two modes with the same key and segment
    size, whatever their registers hold, and let both decrypt the same
    ciphertext of one block or more.  Then their registers are equal,
    and whatever ciphertext comes next, both return the same result. *)
Theorem decrypt_resynchronises s1 s2 a p1 t1 p2 t2 :
  config_ok s1 -> mode s1 = MODE_CBC \/ mode s1 = MODE_CFB ->
  mode s2 = mode s1 -> segment_size s2 = segment_size s1 -> st s2 = st s1 ->
  len (IV s1) = BLOCK_SIZE -> len (IV s2) = BLOCK_SIZE -> BLOCK_SIZE <= len a ->
  ALG_Decrypt s1 a = (Ok p1, t1) -> ALG_Decrypt s2 a = (Ok p2, t2) ->
  IV t1 = IV t2 /\ forall b, fst (ALG_Decrypt t1 b) = fst (ALG_Decrypt t2 b).
Proof.
  pose proof (BLOCK_SIZE_pos C laws) as BS_pos.
  intros Hcfg Hm Hm2 Hseg2 Hst2 Hiv1 Hiv2 Ha Hrun1 Hrun2.
  assert (Hcfg2 : config_ok s2) by (unfold config_ok in *; rewrite Hm2, Hseg2; exact Hcfg).
  assert (Ha0 : len a <> 0) by lia.
  destruct (Z.eq_dec (prf_mode s1) 0) as [P1 | P1];
    [|rewrite ALG_Decrypt_prf in Hrun1 by exact P1; discriminate].
  destruct (Z.eq_dec (prf_mode s2) 0) as [P2 | P2];
    [|rewrite ALG_Decrypt_prf in Hrun2 by exact P2; discriminate].
  assert (Q1 : prf_mode t1 = 0).
  { pose proof (prf_mode_ALG_Decrypt s1 a) as H. rewrite Hrun1 in H. cbn [snd] in H.
    congruence. }
  assert (Q2 : prf_mode t2 = 0).
  { pose proof (prf_mode_ALG_Decrypt s2 a) as H. rewrite Hrun2 in H. cbn [snd] in H.
    congruence. }
  assert (M1 : mode t1 = mode s1 /\ segment_size t1 = segment_size s1).
  { pose proof (run_call_keeps_config s1 (call_decrypt a)) as H. cbn [run_call] in H.
    rewrite Hrun1 in H. exact H. }
  assert (M2 : mode t2 = mode s2 /\ segment_size t2 = segment_size s2).
  { pose proof (run_call_keeps_config s2 (call_decrypt a)) as H. cbn [run_call] in H.
    rewrite Hrun2 in H. exact H. }
  (* the two calls as loops of one body *)
  assert (Hcase : exists body step e,
             ((mode s1 = MODE_CBC /\ step = BLOCK_SIZE /\ body = cbc_decrypt_body
               /\ e = ValueError_block_multiple)
              \/ (mode s1 = MODE_CFB /\ step = Z.quot (segment_size s1) 8
                  /\ body = cfb_decrypt_body /\ e = ValueError_segment_multiple))).
  { destruct Hm as [M | M].
    - exists cbc_decrypt_body, BLOCK_SIZE, ValueError_block_multiple. left. auto.
    - exists cfb_decrypt_body, (Z.quot (segment_size s1) 8), ValueError_segment_multiple.
      right. auto. }
  destruct Hcase as (body & step & e & Hcase).
  assert (Hbody : body = cbc_decrypt_body \/ body = cfb_decrypt_body)
    by (destruct Hcase as [(_ & _ & -> & _) | (_ & _ & -> & _)]; auto).
  assert (Hloop : forall s str,
             mode s = mode s1 -> segment_size s = segment_size s1 -> prf_mode s = 0 ->
             len str <> 0 ->
             ALG_Decrypt s str
             = if Z.rem (len str) step =? 0
               then (Ok (fst (for_blocks body step (length str) s str)),
                     snd (for_blocks body step (length str) s str))
               else (Raise e, s)).
  { intros s str Ms Gs Ps Hs.
    apply (ALG_Decrypt_in_block_mode s str body step e Ps Hs).
    destruct Hcase as [(M & -> & -> & ->) | (M & -> & -> & ->)].
    - right. left. rewrite Ms. auto.
    - right. right. left. rewrite Ms, Gs. auto. }
  rewrite Hloop in Hrun1 by auto. rewrite Hloop in Hrun2 by auto.
  destruct (Z.eqb_spec (Z.rem (len a) step) 0) as [Hrem | Hrem]; [|discriminate].
  injection Hrun1 as _ E1. injection Hrun2 as _ E2.
  assert (W1 : IV t1 = sub (IV s1 ++ a) (len a) BLOCK_SIZE).
  { rewrite <- E1. apply decrypt_loop_window; auto.
    destruct Hcase as [(M & -> & -> & _) | (M & -> & -> & _)]; auto. }
  assert (W2 : IV t2 = sub (IV s2 ++ a) (len a) BLOCK_SIZE).
  { rewrite <- E2. apply decrypt_loop_window; auto.
    destruct Hcase as [(M & -> & -> & _) | (M & -> & -> & _)];
      [left | right]; rewrite Hm2, ?Hseg2; auto. }
  rewrite window_full in W1, W2 by assumption.
  assert (Hiv : IV t1 = IV t2) by congruence.
  split; [exact Hiv|].
  destruct (decrypt_loop_key body step (length a) s1 a Hbody) as (K1 & G1).
  destruct (decrypt_loop_key body step (length a) s2 a Hbody) as (K2 & G2).
  rewrite E1 in K1, G1. rewrite E2 in K2, G2.
  intros b. destruct (len_pos_cases b) as [-> | (Hbp & Hb0)].
  { rewrite !ALG_Decrypt_empty by assumption. reflexivity. }
  rewrite (Hloop t1 b), (Hloop t2 b) by (auto; destruct M1, M2; congruence).
  destruct (Z.rem (len b) step =? 0); [|reflexivity].
  cbn [fst]. f_equal.
  apply (for_blocks_agree
           (fun u v => IV u = IV v /\ st u = st v /\ segment_size u = segment_size v)
           body step).
  - intros u v str HR. destruct (decrypt_bodies_agree body u v str Hbody HR) as (H1 & H2).
    split; [exact H1 | exact H2].
  - refine (conj Hiv (conj _ _)); congruence.
Qed.

End Resynchronise.

Section ResynchroniseExamples.

#[local] Existing Instance caesar_cipher.

(** The CBC engine and the same engine with its register cleared, after
    one block of the stream. *)
Lemma decrypt_resynchronises_witness :
  exists p1 t1 p2 t2,
    ALG_Decrypt cbc_engine (firstn 8 example_stream) = (Ok p1, t1)
    /\ ALG_Decrypt (set_IV cbc_engine (zeros 8)) (firstn 8 example_stream) = (Ok p2, t2)
    /\ IV t1 = IV t2
    /\ fst (ALG_Decrypt t1 (skipn 8 example_stream))
       = fst (ALG_Decrypt t2 (skipn 8 example_stream)).
Proof.
  destruct (ALG_Decrypt cbc_engine (firstn 8 example_stream)) as [[p1|e] t1] eqn:H1.
  2:{ exfalso. apply (f_equal fst) in H1. vm_compute in H1. discriminate H1. }
  destruct (ALG_Decrypt (set_IV cbc_engine (zeros 8)) (firstn 8 example_stream))
    as [[p2|e] t2] eqn:H2.
  2:{ exfalso. apply (f_equal fst) in H2. vm_compute in H2. discriminate H2. }
  destruct (decrypt_resynchronises caesar_laws cbc_engine (set_IV cbc_engine (zeros 8))
              (firstn 8 example_stream) p1 t1 p2 t2
              (proj1 (ALGnew_config_ok _ _ _ _ _ _ (proj1 example_engines_built)))
              (or_introl eq_refl) eq_refl eq_refl eq_refl eq_refl eq_refl
              (proj1 (Z.leb_le 8 8) eq_refl) H1 H2) as (Hiv & Hnext).
  exists p1, t1, p2, t2.
  exact (conj eq_refl (conj eq_refl (conj Hiv (Hnext (skipn 8 example_stream))))).
Defined.

End ResynchroniseExamples.

(** ** PGP mode: what a refill encrypts *)

Section PgpRefill.

Context {C : BlockCipher}.
Hypothesis laws : BlockCipherLaws C.

(** The inner loops write [n] bytes at [off] and leave the bytes behind
    them alone. *)
Lemma into_IV_tail s off str n :
  0 <= off -> 0 <= n -> off + n <= len (IV s) -> n <= len str ->
  skipn (Z.to_nat (off + n)) (IV (snd (xor_into_IV s off str n)))
  = skipn (Z.to_nat (off + n)) (IV s)
  /\ skipn (Z.to_nat (off + n)) (IV (snd (swap_into_IV s off str n)))
     = skipn (Z.to_nat (off + n)) (IV s).
Proof.
  intros Hoff Hn Hiv Hstr. unfold xor_into_IV, swap_into_IV. cbn [snd IV set_IV].
  split; apply skipn_memcpy; try assumption. len_lia.
Qed.

(** The register after the shared loop with the refill of PGP mode: from
    [count] on it holds what is left of the last keystream block, which
    is the encryption of [oldCipher] as soon as one refill was made. *)
Lemma stream_loop_register into :
  (forall s off str n,
      st (snd (into s off str n)) = st s
      /\ oldCipher (snd (into s off str n)) = oldCipher s) ->
  (forall s off str n,
      n <= 0 \/ (0 <= off /\ off + n <= BLOCK_SIZE /\ n <= len str) ->
      len (IV s) = BLOCK_SIZE -> len (IV (snd (into s off str n))) = BLOCK_SIZE) ->
  (forall s off str n,
      0 <= off -> 0 <= n -> off + n <= len (IV s) -> n <= len str ->
      skipn (Z.to_nat (off + n)) (IV (snd (into s off str n)))
      = skipn (Z.to_nat (off + n)) (IV s)) ->
  forall f s p out s',
    buffers_ok s -> 0 <= count s -> enough_fuel f s p -> 0 < len p ->
    stream_loop into pgp_refill f s p = (Ok out, s') ->
    0 < count s' <= BLOCK_SIZE
    /\ skipn (Z.to_nat (count s')) (IV s')
       = skipn (Z.to_nat (count s'))
               (if len p <=? BLOCK_SIZE - count s then IV s
                else block_encrypt (st s) (oldCipher s)).
Proof.
  intros Hkeep Hlen Htail. pose proof (BLOCK_SIZE_pos C laws) as BS_pos.
  induction f as [|f IH]; intros s p out s' Hbuf Hcount Hfuel Hpos Hrun.
  { unfold enough_fuel in Hfuel. destruct (count s <? BLOCK_SIZE); lia. }
  pose proof Hbuf as (Hiv & Hold).
  rewrite stream_loop_S in Hrun.
  replace (0 <? len p) with true in Hrun by (symmetry; apply Z.ltb_lt; lia).
  destruct (len p <=? BLOCK_SIZE - count s) eqn:Efit.
  - apply Z.leb_le in Efit. injection Hrun as _ <-. cbn [count IV set_count].
    split; [lia|]. apply Htail; lia.
  - apply Z.leb_gt in Efit. cbv zeta in Hrun.
    set (n := BLOCK_SIZE - count s) in *.
    set (x := into s (count s) p n) in *.
    unfold pgp_refill at 1 in Hrun.
    set (s3 := encrypt_into_IV (set_count (snd x) BLOCK_SIZE)
                               (oldCipher (set_count (snd x) BLOCK_SIZE))) in *.
    destruct (stream_loop into pgp_refill f (set_count s3 0) (skipn (Z.to_nat n) p))
      as [[rest|e] s4] eqn:Hloop; [|discriminate].
    injection Hrun as _ <-.
    destruct (Hkeep s (count s) p n) as (Hst & Hoc). fold x in Hst, Hoc.
    assert (Hxiv : len (IV (snd x)) = BLOCK_SIZE).
    { apply Hlen; [|exact Hiv]. destruct (Z.le_gt_cases n 0); [left; lia | right; lia]. }
    assert (Hbx : buffers_ok (set_count (snd x) BLOCK_SIZE)).
    { split; cbn [IV oldCipher set_count]; congruence. }
    pose proof (buffers_ok_encrypt_into_IV laws _ Hbx) as Hb3. fold s3 in Hb3.
    assert (Hpad : len (block_encrypt (st s) (oldCipher s)) = BLOCK_SIZE)
      by (apply (block_encrypt_len C laws); exact Hold).
    assert (Hiv3 : IV s3 = block_encrypt (st s) (oldCipher s)).
    { subst s3. unfold encrypt_into_IV. cbn [IV set_IV set_count st oldCipher].
      rewrite Hst, Hoc. apply memcpy_all; assumption. }
    assert (Hst3 : st s3 = st s) by (subst s3; cbn; exact Hst).
    assert (Hoc3 : oldCipher s3 = oldCipher s) by (subst s3; cbn; exact Hoc).
    assert (E0 : (count (set_count s3 0) <? BLOCK_SIZE) = true)
      by (apply Z.ltb_lt; cbn [count set_count]; lia).
    assert (Hfuel3 : enough_fuel f (set_count s3 0) (skipn (Z.to_nat n) p)).
    { unfold enough_fuel in *. rewrite E0, length_skipn. unfold len in *.
      destruct (count s <? BLOCK_SIZE) eqn:Ec;
        [apply Z.ltb_lt in Ec | apply Z.ltb_ge in Ec]; lia. }
    assert (Hpos3 : 0 < len (skipn (Z.to_nat n) p)) by (rewrite len_skipn; lia).
    destruct (IH (set_count s3 0) _ rest s4 Hb3 (Z.le_refl 0) Hfuel3 Hpos3 Hloop)
      as (Hc4 & Hreg).
    split; [exact Hc4|]. rewrite Hreg.
    cbn [count IV st oldCipher set_count]. rewrite Hiv3, Hst3, Hoc3.
    destruct (len (skipn (Z.to_nat n) p) <=? BLOCK_SIZE - 0); reflexivity.
Qed.

(** A call of [encrypt] or [decrypt] that returns an output in PGP mode
    is a run of the shared loop over one of the two inner loops. *)
Lemma pgp_call_stream s p out s' :
  mode s = MODE_PGP -> 0 < len p ->
  ALG_Encrypt s p = (Ok out, s') \/ ALG_Decrypt s p = (Ok out, s') ->
  exists into,
    (into = xor_into_IV \/ into = swap_into_IV)
    /\ stream_loop into pgp_refill (S (S (length p))) s p = (Ok out, s').
Proof.
  intros Hm Hpos [Hrun | Hrun].
  - exists xor_into_IV. split; [auto|].
    rewrite ALG_Encrypt_PGP_call in Hrun by (assumption || lia).
    rewrite (pgp_encrypt_stream laws) by (assumption || lia). exact Hrun.
  - exists swap_into_IV. split; [auto|].
    destruct (Z.eq_dec (prf_mode s) 0) as [Hprf | Hprf];
      [|rewrite ALG_Decrypt_prf in Hrun by exact Hprf; discriminate].
    rewrite ALG_Decrypt_PGP_call in Hrun by (assumption || lia).
    rewrite (pgp_decrypt_stream laws) by (assumption || lia). exact Hrun.
Qed.

(** C10: PGP mode never writes [oldCipher], and every keystream refill
    encrypts it.  On an engine that [ALGnew] has built in PGP mode,
    after any sequence of [encrypt], [decrypt], [sync] and [setMode]
    calls, the mode is PGP and [oldCipher] holds its construction-time
    value, all zero bytes.  So the block every refill encrypts is that
    constant block: a call that returns an output returns its input
    XORed with what is left of the register and then with copies of the
    encryption of the all-zero block, one for each refill, and after a
    call that made a refill the register holds, from [count] on, the
    rest of that same block and not an encryption of earlier
    ciphertext. *)
Theorem pgp_oldCipher_never_written key iv ctr seg self cs :
  ALGnew key MODE_PGP iv ctr seg = Ok self ->
  mode (run_calls self cs) = MODE_PGP
  /\ oldCipher (run_calls self cs) = zeros BLOCK_SIZE
  /\ block_encrypt (st (run_calls self cs)) (oldCipher (run_calls self cs))
     = block_encrypt (st self) (zeros BLOCK_SIZE)
  /\ (forall p out self',
        ALG_Encrypt (run_calls self cs) p = (Ok out, self')
        \/ ALG_Decrypt (run_calls self cs) p = (Ok out, self') ->
        out = xor_bytes (skipn (Z.to_nat (count (run_calls self cs)))
                               (IV (run_calls self cs))
                           ++ pad_stream (block_encrypt (st self) (zeros BLOCK_SIZE))
                                         (length p))
                        p
        /\ (BLOCK_SIZE - count (run_calls self cs) < len p ->
            skipn (Z.to_nat (count self')) (IV self')
            = skipn (Z.to_nat (count self'))
                    (block_encrypt (st self) (zeros BLOCK_SIZE)))).
Proof.
  intros Hnew. pose proof (BLOCK_SIZE_pos C laws) as BS_pos.
  destruct (ALGnew_inv _ _ _ _ _ _ Hnew) as (sc & state & Hself & _ & _ & _ & _ & _ & Hnc).
  destruct (Hnc ltac:(discriminate)) as (Hctr & _).
  assert (Hsrc : source_ok ctr) by (rewrite Hctr; exact I).
  destruct (ALGnew_state_ok laws key MODE_PGP iv ctr seg self Hnew Hsrc) as (Hok & Hcfg).
  destruct (run_calls_shape laws cs self Hcfg Hok) as ((Hbuf & Hc0 & _) & _).
  assert (Hm : mode self = MODE_PGP) by (rewrite Hself; reflexivity).
  assert (Ho : oldCipher self = zeros BLOCK_SIZE) by (rewrite Hself; reflexivity).
  destruct (run_calls_pgp cs self Hm) as (Hm' & Ho' & Hs').
  refine (conj Hm' (conj _ (conj _ _))); [congruence | congruence |].
  rewrite <- Ho, <- Ho', <- Hs'.
  set (s := run_calls self cs) in *.
  intros p out self' Hrun.
  pose proof Hbuf as (Hiv & Hold).
  assert (Hpad : len (block_encrypt (st s) (oldCipher s)) = BLOCK_SIZE)
    by (apply (block_encrypt_len C laws); exact Hold).
  destruct (len_pos_cases p) as [-> | (Hpos & Hp0)].
  { assert (Hnil : out = [] /\ self' = s).
    { destruct Hrun as [Hrun | Hrun].
      - cbn in Hrun. injection Hrun as <- <-. auto.
      - destruct (Z.eq_dec (prf_mode s) 0) as [Hprf | Hprf];
          [rewrite ALG_Decrypt_empty in Hrun by exact Hprf; injection Hrun as <- <-; auto
          |rewrite ALG_Decrypt_prf in Hrun by exact Hprf; discriminate]. }
    destruct Hnil as (-> & ->). split; [symmetry; apply xor_bytes_nil_r|].
    unfold len at 1. cbn [length Z.of_nat]. intros Hlt.
    rewrite !skipn_all2 by (unfold len in *; lia). reflexivity. }
  destruct (pgp_call_stream s p out self' Hm' Hpos Hrun) as (into & Hinto & Hloop).
  assert (Hkeep : forall t off str n,
             st (snd (into t off str n)) = st t
             /\ oldCipher (snd (into t off str n)) = oldCipher t)
    by (destruct Hinto as [-> | ->]; intros; split; reflexivity).
  assert (Hlen : forall t off str n,
             n <= 0 \/ (0 <= off /\ off + n <= BLOCK_SIZE /\ n <= len str) ->
             len (IV t) = BLOCK_SIZE -> len (IV (snd (into t off str n))) = BLOCK_SIZE).
  { intros t off str n Hn Ht.
    destruct Hinto as [-> | ->];
      [exact (proj1 (xor_into_IV_keeps t off str n Hn Ht))
      |exact (proj2 (xor_into_IV_keeps t off str n Hn Ht))]. }
  split.
  - apply (stream_loop_pad laws into) with (f := S (S (length p))) (s' := self');
      try assumption.
    + destruct Hinto as [-> | ->]; reflexivity.
    + apply enough_fuel_call.
    + fold (len p). pose proof (len_nonneg p). nia.
  - intros Hlt.
    destruct (stream_loop_register into Hkeep Hlen) with
      (f := S (S (length p))) (s := s) (p := p) (out := out) (s' := self')
      as (_ & Hreg); try assumption.
    + intros t off str n H1 H2 H3 H4.
      destruct Hinto as [-> | ->];
        [exact (proj1 (into_IV_tail t off str n H1 H2 H3 H4))
        |exact (proj2 (into_IV_tail t off str n H1 H2 H3 H4))].
    + apply enough_fuel_call.
    + rewrite Hreg.
      replace (len p <=? BLOCK_SIZE - count s) with false
        by (symmetry; apply Z.leb_gt; lia).
      reflexivity.
Qed.

End PgpRefill.

Section RefillExamples.

#[local] Existing Instance caesar_cipher.

(** Five bytes, a [sync], eleven bytes: [oldCipher] is still all zero. *)
Lemma pgp_oldCipher_never_written_witness :
  oldCipher (run_calls pgp_engine
               [call_encrypt (bytes [1; 2; 3; 4; 5]); call_sync;
                call_decrypt (bytes [9; 8; 7; 6; 5; 4; 3; 2; 1; 0; 1])])
  = zeros 8.
Proof.
  exact (proj1 (proj2 (pgp_oldCipher_never_written caesar_laws example_key example_iv None 0
                         pgp_engine _ (proj1 (proj2 example_engines_built))))).
Defined.

End RefillExamples.
